(** * Malbolge Unshackled interpreter (unshackled.c): model and properties

    A shallow embedding of the interpreter's data structures and functions,
    followed by the properties established about them.

    Conventions of the embedding.
    - C integers are [Z]; the C operators [%] and [/] are [Z.rem] and
      [Z.quot] (truncation towards zero).  Where a signed operation could
      leave the range of its type this is written out: [int32] wraps
      around, [mod_] yields no result.
    - A [Trits] ring (circular, doubly linked) of [width] nodes is the list
      of its trits read from [n->tail] along [->left], that is from the
      least significant position 0 to the most significant one; [width] is
      the length of that list.  The state left by [xlat2] ([tail = 0],
      [width = 0]) is the empty list.
    - Pointers to [MemCell] are positive numbers, [malloc] hands out the
      next unused one and is taken to succeed; a null pointer is [None].
      Every [Number] has a single owner (a register, a cell or an entry of
      [initial_values]), so numbers are stored by value; cells are shared
      between tree nodes and live in a heap.
    - A function that would dereference a null pointer or read outside an
      array yields [None] (for pure functions) or [Undef].
    - The values [main] draws from [rand()] at startup are the fields of a
      [Config]; the later calls of [rand()] read a fixed sequence. *)

From Stdlib Require Import ZArith List Bool Lia.
From stdpp Require Import gmap.
Import ListNotations.

Local Open Scope Z_scope.

(** ** Numbers *)

Definition T0 : Z := 0.
Definition T1 : Z := 1.
Definition T2 : Z := 2.

Record Number := mkNumber {
  head : Z;
  tail : list Z;
  memptr : option positive;  (* pointer to memory[Number]; None: to be computed *)
  unicode : Z                (* codepoint; -1: not a codepoint; -2: to be computed *)
}.

Definition width (n : Number) : nat := length (tail n).

Record MemCell := mkMemCell {
  val : option Number;
  next : option positive
}.

Definition set_tail (n : Number) (l : list Z) : Number :=
  mkNumber (head n) l (memptr n) (unicode n).

Definition set_head (n : Number) (h : Z) : Number :=
  mkNumber h (tail n) (memptr n) (unicode n).

Definition set_memptr (n : Number) (p : option positive) : Number :=
  mkNumber (head n) (tail n) p (unicode n).

Definition set_unicode (n : Number) (u : Z) : Number :=
  mkNumber (head n) (tail n) (memptr n) u.

(** Linking a new node holding [t] between the most significant node and
    [n->tail], with [width++]. *)
Definition push_trit (n : Number) (t : Z) : Number :=
  set_tail n (tail n ++ [t]).

(** [it->trit = t] for the node at position [i]. *)
Definition store_trit (n : Number) (i : nat) (t : Z) : Number :=
  set_tail n (<[i := t]> (tail n)).

(** *** clone_number, copy_number *)

Definition clone_number (i : Number) : Number :=
  mkNumber (head i) (tail i) (memptr i) (unicode i).

Definition copy_number (n i : Number) : Number :=
  mkNumber (head i) (tail i) (memptr i) (unicode i).

(** *** update_unicode *)

(** The value of an [int32_t] after an operation with the mathematical
    result [x]: two's complement wrap-around. *)
Definition int32 (x : Z) : Z := (x + 2 ^ 31) mod 2 ^ 32 - 2 ^ 31.

Fixpoint update_unicode_loop (its : list Z) (u factor : Z) : Z :=
  match its with
  | [] => u
  | t :: rest =>
      let u := int32 (u + int32 (factor * t)) in
      let factor :=
        if factor <? 0x110000 then int32 (factor * 3) else factor in
      if u >=? 0x110000 then -1 else update_unicode_loop rest u factor
  end.

Definition update_unicode (n : Number) : Number :=
  if negb (unicode n =? -2) then n
  else if negb (head n =? T0) then set_unicode n (-1)
  else set_unicode n (update_unicode_loop (tail n) 0 1).

(** *** to_number *)

(** The digits written by the [while (symbol /= 3)] loop, after the first
    one; [fuel] bounds the number of iterations. *)
Fixpoint to_number_loop (fuel : nat) (symbol : Z) : list Z :=
  match fuel with
  | O => []
  | S fuel =>
      let symbol := Z.quot symbol 3 in
      if symbol =? 0 then [] else Z.rem symbol 3 :: to_number_loop fuel symbol
  end.

Definition trits_of (symbol : Z) : list Z :=
  Z.rem symbol 3 :: to_number_loop (Z.to_nat (Z.log2 symbol)) symbol.

(** [None] is the [exit(1)] on a negative argument. *)
Definition to_number (symbol : Z) : option Number :=
  if symbol <? 0 then None
  else Some (mkNumber T0 (trits_of symbol) None
               (if symbol <? 0x110000 then symbol else -1)).

Definition nl : Number := mkNumber T2 [T1] None (-1).
Definition eof : Number := mkNumber T2 [T2] None (-1).

(** *** is_nl *)

Definition is_nl (n : Number) : option bool :=
  if negb (head n =? T2) then Some false
  else match tail n with
       | [] => None
       | t0 :: rest =>
           if forallb (fun t => t =? T2) (rev rest)
           then Some (t0 =? T1) else Some false
       end.

(** *** mod *)

Definition int_range (x : Z) : bool := (- 2 ^ 31 <=? x) && (x <? 2 ^ 31).

(** The loop of [mod]; [None] when an intermediate value leaves the range
    of [int]. *)
Fixpoint mod_loop (its : list Z) (h modul result position : Z) : option Z :=
  match its with
  | [] => Some result
  | t :: rest =>
      let prod := position * (t + (modul - h)) in
      let result1 := result + prod in
      let result2 := Z.rem result1 modul in
      let position1 := position * 3 in
      let position2 := Z.rem position1 modul in
      if int_range prod && int_range result1 && int_range position1
      then mod_loop rest h modul result2 position2
      else None
  end.

(** The source's [mod]; the name is a reserved notation here. *)
Definition mod_ (n : Number) (modul : Z) : option Z :=
  if modul =? 0 then None
  else
    let result := Z.rem 29524 modul * head n in
    if int_range result then mod_loop (tail n) (head n) modul result 1
    else None.

(** *** increment *)

(** The carry loop.  The boolean tells whether the function returned from
    inside the loop. *)
Fixpoint increment_loop (its : list Z) : list Z * bool :=
  match its with
  | [] => ([], false)
  | t :: rest =>
      let t := Z.rem (t + 1) 3 in
      if negb (t =? 0) then (t :: rest, true)
      else let '(rest', returned) := increment_loop rest in
           (t :: rest', returned)
  end.

Definition increment (cells : gmap positive MemCell) (n : Number)
  : option Number :=
  let u := if (unicode n >=? 0) && (unicode n <? 0x110000 - 1)
           then unicode n + 1 else -2 in
  let p := match memptr n with
           | Some p => match cells !! p with
                       | Some cl => Some (next cl)
                       | None => None
                       end
           | None => Some None
           end in
  match p with
  | None => None
  | Some p =>
      let '(its, returned) := increment_loop (tail n) in
      if returned then Some (mkNumber (head n) its p u)
      else if head n =? T2 then Some (mkNumber T0 its p u)
      else match tail n with
           | [] => None
           | _ => Some (mkNumber (head n) (its ++ [head n + 1]) p u)
           end
  end.

(** *** xlat2 and repair_number_after_xlat2 *)

Definition xlat2_table : list Z :=
  [53;122;93;38;103;113;116;121;102;114;36;40;119;101;52;123;87;80;41;72;
   45;90;110;44;91;37;92;51;100;76;43;81;59;62;85;33;112;74;83;55;50;70;
   104;79;65;49;67;66;54;118;94;61;73;95;48;47;56;124;106;115;98;57;109;
   60;46;84;86;97;99;96;117;89;42;77;75;39;88;126;120;68;108;125;82;69;
   111;107;78;58;35;63;71;34;105;64].

(** [None] is the [exit(1)] with "cannot apply xlat2". *)
Definition xlat2 (n : Number) : option Number :=
  let n := update_unicode n in
  if (unicode n <? 33) || (unicode n >? 126) then None
  else
    let u := nth (Z.to_nat (Z.rem (unicode n - 33) 94)) xlat2_table 0 in
    Some (mkNumber (head n) [] (memptr n) u).

Definition repair_number_after_xlat2 (n : Number) : Number :=
  match tail n with
  | _ :: _ => n
  | [] =>
      if unicode n <? 0 then n
      else mkNumber (head n) (trits_of (unicode n)) None (unicode n)
  end.

(** *** rotate_r *)

Fixpoint rotate_r_pad (k : nat) (n : Number) : Number :=
  match k with
  | O => n
  | S k => rotate_r_pad k (push_trit n (head n))
  end.

Definition rotate_r (n : Number) (rotwidth : Z) : option Number :=
  match tail n with
  | [] => None
  | _ =>
      let n := rotate_r_pad (Z.to_nat (rotwidth - Z.of_nat (width n))) n in
      match tail n with
      | [] => None
      | t :: rest => Some (mkNumber (head n) (rest ++ [t]) None (-2))
      end
  end.

(** *** get_real_width *)

Fixpoint get_real_width_loop (its : list Z) (h : Z) (i real_width : Z) : Z :=
  match its with
  | [] => real_width
  | t :: rest =>
      get_real_width_loop rest h (i + 1)
        (if negb (t =? h) then i + 1 else real_width)
  end.

Definition get_real_width (n : Number) : Z :=
  get_real_width_loop (tail n) (head n) 0 0.

(** *** opr *)

Definition OPR : list Z := [1;0;0; 1;0;2; 2;2;1].

Definition OPR_at (i : Z) : option Z :=
  if i <? 0 then None else OPR !! Z.to_nat i.

(** One pass of the [while] loop per unit of [fuel]; [it_a] and [it_d]
    are the nodes at position [pos] of their rings. *)
Fixpoint opr_loop (fuel : nat) (pos : nat) (a d : Number)
  : option (Number * Number) :=
  if negb ((pos <? width a)%nat || (pos <? width d)%nat) then Some (a, d)
  else
    match fuel with
    | O => None
    | S fuel =>
        match tail a !! pos, tail d !! pos with
        | Some ta, Some td =>
            match OPR_at (Z.rem ta 3 + 3 * Z.rem td 3) with
            | Some r =>
                let d := store_trit d pos r in
                let a := store_trit a pos r in
                let pos := S pos in
                let a := if (width a <=? pos)%nat && (pos <? width d)%nat
                         then push_trit a (head a) else a in
                let d := if (width d <=? pos)%nat && (pos <? width a)%nat
                         then push_trit d (head d) else d in
                opr_loop fuel pos a d
            | None => None
            end
        | _, _ => None
        end
    end.

Definition opr (a d : Number) : option (Number * Number) :=
  match opr_loop (Nat.max (width a) (width d)) 0 a d with
  | Some (a, d) =>
      match OPR_at (Z.rem (head a) 3 + 3 * Z.rem (head d) 3) with
      | Some h => Some (mkNumber h (tail a) None (-2),
                        mkNumber h (tail d) None (-2))
      | None => None
      end
  | None => None
  end.

(** ** Results of effectful code *)

(** The diagnostics written to [stderr] before [exit(1)] or [return 1]. *)
Inductive Diag :=
| WidthExceeded          (* maximal supported rotation width exceeded *)
| NegativeValue          (* internal error: unexpected negative value *)
| CannotXlat2            (* cannot apply xlat2 *)
| InvalidUtf8            (* invalid utf-8 encoding while reading from stdin *)
| InvalidCodepoint       (* invalid unicode codepoint *)
| InvalidCharacter       (* invalid character *)
| NotAProgram            (* error: not a valid Malbolge program *)
| InvalidInstruction (step : Z). (* error: invalid instruction in step %d *)

(** [Ok x]: the code ran on and produced [x]; [Fatal dg]: diagnostic [dg]
    and exit status 1; [Halt]: [return 0] from [main]; [Undef]: a null
    pointer or an array index out of bounds was used. *)
Inductive Res (A : Type) : Type :=
| Ok (x : A)
| Fatal (dg : Diag)
| Halt
| Undef.

Arguments Ok {A} x.
Arguments Fatal {A} dg.
Arguments Halt {A}.
Arguments Undef {A}.

#[global] Instance Res_ret : MRet Res := fun A x => Ok x.

#[global] Instance Res_bind : MBind Res := fun A B f m =>
  match m with
  | Ok x => f x
  | Fatal dg => Fatal dg
  | Halt => Halt
  | Undef => Undef
  end.

Definition must {A} (o : option A) : Res A :=
  match o with Some x => Ok x | None => Undef end.

Definition or_fatal {A} (dg : Diag) (o : option A) : Res A :=
  match o with Some x => Ok x | None => Fatal dg end.

(** ** The memory tree *)

#[warnings="-register-all"]
Inductive MemoryTree :=
| MNode (cell : positive) (child0 child1 child2 : option MemoryTree).

Definition cell (t : MemoryTree) : positive :=
  match t with MNode cl _ _ _ => cl end.

(** [cur_node->child[k]]; the outer [None] is an index outside the array. *)
Definition child (t : MemoryTree) (k : Z) : option (option MemoryTree) :=
  match t with
  | MNode _ c0 c1 c2 =>
      match k with
      | 0 => Some c0
      | 1 => Some c1
      | 2 => Some c2
      | _ => None
      end
  end.

Definition set_child (t : MemoryTree) (k : Z) (ch : MemoryTree) : MemoryTree :=
  match t with
  | MNode cl c0 c1 c2 =>
      match k with
      | 0 => MNode cl (Some ch) c1 c2
      | 1 => MNode cl c0 (Some ch) c2
      | 2 => MNode cl c0 c1 (Some ch)
      | _ => t
      end
  end.

(** The memory cells allocated so far and the next pointer [malloc]
    returns. *)
Record Heap := mkHeap {
  cells : gmap positive MemCell;
  brk : positive
}.

(** [malloc] of a [MemCell] with [val = 0] and [next = 0]. *)
Definition alloc_cell (hp : Heap) : positive * Heap :=
  (brk hp, mkHeap (<[brk hp := mkMemCell None None]> (cells hp))
                  (Pos.succ (brk hp))).

(** The [for] loop of [update_memptr] from the node [cur_node] on: the
    final [last_match], the subtree below [cur_node] after the walk and the
    heap. *)
Fixpoint update_memptr_loop (its : list Z) (h : Z) (cur_node : MemoryTree)
    (last_match : positive) (hp : Heap)
  : option (positive * MemoryTree * Heap) :=
  match its with
  | [] => Some (last_match, cur_node, hp)
  | t :: rest =>
      match child cur_node t with
      | None => None
      | Some (Some ch) =>
          match update_memptr_loop rest h ch (cell ch) hp with
          | Some (r, ch', hp') => Some (r, set_child cur_node t ch', hp')
          | None => None
          end
      | Some None =>
          let '(cl, hp1) :=
            if t =? h then (last_match, hp) else alloc_cell hp in
          match update_memptr_loop rest h (MNode cl None None None) cl hp1 with
          | Some (r, ch', hp') => Some (r, set_child cur_node t ch', hp')
          | None => None
          end
      end
  end.

Definition update_memptr (n : Number) (m : list MemoryTree) (hp : Heap)
  : option (Number * list MemoryTree * Heap) :=
  match memptr n with
  | Some _ => Some (n, m, hp)
  | None =>
      if head n <? 0 then None
      else
        match m !! Z.to_nat (head n) with
        | None => None
        | Some root =>
            match update_memptr_loop (tail n) (head n) root (cell root) hp with
            | Some (r, root', hp') =>
                Some (set_memptr n (Some r),
                      <[Z.to_nat (head n) := root']> m, hp')
            | None => None
            end
        end
  end.

(** [memory] and its three cells as [main] sets them up. *)
Definition memory_init : list MemoryTree * Heap :=
  ([MNode 1 None None None; MNode 2 None None None; MNode 3 None None None],
   mkHeap (<[3%positive := mkMemCell None None]>
            (<[2%positive := mkMemCell None None]>
              (<[1%positive := mkMemCell None None]> ∅))) 4).

(** ** Growth policies *)

Definition UINTMAX_MAX : Z := 2 ^ 64 - 1.

Definition det_growth_policy (new_wordwidth old_rotwidth step slack : Z)
  : Res Z :=
  if new_wordwidth >? Z.quot (Z.modulo (old_rotwidth - slack) (2 ^ 64)) 2 then
    if old_rotwidth >? UINTMAX_MAX - step then Fatal WidthExceeded
    else
      let ret := old_rotwidth + step in
      if new_wordwidth >? Z.quot UINTMAX_MAX 2 then Fatal WidthExceeded
      else
        let alt := 2 * new_wordwidth in
        Ok (if alt >? ret then alt else ret)
  else Ok old_rotwidth.

(** [rand] is the sequence of values the calls of [rand()] return and
    [k] the number of calls made so far. *)
Definition nondet_growth_policy (rand : nat -> Z) (k : nat)
    (new_wordwidth old_rotwidth prob slack : Z) : Res (Z * nat) :=
  let change := (new_wordwidth >? Z.quot old_rotwidth 2)
                || (rand k <=? prob) in
  let k := S k in
  if change then
    if new_wordwidth >? Z.quot UINTMAX_MAX 2 then Fatal WidthExceeded
    else
      let ret := if 2 * new_wordwidth >? old_rotwidth
                 then 2 * new_wordwidth else old_rotwidth in
      let rnd := Z.rem (rand k) (slack + 1) in
      let k := S k in
      if ret >? UINTMAX_MAX - rnd then Fatal WidthExceeded
      else Ok (ret + rnd, k)
  else Ok (old_rotwidth, k).

(** ** UTF-8 input and output *)

Definition EOF : Z := -1.

(** [getchar()] on the remaining input. *)
Definition getchar (input : list Z) : Z * list Z :=
  match input with
  | [] => (EOF, [])
  | b :: rest => (b, rest)
  end.

Definition bad_continuation (x : Z) : bool :=
  (x =? EOF) || negb (Z.land x 0xC0 =? 0x80).

Definition read_utf8_character (input : list Z) : Res (Z * list Z) :=
  let '(in1, input) := getchar input in
  if in1 =? EOF then Ok (-1, input)
  else if Z.land in1 0x80 =? 0 then Ok (in1, input)
  else if Z.land in1 0xE0 =? 0xC0 then
    let '(in2, input) := getchar input in
    if bad_continuation in2 then Fatal InvalidUtf8
    else Ok (Z.lor (Z.shiftl (Z.land in1 0x1F) 6) (Z.land in2 0x3F), input)
  else if Z.land in1 0xF0 =? 0xE0 then
    let '(in2, input) := getchar input in
    if bad_continuation in2 then Fatal InvalidUtf8
    else
      let '(in3, input) := getchar input in
      if bad_continuation in3 then Fatal InvalidUtf8
      else Ok (Z.lor (Z.lor (Z.shiftl (Z.land in1 0x0F) 12)
                            (Z.shiftl (Z.land in2 0x3F) 6))
                     (Z.land in3 0x3F), input)
  else if Z.land in1 0xF8 =? 0xF0 then
    let '(in2, input) := getchar input in
    if bad_continuation in2 then Fatal InvalidUtf8
    else
      let '(in3, input) := getchar input in
      if bad_continuation in3 then Fatal InvalidUtf8
      else
        let '(in4, input) := getchar input in
        if bad_continuation in4 then Fatal InvalidUtf8
        else Ok (Z.lor (Z.lor (Z.lor (Z.shiftl (Z.land in1 0x07) 18)
                                     (Z.shiftl (Z.land in2 0x3F) 12))
                              (Z.shiftl (Z.land in3 0x3F) 6))
                       (Z.land in4 0x3F), input)
  else Fatal InvalidUtf8.

(** The byte [printf("%c", x)] writes for a [char] [x]. *)
Definition putc (x : Z) : Z := Z.land x 0xFF.

(** The bytes written to [stdout]. *)
Definition print_utf8 (symbol : Z) : Res (list Z) :=
  if (symbol <? 0) || (symbol >=? 0x110000) then Fatal InvalidCodepoint
  else if symbol <? 0x80 then Ok [putc symbol]
  else if symbol <? 0x800 then
    Ok [putc (Z.lor 0xC0 (Z.shiftr symbol 6));
        putc (Z.lor 0x80 (Z.land symbol 0x3F))]
  else if symbol <? 0x800 then
    Ok [putc (Z.lor 0xC0 (Z.shiftr symbol 6));
        putc (Z.lor 0x80 (Z.land symbol 0x3F))]
  else if symbol <? 0x10000 then
    Ok [putc (Z.lor 0xE0 (Z.shiftr symbol 12));
        putc (Z.lor 0x80 (Z.land (Z.shiftr symbol 6) 0x3F));
        putc (Z.lor 0x80 (Z.land symbol 0x3F))]
  else
    Ok [putc (Z.lor 0xF0 (Z.shiftr symbol 18));
        putc (Z.lor 0x80 (Z.land (Z.shiftr symbol 12) 0x3F));
        putc (Z.lor 0x80 (Z.land (Z.shiftr symbol 6) 0x3F));
        putc (Z.lor 0x80 (Z.land symbol 0x3F))].

(** ** The interpreter: [main] *)

(** The parameters [main] draws at startup, and the values [rand()]
    returns afterwards. *)
Record Config := mkConfig {
  rotwidth0 : Z;      (* 10 + rand()%6 *)
  growth_slack : Z;   (* rand() % 6 *)
  growth_step : Z;    (* 4 + rand() % 9 *)
  growth_prob : Z;
  det_growth : bool;  (* rand()%2 *)
  rand : nat -> Z
}.

(** [cl->val = v]. *)
Definition store_val (hp : Heap) (p : positive) (v : Number) : Res Heap :=
  cl ← must (cells hp !! p);
  Ok (mkHeap (<[p := mkMemCell (Some v) (next cl)]> (cells hp)) (brk hp)).

(** [if (!prev->next) prev->next = q]. *)
Definition link_next (hp : Heap) (prev : positive) (q : option positive)
  : Res Heap :=
  cl ← must (cells hp !! prev);
  match next cl with
  | Some _ => Ok hp
  | None => Ok (mkHeap (<[prev := mkMemCell (val cl) q]> (cells hp)) (brk hp))
  end.

(** The sequence [prev = n->memptr; increment(n); update_memptr(n,memory);
    if (!prev->next) prev->next = n->memptr;] that [main] runs on [init],
    [c] and [d]. *)
Definition advance (n : Number) (m : list MemoryTree) (hp : Heap)
  : Res (Number * list MemoryTree * Heap) :=
  prev ← must (memptr n);
  n ← must (increment (cells hp) n);
  '(n, m, hp) ← must (update_memptr n m hp);
  hp ← link_next hp prev (memptr n);
  Ok (n, m, hp).

(** *** Loading the program *)

Record Loader := mkLoader {
  l_memory : list MemoryTree;
  l_heap : Heap;
  l_init : Number;
  l_prev : option positive;
  l_prevprev : option positive;
  l_pos : Z;
  l_initial_values : list (option Number)
}.

Definition is_instr (instr : Z) : bool :=
  (instr =? 4) || (instr =? 5) || (instr =? 23) || (instr =? 39)
  || (instr =? 40) || (instr =? 62) || (instr =? 68) || (instr =? 81).

Definition is_blank (v : Z) : bool :=
  (v =? 32) || (v =? 9) || (v =? 13) || (v =? 10).

(** The [char] read from a byte of the file, [char] being signed; with an
    unsigned [char] the bytes from 128 on are rejected all the same. *)
Definition char_of_byte (b : Z) : Z := if b <? 128 then b else b - 256.

(** One pass of the reading loop, for the character [v]. *)
Definition load_char (v : Z) (l : Loader) : Res Loader :=
  let instr := Z.rem (v + l_pos l) 94 in
  if is_blank v then Ok l
  else if (v >=? 33) && (v <? 127) && is_instr instr then
    p ← must (memptr (l_init l));
    n ← or_fatal NegativeValue (to_number v);
    hp ← store_val (l_heap l) p n;
    '(init, m, hp) ← advance (l_init l) (l_memory l) hp;
    Ok (mkLoader m hp init (Some p) (l_prev l)
          (Z.rem (l_pos l + 1) 564) (l_initial_values l))
  else Fatal InvalidCharacter.

Fixpoint load_chars (program : list Z) (l : Loader) : Res Loader :=
  match program with
  | [] => Ok l
  | b :: rest => l ← load_char (char_of_byte b) l; load_chars rest l
  end.

(** The body of the loop [for (; pos < 18; pos++)]. *)
Definition synth_step (pos : Z) (l : Loader) : Res Loader :=
  prev ← must (l_prev l);
  prevprev ← must (l_prevprev l);
  pc ← must (cells (l_heap l) !! prev);
  ppc ← must (cells (l_heap l) !! prevprev);
  pv ← must (val pc);
  ppv ← must (val ppc);
  '(m1, m2) ← must (opr (clone_number pv) (clone_number ppv));
  '(m, hp, ivs) ←
    (if pos <? 12 then Ok (l_memory l, l_heap l, l_initial_values l)
     else
       '(m2, m, hp) ← must (update_memptr (update_unicode m2)
                                            (l_memory l) (l_heap l));
       if (pos - 12 <? 0) || (pos - 12 >=? 6) then Undef
       else Ok (m, hp, <[Z.to_nat (pos - 12) := Some m2]> (l_initial_values l)));
  let m1 := update_unicode m1 in
  p ← must (memptr (l_init l));
  hp ← store_val hp p m1;
  '(init, m, hp) ← advance (l_init l) m hp;
  Ok (mkLoader m hp init (Some p) (Some prev) (l_pos l) ivs).

Fixpoint synth_loop (fuel : nat) (pos : Z) (l : Loader) : Res Loader :=
  if pos <? 18 then
    match fuel with
    | O => Undef
    | S fuel => l ← synth_step pos l; synth_loop fuel (pos + 1) l
    end
  else Ok l.

Definition loader_init : Res Loader :=
  let '(m, hp) := memory_init in
  init ← or_fatal NegativeValue (to_number 0);
  '(init, m, hp) ← must (update_memptr init m hp);
  Ok (mkLoader m hp init None None 0 (replicate 6 None)).

(** [main] from the reading loop to [free_number(&init)]. *)
Definition load (program : list Z) : Res Loader :=
  l ← loader_init;
  l ← load_chars program l;
  match l_prevprev l with
  | None => Fatal NotAProgram
  | Some _ => synth_loop 18 (Z.rem (l_pos l) 6) l
  end.

(** *** Running the program *)

Record Machine := mkMachine {
  memory : list MemoryTree;
  heap : Heap;
  initial_values : list (option Number);
  reg_a : Number;
  reg_c : Number;
  reg_d : Number;
  pos : Z;
  step : Z;
  max_wordwidth : Z;
  rotwidth : Z;
  rand_calls : nat;
  stdin : list Z;
  stdout : list Z
}.

Definition with_mem (s : Machine) (m : list MemoryTree) (hp : Heap) : Machine :=
  mkMachine m hp (initial_values s) (reg_a s) (reg_c s) (reg_d s) (pos s)
    (step s) (max_wordwidth s) (rotwidth s) (rand_calls s) (stdin s) (stdout s).

Definition with_heap (s : Machine) (hp : Heap) : Machine :=
  with_mem s (memory s) hp.

Definition with_a (s : Machine) (a : Number) : Machine :=
  mkMachine (memory s) (heap s) (initial_values s) a (reg_c s) (reg_d s)
    (pos s) (step s) (max_wordwidth s) (rotwidth s) (rand_calls s) (stdin s)
    (stdout s).

Definition with_c (s : Machine) (c : Number) : Machine :=
  mkMachine (memory s) (heap s) (initial_values s) (reg_a s) c (reg_d s)
    (pos s) (step s) (max_wordwidth s) (rotwidth s) (rand_calls s) (stdin s)
    (stdout s).

Definition with_d (s : Machine) (d : Number) : Machine :=
  mkMachine (memory s) (heap s) (initial_values s) (reg_a s) (reg_c s) d
    (pos s) (step s) (max_wordwidth s) (rotwidth s) (rand_calls s) (stdin s)
    (stdout s).

Definition with_pos (s : Machine) (p : Z) : Machine :=
  mkMachine (memory s) (heap s) (initial_values s) (reg_a s) (reg_c s)
    (reg_d s) p (step s) (max_wordwidth s) (rotwidth s) (rand_calls s)
    (stdin s) (stdout s).

Definition with_step (s : Machine) (n : Z) : Machine :=
  mkMachine (memory s) (heap s) (initial_values s) (reg_a s) (reg_c s)
    (reg_d s) (pos s) n (max_wordwidth s) (rotwidth s) (rand_calls s)
    (stdin s) (stdout s).

Definition with_growth (s : Machine) (mw rw : Z) (k : nat) : Machine :=
  mkMachine (memory s) (heap s) (initial_values s) (reg_a s) (reg_c s)
    (reg_d s) (pos s) (step s) mw rw k (stdin s) (stdout s).

Definition with_stdin (s : Machine) (i : list Z) : Machine :=
  mkMachine (memory s) (heap s) (initial_values s) (reg_a s) (reg_c s)
    (reg_d s) (pos s) (step s) (max_wordwidth s) (rotwidth s) (rand_calls s)
    i (stdout s).

Definition with_stdout (s : Machine) (o : list Z) : Machine :=
  mkMachine (memory s) (heap s) (initial_values s) (reg_a s) (reg_c s)
    (reg_d s) (pos s) (step s) (max_wordwidth s) (rotwidth s) (rand_calls s)
    (stdin s) o.

(** [initial_values[i]]. *)
Definition initial_value (s : Machine) (i : Z) : Res Number :=
  if i <? 0 then Undef
  else v ← must (initial_values s !! Z.to_nat i); must v.

(** [n->memptr->val], a null pointer being [None]. *)
Definition cell_val (s : Machine) (n : Number) : Res (positive * option Number) :=
  p ← must (memptr n);
  cl ← must (cells (heap s) !! p);
  Ok (p, val cl).

(** [if (!n->memptr->val) n->memptr->val = clone_number(initial_values[i]);]
    the cell, its value and the new state. *)
Definition materialize (s : Machine) (n : Number) (i : Z)
  : Res (positive * Number * Machine) :=
  '(p, v) ← cell_val s n;
  match v with
  | Some v => Ok (p, v, s)
  | None =>
      iv ← initial_value s i;
      hp ← store_val (heap s) p (clone_number iv);
      Ok (p, clone_number iv, with_heap s hp)
  end.

(** The value of the cell at [d] as [rot] and [opr] prepare it, not yet
    stored back. *)
Definition operand (s : Machine) : Res (positive * Number) :=
  '(p, v) ← cell_val s (reg_d s);
  match v with
  | None =>
      i ← must (mod_ (reg_d s) 6);
      iv ← initial_value s i;
      Ok (p, clone_number iv)
  | Some v => Ok (p, repair_number_after_xlat2 v)
  end.

(** The number [jmp] and [movd] copy into a register, and the state after
    [repair_number_after_xlat2] and [update_memptr] on the cell's value. *)
Definition target (s : Machine) : Res (Number * Machine) :=
  '(p, v) ← cell_val s (reg_d s);
  match v with
  | None =>
      i ← must (mod_ (reg_d s) 6);
      iv ← initial_value s i;
      Ok (iv, s)
  | Some v =>
      '(v, m, hp) ← must (update_memptr (repair_number_after_xlat2 v)
                                          (memory s) (heap s));
      hp ← store_val hp p v;
      Ok (v, with_mem s m hp)
  end.

Definition exec_jmp (s : Machine) : Res Machine :=
  '(v, s) ← target s;
  '(c, m, hp) ← must (update_memptr (copy_number (reg_c s) v)
                                      (memory s) (heap s));
  let s := with_c (with_mem s m hp) c in
  p ← must (mod_ c 564);
  let s := with_pos s p in
  '(q, v, s) ← materialize s c (Z.rem p 6);
  Ok s.

Definition exec_out (s : Machine) : Res Machine :=
  b ← must (is_nl (reg_a s));
  if (b : bool) then Ok (with_stdout s (stdout s ++ [10]))
  else
    let a := update_unicode (reg_a s) in
    bytes ← print_utf8 (unicode a);
    Ok (with_stdout (with_a s a) (stdout s ++ bytes)).

Definition exec_in (s : Machine) : Res Machine :=
  '(i, rest) ← read_utf8_character (stdin s);
  let s := with_stdin s rest in
  if i =? -1 then
    a ← or_fatal NegativeValue (to_number 2);
    Ok (with_a s (set_unicode (set_head a T2) (-1)))
  else if i =? 10 then
    a ← or_fatal NegativeValue (to_number 1);
    Ok (with_a s (set_head a T2))
  else
    a ← or_fatal NegativeValue (to_number i);
    Ok (with_a s a).

Definition exec_rot (s : Machine) : Res Machine :=
  '(p, v) ← operand s;
  v ← must (rotate_r v (rotwidth s));
  hp ← store_val (heap s) p v;
  Ok (with_a (with_heap s hp) (copy_number (reg_a s) v)).

Definition exec_movd (cfg : Config) (s : Machine) : Res Machine :=
  '(v, s) ← target s;
  '(d, m, hp) ← must (update_memptr (copy_number (reg_d s) v)
                                      (memory s) (heap s));
  let s := with_d (with_mem s m hp) d in
  if Z.of_nat (width d) >? max_wordwidth s then
    let w := get_real_width d in
    if w >? max_wordwidth s then
      if det_growth cfg then
        rw ← det_growth_policy w (rotwidth s) (growth_step cfg)
               (growth_slack cfg);
        Ok (with_growth s w rw (rand_calls s))
      else
        '(rw, k) ← nondet_growth_policy (rand cfg) (rand_calls s) w
                     (rotwidth s) (growth_prob cfg) (growth_slack cfg);
        Ok (with_growth s w rw k)
    else Ok s
  else Ok s.

Definition exec_opr (s : Machine) : Res Machine :=
  '(p, v) ← operand s;
  '(a, v) ← must (opr (reg_a s) v);
  hp ← store_val (heap s) p v;
  Ok (with_a (with_heap s hp) a).

(** The [switch] on the instruction code. *)
Definition exec_instr (cfg : Config) (i : Z) (s : Machine) : Res Machine :=
  match i with
  | 4 => exec_jmp s
  | 5 => exec_out s
  | 23 => exec_in s
  | 39 => exec_rot s
  | 40 => exec_movd cfg s
  | 62 => exec_opr s
  | 81 => Halt
  | _ => Ok s
  end.

(** What follows the [switch] in the loop body.  [step] is an [int] of
    32 bits that is only printed in a diagnostic; [step++] is taken with
    its wrap-around, as the machine computes it (after 2^31 - 1 passes
    the counter turns negative). *)
Definition finish_step (s : Machine) : Res Machine :=
  '(p, v) ← cell_val s (reg_c s);
  v ← must v;
  v ← or_fatal CannotXlat2 (xlat2 v);
  hp ← store_val (heap s) p v;
  '(c, m, hp) ← advance (reg_c s) (memory s) hp;
  let s := with_pos (with_c (with_mem s m hp) c) (Z.rem (pos s + 1) 564) in
  '(d, m, hp) ← advance (reg_d s) (memory s) (heap s);
  Ok (with_step (with_d (with_mem s m hp) d) (int32 (step s + 1))).

(** The unicode value of the instruction fetched at [c], and the state
    with the cell materialized and its projection refreshed. *)
Definition fetch (s : Machine) : Res (Z * Machine) :=
  '(p, v, s) ← materialize s (reg_c s) (Z.rem (pos s) 6);
  let v := update_unicode v in
  hp ← store_val (heap s) p v;
  Ok (unicode v, with_heap s hp).

(** One pass of the loop [while (1)]. *)
Definition exec_step (cfg : Config) (s : Machine) : Res Machine :=
  '(u, s) ← fetch s;
  if (u <? 33) || (u >? 126) then Fatal (InvalidInstruction (step s))
  else
    s ← exec_instr cfg (Z.rem (u + pos s) 94) s;
    finish_step s.

Fixpoint exec_steps (cfg : Config) (k : nat) (s : Machine) : Res Machine :=
  match k with
  | O => Ok s
  | S k => s ← exec_step cfg s; exec_steps cfg k s
  end.

(** The state in which [main] enters the loop [while (1)]. *)
Definition boot (cfg : Config) (program input : list Z) : Res Machine :=
  a ← or_fatal NegativeValue (to_number 0);
  c ← or_fatal NegativeValue (to_number 0);
  d ← or_fatal NegativeValue (to_number 0);
  l ← load program;
  '(c, m, hp) ← must (update_memptr c (l_memory l) (l_heap l));
  '(d, m, hp) ← must (update_memptr d m hp);
  Ok (mkMachine m hp (l_initial_values l) a c d 0 1 0 (rotwidth0 cfg) 0
        input []).

(** [main] cut off after [k] passes of the loop. *)
Definition run (cfg : Config) (k : nat) (program input : list Z)
  : Res Machine :=
  s ← boot cfg program input; exec_steps cfg k s.

(** ** Notions used to state the properties *)

(** *** Values of numbers *)

Definition is_trit (t : Z) : Prop := 0 <= t <= 2.

(** A number as the data model has it: head and trits in {0, 1, 2} and a
    tail of width at least 1. *)
Definition valid_number (n : Number) : Prop :=
  is_trit (head n) /\ Forall is_trit (tail n) /\ tail n <> [].

(** The trit at position [i] of the infinite sequence: the tail extended
    with the head. *)
Definition trit_at (n : Number) (i : nat) : Z := nth i (tail n) (head n).

(** Two numbers are equal as values when their heads match and their trit
    sequences extended with the head agree. *)
Definition value_equal (n1 n2 : Number) : Prop :=
  head n1 = head n2 /\ forall i, trit_at n1 i = trit_at n2 i.

(** The sum of [t_i * 3^i] over a list of trits. *)
Fixpoint value_of (its : list Z) : Z :=
  match its with
  | [] => 0
  | t :: rest => t + 3 * value_of rest
  end.

(** The [k] least significant trits of a number, as an integer below
    [3^k]. *)
Definition low_value (n : Number) (k : nat) : Z :=
  value_of (map (trit_at n) (seq 0 k)).

(** *** UTF-8 *)

Definition is_byte (b : Z) : Prop := 0 <= b < 256.

(** The length a lead byte announces: 0xxxxxxx, 110xxxxx, 1110xxxx or
    11110xxx. *)
Definition lead_length (b : Z) : option nat :=
  if b <? 0x80 then Some 1%nat
  else if (0xC0 <=? b) && (b <? 0xE0) then Some 2%nat
  else if (0xE0 <=? b) && (b <? 0xF0) then Some 3%nat
  else if (0xF0 <=? b) && (b <? 0xF8) then Some 4%nat
  else None.

(** A continuation byte: 10xxxxxx. *)
Definition is_continuation (b : Z) : bool := (0x80 <=? b) && (b <? 0xC0).

(** The input is empty or starts with a lead byte followed by as many
    continuation bytes as it announces. *)
Definition well_formed (input : list Z) : bool :=
  match input with
  | [] => true
  | b :: rest =>
      match lead_length b with
      | None => false
      | Some n =>
          (n - 1 <=? length rest)%nat
          && forallb is_continuation (firstn (n - 1) rest)
      end
  end.

Definition bytes256 : list Z := map Z.of_nat (seq 0 256).

(** *** xlat2 *)

(** The substitution on codepoints. *)
Definition xlat2_code (u : Z) : Z :=
  nth (Z.to_nat (Z.rem (u - 33) 94)) xlat2_table 0.

(** The codepoints 33 .. 126. *)
Definition printable : list Z := map Z.of_nat (seq 33 94).

(** [xlat2] followed by [repair_number_after_xlat2]. *)
Definition xlat2_repaired (n : Number) : option Number :=
  option_map repair_number_after_xlat2 (xlat2 n).

Fixpoint xlat2_iter (k : nat) (n : Number) : option Number :=
  match k with
  | O => Some n
  | S k =>
      match xlat2_repaired n with
      | Some n => xlat2_iter k n
      | None => None
      end
  end.

(** *** crazy-op *)

(** The crazy-op table by rows. *)
Definition crazy_rows : list (list Z) := [[1;0;0]; [1;0;2]; [2;2;1]].

(** The entry in row [r] and column [c] of the table. *)
Definition crazy (r c : Z) : Z :=
  nth (Z.to_nat c) (nth (Z.to_nat r) crazy_rows []) 0.

(** The trits [opr] stores for the tails [sa] of [a] and [sd] of [d], the
    shorter one extended with its head. *)
Fixpoint opr_trits (ha hd : Z) (sa sd : list Z) {struct sa} : list Z :=
  match sa with
  | [] => map (fun y => crazy y ha) sd
  | x :: sa' =>
      match sd with
      | [] => map (fun x => crazy hd x) sa
      | y :: sd' => crazy y x :: opr_trits ha hd sa' sd'
      end
  end.

(** *** rotate-right *)

(** The tail padded on the most significant end with trits equal to the
    head until its width is at least [W]. *)
Definition padded_tail (n : Number) (W : Z) : list Z :=
  tail n ++ repeat (head n) (Z.to_nat (W - Z.of_nat (width n))).

(** *** increment *)

(** Head and tail that [increment] leaves, from the head [h] and the
    tail [its]. *)
Definition increment_result (h : Z) (its : list Z) : Z * list Z :=
  let '(its', returned) := increment_loop its in
  if returned then (h, its')
  else if h =? T2 then (T0, its')
  else (h, its' ++ [h + 1]).

(** A cached cell pointer points to an allocated cell. *)
Definition memptr_ok (cells : gmap positive MemCell) (n : Number) : Prop :=
  match memptr n with
  | Some p => is_Some (cells !! p)
  | None => True
  end.

(** The forward links of allocated cells point to allocated cells. *)
Definition links_ok (cells : gmap positive MemCell) : Prop :=
  forall p cl q, cells !! p = Some cl -> next cl = Some q ->
                 is_Some (cells !! q).

(** The caches [increment] leaves. *)
Definition increment_memptr (cells : gmap positive MemCell) (n : Number)
  : option positive :=
  match memptr n with
  | Some p => match cells !! p with Some cl => next cl | None => None end
  | None => None
  end.

Definition increment_unicode (n : Number) : Z :=
  if (unicode n >=? 0) && (unicode n <? 0x110000 - 1)
  then unicode n + 1 else -2.

(** *** mod *)

(** The sum of [(t_i - h) * 3^i] over the tail. *)
Fixpoint offset_sum (h : Z) (its : list Z) : Z :=
  match its with
  | [] => 0
  | t :: rest => (t - h) + 3 * offset_sum h rest
  end.

Definition mod_formula (n : Number) (m : Z) : Z :=
  (offset_sum (head n) (tail n) + 29524 * head n) mod m.

(** *** The memory tree *)

(** The node reached from [t] along the trits of [path]. *)
Fixpoint node_at (t : MemoryTree) (path : list Z) : option MemoryTree :=
  match path with
  | [] => Some t
  | k :: rest =>
      match child t k with
      | Some (Some ch) => node_at ch rest
      | _ => None
      end
  end.

(** Below [t], a child reached by the trit [h] has the cell of its
    parent. *)
Definition shares_head_cells (h : Z) (t : MemoryTree) : Prop :=
  forall path nd ch,
    node_at t path = Some nd -> child nd h = Some (Some ch) ->
    cell ch = cell nd.

(** The three roots, each with the sharing property for its head. *)
Definition memory_ok (m : list MemoryTree) : Prop :=
  length m = 3%nat
  /\ forall i root, m !! i = Some root -> shares_head_cells (Z.of_nat i) root.

(** [m'] has every node of [m], with the same cell. *)
Definition memory_extends (m m' : list MemoryTree) : Prop :=
  forall i root path nd,
    m !! i = Some root -> node_at root path = Some nd ->
    exists root' nd',
      m' !! i = Some root' /\ node_at root' path = Some nd'
      /\ cell nd' = cell nd.

(** *** The loader *)

(** The integers [a], [a + 1], ..., [a + len - 1]. *)
Definition Zseq (a : Z) (len : nat) : list Z :=
  map (fun i => a + Z.of_nat i) (seq 0 len).

(** The synthetic steps with the indices [idx], in order. *)
Fixpoint synth_steps (idx : list Z) (l : Loader) : Res Loader :=
  match idx with
  | [] => Ok l
  | i :: rest => l ← synth_step i l; synth_steps rest l
  end.

(** The state of the loader at the end of the file. *)
Definition read_program (program : list Z) : Res Loader :=
  l ← loader_init; load_chars program l.

(** The number [m2] that a synthetic step from index 12 on, run in the
    state [l], stores in [initial_values]. *)
Definition synth_retained (l : Loader) : Res Number :=
  prev ← must (l_prev l);
  prevprev ← must (l_prevprev l);
  pc ← must (cells (l_heap l) !! prev);
  ppc ← must (cells (l_heap l) !! prevprev);
  pv ← must (val pc);
  ppv ← must (val ppc);
  '(m1, m2) ← must (opr (clone_number pv) (clone_number ppv));
  '(m2, m, hp) ← must (update_memptr (update_unicode m2)
                                       (l_memory l) (l_heap l));
  Ok m2.

(** The number of memory cells that hold a value. *)
Definition populated (hp : Heap) : nat :=
  size (filter (fun kv => is_Some (val (snd kv))) (cells hp)).

(** The number of populated cells when the loader ends. *)
Definition cells_loaded (r : Res Loader) : option nat :=
  match r with
  | Ok l => Some (populated (l_heap l))
  | _ => None
  end.

(** *** Execution *)

(** Startup parameters in their ranges, for the concrete runs. *)
Definition example_config : Config :=
  mkConfig 10 0 4 1000000000 true (fun _ => 0).

(** A program of 51 characters: 50 times [nop] (code 68 at each position)
    and then, at position 50, [jmp] (code 4): the character 48. *)
Definition nops_then_jmp : list Z :=
  [68; 67; 66; 65; 64; 63; 62; 61; 60; 59; 58; 57; 56; 55; 54; 53; 52; 51;
   50; 49; 48; 47; 46; 45; 44; 43; 42; 41; 40; 39; 38; 37; 36; 35; 34; 33;
   126; 125; 124; 123; 122; 121; 120; 119; 118; 117; 116; 115; 114; 113;
   48].

(** The state is one that [main] reaches at the head of its loop. *)
Definition machine_reachable (cfg : Config) (s : Machine) : Prop :=
  exists k program input, run cfg k program input = Ok s.

(** The Unicode cache of a number agrees with its head and tail. *)
Definition unicode_cache_ok (n : Number) : Prop :=
  unicode n <> -2 ->
  (unicode n = -1 <-> (head n <> 0 \/ value_of (tail n) >= 0x110000))
  /\ (unicode n <> -1 -> unicode n = value_of (tail n)).

(** The result is not a termination of the program, with a diagnostic or
    by [hlt]. *)
Definition not_exit {A} (r : Res A) : Prop :=
  (forall dg, r <> Fatal dg) /\ r <> Halt.

(** *** Well-formed heaps and loader states *)

(** Allocated cells lie below [brk] and their forward links point to
    allocated cells. *)
Definition heap_ok (hp : Heap) : Prop :=
  (forall p, is_Some (cells hp !! p) -> (p < brk hp)%positive)
  /\ links_ok (cells hp).

(** [hp'] has the cells of [hp], with the same values. *)
Definition heap_extends (hp hp' : Heap) : Prop :=
  forall p cl, cells hp !! p = Some cl ->
    exists cl', cells hp' !! p = Some cl' /\ val cl' = val cl.

(** The cells of the nodes below [t] are allocated. *)
Definition subtree_cells_ok (t : MemoryTree) (hp : Heap) : Prop :=
  forall path nd, node_at t path = Some nd -> is_Some (cells hp !! cell nd).

Definition tree_cells_ok (m : list MemoryTree) (hp : Heap) : Prop :=
  forall i root, m !! i = Some root -> subtree_cells_ok root hp.

(** The cell [o], when there is one, holds a number with trits in
    {0, 1, 2} and a tail of width at least 1. *)
Definition stored_ok (hp : Heap) (o : option positive) : Prop :=
  forall q, o = Some q ->
    exists cl v, cells hp !! q = Some cl /\ val cl = Some v
                 /\ valid_number v.

Definition loader_ok (l : Loader) : Prop :=
  memory_ok (l_memory l)
  /\ heap_ok (l_heap l)
  /\ tree_cells_ok (l_memory l) (l_heap l)
  /\ valid_number (l_init l)
  /\ (exists p, memptr (l_init l) = Some p
                /\ is_Some (cells (l_heap l) !! p))
  /\ stored_ok (l_heap l) (l_prev l)
  /\ stored_ok (l_heap l) (l_prevprev l)
  /\ (is_Some (l_prevprev l) -> is_Some (l_prev l)).

(** [hp'] has the cells of [hp], whatever they hold. *)
Definition heap_dom_le (hp hp' : Heap) : Prop :=
  forall q, is_Some (cells hp !! q) -> is_Some (cells hp' !! q).

(** ** Further definitions used in the properties *)

(** The bytes [print_utf8] writes, by range of the code point. *)
Definition utf8_bytes (s : Z) : list Z :=
  if s <? 0x80 then [s]
  else if s <? 0x800 then [0xC0 + s / 64; 0x80 + s mod 64]
  else if s <? 0x10000 then
    [0xE0 + s / 4096; 0x80 + (s / 64) mod 64; 0x80 + s mod 64]
  else [0xF0 + s / 262144; 0x80 + (s / 4096) mod 64;
        0x80 + (s / 64) mod 64; 0x80 + s mod 64].


(** [rotate_r] applied [k] times at the rotation width [W]. *)
Fixpoint rotate_r_iter (k : nat) (n : Number) (W : Z) : option Number :=
  match k with
  | O => Some n
  | S k =>
      match rotate_r n W with
      | Some n => rotate_r_iter k n W
      | None => None
      end
  end.

(** The list with its first element moved to the end. *)
Definition turn (l : list Z) : list Z :=
  match l with
  | [] => []
  | t :: rest => rest ++ [t]
  end.

(** The characters of a program file as the loader judges them: [count]
    is the number of instruction characters read so far.  [None]: some
    character is neither blank nor an instruction at its position;
    [Some k]: the file has [k] instruction characters. *)
Fixpoint accepted (program : list Z) (count : Z) : option Z :=
  match program with
  | [] => Some count
  | b :: rest =>
      let v := char_of_byte b in
      if is_blank v then accepted rest count
      else if (33 <=? v) && (v <? 127) && is_instr ((v + count) mod 94)
      then accepted rest (count + 1)
      else None
  end.

(** The parts of the state that only [in], [out] and [movd] touch:
    input, output, the widths and the number of calls of [rand()]. *)
Definition same_io (s s' : Machine) : Prop :=
  stdin s' = stdin s /\ stdout s' = stdout s.

Definition same_growth (s s' : Machine) : Prop :=
  max_wordwidth s' = max_wordwidth s /\ rotwidth s' = rotwidth s
  /\ rand_calls s' = rand_calls s.

Definition same_env (s s' : Machine) : Prop :=
  same_io s s' /\ same_growth s s'
  /\ initial_values s' = initial_values s /\ step s' = step s.

(** The widths, as [main] keeps them. *)
Definition widths_ok (cfg : Config) (s : Machine) : Prop :=
  growth_slack cfg <= rotwidth s <= UINTMAX_MAX
  /\ 0 <= max_wordwidth s /\ 2 * max_wordwidth s <= rotwidth s.

(** A state with the given input pending, the registers holding ...21
    and an empty memory, for the concrete runs of [in] and [out]. *)
Definition idle_machine (input : list Z) : Machine :=
  mkMachine [] (mkHeap ∅ 1) [] nl nl nl 0 1 0 10 0 input [].

(** *** Memory safety of the interpreter *)

(** The code ran into no null pointer and no index out of bounds; when
    it ran on, its result satisfies [P]. *)
Definition safe {A} (P : A -> Prop) (r : Res A) : Prop :=
  match r with
  | Ok x => P x
  | Fatal _ => True
  | Halt => True
  | Undef => False
  end.

(** Which value a cell stands for.  [owner] gives, for the cell of every
    node below [t] (the node at the path [pre] of the tree with the index
    [i]), a path [rep] in that tree such that the path of the node is
    [rep] followed by trits equal to the head [i]. *)
Definition owns (owner : positive -> option (nat * list Z)) (i : nat)
    (pre : list Z) (t : MemoryTree) : Prop :=
  forall path nd, node_at t path = Some nd ->
    exists rep k, owner (cell nd) = Some (i, rep)
                  /\ pre ++ path = rep ++ repeat (Z.of_nat i) k.

Definition forest_owned (owner : positive -> option (nat * list Z))
    (m : list MemoryTree) : Prop :=
  forall i root, m !! i = Some root -> owns owner i [] root.

(** No cell stands for two values. *)
Definition owned (m : list MemoryTree) : Prop :=
  exists owner, forest_owned owner m.

(** [p] is the cell of the value of [n]: the memory has a node for some
    representation of that value, and [p] is its cell. *)
Definition cell_of (m : list MemoryTree) (n : Number) (p : positive)
  : Prop :=
  exists n0 root nd,
    value_equal n0 n
    /\ is_trit (head n0) /\ Forall is_trit (tail n0)
    /\ m !! Z.to_nat (head n0) = Some root
    /\ node_at root (tail n0) = Some nd /\ cell nd = p.

(** The cached cell pointer of [n], when set, is the cell of its
    value. *)
Definition cached (m : list MemoryTree) (n : Number) : Prop :=
  forall p, memptr n = Some p -> cell_of m n p.

(** The number that [increment] makes of [n], caches apart. *)
Definition successor (n : Number) : Number :=
  mkNumber (fst (increment_result (head n) (tail n)))
    (snd (increment_result (head n) (tail n))) None (-2).

(** A number as a memory cell may hold it: trits in {0, 1, 2}, a cell
    pointer that is null or allocated, an empty tail only in the state
    [xlat2] leaves, with a code point in 33 .. 126, and otherwise a
    cached pointer that is right. *)
Definition value_ok (m : list MemoryTree) (hp : Heap) (v : Number)
  : Prop :=
  is_trit (head v) /\ Forall is_trit (tail v)
  /\ memptr_ok (cells hp) v
  /\ (tail v = [] -> 33 <= unicode v <= 126)
  /\ (tail v <> [] -> cached m v).

Definition vals_ok (m : list MemoryTree) (hp : Heap) : Prop :=
  forall q cl v, cells hp !! q = Some cl -> val cl = Some v ->
                 value_ok m hp v.

(** A number with trits in {0, 1, 2}, a tail of width at least 1 and the
    pointer to an allocated cell, the cell of its value: the registers
    [c] and [d]. *)
Definition reg_ok (m : list MemoryTree) (hp : Heap) (n : Number) : Prop :=
  valid_number n
  /\ exists p, memptr n = Some p /\ is_Some (cells hp !! p)
               /\ cell_of m n p.

Definition ivs_ok (m : list MemoryTree) (hp : Heap)
    (ivs : list (option Number)) : Prop :=
  length ivs = 6%nat
  /\ forall i o, ivs !! i = Some o ->
       exists iv, o = Some iv /\ reg_ok m hp iv.

(** The forward link of a cell leads to the cell of the next value. *)
Definition links_cached (m : list MemoryTree) (hp : Heap) : Prop :=
  forall p cl q, cells hp !! p = Some cl -> next cl = Some q ->
    exists n, valid_number n /\ cell_of m n p
              /\ cell_of m (successor n) q.

Definition store_ok (m : list MemoryTree) (hp : Heap) : Prop :=
  memory_ok m /\ heap_ok hp /\ tree_cells_ok m hp /\ vals_ok m hp
  /\ owned m /\ links_cached m hp.

(** [hp'] has the cells of [hp], and those that held a value still hold
    one. *)
Definition heap_le (hp hp' : Heap) : Prop :=
  forall q cl, cells hp !! q = Some cl ->
    exists cl', cells hp' !! q = Some cl'
                /\ (is_Some (val cl) -> is_Some (val cl')).

(** The store has grown: the heap as above, and the memory has kept its
    nodes and their cells. *)
Definition store_le (m : list MemoryTree) (hp : Heap)
    (m' : list MemoryTree) (hp' : Heap) : Prop :=
  heap_le hp hp' /\ memory_extends m m'.

(** The values [hp'] holds are held by [hp], in the same cells. *)
Definition vals_from (hp hp' : Heap) : Prop :=
  forall q cl' v, cells hp' !! q = Some cl' -> val cl' = Some v ->
    exists cl, cells hp !! q = Some cl /\ val cl = Some v.

(** The cell of the number [n] holds a value. *)
Definition loaded (hp : Heap) (n : Number) : Prop :=
  exists p cl v, memptr n = Some p /\ cells hp !! p = Some cl
                 /\ val cl = Some v.

Definition machine_ok (s : Machine) : Prop :=
  store_ok (memory s) (heap s)
  /\ valid_number (reg_a s)
  /\ reg_ok (memory s) (heap s) (reg_c s)
  /\ reg_ok (memory s) (heap s) (reg_d s)
  /\ ivs_ok (memory s) (heap s) (initial_values s)
  /\ 0 <= pos s < 564.

(** The entries of [initial_values] that the synthetic steps before the
    index [a] have set. *)
Definition ivs_upto (m : list MemoryTree) (hp : Heap)
    (ivs : list (option Number)) (a : Z) : Prop :=
  length ivs = 6%nat
  /\ forall j : nat, (j < 6)%nat -> 12 + Z.of_nat j < a ->
       exists iv, ivs !! j = Some (Some iv) /\ reg_ok m hp iv.

(** The loader before the synthetic step with the index [a]. *)
Definition loader_safe (l : Loader) (a : Z) : Prop :=
  loader_ok l /\ store_ok (l_memory l) (l_heap l)
  /\ reg_ok (l_memory l) (l_heap l) (l_init l)
  /\ ivs_upto (l_memory l) (l_heap l) (l_initial_values l) a
  /\ 0 <= l_pos l < 564.

(** The numbers a state keeps with a cell pointer: the registers [c] and
    [d], the initial values, and the values of width at least 1 that the
    cells hold. *)
Definition kept (s : Machine) (n : Number) : Prop :=
  n = reg_c s \/ n = reg_d s
  \/ (exists i, initial_values s !! i = Some (Some n))
  \/ (exists q cl, cells (heap s) !! q = Some cl /\ val cl = Some n
                   /\ tail n <> []).

(** The cells of [hp] other than [p] are cells of [hp'], with the value
    they had. *)
Definition kept_but (hp hp' : Heap) (p : positive) : Prop :=
  forall q cl, q <> p -> cells hp !! q = Some cl ->
    exists cl', cells hp' !! q = Some cl' /\ val cl' = val cl.

(** The characters of a program file that are not blanks, in the order
    of the file. *)
Definition program_chars (program : list Z) : list Z :=
  List.filter (fun v => negb (is_blank v)) (map char_of_byte program).

(** Every character of [chars] is in 33 .. 126, and the cell of the
    address [i] holds the number of the [i]-th character. *)
Definition holds_chars (m : list MemoryTree) (hp : Heap) (chars : list Z)
  : Prop :=
  forall (i : nat) c, chars !! i = Some c ->
    33 <= c <= 126
    /\ exists n v p cl,
         to_number (Z.of_nat i) = Some n /\ to_number c = Some v
         /\ cell_of m n p /\ cells hp !! p = Some cl /\ val cl = Some v.

(** A program of 30 characters: [movd] (code 40) at position 0, [rot]
    (code 39) at position 1 and then 28 times [nop] (code 68).  After
    the [movd], [d] is at the address 41, behind the program. *)
Definition movd_then_rot : list Z :=
  [40; 38; 66; 65; 64; 63; 62; 61; 60; 59; 58; 57; 56; 55; 54; 53; 52; 51;
   50; 49; 48; 47; 46; 45; 44; 43; 42; 41; 40; 39].

(** The length of the cycle of the substitution through the codepoint
    [u]: the least [j >= 1] such that [j] applications lead from [u]
    back to [u], searched among the first 94; [x] is [u] after [j]
    applications. *)
Fixpoint cycle_search (fuel j : nat) (u x : Z) : nat :=
  match fuel with
  | O => O
  | S fuel =>
      if xlat2_code x =? u then S j
      else cycle_search fuel (S j) u (xlat2_code x)
  end.

Definition cycle_length (u : Z) : nat := cycle_search 94 0 u u.

(** The lengths of the cycles of the substitution. *)
Definition cycle_lengths : list nat := [2; 4; 5; 6; 9; 68]%nat.

(** The number [m1] that a synthetic step stores when the last two
    populated cells hold [pv] and [ppv], and the number [m2] that the
    steps from the index 12 on retain, each with its code point as the
    step caches it. *)
Definition synth_value (pv ppv : Number) : option Number :=
  match opr (clone_number pv) (clone_number ppv) with
  | Some (m1, _) => Some (update_unicode m1)
  | None => None
  end.

Definition synth_kept (pv ppv : Number) : option Number :=
  match opr (clone_number pv) (clone_number ppv) with
  | Some (_, m2) => Some (update_unicode m2)
  | None => None
  end.

(** What the synthetic step with the index [pos] makes of the loader
    [l]: the result [m1] is in [p], the cell [init] pointed to, which is
    now the last populated cell, before the one that was the last. *)
Definition synth_stored (pos : Z) (l l' : Loader) (p : positive) : Prop :=
  l_prev l' = Some p /\ l_prevprev l' = l_prev l
  /\ exists prev prevprev pc ppc pv ppv m1 m2 cl,
       l_prev l = Some prev /\ l_prevprev l = Some prevprev
       /\ cells (l_heap l) !! prev = Some pc /\ val pc = Some pv
       /\ cells (l_heap l) !! prevprev = Some ppc /\ val ppc = Some ppv
       /\ opr (clone_number pv) (clone_number ppv) = Some (m1, m2)
       /\ cells (l_heap l') !! p = Some cl
       /\ val cl = Some (update_unicode m1)
       /\ (pos < 12 -> l_initial_values l' = l_initial_values l)
       /\ (12 <= pos ->
           exists q,
             l_initial_values l'
             = <[Z.to_nat (pos - 12)
                 := Some (set_memptr (update_unicode m2) (Some q))]>
                 (l_initial_values l)).

(** The cell of the address [i]. *)
Definition cell_at (m : list MemoryTree) (i : Z) (p : positive) : Prop :=
  exists n, to_number i = Some n /\ cell_of m n p.

(** The cells of the addresses 0, 1, ... hold the numbers [vals], in
    this order. *)
Definition holds_vals (m : list MemoryTree) (hp : Heap)
    (vals : list Number) : Prop :=
  forall (i : nat) v, vals !! i = Some v ->
    exists p cl,
      cell_at m (Z.of_nat i) p /\ cells hp !! p = Some cl
      /\ val cl = Some v.

(** The cell of the address [i] holds the number [v]: [update_memptr] on
    [to_number(i)] finds a cell of the heap, and [v] is its value. *)
Definition stored_at (m : list MemoryTree) (hp : Heap) (i : Z)
    (v : Number) : Prop :=
  exists n p cl m' hp',
    to_number i = Some n
    /\ update_memptr n m hp = Some (set_memptr n (Some p), m', hp')
    /\ cells hp !! p = Some cl /\ val cl = Some v.

(** The loader with the addresses below [length vals] populated by
    [vals]: [init] is at the address [length vals], and the last two
    populated cells are those of the two addresses before. *)
Definition loader_at (l : Loader) (vals : list Number) : Prop :=
  head (l_init l) = 0
  /\ value_of (tail (l_init l)) = Z.of_nat (length vals)
  /\ holds_vals (l_memory l) (l_heap l) vals
  /\ (forall q, l_prev l = Some q ->
        (1 <= length vals)%nat
        /\ cell_at (l_memory l) (Z.of_nat (length vals) - 1) q)
  /\ (forall q, l_prevprev l = Some q ->
        (2 <= length vals)%nat
        /\ cell_at (l_memory l) (Z.of_nat (length vals) - 2) q).

(** * Properties *)

(** ** Base-3 digits *)

Lemma to_number_loop_value (fuel : nat) (s : Z) :
  0 <= s -> Z.quot s 3 < 2 ^ Z.of_nat fuel ->
  value_of (Z.rem s 3 :: to_number_loop fuel s) = s.
Proof.
  revert s. induction fuel as [|fuel IH]; intros s Hs Hq.
  - cbn [to_number_loop value_of].
    rewrite Z.rem_mod_nonneg, Z.quot_div_nonneg in * by lia.
    change (2 ^ Z.of_nat 0) with 1 in Hq.
    pose proof (Z.div_pos s 3 Hs ltac:(lia)).
    pose proof (Z.div_mod s 3 ltac:(lia)). lia.
  - cbn [to_number_loop].
    rewrite Z.rem_mod_nonneg, Z.quot_div_nonneg in * by lia.
    pose proof (Z.div_pos s 3 Hs ltac:(lia)) as Hq0.
    pose proof (Z.div_mod s 3 ltac:(lia)) as Hdm.
    destruct (s / 3 =? 0) eqn:E.
    + apply Z.eqb_eq in E. cbn [value_of]. lia.
    + change (value_of (s mod 3 :: Z.rem (s / 3) 3 :: to_number_loop fuel (s / 3)))
        with (s mod 3 + 3 * value_of (Z.rem (s / 3) 3 :: to_number_loop fuel (s / 3))).
      rewrite IH; [lia|lia|].
      rewrite Z.quot_div_nonneg by lia.
      rewrite Nat2Z.inj_succ, Z.pow_succ_r in Hq by lia.
      apply Z.div_lt_upper_bound; lia.
Qed.

Lemma value_of_trits_of (s : Z) : 0 <= s -> value_of (trits_of s) = s.
Proof.
  intros Hs. unfold trits_of. apply to_number_loop_value; [exact Hs|].
  rewrite Z.quot_div_nonneg by lia.
  destruct (Z.eq_dec s 0) as [->|Hn].
  - vm_compute. reflexivity.
  - rewrite Z2Nat.id by apply Z.log2_nonneg.
    pose proof (Z.log2_spec s ltac:(lia)) as [Hlo Hhi].
    rewrite Z.pow_succ_r in Hhi by apply Z.log2_nonneg.
    apply Z.div_lt_upper_bound; lia.
Qed.

Lemma to_number_loop_trits (fuel : nat) (s : Z) :
  0 <= s -> Forall is_trit (to_number_loop fuel s).
Proof.
  revert s. induction fuel as [|fuel IH]; intros s Hs; cbn [to_number_loop].
  - constructor.
  - rewrite Z.quot_div_nonneg by lia.
    pose proof (Z.div_pos s 3 Hs ltac:(lia)).
    destruct (s / 3 =? 0); constructor; [|apply IH; lia].
    rewrite Z.rem_mod_nonneg by lia. unfold is_trit.
    pose proof (Z.mod_pos_bound (s / 3) 3 ltac:(lia)). lia.
Qed.

Lemma trits_of_trits (s : Z) : 0 <= s -> Forall is_trit (trits_of s).
Proof.
  intros Hs. unfold trits_of. constructor; [|apply to_number_loop_trits, Hs].
  rewrite Z.rem_mod_nonneg by lia. unfold is_trit.
  pose proof (Z.mod_pos_bound s 3 ltac:(lia)). lia.
Qed.

Lemma trits_of_nonempty (s : Z) : trits_of s <> [].
Proof. unfold trits_of. discriminate. Qed.

Lemma to_number_valid (s : Z) (n : Number) :
  to_number s = Some n -> valid_number n /\ head n = 0 /\ value_of (tail n) = s.
Proof.
  unfold to_number. destruct (s <? 0) eqn:E; [discriminate|].
  intros [= <-]. cbn. unfold valid_number. cbn.
  repeat split; try (unfold is_trit, T0; lia).
  - apply trits_of_trits. lia.
  - apply trits_of_nonempty.
  - apply value_of_trits_of. lia.
Qed.

(** ** The Unicode projection *)

Lemma update_unicode_fields (n : Number) :
  head (update_unicode n) = head n /\ tail (update_unicode n) = tail n
  /\ memptr (update_unicode n) = memptr n.
Proof.
  unfold update_unicode. destruct (negb (unicode n =? -2)); [auto|].
  destruct (negb (head n =? T0)); auto.
Qed.

Lemma update_unicode_valid (n : Number) :
  valid_number n -> valid_number (update_unicode n).
Proof.
  unfold valid_number. destruct (update_unicode_fields n) as (-> & -> & _).
  auto.
Qed.

Lemma int32_small (x : Z) : - 2 ^ 31 <= x < 2 ^ 31 -> int32 x = x.
Proof.
  intros Hx. unfold int32. rewrite Z.mod_small by lia. lia.
Qed.

Lemma value_of_nonneg (its : list Z) : Forall is_trit its -> 0 <= value_of its.
Proof.
  induction 1 as [|t rest Ht _ IH]; cbn [value_of]; unfold is_trit in *; lia.
Qed.

(** The loop computes the value of the trits not yet read, weighted by
    [w], as long as it stays below 0x110000.  The factor is the weight
    until it reaches 0x110000 and is kept from then on; no operation
    wraps around. *)
Lemma update_unicode_loop_spec (its : list Z) :
  Forall is_trit its ->
  forall u factor w,
    0 <= u < 0x110000 -> 0 < factor <= w -> factor < 3 * 0x110000 ->
    factor = w \/ 0x110000 <= factor ->
    update_unicode_loop its u factor
    = if u + w * value_of its >=? 0x110000 then -1
      else u + w * value_of its.
Proof.
  induction 1 as [|t rest Ht Hrest IH]; intros u factor w Hu Hf Hb Hw.
  - cbn [update_unicode_loop value_of].
    replace (u + w * 0 >=? 1114112) with false by lia. lia.
  - cbn [update_unicode_loop value_of].
    pose proof (value_of_nonneg rest Hrest) as Hv. unfold is_trit in Ht.
    assert (Hft : 0 <= factor * t <= 2 * factor) by nia.
    rewrite (int32_small (factor * t)) by lia.
    rewrite (int32_small (u + factor * t)) by lia.
    destruct (u + factor * t >=? 1114112) eqn:E.
    + replace (u + w * (t + 3 * value_of rest) >=? 1114112) with true by nia.
      reflexivity.
    + rewrite (IH (u + factor * t)
                  (if factor <? 1114112 then int32 (factor * 3) else factor)
                  (3 * w)).
      * assert (Et : factor * t = w * t).
        { destruct Hw as [-> | Hw]; [reflexivity|].
          assert (t = 0) by nia. subst t. lia. }
        rewrite Et.
        replace (u + w * t + 3 * w * value_of rest)
          with (u + w * (t + 3 * value_of rest)) by ring.
        reflexivity.
      * lia.
      * destruct (factor <? 1114112) eqn:F;
          rewrite ?int32_small by lia; lia.
      * destruct (factor <? 1114112) eqn:F;
          rewrite ?int32_small by lia; lia.
      * destruct (factor <? 1114112) eqn:F;
          rewrite ?int32_small by lia; [|right; lia].
        destruct Hw as [-> | Hw]; [left; lia | lia].
Qed.

(** [update_unicode] establishes the cache property. *)
Lemma update_unicode_cache_ok (n : Number) :
  Forall is_trit (tail n) -> unicode_cache_ok n ->
  unicode_cache_ok (update_unicode n).
Proof.
  intros Hl Hn. unfold update_unicode.
  destruct (unicode n =? -2) eqn:E; cbn [negb]; [|exact Hn].
  destruct (head n =? T0) eqn:Eh; cbn [negb].
  - apply Z.eqb_eq in Eh. unfold T0 in Eh.
    pose proof (value_of_nonneg _ Hl) as Hv.
    rewrite (update_unicode_loop_spec (tail n) Hl 0 1 1) by lia.
    rewrite Z.add_0_l, Z.mul_1_l.
    unfold unicode_cache_ok, set_unicode. cbn [unicode head tail].
    destruct (value_of (tail n) >=? 1114112) eqn:Ev; intros _.
    + split; [|congruence]. split; [intros _; right; lia | reflexivity].
    + split; [|reflexivity]. split; [lia|]. intros [H | H]; lia.
  - apply Z.eqb_neq in Eh. unfold T0 in Eh.
    unfold unicode_cache_ok, set_unicode. cbn [unicode head tail]. intros _.
    split; [|congruence]. split; [intros _; left; exact Eh | reflexivity].
Qed.

Lemma to_number_cache_ok (s : Z) (n : Number) :
  to_number s = Some n -> unicode_cache_ok n.
Proof.
  unfold to_number. destruct (s <? 0) eqn:E; [discriminate|].
  intros [= <-]. unfold unicode_cache_ok. cbn [unicode head tail].
  rewrite value_of_trits_of by lia. unfold T0.
  destruct (s <? 1114112) eqn:Es; intros _.
  - split; [|reflexivity]. split; [lia|]. intros [H | H]; lia.
  - split; [|congruence]. split; [intros _; right; lia | reflexivity].
Qed.

Lemma update_unicode_cached (n : Number) :
  unicode n <> -2 -> update_unicode n = n.
Proof.
  intros H. unfold update_unicode.
  replace (unicode n =? -2) with false by lia. reflexivity.
Qed.

(** A refreshed projection that is a codepoint is the value of the
    tail, under head 0, when it had to be computed. *)
Lemma update_unicode_computed (n : Number) :
  Forall is_trit (tail n) -> unicode n = -2 ->
  0 <= unicode (update_unicode n) ->
  head n = 0 /\ unicode (update_unicode n) = value_of (tail n).
Proof.
  intros Hl E. unfold update_unicode. rewrite E, Z.eqb_refl. cbn [negb].
  destruct (head n =? T0) eqn:Eh; cbn [negb set_unicode unicode]; [|lia].
  apply Z.eqb_eq in Eh. unfold T0 in Eh.
  pose proof (value_of_nonneg _ Hl) as Hv.
  rewrite (update_unicode_loop_spec (tail n) Hl 0 1 1) by lia.
  rewrite Z.add_0_l, Z.mul_1_l.
  destruct (value_of (tail n) >=? 1114112); [lia | auto].
Qed.

(** ** crazy-op *)

Section Opr.

Lemma OPR_at_crazy (ta td : Z) :
  is_trit ta -> is_trit td ->
  OPR_at (Z.rem ta 3 + 3 * Z.rem td 3) = Some (crazy td ta).
Proof.
  unfold is_trit. intros Ha Hd.
  assert (Ea : ta = 0 \/ ta = 1 \/ ta = 2) by lia.
  assert (Ed : td = 0 \/ td = 1 \/ td = 2) by lia.
  destruct Ea as [-> | [-> | ->]]; destruct Ed as [-> | [-> | ->]]; reflexivity.
Qed.

Lemma crazy_trit (r c : Z) : is_trit r -> is_trit c -> is_trit (crazy r c).
Proof.
  unfold is_trit. intros Hr Hc.
  assert (Er : r = 0 \/ r = 1 \/ r = 2) by lia.
  assert (Ec : c = 0 \/ c = 1 \/ c = 2) by lia.
  destruct Er as [-> | [-> | ->]]; destruct Ec as [-> | [-> | ->]];
    vm_compute; split; discriminate.
Qed.

Lemma set_tail_set_tail (n : Number) (l1 l2 : list Z) :
  set_tail (set_tail n l1) l2 = set_tail n l2.
Proof. reflexivity. Qed.

Lemma opr_trits_cons_nil (ha hd x : Z) (sa : list Z) :
  opr_trits ha hd (x :: sa) [] = crazy hd x :: opr_trits ha hd sa [].
Proof. destruct sa; reflexivity. Qed.

(** Extending the exhausted operand by one trit equal to its head does not
    change what is stored. *)
Lemma opr_trits_push_a (ha hd : Z) (sd : list Z) :
  sd <> [] -> opr_trits ha hd [ha] sd = opr_trits ha hd [] sd.
Proof. destruct sd as [|y sd]; [congruence|reflexivity]. Qed.

Lemma opr_trits_push_d (ha hd : Z) (sa : list Z) :
  sa <> [] -> opr_trits ha hd sa [hd] = opr_trits ha hd sa [].
Proof.
  destruct sa as [|x sa]; [congruence|]. intros _.
  rewrite opr_trits_cons_nil. cbn [opr_trits]. destruct sa; reflexivity.
Qed.

Lemma opr_trits_nth (ha hd : Z) (sa sd : list Z) (i : nat) :
  nth i (opr_trits ha hd sa sd) (crazy hd ha)
  = crazy (nth i sd hd) (nth i sa ha).
Proof.
  revert sd i. induction sa as [|x sa IH]; intros sd i.
  - cbn [opr_trits]. revert i. induction sd as [|y sd IHd]; intros [|i]; cbn;
      try reflexivity. rewrite IHd. destruct i; reflexivity.
  - destruct sd as [|y sd].
    + rewrite opr_trits_cons_nil. destruct i as [|i]; [reflexivity|].
      cbn [nth]. rewrite IH. destruct i; reflexivity.
    + cbn [opr_trits]. destruct i as [|i]; [reflexivity|]. cbn [nth]. apply IH.
Qed.

Lemma opr_trits_length (ha hd : Z) (sa sd : list Z) :
  length (opr_trits ha hd sa sd) = Nat.max (length sa) (length sd).
Proof.
  revert sd. induction sa as [|x sa IH]; intros sd.
  - cbn. now rewrite length_map.
  - destruct sd as [|y sd].
    + cbn [opr_trits]. rewrite length_map. cbn. lia.
    + cbn. now rewrite IH.
Qed.

Ltac nat_bool :=
  repeat match goal with
    | |- context [(?x <=? ?y)%nat] =>
        first [ replace (x <=? y)%nat with true
                  by (symmetry; apply Nat.leb_le; lia)
              | replace (x <=? y)%nat with false
                  by (symmetry; apply Nat.leb_gt; lia) ]
    | |- context [(?x <? ?y)%nat] =>
        first [ replace (x <? y)%nat with true
                  by (symmetry; apply Nat.ltb_lt; lia)
              | replace (x <? y)%nat with false
                  by (symmetry; apply Nat.ltb_ge; lia) ]
    end.

Lemma store_trit_middle (n : Number) (pre post : list Z) (x r : Z) :
  tail n = pre ++ x :: post ->
  store_trit n (length pre) r = set_tail n (pre ++ r :: post).
Proof.
  intros E. unfold store_trit. rewrite E.
  replace (length pre) with (length pre + 0)%nat at 1 by lia.
  rewrite insert_app_r. reflexivity.
Qed.

(** The loop, entered at position [length pre] with the trits [pre]
    already stored in both rings. *)
Lemma opr_loop_spec (fuel : nat) :
  forall (pre sa sd : list Z) (a d : Number),
    tail a = pre ++ sa -> tail d = pre ++ sd ->
    (sa = [] <-> sd = []) ->
    Forall is_trit sa -> Forall is_trit sd ->
    is_trit (head a) -> is_trit (head d) ->
    (length sa <= fuel)%nat -> (length sd <= fuel)%nat ->
    opr_loop fuel (length pre) a d
    = Some (set_tail a (pre ++ opr_trits (head a) (head d) sa sd),
            set_tail d (pre ++ opr_trits (head a) (head d) sa sd)).
Proof.
  assert (Hexit : forall fuel pre a d,
            tail a = pre ++ [] -> tail d = pre ++ [] ->
            opr_loop fuel (length pre) a d
            = Some (set_tail a (pre ++ []), set_tail d (pre ++ []))).
  { intros f pre a d Ea Ed.
    destruct f; cbn [opr_loop]; unfold width; rewrite Ea, Ed, app_nil_r;
      rewrite !Nat.ltb_irrefl; cbn; destruct a, d; cbn in *; subst;
      rewrite ?app_nil_r; reflexivity. }
  induction fuel as [|fuel IH];
    intros pre sa sd a d Ea Ed Hnil Ha Hd Hha Hhd La Ld.
  - destruct sa; [|cbn in La; lia]. destruct sd; [|cbn in Ld; lia].
    apply Hexit; assumption.
  - destruct sa as [|x sa].
    { assert (sd = []) as -> by (apply Hnil; reflexivity).
      apply Hexit; assumption. }
    destruct sd as [|y sd];
      [destruct Hnil as [_ Hn]; discriminate Hn; reflexivity|].
    inversion Ha as [|? ? Hx Ha']; inversion Hd as [|? ? Hy Hd']; subst.
    cbn [opr_loop]. unfold width at 1 2. rewrite Ea, Ed, !length_app.
    cbn [length]. nat_bool. cbn [orb negb].
    rewrite (list_lookup_middle pre sa x) by reflexivity.
    rewrite (list_lookup_middle pre sd y) by reflexivity.
    rewrite OPR_at_crazy by assumption.
    rewrite (store_trit_middle a pre sa x) by assumption.
    rewrite (store_trit_middle d pre sd y) by assumption.
    cbn in La, Ld.
    destruct sa as [|x' sa], sd as [|y' sd];
      unfold width, push_trit; cbn [tail set_tail head];
      rewrite ?length_app; cbn [length]; nat_bool; cbn [andb];
      unfold width, push_trit; cbn [tail set_tail head];
      rewrite ?length_app; cbn [length]; nat_bool; cbn [andb];
      replace (S (length pre)) with (length (pre ++ [crazy y x]))
        by (rewrite length_app; cbn; lia).
    + rewrite (IH (pre ++ [crazy y x]) [] []);
        cbn [tail set_tail head]; rewrite <- ?app_assoc; auto;
        cbn [length] in *; lia.
    + rewrite (IH (pre ++ [crazy y x]) [head a] (y' :: sd));
        cbn [tail set_tail head]; rewrite <- ?app_assoc; auto;
        try (cbn [length] in *; lia); split; discriminate.
    + rewrite (IH (pre ++ [crazy y x]) (x' :: sa) [head d]);
        cbn [tail set_tail head]; rewrite <- ?app_assoc; auto;
        try (cbn [length] in *; lia); try (split; discriminate).
      rewrite opr_trits_push_d by discriminate.
      rewrite (opr_trits_cons_nil _ _ x'). destruct sa; reflexivity.
    + rewrite (IH (pre ++ [crazy y x]) (x' :: sa) (y' :: sd));
        cbn [tail set_tail head]; rewrite <- ?app_assoc; auto;
        try (cbn [length] in *; lia); split; discriminate.
Qed.

Lemma opr_closed_form (a d : Number) :
  valid_number a -> valid_number d ->
  opr a d
  = Some (mkNumber (crazy (head d) (head a))
            (opr_trits (head a) (head d) (tail a) (tail d)) None (-2),
          mkNumber (crazy (head d) (head a))
            (opr_trits (head a) (head d) (tail a) (tail d)) None (-2)).
Proof.
  intros (Hha & Ha & Hna) (Hhd & Hd & Hnd). unfold opr.
  change 0%nat with (length (@nil Z)).
  rewrite (opr_loop_spec _ [] (tail a) (tail d)); auto.
  - cbn [head set_tail tail app]. rewrite OPR_at_crazy by assumption.
    reflexivity.
  - split; intros E; congruence.
  - unfold width. lia.
  - unfold width. lia.
Qed.

Lemma opr_trits_valid (a d : Number) :
  valid_number a -> valid_number d ->
  Forall is_trit (opr_trits (head a) (head d) (tail a) (tail d))
  /\ opr_trits (head a) (head d) (tail a) (tail d) <> [].
Proof.
  intros (Hha & Ha & Hna) (Hhd & Hd & Hnd). split.
  - apply List.Forall_forall. intros t Ht.
    destruct (In_nth _ _ (crazy (head d) (head a)) Ht) as (i & Hi & <-).
    rewrite opr_trits_nth. apply crazy_trit.
    + destruct (Nat.lt_ge_cases i (length (tail d))) as [L|L].
      * rewrite List.Forall_forall in Hd. apply Hd, nth_In, L.
      * rewrite nth_overflow by exact L. assumption.
    + destruct (Nat.lt_ge_cases i (length (tail a))) as [L|L].
      * rewrite List.Forall_forall in Ha. apply Ha, nth_In, L.
      * rewrite nth_overflow by exact L. assumption.
  - intros E. apply (f_equal (@length Z)) in E.
    rewrite opr_trits_length in E. destruct (tail a); [congruence|].
    cbn in E. lia.
Qed.

(** C1, as amended.  On numbers with trits in {0, 1, 2} and tails of width
    at least 1, [opr] stores at every position [i] of both operands, the
    narrower one extended with its head, the entry of the table in the row
    of the d-trit and the column of the a-trit; the heads get the entry for
    the pair of heads, both operands end with the same head and the same
    tail, as wide as the wider operand, and with both caches invalidated.
    For the trits a = 0, d = 1 the entry is 1 and for a = 1, d = 0 it
    is 0. *)
Theorem opr_table_by_d_rows (a d : Number) :
  valid_number a -> valid_number d ->
  exists a' d',
    opr a d = Some (a', d')
    /\ (forall i, trit_at a' i = crazy (trit_at d i) (trit_at a i))
    /\ (forall i, trit_at d' i = crazy (trit_at d i) (trit_at a i))
    /\ head a' = crazy (head d) (head a)
    /\ head d' = crazy (head d) (head a)
    /\ tail a' = tail d'
    /\ width a' = Nat.max (width a) (width d)
    /\ value_equal a' d'
    /\ valid_number a'
    /\ memptr a' = None /\ unicode a' = -2
    /\ memptr d' = None /\ unicode d' = -2
    /\ crazy 1 0 = 1 /\ crazy 0 1 = 0.
Proof.
  intros Va Vd. rewrite (opr_closed_form a d Va Vd).
  destruct Va as (Hha & Ha & Hna), Vd as (Hhd & Hd & Hnd).
  do 2 eexists. split; [reflexivity|].
  unfold trit_at, width, value_equal. cbn [head tail memptr unicode].
  repeat split; try reflexivity.
  - intros i. apply opr_trits_nth.
  - intros i. apply opr_trits_nth.
  - apply opr_trits_length.
  - apply crazy_trit; assumption.
  - apply crazy_trit; assumption.
  - apply (opr_trits_valid a d); unfold valid_number; auto.
  - apply (opr_trits_valid a d); unfold valid_number; auto.
Qed.

(** [a = ...0001] and [d = ...00012]. *)
Lemma opr_table_by_d_rows_witness :
  exists a' d',
    opr (mkNumber 0 [1] None 1) (mkNumber 0 [2; 1] None 5) = Some (a', d')
    /\ tail a' = tail d'.
Proof.
  destruct (opr_table_by_d_rows (mkNumber 0 [1] None 1)
              (mkNumber 0 [2; 1] None 5))
    as (a' & d' & E & _ & _ & _ & _ & Et & _).
  - unfold valid_number, is_trit. cbn.
    repeat split; try lia; [repeat constructor; lia | discriminate].
  - unfold valid_number, is_trit. cbn.
    repeat split; try lia; [repeat constructor; lia | discriminate].
  - exists a', d'. split; [exact E | exact Et].
Defined.

(** C1, as stated, fails: with the rows of the table indexed by the
    a-trit, the operands [a = ...000] and [d = ...0001] would get the
    trit 0 at position 0; [opr] stores 1. *)
Lemma opr_not_by_a_rows :
  ~ (forall a d, valid_number a -> valid_number d ->
       exists a' d', opr a d = Some (a', d')
                     /\ forall i, trit_at a' i
                                  = crazy (trit_at a i) (trit_at d i)).
Proof.
  intros H.
  destruct (H (mkNumber 0 [0] None 0) (mkNumber 0 [1] None 1))
    as (a' & d' & E & Ht).
  - unfold valid_number, is_trit. cbn.
    repeat split; try lia; [repeat constructor; lia | discriminate].
  - unfold valid_number, is_trit. cbn.
    repeat split; try lia; [repeat constructor; lia | discriminate].
  - vm_compute in E. injection E as <- <-.
    specialize (Ht 0%nat). vm_compute in Ht. discriminate.
Qed.

End Opr.

(** ** The instruction cycle *)

Section Execution.

(** Outside the seven codes that have a [case] with a body, the [switch]
    does nothing. *)
Lemma exec_instr_default (cfg : Config) (i : Z) (s : Machine) :
  i <> 4 -> i <> 5 -> i <> 23 -> i <> 39 -> i <> 40 -> i <> 62 -> i <> 81 ->
  exec_instr cfg i s = Ok s.
Proof.
  intros H4 H5 H23 H39 H40 H62 H81. unfold exec_instr.
  destruct i as [|p|p]; try reflexivity.
  do 7 (destruct p as [p|p|]; try reflexivity; try congruence).
Qed.

Lemma fetch_step (s s' : Machine) (u : Z) :
  fetch s = Ok (u, s') -> step s' = step s /\ pos s' = pos s.
Proof.
  unfold fetch, materialize, cell_val. intros E.
  destruct (must (memptr (reg_c s))) as [p| | |]; cbn in E; try discriminate.
  destruct (must (cells (heap s) !! p)) as [cl| | |]; cbn in E;
    try discriminate.
  destruct (val cl) as [v|]; cbn in E.
  - destruct (store_val (heap s) p (update_unicode v)) as [hp| | |];
      cbn in E; try discriminate.
    inversion E; subst. split; reflexivity.
  - destruct (initial_value s (Z.rem (pos s) 6)) as [iv| | |]; cbn in E;
      try discriminate.
    destruct (store_val (heap s) p (clone_number iv)) as [hp| | |];
      cbn in E; try discriminate.
    destruct (store_val hp p (update_unicode (clone_number iv)))
      as [hp'| | |]; cbn in E; try discriminate.
    inversion E; subst. split; reflexivity.
Qed.

Lemma not_exit_bind {A B} (m : Res A) (f : A -> Res B) :
  not_exit m -> (forall x, not_exit (f x)) -> not_exit (m ≫= f).
Proof.
  intros [Hm1 Hm2] Hf. destruct m as [x|dg| |]; cbn.
  - apply Hf.
  - exfalso. apply (Hm1 dg). reflexivity.
  - exfalso. apply Hm2. reflexivity.
  - split; [intros dg|]; discriminate.
Qed.

Lemma not_exit_must {A} (o : option A) : not_exit (must o).
Proof. destruct o; (split; [intros dg|]; discriminate). Qed.

Lemma not_exit_ok {A} (x : A) : not_exit (Ok x).
Proof. split; [intros dg|]; discriminate. Qed.

Ltac not_exit :=
  repeat first
    [ apply not_exit_must
    | apply not_exit_ok
    | apply not_exit_bind; [|intros ?]
    | match goal with
      | |- not_exit (let '(_, _) := ?x in _) => destruct x
      | |- not_exit (match ?x with Some _ => _ | None => _ end) =>
          destruct x
      end ].

Lemma store_val_not_exit (hp : Heap) (p : positive) (v : Number) :
  not_exit (store_val hp p v).
Proof. unfold store_val. not_exit. Qed.

Lemma advance_not_exit (n : Number) (m : list MemoryTree) (hp : Heap) :
  not_exit (advance n m hp).
Proof. unfold advance, link_next. not_exit. Qed.

(** With a printable codepoint in the cell at [c], what follows the
    [switch] does not end the program. *)
Lemma finish_step_not_exit (s : Machine) (p : positive) (v : Number) :
  cell_val s (reg_c s) = Ok (p, Some v) -> 33 <= unicode v <= 126 ->
  not_exit (finish_step s).
Proof.
  intros E Hu. unfold finish_step. rewrite E. cbn [mbind Res_bind must].
  assert (Ex : exists v', xlat2 v = Some v').
  { unfold xlat2, update_unicode.
    replace (unicode v =? -2) with false by lia. cbn [negb].
    replace ((unicode v <? 33) || (unicode v >? 126)) with false by lia.
    eauto. }
  destruct Ex as [v' ->]. cbn [or_fatal mbind Res_bind].
  not_exit; first [apply store_val_not_exit | apply advance_not_exit].
Qed.

(** After a fetch the cell at [c] holds the number whose Unicode value
    was fetched. *)
Lemma fetch_cell (s s' : Machine) (u : Z) :
  fetch s = Ok (u, s') ->
  exists p v, cell_val s' (reg_c s') = Ok (p, Some v) /\ unicode v = u.
Proof.
  assert (Hstore : forall hp hp' p v,
            store_val hp p v = Ok hp' ->
            exists nx, cells hp' !! p = Some (mkMemCell (Some v) nx)).
  { intros hp hp' p v. unfold store_val.
    destruct (cells hp !! p) as [cl|]; cbn; [|discriminate].
    intros [= <-]. cbn [cells]. rewrite lookup_insert_eq. eauto. }
  unfold fetch, materialize, cell_val. intros E.
  destruct (memptr (reg_c s)) as [p|] eqn:Ep; cbn in E; [|discriminate].
  destruct (cells (heap s) !! p) as [cl|] eqn:Ecl; cbn in E; [|discriminate].
  destruct (val cl) as [v|]; cbn in E.
  - destruct (store_val (heap s) p (update_unicode v)) as [hp| | |] eqn:Es;
      cbn in E; try discriminate.
    inversion E; subst. cbn [reg_c with_heap with_mem heap].
    rewrite Ep. cbn [must mbind Res_bind].
    destruct (Hstore _ _ _ _ Es) as [nx ->]. cbn. eauto.
  - destruct (initial_value s (Z.rem (pos s) 6)) as [iv| | |]; cbn in E;
      try discriminate.
    destruct (store_val (heap s) p (clone_number iv)) as [hp| | |];
      cbn in E; try discriminate.
    destruct (store_val hp p (update_unicode (clone_number iv)))
      as [hp'| | |] eqn:Es; cbn in E; try discriminate.
    inversion E; subst. cbn [reg_c with_heap with_mem heap].
    rewrite Ep. cbn [must mbind Res_bind].
    destruct (Hstore _ _ _ _ Es) as [nx ->]. cbn. eauto.
Qed.

(** The program [nops_then_jmp]: after 50 times [nop] the [jmp] at
    address 50 leads to address 48, and the next step fetches the cell at
    address 49, which [xlat2] has changed from 113 to 108; at position 49
    that is the code 63. *)
Lemma nops_then_jmp_run :
  exists s s' s2,
    run example_config 51 nops_then_jmp [] = Ok s
    /\ fetch s = Ok (108, s')
    /\ pos s = 49
    /\ Z.rem (108 + pos s) 94 = 63
    /\ exec_step example_config s = Ok s2
    /\ step s2 = 53.
Proof.
  eexists. eexists. eexists.
  split; [vm_compute; reflexivity|].
  split; [vm_compute; reflexivity|].
  split; [reflexivity|]. split; [reflexivity|].
  split; [vm_compute; reflexivity|]. reflexivity.
Qed.

(** C2, as stated, fails: in the run of [nops_then_jmp] the step that
    decodes the code 63 ends normally and the loop goes on. *)
Lemma invalid_code_not_fatal :
  ~ (forall cfg s u s',
       machine_reachable cfg s -> fetch s = Ok (u, s') ->
       is_instr (Z.rem (u + pos s) 94) = false ->
       exists dg, exec_step cfg s = Fatal dg).
Proof.
  intros H.
  destruct nops_then_jmp_run as (s & s' & s2 & Hr & Hf & Hp & Hi & He & _).
  destruct (H example_config s 108 s') as [dg Hdg].
  - exists 51%nat, nops_then_jmp, []. exact Hr.
  - exact Hf.
  - rewrite Hi. reflexivity.
  - rewrite He in Hdg. discriminate.
Qed.

End Execution.

(** ** rotate-right *)

Section Rotate.

Lemma rotate_r_pad_spec (k : nat) (n : Number) :
  rotate_r_pad k n
  = mkNumber (head n) (tail n ++ repeat (head n) k) (memptr n) (unicode n).
Proof.
  revert n. induction k as [|k IH]; intros n; cbn [rotate_r_pad repeat].
  - rewrite app_nil_r. destruct n; reflexivity.
  - rewrite IH. unfold push_trit. cbn [head tail memptr unicode set_tail].
    rewrite <- app_assoc. reflexivity.
Qed.

Lemma padded_tail_length (n : Number) (W : Z) :
  Z.of_nat (length (padded_tail n W)) = Z.max (Z.of_nat (width n)) W.
Proof.
  unfold padded_tail, width. rewrite length_app, repeat_length. lia.
Qed.

(** C3, as amended.  [rotate_r] pads the tail on the most significant end
    with trits equal to the head until the width is at least [W], then
    moves the trit at position 0 to the most significant end of the tail:
    the padded tail is rotated by one position and keeps its width.  The
    head is unchanged and both caches are invalidated. *)
Theorem rotate_r_moves_low_trit_to_top (n : Number) (W : Z) :
  tail n <> [] ->
  exists t rest,
    padded_tail n W = t :: rest
    /\ t = trit_at n 0
    /\ rotate_r n W = Some (mkNumber (head n) (rest ++ [t]) None (-2))
    /\ Z.of_nat (length (rest ++ [t])) = Z.max (Z.of_nat (width n)) W.
Proof.
  intros Hne. destruct (tail n) as [|t0 r0] eqn:E; [congruence|].
  exists t0, (r0 ++ repeat (head n) (Z.to_nat (W - Z.of_nat (width n)))).
  assert (Ep : padded_tail n W
               = t0 :: r0 ++ repeat (head n) (Z.to_nat (W - Z.of_nat (width n)))).
  { unfold padded_tail. rewrite E. reflexivity. }
  split; [exact Ep|]. split; [unfold trit_at; rewrite E; reflexivity|].
  split.
  - unfold rotate_r. rewrite E, rotate_r_pad_spec. cbn [tail head].
    rewrite E. reflexivity.
  - rewrite <- padded_tail_length, Ep, length_app. cbn [length]. lia.
Qed.

(** The number 1 of width 1 rotated at width 3: the tail 1,0,0 becomes
    0,0,1. *)
Lemma rotate_r_moves_low_trit_to_top_witness :
  tail (mkNumber 0 [1] None 1) <> []
  /\ rotate_r (mkNumber 0 [1] None 1) 3
     = Some (mkNumber 0 [0; 0; 1] None (-2)).
Proof.
  assert (H : tail (mkNumber 0 [1] None 1) <> []) by discriminate.
  split; [exact H|].
  destruct (rotate_r_moves_low_trit_to_top (mkNumber 0 [1] None 1) 3 H)
    as (t & rest & Ep & _ & Er & _).
  injection Ep as <- <-. exact Er.
Defined.

(** C3, as stated, fails: the trit taken from position 0 is put back at
    the most significant end, the padded tail does not lose it. *)
Lemma rotate_r_keeps_low_trit :
  ~ (forall n W, tail n <> [] ->
       exists n', rotate_r n W = Some n'
                  /\ tail n' = tl (padded_tail n W)).
Proof.
  intros H.
  destruct (H (mkNumber 0 [1] None 1) 3 ltac:(discriminate)) as (n' & E & Et).
  vm_compute in E. injection E as <-. vm_compute in Et. discriminate.
Qed.

End Rotate.

(** ** The memory tree *)

Section MemoryTreeFacts.

Lemma trit_cases (t : Z) : is_trit t -> t = 0 \/ t = 1 \/ t = 2.
Proof. unfold is_trit. lia. Qed.

Lemma child_trit (t : MemoryTree) (k : Z) :
  is_trit k -> exists o, child t k = Some o.
Proof.
  intros Hk. destruct t as [cl c0 c1 c2].
  destruct (trit_cases k Hk) as [-> | [-> | ->]]; cbn; eauto.
Qed.

Lemma child_set_child_eq (t ch : MemoryTree) (k : Z) :
  is_trit k -> child (set_child t k ch) k = Some (Some ch).
Proof.
  intros Hk. destruct t as [cl c0 c1 c2].
  destruct (trit_cases k Hk) as [-> | [-> | ->]]; reflexivity.
Qed.

Lemma child_set_child_ne (t ch : MemoryTree) (k k' : Z) :
  is_trit k -> k <> k' -> child (set_child t k ch) k' = child t k'.
Proof.
  intros Hk Hne. destruct t as [cl c0 c1 c2].
  destruct (trit_cases k Hk) as [-> | [-> | ->]]; cbn;
    destruct k' as [|[[p|p|]|[p|p|]|]|]; try reflexivity; congruence.
Qed.

Lemma cell_set_child (t ch : MemoryTree) (k : Z) :
  cell (set_child t k ch) = cell t.
Proof.
  destruct t as [cl c0 c1 c2]. cbn.
  destruct k as [|[[p|p|]|[p|p|]|]|]; reflexivity.
Qed.

Lemma shares_head_cells_child (h k : Z) (t ch : MemoryTree) :
  shares_head_cells h t -> child t k = Some (Some ch) ->
  shares_head_cells h ch.
Proof.
  intros Ht Ec path nd c Hp Hc. apply (Ht (k :: path) nd c); [|exact Hc].
  cbn [node_at]. rewrite Ec. exact Hp.
Qed.

Lemma shares_head_cells_leaf (h : Z) (cl : positive) :
  shares_head_cells h (MNode cl None None None).
Proof.
  intros [|k path] nd c Hp Hc; cbn in Hp.
  - injection Hp as <-. cbn in Hc.
    destruct h as [|[[p|p|]|[p|p|]|]|]; discriminate.
  - destruct k as [|[[p|p|]|[p|p|]|]|]; discriminate.
Qed.

(** Replacing the child [k] of [t] by [ch'] keeps the sharing property
    when [ch'] has it and, for [k = h], carries the cell of [t]. *)
Lemma shares_head_cells_set_child (h k : Z) (t ch' : MemoryTree) :
  is_trit k -> shares_head_cells h t -> shares_head_cells h ch' ->
  (k = h -> cell ch' = cell t) ->
  shares_head_cells h (set_child t k ch').
Proof.
  intros Hk Ht Hch Hcell [|k' path] nd c Hp Hc.
  - cbn in Hp. injection Hp as <-. rewrite cell_set_child.
    destruct (Z.eq_dec k h) as [-> | Hne].
    + rewrite child_set_child_eq in Hc by exact Hk. injection Hc as <-.
      apply Hcell. reflexivity.
    + rewrite child_set_child_ne in Hc by assumption.
      apply (Ht [] t c); [reflexivity | exact Hc].
  - cbn [node_at] in Hp. destruct (Z.eq_dec k k') as [<- | Hne].
    + rewrite child_set_child_eq in Hp by exact Hk.
      apply (Hch path nd c Hp Hc).
    + rewrite child_set_child_ne in Hp by assumption.
      apply (Ht (k' :: path) nd c); [exact Hp | exact Hc].
Qed.

(** Replacing the child [k] of [t] keeps the nodes of [t] when [ch'] has
    those of the former child. *)
Lemma node_at_set_child (k : Z) (t ch' : MemoryTree) :
  is_trit k ->
  (forall ch path nd, child t k = Some (Some ch) ->
     node_at ch path = Some nd ->
     exists nd', node_at ch' path = Some nd' /\ cell nd' = cell nd) ->
  forall path nd, node_at t path = Some nd ->
    exists nd', node_at (set_child t k ch') path = Some nd'
                /\ cell nd' = cell nd.
Proof.
  intros Hk Hch [|k' path] nd Hp.
  - cbn in Hp. injection Hp as <-. exists (set_child t k ch').
    split; [reflexivity | apply cell_set_child].
  - cbn [node_at] in *. destruct (Z.eq_dec k k') as [<- | Hne].
    + rewrite child_set_child_eq by exact Hk.
      destruct (child t k) as [[ch|]|] eqn:Ec; try discriminate.
      apply (Hch ch path nd eq_refl Hp).
    + rewrite child_set_child_ne by assumption. exists nd. auto.
Qed.

(** The walk of [update_memptr] from a node with the sharing property. *)
Lemma update_memptr_loop_spec (h : Z) (its : list Z) :
  is_trit h -> Forall is_trit its ->
  forall cur hp,
    shares_head_cells h cur ->
    exists r cur' hp',
      update_memptr_loop its h cur (cell cur) hp = Some (r, cur', hp')
      /\ cell cur' = cell cur
      /\ (exists nd, node_at cur' its = Some nd /\ cell nd = r)
      /\ shares_head_cells h cur'
      /\ (forall path nd, node_at cur path = Some nd ->
            exists nd', node_at cur' path = Some nd' /\ cell nd' = cell nd).
Proof.
  intros Hh. induction its as [|t rest IH]; intros Hits cur hp Hcur.
  - exists (cell cur), cur, hp. cbn. repeat split; eauto.
  - inversion Hits as [|? ? Ht Hrest]; subst.
    cbn [update_memptr_loop].
    destruct (child_trit cur t Ht) as [[ch|] Ec]; rewrite Ec.
    + destruct (IH Hrest ch hp (shares_head_cells_child _ _ _ _ Hcur Ec))
        as (r & ch' & hp' & E & Ecell & (nd & End & Er) & Hinv & Hkeep).
      rewrite E. exists r, (set_child cur t ch'), hp'.
      split; [reflexivity|]. split; [apply cell_set_child|].
      split.
      { exists nd. cbn [node_at]. rewrite child_set_child_eq by exact Ht.
        auto. }
      split.
      { apply shares_head_cells_set_child; try assumption.
        intros ->. rewrite Ecell. apply (Hcur [] cur ch eq_refl Ec). }
      apply node_at_set_child; [exact Ht|].
      intros ch0 path nd0 Ec0 Hp. rewrite Ec in Ec0.
      injection Ec0 as <-. apply Hkeep, Hp.
    + set (new := if t =? h then (cell cur, hp) else alloc_cell hp).
      destruct new as [cl hp1] eqn:Enew.
      destruct (IH Hrest (MNode cl None None None) hp1
                  (shares_head_cells_leaf h cl))
        as (r & ch' & hp' & E & Ecell & (nd & End & Er) & Hinv & Hkeep).
      cbn [cell] in E. rewrite E. exists r, (set_child cur t ch'), hp'.
      split; [reflexivity|]. split; [apply cell_set_child|].
      split.
      { exists nd. cbn [node_at]. rewrite child_set_child_eq by exact Ht.
        auto. }
      split.
      { apply shares_head_cells_set_child; try assumption.
        intros ->. rewrite Ecell. cbn [cell]. subst new.
        rewrite Z.eqb_refl in Enew. injection Enew as <- _. reflexivity. }
      apply node_at_set_child; [exact Ht|].
      intros ch0 path nd0 Ec0 Hp. rewrite Ec in Ec0. discriminate.
Qed.

(** Children reached by trits equal to the head keep the cell. *)
Lemma node_at_head_suffix (h : Z) (t : MemoryTree) (path : list Z) (k : nat) :
  shares_head_cells h t ->
  forall nd, node_at t (path ++ repeat h k) = Some nd ->
    exists nd0, node_at t path = Some nd0 /\ cell nd = cell nd0.
Proof.
  intros Ht. induction k as [|k IH]; intros nd Hp.
  - rewrite app_nil_r in Hp. eauto.
  - assert (Er : repeat h (S k) = repeat h k ++ [h]).
    { clear. induction k as [|k IH]; [reflexivity|].
      cbn [repeat app] in *. rewrite <- IH. reflexivity. }
    rewrite Er, app_assoc in Hp.
    assert (Happ : forall p q x, node_at t (p ++ q) = Some x ->
              exists y, node_at t p = Some y /\ node_at y q = Some x).
    { clear. intros p. revert t. induction p as [|a p IHp]; intros t q x Hx.
      - exists t. auto.
      - cbn [app node_at] in *.
        destruct (child t a) as [[ch|]|]; try discriminate.
        apply IHp, Hx. }
    destruct (Happ _ _ _ Hp) as (y & Hy & Hq).
    cbn [node_at] in Hq.
    destruct (child y h) as [[ch|]|] eqn:Ec; try discriminate.
    injection Hq as <-.
    destruct (IH y Hy) as (nd0 & H0 & Ecell).
    exists nd0. split; [exact H0|]. rewrite <- Ecell.
    apply (Ht (path ++ repeat h k) y ch Hy Ec).
Qed.

Lemma update_memptr_loop_trits (h : Z) (its : list Z) :
  forall cur lm hp res,
    update_memptr_loop its h cur lm hp = Some res -> Forall is_trit its.
Proof.
  induction its as [|t rest IH]; intros cur lm hp res E; [constructor|].
  cbn [update_memptr_loop] in E.
  assert (Ht : is_trit t).
  { destruct cur as [cl c0 c1 c2]. unfold is_trit. cbn in E.
    destruct t as [|[[p|p|]|[p|p|]|]|]; try discriminate; lia. }
  constructor; [exact Ht|].
  destruct (child cur t) as [[ch|]|]; try discriminate.
  - destruct (update_memptr_loop rest h ch (cell ch) hp) as [[[r ch'] hp']|]
      eqn:E1; [|discriminate]. apply (IH _ _ _ _ E1).
  - destruct (if t =? h then (lm, hp) else alloc_cell hp) as [cl hp1].
    destruct (update_memptr_loop rest h (MNode cl None None None) cl hp1)
      as [[[r ch'] hp']|] eqn:E1; [|discriminate]. apply (IH _ _ _ _ E1).
Qed.

Lemma memory_extends_refl (m : list MemoryTree) : memory_extends m m.
Proof. intros i root path nd Hr Hp. exists root, nd. auto. Qed.

Lemma memory_extends_trans (m1 m2 m3 : list MemoryTree) :
  memory_extends m1 m2 -> memory_extends m2 m3 -> memory_extends m1 m3.
Proof.
  intros H12 H23 i root path nd Hr Hp.
  destruct (H12 i root path nd Hr Hp) as (root2 & nd2 & Hr2 & Hp2 & E2).
  destruct (H23 i root2 path nd2 Hr2 Hp2) as (root3 & nd3 & Hr3 & Hp3 & E3).
  exists root3, nd3. repeat split; try assumption. congruence.
Qed.

(** A lookup that walks the tree: the cell found is the cell of the node
    at the path of the tail, and the memory only grows. *)
Lemma update_memptr_walk (n : Number) (m : list MemoryTree) (hp : Heap) :
  memory_ok m -> is_trit (head n) -> Forall is_trit (tail n) ->
  memptr n = None ->
  exists r m' hp',
    update_memptr n m hp = Some (set_memptr n (Some r), m', hp')
    /\ memory_ok m' /\ memory_extends m m'
    /\ exists root' nd,
         m' !! Z.to_nat (head n) = Some root'
         /\ node_at root' (tail n) = Some nd /\ cell nd = r.
Proof.
  intros [Hlen Hinv] Hh Hits Hnone. unfold update_memptr. rewrite Hnone.
  replace (head n <? 0) with false by (unfold is_trit in Hh; lia).
  assert (Hi : (Z.to_nat (head n) < length m)%nat)
    by (unfold is_trit in Hh; lia).
  destruct (lookup_lt_is_Some_2 m _ Hi) as [root Hroot]. rewrite Hroot.
  assert (Hroot_inv : shares_head_cells (head n) root).
  { specialize (Hinv _ _ Hroot). rewrite Z2Nat.id in Hinv
      by (unfold is_trit in Hh; lia). exact Hinv. }
  destruct (update_memptr_loop_spec (head n) (tail n) Hh Hits root hp Hroot_inv)
    as (r & root' & hp' & E & Ecell & (nd & Hnd & Er) & Hinv' & Hkeep).
  rewrite E. exists r, (<[Z.to_nat (head n) := root']> m), hp'.
  split; [reflexivity|]. split.
  { split; [rewrite length_insert; exact Hlen|].
    intros i root0 Hr0.
    destruct (Nat.eq_dec (Z.to_nat (head n)) i) as [<- | Hne].
    - rewrite list_lookup_insert_eq in Hr0 by exact Hi.
      injection Hr0 as <-. rewrite Z2Nat.id by (unfold is_trit in Hh; lia).
      exact Hinv'.
    - rewrite list_lookup_insert_ne in Hr0 by exact Hne.
      apply (Hinv _ _ Hr0). }
  split.
  { intros i root0 path nd0 Hr0 Hp0.
    destruct (Nat.eq_dec (Z.to_nat (head n)) i) as [<- | Hne].
    - rewrite Hroot in Hr0. injection Hr0 as <-.
      destruct (Hkeep path nd0 Hp0) as (nd' & Hp' & Ec').
      exists root', nd'. rewrite list_lookup_insert_eq by exact Hi. auto.
    - exists root0, nd0. rewrite list_lookup_insert_ne by exact Hne. auto. }
  exists root', nd. rewrite list_lookup_insert_eq by exact Hi. auto.
Qed.

(** Every call of [update_memptr] that returns keeps the memory well
    formed and all its nodes. *)
Lemma update_memptr_extends (n n' : Number) (m m' : list MemoryTree)
    (hp hp' : Heap) :
  memory_ok m -> update_memptr n m hp = Some (n', m', hp') ->
  memory_ok m' /\ memory_extends m m'.
Proof.
  intros Hm E. destruct (memptr n) as [p|] eqn:Ep.
  - unfold update_memptr in E. rewrite Ep in E. injection E as <- <- <-.
    split; [exact Hm | apply memory_extends_refl].
  - assert (Hh : is_trit (head n) /\ Forall is_trit (tail n)).
    { unfold update_memptr in E. rewrite Ep in E.
      destruct (head n <? 0) eqn:E0; [discriminate|].
      destruct (m !! Z.to_nat (head n)) as [root|] eqn:Er; [|discriminate].
      destruct (update_memptr_loop (tail n) (head n) root (cell root) hp)
        as [res|] eqn:El; [|discriminate].
      split; [|apply (update_memptr_loop_trits _ _ _ _ _ _ El)].
      apply lookup_lt_Some in Er. destruct Hm as [Hlen _].
      unfold is_trit. lia. }
    destruct Hh as [Hh Hits].
    destruct (update_memptr_walk n m hp Hm Hh Hits Ep)
      as (r & m1 & hp1 & E1 & Hok & Hext & _).
    rewrite E1 in E. injection E as _ <- _. auto.
Qed.

Lemma memory_init_ok : memory_ok (fst memory_init).
Proof.
  split; [reflexivity|]. intros i root Hr.
  do 3 (destruct i as [|i];
        [injection Hr as <-; apply shares_head_cells_leaf|]).
  discriminate.
Qed.

Lemma all_head_repeat (h : Z) (l : list Z) :
  (forall i, nth i l h = h) -> l = repeat h (length l).
Proof.
  induction l as [|t r IH]; intros H; [reflexivity|].
  cbn [length repeat]. pose proof (H 0%nat) as H0. cbn in H0. subst t.
  f_equal. apply IH. intros i. apply (H (S i)).
Qed.

(** Of two tails that agree once extended with [h], one is the other
    followed by trits [h]. *)
Lemma equal_tails_padding (h : Z) (l1 l2 : list Z) :
  (forall i, nth i l1 h = nth i l2 h) ->
  exists k, l1 = l2 ++ repeat h k \/ l2 = l1 ++ repeat h k.
Proof.
  revert l2. induction l1 as [|a r1 IH]; intros l2 H.
  - exists (length l2). right. apply all_head_repeat.
    intros i. rewrite <- H. destruct i; reflexivity.
  - destruct l2 as [|b r2].
    + exists (length (a :: r1)). left. apply all_head_repeat.
      intros i. rewrite H. destruct i; reflexivity.
    + pose proof (H 0%nat) as H0. cbn in H0. subst b.
      destruct (IH r2 (fun i => H (S i))) as [k [E | E]]; exists k;
        [left | right]; cbn [app]; f_equal; exact E.
Qed.

End MemoryTreeFacts.

(** ** mod *)

Section Mod.

Variable m : Z.
Hypothesis m_range : 2 <= m <= 29524.

Lemma int_range_small (x : Z) : 0 <= x < 2 ^ 30 -> int_range x = true.
Proof. unfold int_range. lia. Qed.

Lemma mod_loop_spec (h : Z) (rest : list Z) :
  is_trit h -> Forall is_trit rest ->
  forall t result position,
    is_trit t -> 0 <= result < 2 ^ 16 -> 0 <= position < m ->
    mod_loop (t :: rest) h m result position
    = Some ((result + position * offset_sum h (t :: rest)) mod m).
Proof.
  intros Hh. induction rest as [|t' rest IH];
    intros Hr t result position Ht Hres Hpos.
  - cbn [mod_loop offset_sum]. unfold is_trit in *.
    rewrite !int_range_small by nia. cbn [andb].
    rewrite Z.rem_mod_nonneg by nia. f_equal.
    replace (result + position * (t + (m - h)))
      with (result + position * (t - h + 3 * 0) + position * m) by ring.
    apply Z.mod_add. lia.
  - inversion Hr as [|? ? Ht' Hr']; subst.
    change (mod_loop (t :: t' :: rest) h m result position)
      with (let prod := position * (t + (m - h)) in
            let result1 := result + prod in
            if int_range prod && int_range result1
               && int_range (position * 3)
            then mod_loop (t' :: rest) h m (Z.rem result1 m)
                   (Z.rem (position * 3) m)
            else None).
    cbv zeta. unfold is_trit in Hh, Ht.
    rewrite !int_range_small by nia. cbn [andb].
    rewrite !Z.rem_mod_nonneg by nia.
    assert (Hm0 : 0 < m) by lia.
    pose proof (Z.mod_pos_bound (result + position * (t + (m - h))) m Hm0).
    pose proof (Z.mod_pos_bound (position * 3) m Hm0).
    rewrite IH by (try assumption; lia). f_equal.
    change (offset_sum h (t :: t' :: rest))
      with (t - h + 3 * offset_sum h (t' :: rest)).
    set (s := offset_sum h (t' :: rest)).
    rewrite Z.add_mod, (Z.mul_mod ((position * 3) mod m)) by lia.
    rewrite !Z.mod_mod by lia.
    rewrite <- Z.mul_mod, <- Z.add_mod by lia.
    replace (result + position * (t + (m - h)) + position * 3 * s)
      with (result + position * (t - h + 3 * s) + position * m) by ring.
    apply Z.mod_add. lia.
Qed.

Lemma offset_sum_all_head (h : Z) (l : list Z) :
  (forall i, nth i l h = h) -> offset_sum h l = 0.
Proof.
  induction l as [|t r IH]; intros H; [reflexivity|].
  cbn [offset_sum]. pose proof (H 0%nat) as H0. cbn in H0.
  rewrite IH; [lia|]. intros i. apply (H (S i)).
Qed.

Lemma offset_sum_ext (h : Z) (l1 l2 : list Z) :
  (forall i, nth i l1 h = nth i l2 h) -> offset_sum h l1 = offset_sum h l2.
Proof.
  revert l2. induction l1 as [|t1 r1 IH]; intros l2 H.
  - symmetry. apply offset_sum_all_head. intros i. rewrite <- H.
    destruct i; reflexivity.
  - destruct l2 as [|t2 r2].
    + apply offset_sum_all_head. intros i. rewrite H. destruct i; reflexivity.
    + cbn [offset_sum]. pose proof (H 0%nat) as H0. cbn in H0. subst t2.
      rewrite (IH r2); [reflexivity|]. intros i. apply (H (S i)).
Qed.

Lemma offset_sum_zero_head (l : list Z) : offset_sum 0 l = value_of l.
Proof.
  induction l as [|t r IH]; [reflexivity|]. cbn [offset_sum value_of].
  rewrite IH. lia.
Qed.

Lemma mod_eq (n : Number) :
  valid_number n -> mod_ n m = Some (mod_formula n m).
Proof.
  intros (Hh & Hl & Hne). unfold mod_, mod_formula.
  replace (m =? 0) with false by lia.
  assert (Hm0 : 0 < m) by lia.
  pose proof (Z.mod_pos_bound 29524 m Hm0) as Hb.
  rewrite Z.rem_mod_nonneg by lia. unfold is_trit in Hh.
  rewrite int_range_small by nia.
  destruct (tail n) as [|t rest] eqn:E; [congruence|].
  inversion Hl as [|? ? Ht Hr]; subst.
  rewrite mod_loop_spec by (try assumption; nia). f_equal.
  rewrite Z.mul_1_l.
  rewrite Z.add_mod, Z.mul_mod_idemp_l, <- Z.add_mod by lia.
  f_equal. ring.
Qed.

End Mod.

(** C7.  For a number with trits in {0, 1, 2} and a tail of width at
    least 1, and a modulus [m] from 2 to 29524, [mod] returns the sum of
    [(tail[i] - head) * 3^i] plus [29524 * head], reduced modulo [m]; the
    result lies in [0, m), no intermediate value leaves the range of [int],
    and two numbers that are equal as values give the same result whatever
    their widths.  With head 0 the result is the value of the tail modulo
    [m].  The moduli 6 and 564 that [main] uses are in range. *)
Theorem mod_formula_width_independent (n : Number) (m : Z) :
  valid_number n -> 2 <= m <= 29524 ->
  mod_ n m = Some (mod_formula n m)
  /\ 0 <= mod_formula n m < m
  /\ (forall n2, valid_number n2 -> value_equal n n2 ->
        mod_ n2 m = mod_ n m)
  /\ (head n = 0 -> mod_formula n m = value_of (tail n) mod m)
  /\ mod_ n 6 = Some (mod_formula n 6)
  /\ mod_ n 564 = Some (mod_formula n 564).
Proof.
  intros Hv Hm. split; [apply mod_eq; assumption|].
  split; [apply Z.mod_pos_bound; lia|].
  split.
  { intros n2 Hv2 [Eh Et]. rewrite !mod_eq by assumption. f_equal.
    unfold mod_formula. rewrite <- Eh. f_equal. f_equal.
    apply offset_sum_ext. intros i. specialize (Et i). unfold trit_at in Et.
    rewrite <- Eh in Et. symmetry. exact Et. }
  split.
  { intros E. unfold mod_formula. rewrite E, offset_sum_zero_head.
    f_equal. lia. }
  split; apply mod_eq; (assumption || lia).
Qed.

(** The numbers ...2212 of width 2 and of width 4 have the same residue
    modulo 6. *)
Lemma mod_formula_width_independent_witness :
  valid_number (mkNumber 2 [2; 1] None (-1))
  /\ 2 <= 6 <= 29524
  /\ mod_ (mkNumber 2 [2; 1; 2; 2] None (-1)) 6
     = mod_ (mkNumber 2 [2; 1] None (-1)) 6.
Proof.
  assert (V : valid_number (mkNumber 2 [2; 1] None (-1))).
  { unfold valid_number, is_trit. cbn.
    repeat split; try lia; [repeat constructor; lia | discriminate]. }
  assert (M : 2 <= 6 <= 29524) by lia.
  split; [exact V|]. split; [exact M|].
  destruct (mod_formula_width_independent _ 6 V M) as (_ & _ & W & _).
  apply W.
  - unfold valid_number, is_trit. cbn.
    repeat split; try lia; [repeat constructor; lia | discriminate].
  - split; [reflexivity|]. intros i. unfold trit_at. cbn.
    do 4 (destruct i as [|i]; [reflexivity|]). destruct i; reflexivity.
Defined.

(** ** increment *)

Section Increment.

Lemma low_value_cons (h t : Z) (r : list Z) (m : option positive) (u : Z)
    (k : nat) :
  low_value (mkNumber h (t :: r) m u) (S k)
  = t + 3 * low_value (mkNumber h r m u) k.
Proof.
  unfold low_value, trit_at. cbn [tail head seq map value_of nth].
  rewrite <- seq_shift, map_map. reflexivity.
Qed.

Lemma low_value_nil (h : Z) (m : option positive) (u : Z) (k : nat) :
  low_value (mkNumber h [] m u) (S k)
  = h + 3 * low_value (mkNumber h [] m u) k.
Proof.
  unfold low_value, trit_at. cbn [tail head seq map value_of nth].
  rewrite <- seq_shift, map_map. f_equal. f_equal. f_equal.
  apply map_ext. intros [|i]; reflexivity.
Qed.

Lemma low_value_fields (h : Z) (l : list Z) (m m' : option positive)
    (u u' : Z) (k : nat) :
  low_value (mkNumber h l m u) k = low_value (mkNumber h l m' u') k.
Proof. reflexivity. Qed.

Lemma low_value_bound (n : Number) (k : nat) :
  is_trit (head n) -> Forall is_trit (tail n) ->
  0 <= low_value n k < 3 ^ Z.of_nat k.
Proof.
  destruct n as [h l m u]. cbn [head tail]. intros Hh. revert l.
  induction k as [|k IH]; intros l Hl.
  - cbn. lia.
  - rewrite Nat2Z.inj_succ, Z.pow_succ_r by lia.
    destruct l as [|t r].
    + rewrite low_value_nil. specialize (IH [] Hl). unfold is_trit in Hh. lia.
    + rewrite low_value_cons. inversion Hl as [|? ? Ht Hr]; subst.
      specialize (IH r Hr). unfold is_trit in Ht. lia.
Qed.

Lemma low_value_all (h : Z) (m : option positive) (u : Z) (k : nat) :
  low_value (mkNumber h [] m u) k = h * ((3 ^ Z.of_nat k - 1) / 2).
Proof.
  induction k as [|k IH].
  { change ((3 ^ Z.of_nat 0 - 1) / 2) with 0. unfold low_value. cbn. lia. }
  rewrite low_value_nil, IH, Nat2Z.inj_succ, Z.pow_succ_r by lia.
  assert (E : exists q, 3 ^ Z.of_nat k - 1 = 2 * q).
  { clear. induction k as [|k [q Hq]]; [exists 0; reflexivity|].
    rewrite Nat2Z.inj_succ, Z.pow_succ_r by lia. exists (3 * q + 1). lia. }
  destruct E as [q Hq].
  replace (3 * 3 ^ Z.of_nat k - 1) with (2 * (3 * q + 1)) by lia.
  rewrite Hq, !(Z.mul_comm 2), !Z.div_mul by lia. lia.
Qed.

Lemma increment_result_two (h : Z) (r : list Z) :
  increment_result h (2 :: r)
  = (fst (increment_result h r), 0 :: snd (increment_result h r)).
Proof.
  unfold increment_result. cbn [increment_loop].
  change (Z.rem (2 + 1) 3) with 0. cbn [Z.eqb negb].
  destruct (increment_loop r) as [r' ret]. destruct ret; [reflexivity|].
  destruct (h =? T2); reflexivity.
Qed.

Lemma increment_result_low (h t : Z) (r : list Z) :
  is_trit t -> t <> 2 -> increment_result h (t :: r) = (h, (t + 1) :: r).
Proof.
  unfold is_trit. intros Ht Hn. unfold increment_result. cbn [increment_loop].
  assert (E : t = 0 \/ t = 1) by lia. destruct E as [-> | ->]; reflexivity.
Qed.

(** The [k] low trits of the result are those of the argument plus one,
    modulo [3^k]. *)
Lemma increment_result_value (h : Z) (l : list Z) (m m' : option positive)
    (u u' : Z) (k : nat) :
  is_trit h -> Forall is_trit l ->
  low_value (mkNumber (fst (increment_result h l))
               (snd (increment_result h l)) m' u') k
  = (low_value (mkNumber h l m u) k + 1) mod 3 ^ Z.of_nat k.
Proof.
  intros Hh. revert k. induction l as [|t r IH]; intros k Hl.
  - unfold increment_result. cbn [increment_loop].
    destruct (h =? T2) eqn:E.
    + apply Z.eqb_eq in E. subst h. cbn [fst snd].
      rewrite !low_value_all. unfold T0, T2.
      assert (Ev : exists q, 3 ^ Z.of_nat k - 1 = 2 * q).
      { clear. induction k as [|k [q Hq]]; [exists 0; reflexivity|].
        rewrite Nat2Z.inj_succ, Z.pow_succ_r by lia. exists (3 * q + 1). lia. }
      destruct Ev as [q Hq]. rewrite Hq, (Z.mul_comm 2 q), Z.div_mul by lia.
      replace (2 * q + 1) with (3 ^ Z.of_nat k) by lia.
      rewrite Z.mod_same by (apply Z.pow_nonzero; lia). lia.
    + apply Z.eqb_neq in E. cbn [fst snd app].
      destruct k as [|k]; [reflexivity|].
      rewrite low_value_cons, low_value_nil.
      rewrite (low_value_fields h [] m' m u' u).
      rewrite Z.mod_small; [lia|].
      assert (Hb : is_trit (h + 1)) by (unfold is_trit, T2 in *; lia).
      pose proof (low_value_bound (mkNumber h [h + 1] m u) (S k) Hh
                    ltac:(constructor; [exact Hb | constructor])) as B.
      rewrite low_value_cons in B. lia.
  - inversion Hl as [|? ? Ht Hr]; subst.
    destruct k as [|k]; [reflexivity|].
    destruct (Z.eq_dec t 2) as [-> | Hn].
    + rewrite increment_result_two. cbn [fst snd].
      rewrite !low_value_cons, (IH k Hr).
      rewrite Nat2Z.inj_succ, Z.pow_succ_r by lia.
      rewrite <- Z.mul_mod_distr_l by (try apply Z.pow_nonzero; lia).
      rewrite Z.add_0_l. f_equal. lia.
    + rewrite increment_result_low by assumption. cbn [fst snd].
      rewrite !low_value_cons.
      rewrite (low_value_fields h r m' m u' u).
      rewrite Z.mod_small; [lia|].
      assert (Hb : is_trit (t + 1)) by (unfold is_trit in *; lia).
      pose proof (low_value_bound (mkNumber h ((t + 1) :: r) m u) (S k) Hh
                    ltac:(constructor; assumption)) as B.
      rewrite low_value_cons in B. lia.
Qed.

Lemma increment_result_zero_head (l : list Z) :
  Forall is_trit l ->
  fst (increment_result 0 l) = 0
  /\ value_of (snd (increment_result 0 l)) = value_of l + 1.
Proof.
  induction l as [|t r IH]; intros Hl.
  - split; reflexivity.
  - inversion Hl as [|? ? Ht Hr]; subst.
    destruct (Z.eq_dec t 2) as [-> | Hn].
    + rewrite increment_result_two. cbn [fst snd value_of].
      destruct (IH Hr) as [-> ->]. split; lia.
    + rewrite increment_result_low by assumption. cbn [fst snd value_of].
      split; lia.
Qed.

Lemma increment_result_carry (h t : Z) (rest : list Z) (j : nat) :
  is_trit t -> t <> 2 ->
  increment_result h (repeat 2 j ++ t :: rest)
  = (h, repeat 0 j ++ (t + 1) :: rest).
Proof.
  intros Ht Hn. induction j as [|j IH]; cbn [repeat app].
  - apply increment_result_low; assumption.
  - rewrite increment_result_two, IH. reflexivity.
Qed.

Lemma increment_result_all_two (h : Z) (w : nat) :
  increment_result h (repeat 2 w)
  = if h =? T2 then (T0, repeat 0 w) else (h, repeat 0 w ++ [h + 1]).
Proof.
  induction w as [|w IH]; cbn [repeat].
  - unfold increment_result. cbn [increment_loop]. reflexivity.
  - rewrite increment_result_two, IH. destruct (h =? T2); reflexivity.
Qed.

Lemma increment_result_valid (h : Z) (l : list Z) :
  is_trit h -> Forall is_trit l -> l <> [] ->
  is_trit (fst (increment_result h l))
  /\ Forall is_trit (snd (increment_result h l))
  /\ snd (increment_result h l) <> [].
Proof.
  intros Hh Hl Hne. destruct l as [|t r]; [congruence|]. clear Hne.
  revert t Hl. induction r as [|t' r IH]; intros t Hl;
    inversion Hl as [|? ? Ht Hr]; subst.
  - destruct (Z.eq_dec t 2) as [-> | Hn].
    + unfold increment_result. cbn [increment_loop].
      change (Z.rem (2 + 1) 3) with 0. cbn [Z.eqb negb].
      destruct (h =? T2) eqn:E; cbn [fst snd app].
      * repeat split; try discriminate; unfold is_trit, T0; try lia.
        repeat constructor; lia.
      * apply Z.eqb_neq in E. repeat split; try discriminate; try apply Hh.
        repeat constructor; unfold is_trit, T2 in *; lia.
    + rewrite increment_result_low by assumption. cbn [fst snd].
      repeat split; try discriminate; try apply Hh.
      repeat constructor; unfold is_trit in *; lia.
  - destruct (Z.eq_dec t 2) as [-> | Hn].
    + rewrite increment_result_two. cbn [fst snd].
      destruct (IH t' Hr) as (H1 & H2 & H3).
      repeat split; try discriminate; try apply H1.
      constructor; [unfold is_trit; lia | exact H2].
    + rewrite increment_result_low by assumption. cbn [fst snd].
      repeat split; try discriminate; try apply Hh.
      constructor; [unfold is_trit in *; lia | exact Hr].
Qed.

Lemma increment_eq (cells : gmap positive MemCell) (n : Number) :
  tail n <> [] -> memptr_ok cells n ->
  increment cells n
  = Some (mkNumber (fst (increment_result (head n) (tail n)))
            (snd (increment_result (head n) (tail n)))
            (increment_memptr cells n) (increment_unicode n)).
Proof.
  intros Hne Hm. unfold increment, increment_memptr, increment_unicode,
    increment_result, memptr_ok in *.
  destruct (memptr n) as [p|].
  - destruct Hm as [cl ->].
    destruct (increment_loop (tail n)) as [its ret].
    destruct ret; [reflexivity|].
    destruct (head n =? T2); [reflexivity|].
    destruct (tail n); [congruence|reflexivity].
  - destruct (increment_loop (tail n)) as [its ret].
    destruct ret; [reflexivity|].
    destruct (head n =? T2); [reflexivity|].
    destruct (tail n); [congruence|reflexivity].
Qed.

(** C8.  On a number with trits in {0, 1, 2} and a tail of width at least
    1, [increment] returns the number one greater: for every [k] its [k]
    low trits are those of the argument plus one modulo [3^k].  The tail
    changes as the carry runs: trits 2 from position 0 on become 0 and the
    first other trit [t] becomes [t + 1]; when all trits are 2, one trit
    [head + 1] is appended, except for head 2, where the head becomes 0
    and nothing is appended.  With head 0 the integer value of the tail
    grows by one.  Two increments give the number two greater. *)
Theorem increment_adds_one (cells : gmap positive MemCell) (n : Number) :
  valid_number n -> memptr_ok cells n -> links_ok cells ->
  exists n',
    increment cells n = Some n'
    /\ valid_number n'
    /\ (forall k, low_value n' k = (low_value n k + 1) mod 3 ^ Z.of_nat k)
    /\ (forall j t rest, tail n = repeat 2 j ++ t :: rest -> t <> 2 ->
          tail n' = repeat 0 j ++ (t + 1) :: rest /\ head n' = head n)
    /\ (tail n = repeat 2 (width n) -> head n <> 2 ->
          tail n' = repeat 0 (width n) ++ [head n + 1] /\ head n' = head n)
    /\ (tail n = repeat 2 (width n) -> head n = 2 ->
          tail n' = repeat 0 (width n) /\ head n' = 0)
    /\ (head n = 0 ->
          head n' = 0 /\ value_of (tail n') = value_of (tail n) + 1)
    /\ exists n'',
         increment cells n' = Some n''
         /\ valid_number n''
         /\ (forall k, low_value n'' k
                       = (low_value n k + 2) mod 3 ^ Z.of_nat k)
         /\ (head n = 0 ->
               head n'' = 0 /\ value_of (tail n'') = value_of (tail n) + 2).
Proof.
  intros (Hh & Hl & Hne) Hm Hlinks.
  rewrite (increment_eq cells n Hne Hm).
  set (n' := mkNumber (fst (increment_result (head n) (tail n)))
               (snd (increment_result (head n) (tail n)))
               (increment_memptr cells n) (increment_unicode n)).
  destruct (increment_result_valid (head n) (tail n) Hh Hl Hne)
    as (Hh' & Hl' & Hne').
  assert (Hv : forall k, low_value n' k
                         = (low_value n k + 1) mod 3 ^ Z.of_nat k).
  { intros k. destruct n as [h l m u]. subst n'. cbn [head tail] in *.
    apply increment_result_value; assumption. }
  assert (Hm' : memptr_ok cells n').
  { unfold memptr_ok, n', increment_memptr. cbn [memptr].
    destruct (memptr n) as [p|]; [|exact I].
    destruct (cells !! p) as [cl|] eqn:Ec; [|exact I].
    destruct (next cl) as [q|] eqn:En; [|exact I].
    apply (Hlinks p cl q Ec En). }
  exists n'. split; [reflexivity|].
  split; [exact (conj Hh' (conj Hl' Hne'))|].
  split; [exact Hv|].
  split.
  { intros j t rest E Hn. subst n'. cbn [head tail]. rewrite E.
    rewrite increment_result_carry; [split; reflexivity| |exact Hn].
    rewrite E in Hl. apply Forall_app in Hl. destruct Hl as [_ Hl].
    inversion Hl; assumption. }
  split.
  { intros E Hn. subst n'. cbn [head tail]. rewrite E at 1 2.
    rewrite increment_result_all_two.
    replace (head n =? T2) with false by (unfold T2; lia).
    split; reflexivity. }
  split.
  { intros E Hn. subst n'. cbn [head tail]. rewrite E at 1 2.
    rewrite increment_result_all_two.
    replace (head n =? T2) with true by (unfold T2; lia).
    split; reflexivity. }
  split.
  { intros E. subst n'. cbn [head tail]. rewrite E.
    apply increment_result_zero_head, Hl. }
  rewrite (increment_eq cells n' Hne' Hm').
  destruct (increment_result_valid (head n') (tail n') Hh' Hl' Hne')
    as (Hh'' & Hl'' & Hne'').
  eexists. split; [reflexivity|].
  split; [exact (conj Hh'' (conj Hl'' Hne''))|].
  split.
  { intros k.
    rewrite (increment_result_value (head n') (tail n') (memptr n') _
               (unicode n') _ k Hh' Hl').
    replace (mkNumber (head n') (tail n') (memptr n') (unicode n')) with n'
      by reflexivity.
    rewrite Hv, Zplus_mod_idemp_l. f_equal. lia. }
  intros E. cbn [head tail].
  destruct (increment_result_zero_head (tail n) Hl) as [E1 E2].
  assert (E0 : head n' = 0) by (subst n'; cbn [head]; rewrite E; exact E1).
  rewrite E0.
  destruct (increment_result_zero_head (tail n') Hl') as [E3 E4].
  split; [exact E3|]. rewrite E4. subst n'. cbn [tail]. rewrite E, E2. lia.
Qed.

(** The number 8 = ...0022: one increment gives 9 = ...00100. *)
Lemma increment_adds_one_witness :
  valid_number (mkNumber 0 [2; 2] None 8)
  /\ memptr_ok ∅ (mkNumber 0 [2; 2] None 8)
  /\ links_ok ∅
  /\ exists n', increment ∅ (mkNumber 0 [2; 2] None 8) = Some n'
                /\ value_of (tail n') = 9.
Proof.
  assert (V : valid_number (mkNumber 0 [2; 2] None 8)).
  { unfold valid_number, is_trit. cbn.
    repeat split; try lia; [repeat constructor; lia | discriminate]. }
  assert (M : memptr_ok ∅ (mkNumber 0 [2; 2] None 8)) by exact I.
  assert (L : links_ok ∅).
  { intros p cl q E. rewrite lookup_empty in E. discriminate. }
  split; [exact V|]. split; [exact M|]. split; [exact L|].
  destruct (increment_adds_one ∅ _ V M L)
    as (n' & E & _ & _ & _ & _ & _ & Hz & _).
  exists n'. split; [exact E|].
  destruct (Hz eq_refl) as [_ ->]. reflexivity.
Defined.

End Increment.

(** ** xlat2 *)

Section Xlat2.

Lemma printable_complete (u : Z) : 33 <= u < 127 -> In u printable.
Proof.
  intros Hu. unfold printable. apply in_map_iff.
  exists (Z.to_nat u). split; [lia|]. apply in_seq. lia.
Qed.

Lemma printable_cases (P : Z -> bool) :
  forallb P printable = true -> forall u, 33 <= u < 127 -> P u = true.
Proof.
  intros H u Hu. rewrite forallb_forall in H.
  apply H, printable_complete, Hu.
Qed.

Lemma xlat2_code_range (u : Z) :
  33 <= u < 127 -> 33 <= xlat2_code u < 127.
Proof.
  intros Hu.
  apply (printable_cases
           (fun u => (33 <=? xlat2_code u) && (xlat2_code u <? 127))) in Hu;
    [lia | now vm_compute].
Qed.

Lemma xlat2_code_order (u : Z) :
  33 <= u < 127 -> Nat.iter 3060 xlat2_code u = u.
Proof.
  intros Hu.
  apply (printable_cases (fun u => Nat.iter 3060 xlat2_code u =? u)) in Hu;
    [lia | now vm_compute].
Qed.

Lemma xlat2_table_permutation : Permutation xlat2_table printable.
Proof. refine (bool_decide_unpack _ _). vm_compute. exact I. Qed.

(** One application on a number whose Unicode projection, once
    refreshed, is a printable codepoint. *)
Lemma xlat2_repaired_printable (n : Number) :
  33 <= unicode (update_unicode n) < 127 ->
  xlat2_repaired n
  = Some (mkNumber (head n)
            (trits_of (xlat2_code (unicode (update_unicode n)))) None
            (xlat2_code (unicode (update_unicode n)))).
Proof.
  intros Hu. pose proof (xlat2_code_range _ Hu) as Hc.
  unfold xlat2_repaired, xlat2.
  destruct (update_unicode_fields n) as (Eh & _ & _).
  replace (unicode (update_unicode n) <? 33) with false by lia.
  replace (unicode (update_unicode n) >? 126) with false by lia.
  cbn [orb option_map]. fold (xlat2_code (unicode (update_unicode n))).
  unfold repair_number_after_xlat2. cbn [tail unicode head].
  replace (xlat2_code (unicode (update_unicode n)) <? 0) with false by lia.
  rewrite Eh. reflexivity.
Qed.

Lemma xlat2_code_iter_range (k : nat) (u : Z) :
  33 <= u < 127 -> 33 <= Nat.iter k xlat2_code u < 127.
Proof.
  intros Hu. induction k as [|k IH]; [exact Hu|].
  cbn [Nat.iter nat_rect]. apply xlat2_code_range, IH.
Qed.

Lemma xlat2_iter_printable (k : nat) (n : Number) :
  33 <= unicode (update_unicode n) < 127 ->
  xlat2_iter (S k) n
  = Some (mkNumber (head n)
            (trits_of (Nat.iter (S k) xlat2_code (unicode (update_unicode n))))
            None
            (Nat.iter (S k) xlat2_code (unicode (update_unicode n)))).
Proof.
  revert n. induction k as [|k IH]; intros n Hu.
  - cbn [xlat2_iter]. rewrite xlat2_repaired_printable by exact Hu. reflexivity.
  - change (xlat2_iter (S (S k)) n)
      with (match xlat2_repaired n with
            | Some n => xlat2_iter (S k) n
            | None => None
            end).
    rewrite xlat2_repaired_printable by exact Hu.
    pose proof (xlat2_code_range _ Hu) as Hc.
    set (n1 := mkNumber (head n)
                 (trits_of (xlat2_code (unicode (update_unicode n)))) None
                 (xlat2_code (unicode (update_unicode n)))).
    assert (E1 : update_unicode n1 = n1)
      by (apply update_unicode_cached; cbn [n1 unicode]; lia).
    rewrite IH by (rewrite E1; exact Hc).
    rewrite E1. cbn [n1 head unicode]. rewrite <- Nat.iter_succ_r. reflexivity.
Qed.

(** The cycle through a codepoint: its length is one of 2, 4, 5, 6, 9
    and 68, that many applications lead back to the codepoint and fewer
    do not. *)
Lemma cycle_length_spec (u : Z) :
  33 <= u < 127 ->
  In (cycle_length u) cycle_lengths
  /\ Nat.iter (cycle_length u) xlat2_code u = u
  /\ forall j, (0 < j < cycle_length u)%nat ->
               Nat.iter j xlat2_code u <> u.
Proof.
  intros Hu.
  apply (printable_cases
           (fun u =>
              existsb (Nat.eqb (cycle_length u)) cycle_lengths
              && (Nat.iter (cycle_length u) xlat2_code u =? u)
              && forallb (fun j => negb (Nat.iter j xlat2_code u =? u))
                   (seq 1 (cycle_length u - 1)))) in Hu;
    [|now vm_compute].
  apply andb_prop in Hu. destruct Hu as [Hu H3].
  apply andb_prop in Hu. destruct Hu as [H1 H2].
  split; [|split].
  - apply existsb_exists in H1. destruct H1 as (L & HL & E).
    apply Nat.eqb_eq in E. rewrite E. exact HL.
  - lia.
  - intros j Hj. rewrite forallb_forall in H3.
    specialize (H3 j ltac:(apply in_seq; lia)). lia.
Qed.

Lemma iter_period {A} (f : A -> A) (x : A) (L q r : nat) :
  Nat.iter L f x = x -> Nat.iter (q * L + r) f x = Nat.iter r f x.
Proof.
  intros HL. rewrite Nat.add_comm, Nat.iter_add. f_equal.
  induction q as [|q IH]; [reflexivity|].
  cbn [Nat.mul]. rewrite Nat.add_comm, Nat.iter_add, HL. exact IH.
Qed.

(** A number of applications that leads back to [u] is a multiple of
    the length of its cycle. *)
Lemma cycle_divides (u : Z) (k : nat) :
  33 <= u < 127 -> Nat.iter k xlat2_code u = u ->
  Nat.divide (cycle_length u) k.
Proof.
  intros Hu Hk. destruct (cycle_length_spec u Hu) as (HL & Hper & Hmin).
  assert (H0 : cycle_length u <> 0%nat).
  { intros E. rewrite E in HL. cbn in HL. intuition discriminate. }
  apply Nat.Lcm0.mod_divide.
  pose proof (Nat.mod_upper_bound k (cycle_length u) H0) as Hb.
  destruct (Nat.eq_dec (k mod cycle_length u)%nat 0%nat) as [E | N];
    [exact E|].
  exfalso. apply (Hmin (k mod cycle_length u)%nat); [lia|].
  rewrite <- (iter_period xlat2_code u (cycle_length u)
                (k / cycle_length u)%nat (k mod cycle_length u)%nat Hper).
  rewrite (Nat.mul_comm (k / cycle_length u)%nat), <- Nat.div_mod_eq.
  exact Hk.
Qed.

(** The order of the substitution is 3060: the numbers of applications
    after which every codepoint is back are the multiples of 3060. *)
Lemma xlat2_code_order_exact (k : nat) :
  (forall u, 33 <= u < 127 -> Nat.iter k xlat2_code u = u)
  <-> Nat.divide 3060 k.
Proof.
  split.
  - intros H.
    pose proof (cycle_divides 33 k ltac:(lia) (H 33 ltac:(lia))) as H68.
    pose proof (cycle_divides 50 k ltac:(lia) (H 50 ltac:(lia))) as H9.
    pose proof (cycle_divides 41 k ltac:(lia) (H 41 ltac:(lia))) as H5.
    change (cycle_length 33) with 68%nat in H68.
    change (cycle_length 50) with 9%nat in H9.
    change (cycle_length 41) with 5%nat in H5.
    replace 3060%nat with (Nat.lcm (Nat.lcm 68 9) 5)
      by (vm_compute; reflexivity).
    apply Nat.lcm_least; [apply Nat.lcm_least|]; assumption.
  - intros [q ->] u Hu.
    rewrite <- (Nat.add_0_r (q * 3060)).
    apply (iter_period xlat2_code u 3060 q 0), xlat2_code_order, Hu.
Qed.

(** The cycles: for each of the lengths 2, 4, 5, 6, 9 and 68 as many
    codepoints as the length lie on a cycle of that length, so there is
    one cycle of each. *)
Lemma cycle_length_count (L : nat) :
  In L cycle_lengths ->
  length (List.filter (fun u => Nat.eqb (cycle_length u) L) printable) = L.
Proof.
  unfold cycle_lengths. cbn [In].
  intros [<- | [<- | [<- | [<- | [<- | [<- | []]]]]]];
    vm_compute; reflexivity.
Qed.

(** C9, as amended.  The table is a permutation of the codepoints
    33 .. 126.  Let the Unicode projection [u] of a number, once refreshed,
    be such a codepoint (it is the cached one, or the value of the tail
    under head 0 when it had to be computed).  Then [xlat2] followed by the
    repair of the tail yields the number of value [xlat2_code u], again
    printable, with the same head, and [k >= 1] applications yield the
    number of the value that [k] substitutions make of [u]; 3060
    applications give back [u].  3060 is the order of the permutation:
    [k] substitutions lead every codepoint back to itself exactly when
    [k] is a multiple of 3060.  Its cycles have the lengths 2, 4, 5, 6, 9
    and 68, one cycle of each length: every codepoint is on a cycle of
    one of these lengths, returns after that many substitutions and not
    before, and as many codepoints as the length are on the cycle of that
    length. *)
Theorem xlat2_permutation_order (n : Number) :
  33 <= unicode (update_unicode n) < 127 ->
  Permutation xlat2_table printable
  /\ (unicode n <> -2 -> unicode (update_unicode n) = unicode n)
  /\ (unicode n = -2 -> Forall is_trit (tail n) ->
        head n = 0 /\ unicode (update_unicode n) = value_of (tail n))
  /\ (exists n1, xlat2_repaired n = Some n1
                 /\ unicode n1 = xlat2_code (unicode (update_unicode n))
                 /\ value_of (tail n1)
                    = xlat2_code (unicode (update_unicode n))
                 /\ head n1 = head n
                 /\ 33 <= unicode n1 < 127)
  /\ (forall k, exists nk,
        xlat2_iter (S k) n = Some nk
        /\ unicode nk
           = Nat.iter (S k) xlat2_code (unicode (update_unicode n))
        /\ value_of (tail nk) = unicode nk /\ head nk = head n)
  /\ (forall k, (forall u, 33 <= u < 127 -> Nat.iter k xlat2_code u = u)
                <-> Nat.divide 3060 k)
  /\ (forall u, 33 <= u < 127 ->
        In (cycle_length u) [2; 4; 5; 6; 9; 68]%nat
        /\ Nat.iter (cycle_length u) xlat2_code u = u
        /\ forall j, (0 < j < cycle_length u)%nat ->
                     Nat.iter j xlat2_code u <> u)
  /\ (forall L, In L [2; 4; 5; 6; 9; 68]%nat ->
        length (List.filter (fun u => Nat.eqb (cycle_length u) L)
                  printable) = L)
  /\ (exists n', xlat2_iter 3060 n = Some n'
                 /\ unicode n' = unicode (update_unicode n)
                 /\ value_of (tail n') = unicode (update_unicode n)
                 /\ head n' = head n).
Proof.
  intros Hu. split; [apply xlat2_table_permutation|].
  pose proof (xlat2_code_range _ Hu) as Hc.
  split; [intros H; rewrite update_unicode_cached by exact H; reflexivity|].
  split; [intros E Hl; apply update_unicode_computed; (assumption || lia)|].
  split; [|split; [|split; [|split; [|split]]]].
  - eexists. split; [apply xlat2_repaired_printable, Hu|].
    cbn [unicode tail head]. rewrite value_of_trits_of by lia. auto.
  - intros k. eexists. split; [apply (xlat2_iter_printable k), Hu|].
    cbn [unicode tail head].
    pose proof (xlat2_code_iter_range (S k) _ Hu) as Hk.
    rewrite value_of_trits_of by lia. auto.
  - apply xlat2_code_order_exact.
  - apply cycle_length_spec.
  - apply cycle_length_count.
  - eexists. split; [apply (xlat2_iter_printable 3059), Hu|].
    cbn [unicode tail head]. rewrite xlat2_code_order by exact Hu.
    rewrite value_of_trits_of by lia. auto.
Qed.

(** The number of value 33 built by [to_number]. *)
Lemma xlat2_permutation_order_witness :
  33 <= unicode (update_unicode (mkNumber 0 (trits_of 33) None 33)) < 127
  /\ exists n', xlat2_iter 3060 (mkNumber 0 (trits_of 33) None 33) = Some n'
                /\ unicode n' = 33.
Proof.
  assert (H : 33 <= unicode (update_unicode
                               (mkNumber 0 (trits_of 33) None 33)) < 127)
    by (cbn; lia).
  split; [exact H|].
  destruct (xlat2_permutation_order _ H)
    as (_ & _ & _ & _ & _ & _ & _ & _ & n' & E & Hu & _).
  exists n'. split; [exact E | exact Hu].
Defined.

(** C9, as stated, fails: 94 applications starting from the codepoint 33
    end at 56. *)
Lemma xlat2_94_not_identity :
  ~ (forall u n, 33 <= u < 127 -> to_number u = Some n ->
       exists n', xlat2_iter 94 n = Some n' /\ unicode n' = u).
Proof.
  intros H.
  destruct (H 33 (mkNumber 0 (trits_of 33) None 33) ltac:(lia) eq_refl)
    as (n' & E & Hu).
  rewrite (xlat2_iter_printable 93) in E by (cbn; lia).
  injection E as <-. vm_compute in Hu. discriminate.
Qed.

End Xlat2.



(** ** UTF-8 input and output *)

Section Utf8.

Lemma bytes256_complete b : is_byte b -> In b bytes256.
Proof.
  intros [H0 H1]. unfold bytes256. apply in_map_iff.
  exists (Z.to_nat b). split; [lia|]. apply in_seq. lia.
Qed.

Lemma byte_cases (P : Z -> bool) :
  forallb P bytes256 = true -> forall b, is_byte b -> P b = true.
Proof.
  intros H b Hb. rewrite forallb_forall in H. apply H, bytes256_complete, Hb.
Qed.

Lemma lead1 b : is_byte b -> (Z.land b 0x80 =? 0) = (b <? 0x80).
Proof.
  intros Hb.
  apply (byte_cases (fun b => Bool.eqb (Z.land b 0x80 =? 0) (b <? 0x80))) in Hb;
    [ now apply Bool.eqb_prop | now vm_compute ].
Qed.

Lemma lead2 b : is_byte b -> (Z.land b 0xE0 =? 0xC0) = ((0xC0 <=? b) && (b <? 0xE0)).
Proof.
  intros Hb.
  apply (byte_cases (fun b => Bool.eqb (Z.land b 0xE0 =? 0xC0) ((0xC0 <=? b) && (b <? 0xE0)))) in Hb;
    [ now apply Bool.eqb_prop | now vm_compute ].
Qed.

Lemma lead3 b : is_byte b -> (Z.land b 0xF0 =? 0xE0) = ((0xE0 <=? b) && (b <? 0xF0)).
Proof.
  intros Hb.
  apply (byte_cases (fun b => Bool.eqb (Z.land b 0xF0 =? 0xE0) ((0xE0 <=? b) && (b <? 0xF0)))) in Hb;
    [ now apply Bool.eqb_prop | now vm_compute ].
Qed.

Lemma lead4 b : is_byte b -> (Z.land b 0xF8 =? 0xF0) = ((0xF0 <=? b) && (b <? 0xF8)).
Proof.
  intros Hb.
  apply (byte_cases (fun b => Bool.eqb (Z.land b 0xF8 =? 0xF0) ((0xF0 <=? b) && (b <? 0xF8)))) in Hb;
    [ now apply Bool.eqb_prop | now vm_compute ].
Qed.

Lemma bad_continuation_byte b :
  is_byte b -> bad_continuation b = negb (is_continuation b).
Proof.
  intros Hb.
  apply (byte_cases (fun b => Bool.eqb (bad_continuation b) (negb (is_continuation b)))) in Hb;
    [ now apply Bool.eqb_prop | now vm_compute ].
Qed.

Lemma land_byte_bound b m :
  is_byte b -> 0 <= m < 256 -> 0 <= Z.land b m <= m.
Proof.
  intros Hb Hm. split; [apply Z.land_nonneg; left; apply Hb|].
  assert (Hin: In m bytes256) by (apply bytes256_complete; exact Hm).
  revert m Hin Hm.
  apply (byte_cases (fun b => forallb (fun m => Z.land b m <=? m) bytes256)) in Hb;
    [| now vm_compute].
  rewrite forallb_forall in Hb. intros m Hin _. apply Hb in Hin. lia.
Qed.

Lemma lor_lt_pow2 a b n :
  0 < n -> 0 <= a < 2 ^ n -> 0 <= b < 2 ^ n -> 0 <= Z.lor a b < 2 ^ n.
Proof.
  intros Hn Ha Hb.
  assert (H0 : 0 <= Z.lor a b) by (apply Z.lor_nonneg; lia).
  split; [exact H0|].
  destruct (Z.eq_dec (Z.lor a b) 0) as [E|E].
  - rewrite E. apply Z.pow_pos_nonneg; lia.
  - apply Z.log2_lt_pow2; [lia|].
    rewrite Z.log2_lor by lia.
    assert (La : Z.log2 a < n).
    { destruct (Z.eq_dec a 0) as [->|]; [simpl; lia|]. apply Z.log2_lt_pow2; lia. }
    assert (Lb : Z.log2 b < n).
    { destruct (Z.eq_dec b 0) as [->|]; [simpl; lia|]. apply Z.log2_lt_pow2; lia. }
    lia.
Qed.

Lemma getchar_byte input x rest :
  Forall is_byte input -> getchar input = (x, rest) ->
  (x = EOF /\ input = [] /\ rest = []) \/ (is_byte x /\ input = x :: rest /\ Forall is_byte rest).
Proof.
  intros HF. destruct input as [|b r]; simpl; intros [= <- <-].
  - left; auto.
  - right. inversion HF; subst. auto.
Qed.

Ltac utf8_done :=
  cbn; rewrite ?firstn_O; cbn; rewrite ?andb_false_r; split; congruence.

Lemma read_utf8_character_fatal_iff input :
  Forall is_byte input ->
  read_utf8_character input = Fatal InvalidUtf8 <-> well_formed input = false.
Proof.
  intros HF. destruct input as [|b1 rest].
  - simpl. split; discriminate.
  - inversion HF as [|? ? Hb1 HF1]; subst.
    unfold read_utf8_character, well_formed, lead_length. cbn [getchar].
    replace (b1 =? EOF) with false by (unfold EOF, is_byte in *; lia).
    rewrite (lead1 _ Hb1), (lead2 _ Hb1), (lead3 _ Hb1), (lead4 _ Hb1).
    destruct (b1 <? 128); [simpl; split; discriminate|].
    destruct ((192 <=? b1) && (b1 <? 224)).
    { destruct rest as [|b2 r2]; cbn; [split; reflexivity|].
      inversion HF1; subst. rewrite bad_continuation_byte by assumption.
      destruct (is_continuation b2); utf8_done. }
    destruct ((224 <=? b1) && (b1 <? 240)).
    { destruct rest as [|b2 r2]; cbn; [split; reflexivity|].
      inversion HF1 as [|? ? Hb2 HF2]; subst. rewrite bad_continuation_byte by assumption.
      destruct (is_continuation b2); cbn; [|utf8_done].
      destruct r2 as [|b3 r3]; cbn; [split; reflexivity|].
      inversion HF2; subst. rewrite bad_continuation_byte by assumption.
      destruct (is_continuation b3); utf8_done. }
    destruct ((240 <=? b1) && (b1 <? 248)); [|split; reflexivity].
    destruct rest as [|b2 r2]; cbn; [split; reflexivity|].
    inversion HF1 as [|? ? Hb2 HF2]; subst. rewrite bad_continuation_byte by assumption.
    destruct (is_continuation b2); cbn; [|utf8_done].
    destruct r2 as [|b3 r3]; cbn; [split; reflexivity|].
    inversion HF2 as [|? ? Hb3 HF3]; subst. rewrite bad_continuation_byte by assumption.
    destruct (is_continuation b3); cbn; [|utf8_done].
    destruct r3 as [|b4 r4]; cbn; [split; reflexivity|].
    inversion HF3; subst. rewrite bad_continuation_byte by assumption.
    destruct (is_continuation b4); utf8_done.
Qed.

Lemma read_utf8_character_bound input v rest :
  Forall is_byte input ->
  read_utf8_character input = Ok (v, rest) -> -1 <= v < 0x200000.
Proof.
  intros HF. unfold read_utf8_character.
  destruct (getchar input) as [in1 i1] eqn:G1.
  destruct (getchar_byte _ _ _ HF G1) as [(-> & _ & _)|(Hb1 & _ & HF1)].
  { simpl. intros [= <- _]. lia. }
  replace (in1 =? EOF) with false by (unfold EOF, is_byte in *; lia).
  rewrite (lead1 _ Hb1).
  destruct (in1 <? 128) eqn:E1; [intros [= <- _]; unfold is_byte in *; lia|].
  assert (B6 : forall b, is_byte b -> 0 <= Z.land b 0x3F < 2 ^ 6)
    by (intros b Hb; pose proof (land_byte_bound b 0x3F Hb ltac:(lia)); lia).
  assert (SH : forall x k n, 0 <= x < 2 ^ n -> 0 <= k -> 0 <= n ->
                 0 <= Z.shiftl x k < 2 ^ (n + k)).
  { intros x k n Hx Hk Hn. rewrite Z.shiftl_mul_pow2, Z.pow_add_r by lia.
    assert (0 < 2 ^ k) by (apply Z.pow_pos_nonneg; lia). nia. }
  assert (UP : forall x n m, 0 <= x < 2 ^ n -> 0 <= n <= m -> 0 <= x < 2 ^ m).
  { intros x n m Hx Hnm. split; [lia|].
    apply Z.lt_le_trans with (2 ^ n); [lia|]. apply Z.pow_le_mono_r; lia. }
  destruct (Z.land in1 224 =? 192).
  { destruct (getchar i1) as [in2 i2] eqn:G2.
    destruct (getchar_byte _ _ _ HF1 G2) as [(-> & _ & _)|(Hb2 & _ & HF2)];
      [discriminate|].
    destruct (bad_continuation in2); [discriminate|]. intros [= <- _].
    pose proof (land_byte_bound in1 0x1F Hb1 ltac:(lia)).
    assert (0 <= Z.lor (Z.shiftl (Z.land in1 31) 6) (Z.land in2 63) < 2 ^ 11).
    { apply lor_lt_pow2; [lia| |apply (UP _ 6); auto; lia].
      apply (SH _ 6 5); lia. }
    lia. }
  destruct (Z.land in1 240 =? 224).
  { destruct (getchar i1) as [in2 i2] eqn:G2.
    destruct (getchar_byte _ _ _ HF1 G2) as [(-> & _ & _)|(Hb2 & _ & HF2)];
      [discriminate|].
    destruct (bad_continuation in2); [discriminate|].
    destruct (getchar i2) as [in3 i3] eqn:G3.
    destruct (getchar_byte _ _ _ HF2 G3) as [(-> & _ & _)|(Hb3 & _ & HF3)];
      [discriminate|].
    destruct (bad_continuation in3); [discriminate|]. intros [= <- _].
    pose proof (land_byte_bound in1 0x0F Hb1 ltac:(lia)).
    assert (0 <= Z.lor (Z.lor (Z.shiftl (Z.land in1 15) 12)
                              (Z.shiftl (Z.land in2 63) 6))
                       (Z.land in3 63) < 2 ^ 16).
    { apply lor_lt_pow2; [lia| |apply (UP _ 6); auto; lia].
      apply lor_lt_pow2; [lia|apply (SH _ 12 4); lia|].
      apply (UP _ 12); [apply (SH _ 6 6); auto; lia|lia]. }
    lia. }
  destruct (Z.land in1 248 =? 240); [|discriminate].
  destruct (getchar i1) as [in2 i2] eqn:G2.
  destruct (getchar_byte _ _ _ HF1 G2) as [(-> & _ & _)|(Hb2 & _ & HF2)];
    [discriminate|].
  destruct (bad_continuation in2); [discriminate|].
  destruct (getchar i2) as [in3 i3] eqn:G3.
  destruct (getchar_byte _ _ _ HF2 G3) as [(-> & _ & _)|(Hb3 & _ & HF3)];
    [discriminate|].
  destruct (bad_continuation in3); [discriminate|].
  destruct (getchar i3) as [in4 i4] eqn:G4.
  destruct (getchar_byte _ _ _ HF3 G4) as [(-> & _ & _)|(Hb4 & _ & HF4)];
    [discriminate|].
  destruct (bad_continuation in4); [discriminate|]. intros [= <- _].
  pose proof (land_byte_bound in1 0x07 Hb1 ltac:(lia)).
  assert (0 <= Z.lor (Z.lor (Z.lor (Z.shiftl (Z.land in1 7) 18)
                                   (Z.shiftl (Z.land in2 63) 12))
                            (Z.shiftl (Z.land in3 63) 6))
                     (Z.land in4 63) < 2 ^ 21).
  { apply lor_lt_pow2; [lia| |apply (UP _ 6); auto; lia].
    apply lor_lt_pow2; [lia| |apply (UP _ 12); [apply (SH _ 6 6); auto; lia|lia]].
    apply lor_lt_pow2; [lia|apply (SH _ 18 3); lia|].
    apply (UP _ 18); [apply (SH _ 12 6); auto; lia|lia]. }
  lia.
Qed.

(** C10. On a stream of bytes, [read_utf8_character] fails exactly when
    the input is structurally invalid: a lead byte that fits none of the
    one to four byte patterns, or a continuation byte that is missing or
    malformed.  It never checks the decoded value against the Unicode upper
    bound: every result is below 0x200000, the well-formed sequence
    F4 90 80 80 decodes to 0x110000 and F7 BF BF BF to 0x1FFFFF without
    error, and [print_utf8] rejects both values. *)
Theorem read_utf8_character_no_upper_bound (input : list Z) :
  Forall is_byte input ->
  (read_utf8_character input = Fatal InvalidUtf8 <-> well_formed input = false)
  /\ (forall dg, read_utf8_character input = Fatal dg -> dg = InvalidUtf8)
  /\ read_utf8_character input <> Undef
  /\ read_utf8_character input <> Halt
  /\ (forall v rest, read_utf8_character input = Ok (v, rest) ->
        -1 <= v <= 0x1FFFFF)
  /\ well_formed (0xF4 :: 0x90 :: 0x80 :: 0x80 :: input) = true
  /\ read_utf8_character (0xF4 :: 0x90 :: 0x80 :: 0x80 :: input)
     = Ok (0x110000, input)
  /\ read_utf8_character (0xF7 :: 0xBF :: 0xBF :: 0xBF :: input)
     = Ok (0x1FFFFF, input)
  /\ print_utf8 0x110000 = Fatal InvalidCodepoint
  /\ print_utf8 0x1FFFFF = Fatal InvalidCodepoint.
Proof.
  intros HF. split; [apply read_utf8_character_fatal_iff, HF|].
  split.
  { intros dg. unfold read_utf8_character.
    repeat match goal with
           | |- context [let '(_, _) := getchar ?i in _] => destruct (getchar i)
           | |- context [if ?b then _ else _] => destruct b
           end; congruence. }
  split.
  { unfold read_utf8_character.
    repeat match goal with
           | |- context [let '(_, _) := getchar ?i in _] => destruct (getchar i)
           | |- context [if ?b then _ else _] => destruct b
           end; congruence. }
  split.
  { unfold read_utf8_character.
    repeat match goal with
           | |- context [let '(_, _) := getchar ?i in _] => destruct (getchar i)
           | |- context [if ?b then _ else _] => destruct b
           end; congruence. }
  split.
  { intros v rest Hr. pose proof (read_utf8_character_bound _ _ _ HF Hr). lia. }
  repeat split; reflexivity.
Qed.

(** The sequence F4 90 80 80 alone, followed by the end of the input. *)
Lemma read_utf8_character_no_upper_bound_witness :
  Forall is_byte []
  /\ read_utf8_character [0xF4; 0x90; 0x80; 0x80] = Ok (0x110000, []).
Proof.
  split; [constructor|].
  apply (read_utf8_character_no_upper_bound []). constructor.
Defined.

End Utf8.

(** ** The Unicode cache *)

Section UnicodeCache.

Lemma increment_cache_ok (cells : gmap positive MemCell) (n n' : Number) :
  valid_number n -> unicode_cache_ok n -> increment cells n = Some n' ->
  unicode_cache_ok n'.
Proof.
  intros (Hh & Hl & Hne) Hn E.
  assert (En : head n' = fst (increment_result (head n) (tail n))
               /\ tail n' = snd (increment_result (head n) (tail n))
               /\ unicode n' = increment_unicode n).
  { unfold increment, increment_result, increment_unicode in *.
    destruct (match memptr n with
              | Some p => match cells !! p with
                          | Some cl => Some (next cl)
                          | None => None
                          end
              | None => Some None
              end) as [p|]; [|discriminate].
    destruct (increment_loop (tail n)) as [its ret].
    destruct ret; [injection E as <-; auto|].
    destruct (head n =? T2); [injection E as <-; auto|].
    destruct (tail n); [discriminate|]. injection E as <-. auto. }
  destruct En as (Eh & Et & Eu). unfold unicode_cache_ok.
  rewrite Eh, Et, Eu. unfold increment_unicode.
  destruct ((unicode n >=? 0) && (unicode n <? 1114112 - 1)) eqn:Er;
    [|congruence].
  intros _. destruct (Hn ltac:(lia)) as [Hiff Hval].
  assert (H0 : head n = 0).
  { destruct (Z.eq_dec (head n) 0) as [H0 | H0]; [exact H0|].
    assert (unicode n = -1) by (apply Hiff; left; exact H0). lia. }
  rewrite H0.
  destruct (increment_result_zero_head (tail n) Hl) as [-> ->].
  rewrite <- (Hval ltac:(lia)).
  split; [|reflexivity]. split; [lia|]. intros [H | H]; lia.
Qed.

(** [opr] and [rotate_r] leave the cache "to be computed". *)
Lemma opr_cache_ok (a d a' d' : Number) :
  opr a d = Some (a', d') -> unicode_cache_ok a' /\ unicode_cache_ok d'.
Proof.
  unfold opr. destruct (opr_loop _ 0 a d) as [[a1 d1]|]; [|discriminate].
  destruct (OPR_at _) as [h|]; [|discriminate].
  intros [= <- <-]. split; intros H; cbn in H; congruence.
Qed.

Lemma rotate_r_cache_ok (n n' : Number) (W : Z) :
  rotate_r n W = Some n' -> unicode_cache_ok n'.
Proof.
  unfold rotate_r. destruct (tail n); [discriminate|].
  destruct (tail (rotate_r_pad _ n)); [discriminate|].
  intros [= <-] H. cbn in H. congruence.
Qed.

(** [xlat2] followed by the repair of the tail keeps the property. *)
Lemma xlat2_repaired_cache_ok (n n' : Number) :
  Forall is_trit (tail n) -> unicode_cache_ok n ->
  xlat2_repaired n = Some n' -> unicode_cache_ok n'.
Proof.
  intros Hl Hn. pose proof (update_unicode_cache_ok n Hl Hn) as Hu.
  unfold xlat2_repaired, xlat2.
  set (n1 := update_unicode n) in *.
  destruct ((unicode n1 <? 33) || (unicode n1 >? 126)) eqn:Er;
    [discriminate|].
  cbn [option_map]. fold (xlat2_code (unicode n1)). intros E.
  assert (E' : n' = repair_number_after_xlat2
                      (mkNumber (head n1) [] (memptr n1)
                         (xlat2_code (unicode n1)))) by congruence.
  subst n'. clear E.
  assert (Hr : 33 <= unicode n1 < 127) by lia.
  destruct (Hu ltac:(lia)) as [Hiff _].
  assert (H0 : head n1 = 0).
  { destruct (Z.eq_dec (head n1) 0) as [H0 | H0]; [exact H0|].
    assert (unicode n1 = -1) by (apply Hiff; left; exact H0). lia. }
  pose proof (xlat2_code_range _ Hr) as Hc.
  unfold repair_number_after_xlat2. cbn [tail unicode head memptr].
  replace (xlat2_code (unicode n1) <? 0) with false by lia.
  unfold unicode_cache_ok. cbn [tail unicode head]. intros _.
  rewrite value_of_trits_of, H0 by lia.
  split; [|reflexivity]. split; [lia|]. intros [H | H]; lia.
Qed.

(** What [in] leaves in [a] and on the input, for each kind of input. *)
Lemma exec_in_newline (s : Machine) (rest : list Z) :
  exec_in (with_stdin s (10 :: rest))
  = Ok (with_a (with_stdin s rest) (mkNumber T2 [1] None 1)).
Proof. reflexivity. Qed.

Lemma exec_in_eof (s : Machine) :
  exec_in (with_stdin s [])
  = Ok (with_a (with_stdin s []) (mkNumber T2 [2] None (-1))).
Proof. reflexivity. Qed.

(** Every character that [in] decodes, except the newline, leaves the
    property in [a]; so does the end of the input. *)
Lemma exec_in_cache_ok (s s' : Machine) (i : Z) (rest : list Z) :
  read_utf8_character (stdin s) = Ok (i, rest) -> i <> 10 ->
  exec_in s = Ok s' -> unicode_cache_ok (reg_a s').
Proof.
  unfold exec_in. intros Er Hnl E. rewrite Er in E. cbn in E.
  destruct (i =? -1) eqn:E1.
  - injection E as <-. cbn. intros _. cbn.
    split; [|congruence].
    split; [intros _; left; unfold T2; lia | reflexivity].
  - replace (i =? 10) with false in E by lia.
    destruct (to_number i) as [a|] eqn:Et; cbn in E; [|discriminate].
    injection E as <-. cbn [reg_a with_a].
    apply (to_number_cache_ok _ _ Et).
Qed.

(** C5: the Unicode cache after [in] has read a newline.  The number put
    in [a] has head 2 and the cache 1: the cache is neither "to be
    computed" nor -1, although the head is nonzero, so the cache invariant
    does not hold for it.  On the end of the input the same instruction
    sets the cache to -1, and so does [nl]. *)
Theorem in_newline_breaks_unicode_cache (s : Machine) (rest : list Z) :
  exec_in (with_stdin s (10 :: rest))
  = Ok (with_a (with_stdin s rest) (mkNumber 2 [1] None 1))
  /\ ~ unicode_cache_ok (mkNumber 2 [1] None 1)
  /\ exec_in (with_stdin s [])
     = Ok (with_a (with_stdin s []) (mkNumber 2 [2] None (-1)))
  /\ unicode_cache_ok (mkNumber 2 [2] None (-1))
  /\ unicode_cache_ok nl
  /\ exists s1,
       run example_config 1 [117; 38] [10] = Ok s1
       /\ reg_a s1 = mkNumber 2 [1] None 1.
Proof.
  split; [apply exec_in_newline|]. split.
  { intros H. destruct (H ltac:(cbn; lia)) as [[_ H1] _].
    cbn in H1. assert (E : 1 = -1) by (apply H1; left; lia). discriminate. }
  split; [apply exec_in_eof|]. split.
  { intros _. cbn. split; [|lia]. split; [intros _; left; lia | reflexivity]. }
  split.
  { intros _. cbn. split; [|lia]. split; [intros _; left; unfold T2; lia | reflexivity]. }
  eexists. split; [vm_compute; reflexivity | reflexivity].
Qed.

End UnicodeCache.

(** ** Heaps *)

Section HeapFacts.

Lemma heap_extends_refl (hp : Heap) : heap_extends hp hp.
Proof. intros p cl E. exists cl. auto. Qed.

Lemma heap_extends_trans (hp1 hp2 hp3 : Heap) :
  heap_extends hp1 hp2 -> heap_extends hp2 hp3 -> heap_extends hp1 hp3.
Proof.
  intros H12 H23 p cl E. destruct (H12 p cl E) as (cl2 & E2 & V2).
  destruct (H23 p cl2 E2) as (cl3 & E3 & V3). exists cl3. split; congruence.
Qed.

Lemma heap_extends_dom (hp hp' : Heap) (p : positive) :
  heap_extends hp hp' -> is_Some (cells hp !! p) -> is_Some (cells hp' !! p).
Proof. intros H [cl E]. destruct (H p cl E) as (cl' & E' & _). eauto. Qed.

Lemma subtree_cells_ok_extends (t : MemoryTree) (hp hp' : Heap) :
  heap_extends hp hp' -> subtree_cells_ok t hp -> subtree_cells_ok t hp'.
Proof.
  intros He Ht path nd Hp. eapply heap_extends_dom; [exact He|].
  apply (Ht path nd Hp).
Qed.

Lemma stored_ok_extends (hp hp' : Heap) (o : option positive) :
  heap_extends hp hp' -> stored_ok hp o -> stored_ok hp' o.
Proof.
  intros He Ho q Eq. destruct (Ho q Eq) as (cl & v & E & V & Hv).
  destruct (He q cl E) as (cl' & E' & V'). exists cl', v.
  split; [exact E'|]. split; [congruence | exact Hv].
Qed.

Lemma alloc_cell_ok (hp : Heap) :
  heap_ok hp ->
  heap_ok (snd (alloc_cell hp))
  /\ heap_extends hp (snd (alloc_cell hp))
  /\ is_Some (cells (snd (alloc_cell hp)) !! fst (alloc_cell hp)).
Proof.
  intros [Hlt Hlinks]. unfold alloc_cell, heap_ok, heap_extends, links_ok.
  cbn [fst snd cells brk].
  assert (Hfresh : cells hp !! brk hp = None).
  { destruct (cells hp !! brk hp) eqn:E; [|reflexivity].
    specialize (Hlt (brk hp) (ex_intro _ _ E)). lia. }
  split; [split|split].
  - intros p [cl E]. destruct (decide (brk hp = p)) as [<- | Hne]; [lia|].
    rewrite lookup_insert_ne in E by exact Hne.
    specialize (Hlt p (ex_intro _ _ E)). lia.
  - intros p cl q E En. destruct (decide (brk hp = p)) as [<- | Hne].
    + rewrite lookup_insert_eq in E. injection E as <-. discriminate.
    + rewrite lookup_insert_ne in E by exact Hne.
      destruct (Hlinks p cl q E En) as [cl' E'].
      destruct (decide (brk hp = q)) as [<- | Hne']; [congruence|].
      rewrite lookup_insert_ne by exact Hne'. eauto.
  - intros p cl E. exists cl. split; [|reflexivity].
    destruct (decide (brk hp = p)) as [<- | Hne]; [congruence|].
    rewrite lookup_insert_ne by exact Hne. exact E.
  - rewrite lookup_insert_eq. eauto.
Qed.

Lemma subtree_cells_ok_child (t ch : MemoryTree) (k : Z) (hp : Heap) :
  subtree_cells_ok t hp -> child t k = Some (Some ch) ->
  subtree_cells_ok ch hp.
Proof.
  intros Ht Ec path nd Hp. apply (Ht (k :: path) nd).
  cbn [node_at]. rewrite Ec. exact Hp.
Qed.

Lemma subtree_cells_ok_leaf (cl : positive) (hp : Heap) :
  is_Some (cells hp !! cl) -> subtree_cells_ok (MNode cl None None None) hp.
Proof.
  intros Hc [|k path] nd Hp; cbn in Hp.
  - injection Hp as <-. exact Hc.
  - destruct k as [|[[p|p|]|[p|p|]|]|]; discriminate.
Qed.

Lemma subtree_cells_ok_set_child (t ch' : MemoryTree) (k : Z) (hp : Heap) :
  is_trit k -> subtree_cells_ok t hp -> subtree_cells_ok ch' hp ->
  subtree_cells_ok (set_child t k ch') hp.
Proof.
  intros Hk Ht Hch [|k' path] nd Hp.
  - cbn in Hp. injection Hp as <-. rewrite cell_set_child.
    apply (Ht [] t eq_refl).
  - cbn [node_at] in Hp. destruct (Z.eq_dec k k') as [<- | Hne].
    + rewrite child_set_child_eq in Hp by exact Hk. apply (Hch path nd Hp).
    + rewrite child_set_child_ne in Hp by assumption.
      apply (Ht (k' :: path) nd Hp).
Qed.

(** The heap side of the walk of [update_memptr]. *)
Lemma update_memptr_loop_heap (h : Z) (its : list Z) :
  forall cur hp r cur' hp',
    update_memptr_loop its h cur (cell cur) hp = Some (r, cur', hp') ->
    heap_ok hp -> subtree_cells_ok cur hp ->
    heap_ok hp' /\ heap_extends hp hp' /\ subtree_cells_ok cur' hp'
    /\ is_Some (cells hp' !! r).
Proof.
  induction its as [|t rest IH]; intros cur hp r cur' hp' E Hhp Hcur.
  - cbn in E. injection E as <- <- <-.
    repeat split; try assumption; try apply Hhp.
    + apply heap_extends_refl.
    + apply (Hcur [] cur eq_refl).
  - pose proof (update_memptr_loop_trits _ _ _ _ _ _ E) as Hits.
    inversion Hits as [|? ? Ht Hrest]; subst.
    cbn [update_memptr_loop] in E.
    destruct (child cur t) as [[ch|]|] eqn:Ec; [| |discriminate].
    + destruct (update_memptr_loop rest h ch (cell ch) hp)
        as [[[r1 ch1] hp1]|] eqn:E1; [|discriminate].
      injection E as <- <- <-.
      destruct (IH _ _ _ _ _ E1 Hhp (subtree_cells_ok_child _ _ _ _ Hcur Ec))
        as (H1 & H2 & H3 & H4).
      repeat split; try assumption; try apply H1.
      apply subtree_cells_ok_set_child; [exact Ht| |exact H3].
      apply (subtree_cells_ok_extends _ _ _ H2 Hcur).
    + destruct (t =? h) eqn:Eth.
      * destruct (update_memptr_loop rest h
                    (MNode (cell cur) None None None) (cell cur) hp)
          as [[[r1 ch1] hp1]|] eqn:E1; [|discriminate].
        injection E as <- <- <-.
        destruct (IH (MNode (cell cur) None None None) _ _ _ _ E1 Hhp
                    (subtree_cells_ok_leaf _ _ (Hcur [] cur eq_refl)))
          as (H1 & H2 & H3 & H4).
        repeat split; try assumption; try apply H1.
        apply subtree_cells_ok_set_child; [exact Ht| |exact H3].
        apply (subtree_cells_ok_extends _ _ _ H2 Hcur).
      * destruct (alloc_cell_ok hp Hhp) as (Ha1 & Ha2 & Ha3).
        destruct (alloc_cell hp) as [cl hpa] eqn:Ea. cbn [fst snd] in *.
        destruct (update_memptr_loop rest h (MNode cl None None None) cl hpa)
          as [[[r1 ch1] hp1]|] eqn:E1; [|discriminate].
        injection E as <- <- <-.
        destruct (IH (MNode cl None None None) _ _ _ _ E1 Ha1
                    (subtree_cells_ok_leaf _ _ Ha3))
          as (H1 & H2 & H3 & H4).
        assert (He : heap_extends hp hp1)
          by (eapply heap_extends_trans; eassumption).
        repeat split; try assumption; try apply H1.
        apply subtree_cells_ok_set_child; [exact Ht| |exact H3].
        apply (subtree_cells_ok_extends _ _ _ He Hcur).
Qed.

Lemma heap_extends_dom_le (hp hp' : Heap) :
  heap_extends hp hp' -> heap_dom_le hp hp'.
Proof. intros H q Hq. apply (heap_extends_dom _ _ _ H Hq). Qed.

Lemma tree_cells_ok_dom_le (m : list MemoryTree) (hp hp' : Heap) :
  heap_dom_le hp hp' -> tree_cells_ok m hp -> tree_cells_ok m hp'.
Proof.
  intros Hd Hm i root Hr path nd Hp. apply Hd, (Hm i root Hr path nd Hp).
Qed.

(** A lookup in a well-formed memory and heap. *)
Lemma update_memptr_ok (n : Number) (m : list MemoryTree) (hp : Heap) :
  memory_ok m -> heap_ok hp -> tree_cells_ok m hp ->
  is_trit (head n) -> Forall is_trit (tail n) -> memptr_ok (cells hp) n ->
  exists r m' hp',
    update_memptr n m hp = Some (set_memptr n (Some r), m', hp')
    /\ is_Some (cells hp' !! r)
    /\ memory_ok m' /\ heap_ok hp' /\ tree_cells_ok m' hp'
    /\ heap_extends hp hp'.
Proof.
  intros Hm Hhp Htc Hh Hits Hp. destruct (memptr n) as [p|] eqn:Ep.
  - exists p, m, hp. unfold update_memptr. rewrite Ep.
    unfold memptr_ok in Hp. rewrite Ep in Hp.
    split; [destruct n; cbn in *; subst; reflexivity|].
    repeat split; try assumption; try apply Hm; try apply Hhp.
    apply heap_extends_refl.
  - destruct (update_memptr_walk n m hp Hm Hh Hits Ep)
      as (r & m' & hp' & E & Hm' & _ & _).
    exists r, m', hp'. split; [exact E|].
    unfold update_memptr in E. rewrite Ep in E.
    destruct (head n <? 0); [discriminate|].
    destruct (m !! Z.to_nat (head n)) as [root|] eqn:Er; [|discriminate].
    destruct (update_memptr_loop (tail n) (head n) root (cell root) hp)
      as [[[r1 root1] hp1]|] eqn:El; [|discriminate].
    assert (E1 : r1 = r /\ <[Z.to_nat (head n) := root1]> m = m' /\ hp1 = hp')
      by (injection E as E1 E2 E3; inversion E1; auto).
    destruct E1 as (-> & <- & ->).
    destruct (update_memptr_loop_heap _ _ _ _ _ _ _ El Hhp (Htc _ _ Er))
      as (H1 & H2 & H3 & H4).
    repeat split; try assumption; try apply Hm'; try apply H1.
    intros i root0 Hr0.
    destruct (Nat.eq_dec (Z.to_nat (head n)) i) as [<- | Hne].
    + rewrite list_lookup_insert_eq in Hr0
        by (apply lookup_lt_Some in Er; exact Er).
      injection Hr0 as <-. exact H3.
    + rewrite list_lookup_insert_ne in Hr0 by exact Hne.
      apply (subtree_cells_ok_extends _ _ _ H2 (Htc _ _ Hr0)).
Qed.

Lemma store_val_ok (hp : Heap) (p : positive) (v : Number) :
  heap_ok hp -> is_Some (cells hp !! p) ->
  exists hp',
    store_val hp p v = Ok hp'
    /\ heap_ok hp' /\ heap_dom_le hp hp'
    /\ (forall q cl, q <> p -> cells hp !! q = Some cl ->
          cells hp' !! q = Some cl)
    /\ exists cl, cells hp' !! p = Some cl /\ val cl = Some v.
Proof.
  intros [Hlt Hlinks] [cl0 E0]. unfold store_val. rewrite E0. cbn.
  eexists. split; [reflexivity|].
  unfold heap_ok, heap_dom_le, links_ok. cbn [cells brk].
  split; [split|split; [|split]].
  - intros q [cl E]. destruct (decide (p = q)) as [<- | Hne]; [eauto|].
    rewrite lookup_insert_ne in E by exact Hne. eauto.
  - intros q cl r E En. destruct (decide (p = q)) as [<- | Hne].
    + rewrite lookup_insert_eq in E. injection E as <-. cbn in En.
      destruct (Hlinks p cl0 r E0 En) as [cl' E'].
      destruct (decide (p = r)) as [<- | Hne'];
        [rewrite lookup_insert_eq | rewrite lookup_insert_ne by exact Hne'];
        eauto.
    + rewrite lookup_insert_ne in E by exact Hne.
      destruct (Hlinks q cl r E En) as [cl' E'].
      destruct (decide (p = r)) as [<- | Hne'];
        [rewrite lookup_insert_eq | rewrite lookup_insert_ne by exact Hne'];
        eauto.
  - intros q [cl E]. destruct (decide (p = q)) as [<- | Hne];
      [rewrite lookup_insert_eq | rewrite lookup_insert_ne by exact Hne];
      eauto.
  - intros q cl Hne E. rewrite lookup_insert_ne by congruence. exact E.
  - rewrite lookup_insert_eq. eauto.
Qed.

Lemma link_next_ok (hp : Heap) (prev : positive) (q : option positive) :
  heap_ok hp -> is_Some (cells hp !! prev) ->
  (forall r, q = Some r -> is_Some (cells hp !! r)) ->
  exists hp',
    link_next hp prev q = Ok hp' /\ heap_ok hp' /\ heap_extends hp hp'.
Proof.
  intros [Hlt Hlinks] [cl0 E0] Hq. unfold link_next. rewrite E0. cbn.
  destruct (next cl0) as [nx|] eqn:En.
  { exists hp. repeat split; try assumption. apply heap_extends_refl. }
  eexists. split; [reflexivity|].
  unfold heap_ok, heap_extends, links_ok. cbn [cells brk].
  split; [split|].
  - intros p [cl E]. destruct (decide (prev = p)) as [<- | Hne]; [eauto|].
    rewrite lookup_insert_ne in E by exact Hne. eauto.
  - intros p cl r E Enx.
    assert (Hr : is_Some (cells hp !! r)).
    { destruct (decide (prev = p)) as [<- | Hne].
      - rewrite lookup_insert_eq in E. injection E as <-. cbn in Enx.
        apply Hq, Enx.
      - rewrite lookup_insert_ne in E by exact Hne.
        apply (Hlinks p cl r E Enx). }
    destruct Hr as [cl' E'].
    destruct (decide (prev = r)) as [<- | Hne'];
      [rewrite lookup_insert_eq | rewrite lookup_insert_ne by exact Hne'];
      eauto.
  - intros p cl E. destruct (decide (prev = p)) as [<- | Hne].
    + rewrite lookup_insert_eq. eexists. split; [reflexivity|].
      cbn. congruence.
    + rewrite lookup_insert_ne by exact Hne. eauto.
Qed.

Lemma increment_result_eq (cells : gmap positive MemCell) (n : Number) :
  valid_number n -> memptr_ok cells n ->
  exists n', increment cells n = Some n' /\ valid_number n'
             /\ memptr n' = increment_memptr cells n.
Proof.
  intros (Hh & Hl & Hne) Hm. rewrite (increment_eq cells n Hne Hm).
  eexists. split; [reflexivity|]. split; [|reflexivity].
  apply increment_result_valid; assumption.
Qed.

(** The sequence [advance] on a number whose cell pointer is set. *)
Lemma advance_ok (n : Number) (m : list MemoryTree) (hp : Heap)
    (p : positive) :
  memory_ok m -> heap_ok hp -> tree_cells_ok m hp ->
  valid_number n -> memptr n = Some p -> is_Some (cells hp !! p) ->
  exists n' m' hp' r,
    advance n m hp = Ok (n', m', hp')
    /\ valid_number n' /\ memptr n' = Some r /\ is_Some (cells hp' !! r)
    /\ memory_ok m' /\ heap_ok hp' /\ tree_cells_ok m' hp'
    /\ heap_extends hp hp'.
Proof.
  intros Hm Hhp Htc Hv Ep Hp. unfold advance. rewrite Ep. cbn [must mbind Res_bind].
  assert (Hmo : memptr_ok (cells hp) n) by (unfold memptr_ok; rewrite Ep; exact Hp).
  destruct (increment_result_eq (cells hp) n Hv Hmo) as (n1 & E1 & Hv1 & Em1).
  rewrite E1. cbn [must mbind Res_bind].
  assert (Hmo1 : memptr_ok (cells hp) n1).
  { unfold memptr_ok. rewrite Em1. unfold increment_memptr. rewrite Ep.
    destruct Hp as [cl Ecl]. rewrite Ecl.
    destruct (next cl) as [q|] eqn:En; [|exact I].
    destruct Hhp as [_ Hlinks]. apply (Hlinks p cl q Ecl En). }
  destruct Hv1 as (Hh1 & Hl1 & Hne1).
  destruct (update_memptr_ok n1 m hp Hm Hhp Htc Hh1 Hl1 Hmo1)
    as (r & m' & hp' & E2 & Hr & Hm' & Hhp' & Htc' & Hext).
  rewrite E2. cbn [must mbind Res_bind].
  destruct (link_next_ok hp' p (Some r) Hhp'
              (heap_extends_dom _ _ _ Hext Hp)) as (hp2 & E3 & Hhp2 & Hext2).
  { intros r0 [= <-]. exact Hr. }
  cbn [memptr set_memptr]. rewrite E3. cbn [mbind Res_bind].
  exists (set_memptr n1 (Some r)), m', hp2, r.
  split; [reflexivity|].
  split; [exact (conj Hh1 (conj Hl1 Hne1))|].
  split; [reflexivity|].
  split; [apply (heap_extends_dom _ _ _ Hext2 Hr)|].
  split; [exact Hm'|]. split; [exact Hhp2|].
  split; [apply (tree_cells_ok_dom_le _ _ _ (heap_extends_dom_le _ _ Hext2) Htc')|].
  eapply heap_extends_trans; eassumption.
Qed.

End HeapFacts.

(** ** The loader *)

Section LoaderFacts.

Lemma Zseq_cons (a : Z) (len : nat) :
  Zseq a (S len) = a :: Zseq (a + 1) len.
Proof.
  unfold Zseq. cbn [seq map]. f_equal; [lia|].
  rewrite <- seq_shift, map_map. apply map_ext. intros i. lia.
Qed.

Lemma Zseq_length (a : Z) (len : nat) : length (Zseq a len) = len.
Proof. unfold Zseq. rewrite length_map. apply length_seq. Qed.

(** The loop runs the body once for each index from [pos] to 17. *)
Lemma synth_loop_steps (fuel : nat) :
  forall pos l,
    18 - pos <= Z.of_nat fuel ->
    synth_loop fuel pos l = synth_steps (Zseq pos (Z.to_nat (18 - pos))) l.
Proof.
  induction fuel as [|fuel IH]; intros pos l Hf.
  - cbn [synth_loop]. replace (pos <? 18) with false by lia.
    replace (Z.to_nat (18 - pos)) with 0%nat by lia. reflexivity.
  - cbn [synth_loop]. destruct (pos <? 18) eqn:E.
    + replace (Z.to_nat (18 - pos)) with (S (Z.to_nat (18 - (pos + 1))))
        by lia.
      rewrite Zseq_cons. cbn [synth_steps].
      destruct (synth_step pos l) as [l'| | |]; cbn; try reflexivity.
      apply IH. lia.
    + replace (Z.to_nat (18 - pos)) with 0%nat by lia. reflexivity.
Qed.

Lemma load_char_pos (v : Z) (l l' : Loader) :
  0 <= l_pos l < 564 -> load_char v l = Ok l' -> 0 <= l_pos l' < 564.
Proof.
  intros Hp. unfold load_char.
  destruct (is_blank v); [intros [= <-]; exact Hp|].
  destruct ((v >=? 33) && (v <? 127) && is_instr (Z.rem (v + l_pos l) 94));
    [|discriminate].
  destruct (must (memptr (l_init l))) as [p| | |]; try discriminate.
  cbn. destruct (or_fatal NegativeValue (to_number v)) as [n| | |];
    try discriminate.
  cbn. destruct (store_val (l_heap l) p n) as [hp| | |]; try discriminate.
  cbn. destruct (advance (l_init l) (l_memory l) hp) as [[[i m] hp']| | |];
    try discriminate.
  cbn. intros [= <-]. cbn [l_pos].
  rewrite Z.rem_mod_nonneg by lia. apply Z.mod_pos_bound. lia.
Qed.

Lemma load_chars_pos (program : list Z) :
  forall l l', 0 <= l_pos l < 564 -> load_chars program l = Ok l' ->
               0 <= l_pos l' < 564.
Proof.
  induction program as [|b rest IH]; intros l l' Hp; cbn [load_chars].
  - intros [= <-]. exact Hp.
  - destruct (load_char (char_of_byte b) l) as [l1| | |] eqn:E;
      try discriminate.
    cbn. apply IH. apply (load_char_pos _ _ _ Hp E).
Qed.

Lemma read_program_pos (program : list Z) (l : Loader) :
  read_program program = Ok l -> 0 <= l_pos l < 564.
Proof.
  unfold read_program.
  destruct loader_init as [l0| | |] eqn:E0; try discriminate.
  cbn. apply load_chars_pos.
  vm_compute in E0. injection E0 as <-. cbn. lia.
Qed.

Lemma Zseq_app (a : Z) (n1 n2 : nat) :
  Zseq a (n1 + n2) = Zseq a n1 ++ Zseq (a + Z.of_nat n1) n2.
Proof.
  revert a. induction n1 as [|n1 IH]; intros a.
  - cbn [Nat.add]. replace (a + Z.of_nat 0) with a by lia. reflexivity.
  - cbn [Nat.add]. rewrite !Zseq_cons, IH. cbn [app]. do 3 f_equal. lia.
Qed.

Lemma synth_steps_app (idx1 idx2 : list Z) (l : Loader) :
  synth_steps (idx1 ++ idx2) l
  = (l1 ← synth_steps idx1 l; synth_steps idx2 l1).
Proof.
  revert l. induction idx1 as [|i idx1 IH]; intros l; [reflexivity|].
  cbn [app synth_steps]. destruct (synth_step i l); cbn; auto.
Qed.

(** What a synthetic step does to [initial_values]. *)
Lemma synth_step_initial_values (pos : Z) (l l' : Loader) :
  synth_step pos l = Ok l' ->
  length (l_initial_values l') = length (l_initial_values l)
  /\ (pos < 12 -> l_initial_values l' = l_initial_values l)
  /\ (12 <= pos ->
        exists m2, synth_retained l = Ok m2
                   /\ 0 <= pos - 12 < 6
                   /\ l_initial_values l'
                      = <[Z.to_nat (pos - 12) := Some m2]>
                          (l_initial_values l)).
Proof.
  unfold synth_step, synth_retained. intros E.
  destruct (must (l_prev l)) as [prev| | |]; cbn in E |- *; try discriminate.
  destruct (must (l_prevprev l)) as [prevprev| | |]; cbn in E |- *;
    try discriminate.
  destruct (must (cells (l_heap l) !! prev)) as [pc| | |]; cbn in E |- *;
    try discriminate.
  destruct (must (cells (l_heap l) !! prevprev)) as [ppc| | |];
    cbn in E |- *; try discriminate.
  destruct (must (val pc)) as [pv| | |]; cbn in E |- *; try discriminate.
  destruct (must (val ppc)) as [ppv| | |]; cbn in E |- *; try discriminate.
  destruct (must (opr (clone_number pv) (clone_number ppv)))
    as [[m1 m2]| | |]; cbn in E |- *; try discriminate.
  destruct (pos <? 12) eqn:E12.
  - cbn in E.
    destruct (must (memptr (l_init l))) as [p| | |]; cbn in E;
      try discriminate.
    destruct (store_val (l_heap l) p (update_unicode m1)) as [hp| | |];
      cbn in E; try discriminate.
    destruct (advance (l_init l) (l_memory l) hp) as [[[i m] hp']| | |];
      cbn in E; try discriminate.
    injection E as <-. cbn. split; [reflexivity|]. split; [reflexivity|].
    intros ?. lia.
  - destruct (must (update_memptr (update_unicode m2) (l_memory l)
                      (l_heap l))) as [[[m2' m] hp]| | |];
      cbn in E |- *; try discriminate.
    destruct ((pos - 12 <? 0) || (pos - 12 >=? 6)) eqn:Er;
      cbn in E; try discriminate.
    destruct (must (memptr (l_init l))) as [p| | |]; cbn in E;
      try discriminate.
    destruct (store_val hp p (update_unicode m1)) as [hp1| | |];
      cbn in E; try discriminate.
    destruct (advance (l_init l) m hp1) as [[[i m'] hp']| | |];
      cbn in E; try discriminate.
    injection E as <-. cbn. split; [apply length_insert|].
    split; [intros ?; lia|]. intros _. exists m2'.
    split; [reflexivity|]. split; [lia | reflexivity].
Qed.

Lemma synth_steps_initial_values (idx : list Z) :
  forall l l', synth_steps idx l = Ok l' ->
    length (l_initial_values l') = length (l_initial_values l)
    /\ forall j : nat,
         (forall i, In i idx -> 12 <= i -> Z.to_nat (i - 12) <> j) ->
         l_initial_values l' !! j = l_initial_values l !! j.
Proof.
  induction idx as [|i idx IH]; intros l l' E.
  - cbn in E. injection E as <-. auto.
  - cbn [synth_steps] in E.
    destruct (synth_step i l) as [l1| | |] eqn:E1; cbn in E;
      try discriminate.
    destruct (IH _ _ E) as [Hlen Hkeep].
    destruct (synth_step_initial_values _ _ _ E1) as (Hlen1 & Hlt & Hge).
    split; [congruence|]. intros j Hj.
    rewrite Hkeep by (intros i' Hi'; apply Hj; right; exact Hi').
    destruct (Z.lt_ge_cases i 12) as [L|L].
    + rewrite Hlt by exact L. reflexivity.
    + destruct (Hge ltac:(lia)) as (m2 & _ & _ & ->).
      apply list_lookup_insert_ne. apply Hj; [left; reflexivity | lia].
Qed.

Lemma In_Zseq (a : Z) (len : nat) (i : Z) :
  In i (Zseq a len) -> a <= i < a + Z.of_nat len.
Proof.
  unfold Zseq. rewrite in_map_iff. intros (k & <- & Hk).
  apply in_seq in Hk. lia.
Qed.

Lemma load_chars_initial_values (program : list Z) :
  forall l l', load_chars program l = Ok l' ->
               l_initial_values l' = l_initial_values l.
Proof.
  induction program as [|b rest IH]; intros l l'; cbn [load_chars].
  - intros [= <-]. reflexivity.
  - destruct (load_char (char_of_byte b) l) as [l1| | |] eqn:E;
      try discriminate.
    cbn. intros E'. rewrite (IH _ _ E'). clear IH E'.
    unfold load_char in E.
    destruct (is_blank (char_of_byte b)); [injection E as <-; reflexivity|].
    destruct ((char_of_byte b >=? 33) && (char_of_byte b <? 127)
              && is_instr (Z.rem (char_of_byte b + l_pos l) 94));
      [|discriminate].
    destruct (must (memptr (l_init l))) as [p| | |]; cbn in E;
      try discriminate.
    destruct (or_fatal NegativeValue (to_number (char_of_byte b)))
      as [n| | |]; cbn in E; try discriminate.
    destruct (store_val (l_heap l) p n) as [hp| | |]; cbn in E;
      try discriminate.
    destruct (advance (l_init l) (l_memory l) hp) as [[[i m] hp']| | |];
      cbn in E; try discriminate.
    injection E as <-. reflexivity.
Qed.

Lemma read_program_initial_values (program : list Z) (l : Loader) :
  read_program program = Ok l -> l_initial_values l = replicate 6 None.
Proof.
  unfold read_program.
  destruct loader_init as [l0| | |] eqn:E0; try discriminate.
  cbn. intros E. rewrite (load_chars_initial_values _ _ _ E).
  vm_compute in E0. injection E0 as <-. reflexivity.
Qed.

Lemma stored_ok_store (hp hp' : Heap) (p : positive) (v : Number)
    (o : option positive) :
  (forall q cl, q <> p -> cells hp !! q = Some cl ->
     cells hp' !! q = Some cl) ->
  (exists cl, cells hp' !! p = Some cl /\ val cl = Some v) ->
  valid_number v -> stored_ok hp o -> stored_ok hp' o.
Proof.
  intros Hother (clp & Ep & Vp) Hv Ho q Eq.
  destruct (Pos.eq_dec q p) as [-> | Hne].
  - exists clp, v. auto.
  - destruct (Ho q Eq) as (cl & w & E & V & Hw). exists cl, w.
    split; [apply Hother; assumption | auto].
Qed.

Lemma stored_ok_here (hp : Heap) (p : positive) (v : Number) :
  (exists cl, cells hp !! p = Some cl /\ val cl = Some v) ->
  valid_number v -> stored_ok hp (Some p).
Proof.
  intros (cl & E & V) Hv q [= <-]. exists cl, v. auto.
Qed.

Lemma loader_ok_intro (m : list MemoryTree) (hp : Heap) (init : Number)
    (prev prevprev : option positive) (pos : Z) (ivs : list (option Number))
    (r : positive) :
  memory_ok m -> heap_ok hp -> tree_cells_ok m hp -> valid_number init ->
  memptr init = Some r -> is_Some (cells hp !! r) ->
  stored_ok hp prev -> stored_ok hp prevprev ->
  (is_Some prevprev -> is_Some prev) ->
  loader_ok (mkLoader m hp init prev prevprev pos ivs).
Proof.
  intros H1 H2 H3 H4 H5 H6 H7 H8 H9. unfold loader_ok.
  cbn [l_memory l_heap l_init l_prev l_prevprev].
  split; [exact H1|]. split; [exact H2|]. split; [exact H3|].
  split; [exact H4|]. split; [exists r; auto|]. auto.
Qed.

Lemma loader_init_ok : exists l, loader_init = Ok l /\ loader_ok l
                                 /\ l_prev l = None /\ l_prevprev l = None.
Proof.
  unfold loader_init. cbn [memory_init to_number Z.ltb Z.compare or_fatal
                           mbind Res_bind].
  set (m0 := [MNode 1 None None None; MNode 2 None None None;
              MNode 3 None None None]).
  set (hp0 := mkHeap _ 4).
  assert (Hm0 : memory_ok m0) by apply memory_init_ok.
  assert (Hc : forall p cl, cells hp0 !! p = Some cl ->
                 (p = 1 \/ p = 2 \/ p = 3)%positive /\ next cl = None).
  { intros p cl E. subst hp0. cbn [cells] in E.
    destruct (decide (3%positive = p)) as [<- | N3].
    { rewrite lookup_insert_eq in E. injection E as <-. auto. }
    rewrite lookup_insert_ne in E by exact N3.
    destruct (decide (2%positive = p)) as [<- | N2].
    { rewrite lookup_insert_eq in E. injection E as <-. auto. }
    rewrite lookup_insert_ne in E by exact N2.
    destruct (decide (1%positive = p)) as [<- | N1].
    { rewrite lookup_insert_eq in E. injection E as <-. auto. }
    rewrite lookup_insert_ne in E by exact N1.
    rewrite lookup_empty in E. discriminate. }
  assert (Hhp0 : heap_ok hp0).
  { split.
    - intros p [cl E]. destruct (Hc p cl E) as [Hp _].
      change (brk hp0) with 4%positive. lia.
    - intros p cl q E En. destruct (Hc p cl E) as [_ Hn]. congruence. }
  assert (Htc0 : tree_cells_ok m0 hp0).
  { intros i root Hr.
    do 3 (destruct i as [|i];
          [injection Hr as <-; apply subtree_cells_ok_leaf; eexists;
           reflexivity|]).
    discriminate. }
  set (init := mkNumber T0 (trits_of 0) None 0).
  assert (Hv : valid_number init).
  { destruct (to_number_valid 0 init eq_refl) as [H _]. exact H. }
  destruct Hv as (Hh & Hl & Hne).
  destruct (update_memptr_ok init m0 hp0 Hm0 Hhp0 Htc0 Hh Hl I)
    as (r & m' & hp' & E & Hr & Hm' & Hhp' & Htc' & _).
  rewrite E. cbn [must mbind Res_bind].
  eexists. split; [reflexivity|]. split; [|split; reflexivity].
  apply (loader_ok_intro _ _ _ _ _ _ _ r); try assumption.
  - exact (conj Hh (conj Hl Hne)).
  - reflexivity.
  - intros q Eq. discriminate.
  - intros q Eq. discriminate.
  - intros [q Eq]. discriminate.
Qed.

(** Reading one character in a well-formed state ends with the
    diagnostic "invalid character" or in a well-formed state. *)
Lemma load_char_ok (v : Z) (l : Loader) :
  loader_ok l ->
  load_char v l = Fatal InvalidCharacter
  \/ exists l', load_char v l = Ok l' /\ loader_ok l'.
Proof.
  intros (Hm & Hhp & Htc & Hv & (p & Ep & Hp) & Hprev & Hpp & Himp).
  unfold load_char. destruct (is_blank v).
  { right. exists l. split; [reflexivity|]. unfold loader_ok. eauto 10. }
  destruct ((v >=? 33) && (v <? 127) && is_instr (Z.rem (v + l_pos l) 94))
    eqn:Ec; [|left; reflexivity].
  right. rewrite Ep. cbn [must mbind Res_bind].
  assert (Hv0 : 0 <= v) by lia.
  destruct (to_number v) as [n|] eqn:En;
    [|unfold to_number in En; replace (v <? 0) with false in En by lia;
      discriminate].
  cbn [or_fatal mbind Res_bind].
  destruct (to_number_valid v n En) as [Hn _].
  destruct (store_val_ok (l_heap l) p n Hhp Hp)
    as (hp1 & E1 & Hhp1 & Hd1 & Ho1 & Hs1).
  rewrite E1. cbn [mbind Res_bind].
  destruct (advance_ok (l_init l) (l_memory l) hp1 p Hm Hhp1
              (tree_cells_ok_dom_le _ _ _ Hd1 Htc) Hv Ep (Hd1 p Hp))
    as (init' & m' & hp' & r & E2 & Hv' & Er & Hr & Hm' & Hhp' & Htc' & Hext).
  rewrite E2. cbn [mbind Res_bind].
  eexists. split; [reflexivity|].
  apply (loader_ok_intro _ _ _ _ _ _ _ r); try assumption.
  - apply (stored_ok_extends _ _ _ Hext).
    apply (stored_ok_here hp1 p n Hs1 Hn).
  - apply (stored_ok_extends _ _ _ Hext).
    apply (stored_ok_store _ _ _ _ _ Ho1 Hs1 Hn Hprev).
  - intros _. eauto.
Qed.

Lemma load_chars_ok (program : list Z) :
  forall l, loader_ok l ->
    load_chars program l = Fatal InvalidCharacter
    \/ exists l', load_chars program l = Ok l' /\ loader_ok l'.
Proof.
  induction program as [|b rest IH]; intros l Hl; cbn [load_chars].
  - right. eauto.
  - destruct (load_char_ok (char_of_byte b) l Hl) as [-> | (l1 & -> & Hl1)];
      cbn [mbind Res_bind]; [left; reflexivity|].
    apply IH, Hl1.
Qed.

Lemma read_program_ok (program : list Z) (l : Loader) :
  read_program program = Ok l -> loader_ok l.
Proof.
  unfold read_program.
  destruct loader_init_ok as (l0 & -> & Hl0 & _). cbn [mbind Res_bind].
  intros E. destruct (load_chars_ok program l0 Hl0) as [E' | (l' & E' & Hl')];
    rewrite E' in E; [discriminate|]. injection E as <-. exact Hl'.
Qed.

(** A synthetic step in a well-formed state with two populated cells
    succeeds and leaves such a state. *)
Lemma synth_step_ok (pos : Z) (l : Loader) :
  loader_ok l -> is_Some (l_prevprev l) -> pos < 18 ->
  exists l', synth_step pos l = Ok l' /\ loader_ok l'
             /\ is_Some (l_prevprev l').
Proof.
  intros (Hm & Hhp & Htc & Hv & (p & Ep & Hp) & Hprev & Hpp & Himp) Hs Hpos.
  destruct (Himp Hs) as [q1 Eq1]. destruct Hs as [q2 Eq2].
  destruct (Hprev q1 Eq1) as (pc & pv & Epc & Vpc & Hpv).
  destruct (Hpp q2 Eq2) as (ppc & ppv & Eppc & Vppc & Hppv).
  unfold synth_step. rewrite Eq1, Eq2. cbn [must mbind Res_bind].
  rewrite Epc, Eppc. cbn [must mbind Res_bind].
  rewrite Vpc, Vppc. cbn [must mbind Res_bind].
  assert (Hcv : valid_number (clone_number pv)) by (destruct pv; exact Hpv).
  assert (Hcv2 : valid_number (clone_number ppv))
    by (destruct ppv; exact Hppv).
  rewrite (opr_closed_form _ _ Hcv Hcv2). cbn [must mbind Res_bind].
  destruct (opr_trits_valid _ _ Hcv Hcv2) as [Ht Hne].
  assert (Hc : is_trit (crazy (head (clone_number ppv))
                          (head (clone_number pv)))).
  { apply crazy_trit; [apply Hcv2 | apply Hcv]. }
  set (m1 := mkNumber _ _ None (-2)) in *.
  assert (Hm1 : valid_number m1) by (unfold valid_number; auto).
  pose proof (update_unicode_valid m1 Hm1) as Hm1u.
  assert (Hstage : exists m' hp1 ivs,
    (if pos <? 12 then Ok (l_memory l, l_heap l, l_initial_values l)
     else
       '(m2, m, hp) ← must (update_memptr (update_unicode m1)
                                            (l_memory l) (l_heap l));
       if (pos - 12 <? 0) || (pos - 12 >=? 6) then Undef
       else Ok (m, hp, <[Z.to_nat (pos - 12) := Some m2]>
                         (l_initial_values l)))
    = Ok (m', hp1, ivs)
    /\ memory_ok m' /\ heap_ok hp1 /\ tree_cells_ok m' hp1
    /\ heap_extends (l_heap l) hp1).
  { destruct (pos <? 12) eqn:E12.
    - exists (l_memory l), (l_heap l), (l_initial_values l).
      repeat split; try assumption; try apply Hm; try apply Hhp.
      apply heap_extends_refl.
    - destruct Hm1u as (Hh1 & Hl1 & _).
      destruct (update_memptr_ok (update_unicode m1) (l_memory l) (l_heap l)
                  Hm Hhp Htc Hh1 Hl1)
        as (r & m' & hp1 & E & Hr & Hm' & Hhp1 & Htc1 & Hext).
      { unfold memptr_ok.
        destruct (update_unicode_fields m1) as (_ & _ & ->). exact I. }
      rewrite E. cbn [must mbind Res_bind].
      replace ((pos - 12 <? 0) || (pos - 12 >=? 6)) with false by lia.
      do 3 eexists. split; [reflexivity|].
      repeat split; try assumption; try apply Hm'; try apply Hhp1. }
  destruct Hstage as (m' & hp1 & ivs & -> & Hm' & Hhp1 & Htc1 & Hext1).
  cbn [mbind Res_bind]. rewrite Ep. cbn [must mbind Res_bind].
  pose proof (heap_extends_dom _ _ _ Hext1 Hp) as Hp1.
  destruct (store_val_ok hp1 p (update_unicode m1) Hhp1 Hp1)
    as (hp2 & E2 & Hhp2 & Hd2 & Ho2 & Hs2).
  rewrite E2. cbn [mbind Res_bind].
  destruct (advance_ok (l_init l) m' hp2 p Hm' Hhp2
              (tree_cells_ok_dom_le _ _ _ Hd2 Htc1) Hv Ep (Hd2 p Hp1))
    as (init' & m2 & hp3 & r & E3 & Hv' & Er & Hr & Hm2 & Hhp3 & Htc3 & Hext3).
  rewrite E3. cbn [mbind Res_bind].
  eexists. split; [reflexivity|]. split.
  - apply (loader_ok_intro _ _ _ _ _ _ _ r); try assumption.
    + apply (stored_ok_extends _ _ _ Hext3).
      apply (stored_ok_here hp2 p _ Hs2 Hm1u).
    + apply (stored_ok_extends _ _ _ Hext3).
      apply (stored_ok_store hp1 hp2 p _ _ Ho2 Hs2 Hm1u).
      apply (stored_ok_extends _ _ _ Hext1).
      intros q [= <-]. exists pc, pv. auto.
    + intros _. eauto.
  - cbn [l_prevprev]. eauto.
Qed.

Lemma synth_steps_ok (len : nat) :
  forall a l,
    loader_ok l -> is_Some (l_prevprev l) -> a + Z.of_nat len <= 18 ->
    exists l', synth_steps (Zseq a len) l = Ok l' /\ loader_ok l'
               /\ is_Some (l_prevprev l').
Proof.
  induction len as [|len IH]; intros a l Hl Hs Ha.
  - exists l. auto.
  - rewrite Zseq_cons. cbn [synth_steps].
    destruct (synth_step_ok a l Hl Hs ltac:(lia)) as (l1 & -> & Hl1 & Hs1).
    cbn [mbind Res_bind]. apply IH; [assumption | assumption | lia].
Qed.

(** The synthetic steps run from the index [pos mod 6] to 17, and the
    numbers that those with the indices 12 to 17 retain are the six
    initial values. *)
Lemma synth_steps_retained (program : list Z) (l : Loader) :
  read_program program = Ok l -> is_Some (l_prevprev l) ->
  let p := Z.rem (l_pos l) 6 in
  0 <= p < 6
  /\ load program = synth_steps (Zseq p (Z.to_nat (18 - p))) l
  /\ length (Zseq p (Z.to_nat (18 - p))) = Z.to_nat (18 - p)
  /\ exists l',
       load program = Ok l'
       /\ forall k, (k < 6)%nat ->
            exists s m2,
              synth_steps (Zseq p (Z.to_nat (12 + Z.of_nat k - p))) l = Ok s
              /\ synth_retained s = Ok m2
              /\ l_initial_values l' !! k = Some (Some m2).
Proof.
  intros Hr Hq p.
  pose proof (read_program_pos _ _ Hr) as Hpos.
  pose proof (read_program_ok _ _ Hr) as Hok.
  assert (Hp : 0 <= p < 6).
  { subst p. rewrite Z.rem_mod_nonneg by lia. apply Z.mod_pos_bound. lia. }
  assert (Hload : load program = synth_steps (Zseq p (Z.to_nat (18 - p))) l).
  { unfold load. unfold read_program in Hr.
    destruct loader_init as [l0| | |]; try discriminate.
    unfold mbind, Res_bind in Hr |- *. cbv beta iota in Hr |- *.
    destruct Hq as [q Hq]. rewrite Hr, Hq. apply synth_loop_steps. lia. }
  split; [exact Hp|]. split; [exact Hload|]. split; [apply Zseq_length|].
  destruct (synth_steps_ok (Z.to_nat (18 - p)) p l Hok Hq ltac:(lia))
    as (l' & El' & _).
  exists l'. split; [rewrite Hload; exact El'|].
  intros k Hk. rename El' into Hl'.
  replace (Z.to_nat (18 - p))
    with (Z.to_nat (12 + Z.of_nat k - p) + (1 + (5 - k)))%nat in Hl' by lia.
  rewrite Zseq_app, (Zseq_app _ 1 (5 - k)), !synth_steps_app in Hl'.
  change (Zseq (p + Z.of_nat (Z.to_nat (12 + Z.of_nat k - p))) 1)
    with [p + Z.of_nat (Z.to_nat (12 + Z.of_nat k - p)) + Z.of_nat 0]
    in Hl'.
  replace (p + Z.of_nat (Z.to_nat (12 + Z.of_nat k - p)) + Z.of_nat 0)
    with (12 + Z.of_nat k) in Hl' by lia.
  cbn [app synth_steps] in Hl'. unfold mbind, Res_bind in Hl'.
  destruct (synth_steps (Zseq p (Z.to_nat (12 + Z.of_nat k - p))) l)
    as [s| | |] eqn:Es; try discriminate.
  destruct (synth_step (12 + Z.of_nat k) s) as [s1| | |] eqn:E1;
    try discriminate.
  destruct (synth_step_initial_values _ _ _ E1) as (Hlen1 & _ & Hge).
  destruct (Hge ltac:(lia)) as (m2 & Hm2 & _ & Hivs).
  exists s, m2. split; [reflexivity|]. split; [exact Hm2|].
  destruct (synth_steps_initial_values _ _ _ Hl') as [_ Hkeep].
  rewrite Hkeep.
  - rewrite Hivs. replace (Z.to_nat (12 + Z.of_nat k - 12)) with k by lia.
    apply list_lookup_insert_eq.
    destruct (synth_steps_initial_values _ _ _ Es) as [Hlen _].
    rewrite Hlen, (read_program_initial_values _ _ Hr). cbn. exact Hk.
  - intros i Hi _. apply In_Zseq in Hi. lia.
Qed.

(** C4, as stated, fails: for the program "b&" the loader leaves 18
    populated cells, two from the file and 16 from synthetic steps; 18
    synthetic steps would leave 20. *)
Lemma loader_not_always_18_steps :
  ~ (forall program l,
       read_program program = Ok l -> is_Some (l_prevprev l) ->
       load program = synth_steps (Zseq 0 18) l).
Proof.
  intros H.
  assert (H1 : exists l,
             read_program [98; 38] = Ok l
             /\ is_Some (l_prevprev l)
             /\ cells_loaded (load [98; 38]) = Some 18%nat
             /\ cells_loaded (synth_steps (Zseq 0 18) l) = Some 20%nat).
  { eexists. split; [vm_compute; reflexivity|].
    split; [eexists; reflexivity|].
    split; vm_compute; reflexivity. }
  destruct H1 as (l & Hr & Hp & H18 & H20).
  rewrite (H _ _ Hr Hp) in H18. congruence.
Qed.

End LoaderFacts.

(** ** UTF-8: encoding followed by decoding *)

Section Utf8RoundTrip.

Lemma byte_implies (C P : Z -> bool) :
  forallb (fun b => implb (C b) (P b)) bytes256 = true ->
  forall b, is_byte b -> C b = true -> P b = true.
Proof.
  intros H b Hb HC.
  pose proof (byte_cases (fun b => implb (C b) (P b)) H b Hb) as Hi.
  cbv beta in Hi. rewrite HC in Hi. exact Hi.
Qed.

Lemma land_lead2 b : 0xC0 <= b < 0xE0 -> Z.land b 0x1F = b - 0xC0.
Proof.
  intros Hb. apply Z.eqb_eq.
  apply (byte_implies (fun b => (0xC0 <=? b) && (b <? 0xE0))
           (fun b => Z.land b 0x1F =? b - 0xC0));
    [now vm_compute | unfold is_byte; lia | lia].
Qed.

Lemma land_lead3 b : 0xE0 <= b < 0xF0 -> Z.land b 0x0F = b - 0xE0.
Proof.
  intros Hb. apply Z.eqb_eq.
  apply (byte_implies (fun b => (0xE0 <=? b) && (b <? 0xF0))
           (fun b => Z.land b 0x0F =? b - 0xE0));
    [now vm_compute | unfold is_byte; lia | lia].
Qed.

Lemma land_lead4 b : 0xF0 <= b < 0xF8 -> Z.land b 0x07 = b - 0xF0.
Proof.
  intros Hb. apply Z.eqb_eq.
  apply (byte_implies (fun b => (0xF0 <=? b) && (b <? 0xF8))
           (fun b => Z.land b 0x07 =? b - 0xF0));
    [now vm_compute | unfold is_byte; lia | lia].
Qed.

Lemma land_continuation b : 0x80 <= b < 0xC0 -> Z.land b 0x3F = b - 0x80.
Proof.
  intros Hb. apply Z.eqb_eq.
  apply (byte_implies (fun b => (0x80 <=? b) && (b <? 0xC0))
           (fun b => Z.land b 0x3F =? b - 0x80));
    [now vm_compute | unfold is_byte; lia | lia].
Qed.

Lemma putc_byte b : is_byte b -> putc b = b.
Proof.
  intros Hb. apply Z.eqb_eq.
  apply (byte_cases (fun b => putc b =? b)); [now vm_compute | exact Hb].
Qed.

(** Bits that do not overlap add up. *)
Lemma lor_add (hi lo k : Z) :
  0 <= k -> 0 <= lo < 2 ^ k -> hi mod 2 ^ k = 0 -> Z.lor hi lo = hi + lo.
Proof.
  intros Hk Hlo Hhi.
  assert (Hland : Z.land hi lo = 0).
  { apply Z.bits_inj'. intros i Hi. rewrite Z.land_spec, Z.bits_0.
    destruct (Z.lt_ge_cases i k) as [L|L].
    - assert (E : hi = hi / 2 ^ k * 2 ^ k).
      { pose proof (Z.div_mod hi (2 ^ k)
                      ltac:(apply Z.pow_nonzero; lia)). lia. }
      rewrite E, Z.mul_pow2_bits_low by lia. reflexivity.
    - destruct (Z.eq_dec lo 0) as [-> | Hn].
      + rewrite Z.bits_0. apply andb_false_r.
      + assert (Z.log2 lo < k) by (apply Z.log2_lt_pow2; lia).
        rewrite (Z.bits_above_log2 lo i) by lia.
        apply andb_false_r. }
  rewrite <- Z.lxor_lor by exact Hland.
  symmetry. apply Z.add_nocarry_lxor, Hland.
Qed.

Lemma lor_mul (a lo m k : Z) :
  m = 2 ^ k -> 0 <= k -> 0 <= lo < m -> Z.lor (a * m) lo = a * m + lo.
Proof.
  intros -> Hk Hlo. apply (lor_add _ _ k); [exact Hk | exact Hlo |].
  apply Z.mod_mul. apply Z.pow_nonzero; lia.
Qed.

Lemma shiftr_6 s : Z.shiftr s 6 = s / 64.
Proof. rewrite Z.shiftr_div_pow2 by lia. reflexivity. Qed.

Lemma shiftr_12 s : Z.shiftr s 12 = s / 4096.
Proof. rewrite Z.shiftr_div_pow2 by lia. reflexivity. Qed.

Lemma shiftr_18 s : Z.shiftr s 18 = s / 262144.
Proof. rewrite Z.shiftr_div_pow2 by lia. reflexivity. Qed.

Lemma land_63 s : Z.land s 0x3F = s mod 64.
Proof. change 0x3F with (Z.ones 6). rewrite Z.land_ones by lia. reflexivity. Qed.

Lemma shiftl_6 x : Z.shiftl x 6 = x * 64.
Proof. rewrite Z.shiftl_mul_pow2 by lia. reflexivity. Qed.

Lemma shiftl_12 x : Z.shiftl x 12 = x * 4096.
Proof. rewrite Z.shiftl_mul_pow2 by lia. reflexivity. Qed.

Lemma shiftl_18 x : Z.shiftl x 18 = x * 262144.
Proof. rewrite Z.shiftl_mul_pow2 by lia. reflexivity. Qed.

(** The continuation byte for the six bits [x]. *)
Lemma continuation_byte x :
  0 <= x < 64 ->
  putc (Z.lor 0x80 x) = 0x80 + x.
Proof.
  intros Hx. rewrite (lor_add 0x80 x 6) by (try lia; reflexivity).
  apply putc_byte. unfold is_byte. lia.
Qed.

Lemma read_continuation x rest :
  0 <= x < 64 ->
  getchar ((0x80 + x) :: rest) = (0x80 + x, rest)
  /\ bad_continuation (0x80 + x) = false
  /\ Z.land (0x80 + x) 0x3F = x.
Proof.
  intros Hx. split; [reflexivity|]. split.
  - rewrite bad_continuation_byte by (unfold is_byte; lia).
    unfold is_continuation. lia.
  - rewrite land_continuation by lia. lia.
Qed.


Lemma lead_byte (hi lo k : Z) :
  0 <= k -> 0 <= lo < 2 ^ k -> hi mod 2 ^ k = 0 -> is_byte (hi + lo) ->
  putc (Z.lor hi lo) = hi + lo.
Proof.
  intros Hk Hlo Hhi Hb. rewrite (lor_add hi lo k) by assumption.
  apply putc_byte, Hb.
Qed.

Lemma read_1 s rest :
  0 <= s < 0x80 -> read_utf8_character (s :: rest) = Ok (s, rest).
Proof.
  intros Hs. unfold read_utf8_character. cbn [getchar].
  destruct (s =? EOF) eqn:E; [unfold EOF in E; lia|].
  rewrite lead1 by (unfold is_byte; lia).
  destruct (s <? 0x80) eqn:E1; [reflexivity|lia].
Qed.

Lemma read_2 y x rest :
  0 <= y < 32 -> 0 <= x < 64 ->
  read_utf8_character ((0xC0 + y) :: (0x80 + x) :: rest) = Ok (y * 64 + x, rest).
Proof.
  intros Hy Hx. unfold read_utf8_character. cbn [getchar].
  destruct (read_continuation x rest Hx) as (_ & Bx & Lx).
  destruct (0xC0 + y =? EOF) eqn:E; [unfold EOF in E; lia|].
  rewrite lead1 by (unfold is_byte; lia).
  destruct (0xC0 + y <? 0x80) eqn:E1; [lia|].
  rewrite lead2 by (unfold is_byte; lia).
  destruct ((0xC0 <=? 0xC0 + y) && (0xC0 + y <? 0xE0)) eqn:E2; [|lia].
  rewrite Bx, Lx, land_lead2, shiftl_6 by lia.
  replace (0xC0 + y - 0xC0) with y by lia.
  rewrite (lor_mul y x 64 6) by (reflexivity || lia).
  reflexivity.
Qed.

Lemma read_3 a b c rest :
  0 <= a < 16 -> 0 <= b < 64 -> 0 <= c < 64 ->
  read_utf8_character ((0xE0 + a) :: (0x80 + b) :: (0x80 + c) :: rest)
  = Ok (a * 4096 + b * 64 + c, rest).
Proof.
  intros Ha Hb Hc. unfold read_utf8_character. cbn [getchar].
  destruct (read_continuation b rest Hb) as (_ & Bb & Lb).
  destruct (read_continuation c rest Hc) as (_ & Bc & Lc).
  destruct (0xE0 + a =? EOF) eqn:E; [unfold EOF in E; lia|].
  rewrite lead1 by (unfold is_byte; lia).
  destruct (0xE0 + a <? 0x80) eqn:E1; [lia|].
  rewrite lead2 by (unfold is_byte; lia).
  destruct ((0xC0 <=? 0xE0 + a) && (0xE0 + a <? 0xE0)) eqn:E2; [lia|].
  rewrite lead3 by (unfold is_byte; lia).
  destruct ((0xE0 <=? 0xE0 + a) && (0xE0 + a <? 0xF0)) eqn:E3; [|lia].
  rewrite Bb, Bc, Lb, Lc, land_lead3, shiftl_6, shiftl_12 by lia.
  replace (0xE0 + a - 0xE0) with a by lia.
  rewrite (lor_mul a (b * 64) 4096 12) by (reflexivity || lia).
  replace (a * 4096 + b * 64) with ((a * 64 + b) * 64) by lia.
  rewrite (lor_mul _ c 64 6) by (reflexivity || lia).
  reflexivity.
Qed.

Lemma read_4 a b c d rest :
  0 <= a < 8 -> 0 <= b < 64 -> 0 <= c < 64 -> 0 <= d < 64 ->
  read_utf8_character
    ((0xF0 + a) :: (0x80 + b) :: (0x80 + c) :: (0x80 + d) :: rest)
  = Ok (a * 262144 + b * 4096 + c * 64 + d, rest).
Proof.
  intros Ha Hb Hc Hd. unfold read_utf8_character. cbn [getchar].
  destruct (read_continuation b rest Hb) as (_ & Bb & Lb).
  destruct (read_continuation c rest Hc) as (_ & Bc & Lc).
  destruct (read_continuation d rest Hd) as (_ & Bd & Ld).
  destruct (0xF0 + a =? EOF) eqn:E; [unfold EOF in E; lia|].
  rewrite lead1 by (unfold is_byte; lia).
  destruct (0xF0 + a <? 0x80) eqn:E1; [lia|].
  rewrite lead2 by (unfold is_byte; lia).
  destruct ((0xC0 <=? 0xF0 + a) && (0xF0 + a <? 0xE0)) eqn:E2; [lia|].
  rewrite lead3 by (unfold is_byte; lia).
  destruct ((0xE0 <=? 0xF0 + a) && (0xF0 + a <? 0xF0)) eqn:E3; [lia|].
  rewrite lead4 by (unfold is_byte; lia).
  destruct ((0xF0 <=? 0xF0 + a) && (0xF0 + a <? 0xF8)) eqn:E4; [|lia].
  rewrite Bb, Bc, Bd, Lb, Lc, Ld, land_lead4, shiftl_6, shiftl_12, shiftl_18
    by lia.
  replace (0xF0 + a - 0xF0) with a by lia.
  rewrite (lor_mul a (b * 4096) 262144 18) by (reflexivity || lia).
  replace (a * 262144 + b * 4096) with ((a * 64 + b) * 4096) by lia.
  rewrite (lor_mul _ (c * 64) 4096 12) by (reflexivity || lia).
  replace ((a * 64 + b) * 4096 + c * 64)
    with ((a * 4096 + b * 64 + c) * 64) by lia.
  rewrite (lor_mul _ d 64 6) by (reflexivity || lia).
  reflexivity.
Qed.

Lemma print_utf8_bytes s :
  0 <= s < 0x110000 -> print_utf8 s = Ok (utf8_bytes s).
Proof.
  intros Hs. unfold print_utf8, utf8_bytes.
  destruct ((s <? 0) || (s >=? 0x110000)) eqn:E0; [lia|].
  assert (H64 : 0 <= s mod 64 < 64) by (apply Z.mod_pos_bound; lia).
  assert (H64' : 0 <= (s / 64) mod 64 < 64) by (apply Z.mod_pos_bound; lia).
  assert (H64'' : 0 <= (s / 4096) mod 64 < 64) by (apply Z.mod_pos_bound; lia).
  rewrite ?shiftr_6, ?shiftr_12, ?shiftr_18, ?land_63, ?continuation_byte
    by assumption.
  destruct (s <? 0x80) eqn:E1.
  { rewrite putc_byte by (unfold is_byte; lia). reflexivity. }
  destruct (s <? 0x800) eqn:E2.
  { assert (0 <= s / 64 < 32)
      by (split; [apply Z.div_pos; lia | apply Z.div_lt_upper_bound; lia]).
    rewrite (lead_byte 0xC0 (s / 64) 6)
      by (unfold is_byte; try lia; reflexivity).
    reflexivity. }
  destruct (s <? 0x10000) eqn:E3.
  { assert (0 <= s / 4096 < 16)
      by (split; [apply Z.div_pos; lia | apply Z.div_lt_upper_bound; lia]).
    rewrite (lead_byte 0xE0 (s / 4096) 5)
      by (unfold is_byte; try lia; reflexivity).
    reflexivity. }
  assert (0 <= s / 262144 < 8)
    by (split; [apply Z.div_pos; lia | apply Z.div_lt_upper_bound; lia]).
  rewrite (lead_byte 0xF0 (s / 262144) 4)
    by (unfold is_byte; try lia; reflexivity).
  reflexivity.
Qed.

Lemma utf8_bytes_read s rest :
  0 <= s < 0x110000 ->
  read_utf8_character (utf8_bytes s ++ rest) = Ok (s, rest).
Proof.
  intros Hs. unfold utf8_bytes.
  assert (H64 : 0 <= s mod 64 < 64) by (apply Z.mod_pos_bound; lia).
  assert (H64' : 0 <= (s / 64) mod 64 < 64) by (apply Z.mod_pos_bound; lia).
  assert (H64'' : 0 <= (s / 4096) mod 64 < 64) by (apply Z.mod_pos_bound; lia).
  assert (D1 : s = s / 64 * 64 + s mod 64)
    by (pose proof (Z.div_mod s 64); lia).
  assert (D2 : s / 64 = s / 4096 * 64 + (s / 64) mod 64).
  { pose proof (Z.div_mod (s / 64) 64).
    replace (s / 4096) with (s / 64 / 64) by (rewrite Z.div_div by lia; reflexivity). lia. }
  assert (D3 : s / 4096 = s / 262144 * 64 + (s / 4096) mod 64).
  { pose proof (Z.div_mod (s / 4096) 64).
    replace (s / 262144) with (s / 4096 / 64) by (rewrite Z.div_div by lia; reflexivity).
    lia. }
  destruct (s <? 0x80) eqn:E1.
  { apply read_1. lia. }
  destruct (s <? 0x800) eqn:E2.
  { cbn [app]. rewrite read_2; [do 2 f_equal; lia | | lia].
    split; [apply Z.div_pos; lia | apply Z.div_lt_upper_bound; lia]. }
  destruct (s <? 0x10000) eqn:E3.
  { cbn [app]. rewrite read_3; [do 2 f_equal; lia | | lia | lia].
    split; [apply Z.div_pos; lia | apply Z.div_lt_upper_bound; lia]. }
  cbn [app]. rewrite read_4; [do 2 f_equal; lia | | lia | lia | lia].
  split; [apply Z.div_pos; lia | apply Z.div_lt_upper_bound; lia].
Qed.

Lemma utf8_bytes_are_bytes s :
  0 <= s < 0x110000 ->
  Forall is_byte (utf8_bytes s) /\ (1 <= length (utf8_bytes s) <= 4)%nat.
Proof.
  intros Hs. unfold utf8_bytes.
  assert (H64 : 0 <= s mod 64 < 64) by (apply Z.mod_pos_bound; lia).
  assert (H64' : 0 <= (s / 64) mod 64 < 64) by (apply Z.mod_pos_bound; lia).
  assert (H64'' : 0 <= (s / 4096) mod 64 < 64) by (apply Z.mod_pos_bound; lia).
  assert (0 <= s / 64) by (apply Z.div_pos; lia).
  assert (0 <= s / 4096) by (apply Z.div_pos; lia).
  assert (0 <= s / 262144 < 8)
    by (split; [apply Z.div_pos; lia | apply Z.div_lt_upper_bound; lia]).
  destruct (s <? 0x80) eqn:E1; [|destruct (s <? 0x800) eqn:E2;
    [|destruct (s <? 0x10000) eqn:E3]];
    (split; [repeat constructor; unfold is_byte; try lia | cbn; lia]).
  - assert (s / 64 < 32) by (apply Z.div_lt_upper_bound; lia). lia.
  - assert (s / 4096 < 16) by (apply Z.div_lt_upper_bound; lia). lia.
Qed.

(** X1. Encoding then decoding.  For every code point [print_utf8]
    accepts, that is [0 <= s < 0x110000], it writes between one and four
    bytes, and [read_utf8_character] reading those bytes followed by any
    further input returns [s] and leaves exactly that further input. *)
Theorem print_then_read_utf8 (s : Z) (rest : list Z) :
  0 <= s < 0x110000 ->
  exists bytes,
    print_utf8 s = Ok bytes
    /\ Forall is_byte bytes
    /\ (1 <= length bytes <= 4)%nat
    /\ read_utf8_character (bytes ++ rest) = Ok (s, rest).
Proof.
  intros Hs. exists (utf8_bytes s).
  destruct (utf8_bytes_are_bytes s Hs) as [HB HL].
  split; [apply print_utf8_bytes, Hs|].
  split; [exact HB|]. split; [exact HL|].
  apply utf8_bytes_read, Hs.
Qed.

Lemma print_then_read_utf8_witness :
  0 <= 0x20AC < 0x110000
  /\ exists bytes,
       print_utf8 0x20AC = Ok bytes
       /\ Forall is_byte bytes
       /\ (1 <= length bytes <= 4)%nat
       /\ read_utf8_character (bytes ++ [0x41]) = Ok (0x20AC, [0x41]).
Proof.
  split; [lia|]. apply (print_then_read_utf8 0x20AC [0x41]). lia.
Defined.

(** [print_utf8] rejects exactly the values outside the Unicode range. *)
Lemma print_utf8_fatal_iff (s : Z) :
  (print_utf8 s = Fatal InvalidCodepoint <-> s < 0 \/ 0x110000 <= s)
  /\ (forall r, print_utf8 s = r ->
        r = Fatal InvalidCodepoint \/ exists bytes, r = Ok bytes).
Proof.
  split.
  - split.
    + intros H. destruct (Z_lt_ge_dec s 0) as [L|G]; [left; exact L|].
      destruct (Z_lt_ge_dec s 0x110000) as [L1|G1]; [|right; lia].
      rewrite print_utf8_bytes in H by lia. discriminate.
    + intros H. unfold print_utf8.
      destruct ((s <? 0) || (s >=? 0x110000)) eqn:E; [reflexivity|lia].
  - intros r <-. unfold print_utf8.
    destruct ((s <? 0) || (s >=? 0x110000)); [left; reflexivity|].
    right. repeat destruct (_ <? _); eexists; reflexivity.
Qed.

End Utf8RoundTrip.

(** ** [in] followed by [out] *)

Lemma to_number_nonneg s :
  0 <= s ->
  to_number s = Some (mkNumber T0 (trits_of s) None
                        (if s <? 0x110000 then s else -1)).
Proof.
  intros Hs. unfold to_number.
  destruct (s <? 0) eqn:E; [lia | reflexivity].
Qed.

(** X2. The instruction [in] followed by [out] copies one character:
    when the input starts with the UTF-8 encoding of a code point [c]
    below 0x110000, [in] succeeds and consumes exactly those bytes, and
    [out] on the resulting state succeeds and appends exactly those bytes
    to the output, the line feed included; the registers [c] and [d],
    the memory and the heap are left as they were. *)
Theorem in_then_out_echoes (s0 : Machine) (c : Z) (rest : list Z) :
  0 <= c < 0x110000 ->
  stdin s0 = utf8_bytes c ++ rest ->
  exists s1 s2,
    exec_in s0 = Ok s1
    /\ exec_out s1 = Ok s2
    /\ stdin s2 = rest
    /\ stdout s2 = stdout s0 ++ utf8_bytes c
    /\ reg_c s2 = reg_c s0 /\ reg_d s2 = reg_d s0
    /\ memory s2 = memory s0 /\ heap s2 = heap s0.
Proof.
  intros Hc Hin. unfold exec_in. rewrite Hin, utf8_bytes_read by exact Hc.
  cbn [mbind Res_bind].
  destruct (c =? -1) eqn:E1; [lia|].
  destruct (c =? 10) eqn:E2.
  - apply Z.eqb_eq in E2. subst c.
    eexists. eexists. split; [reflexivity|].
    split; [reflexivity|]. repeat split; reflexivity.
  - rewrite to_number_nonneg by lia.
    destruct (c <? 0x110000) eqn:E3; [|lia].
    cbn [or_fatal mbind Res_bind].
    eexists. eexists. split; [reflexivity|].
    unfold exec_out, is_nl, update_unicode.
    cbn [reg_a with_a with_stdin head unicode must mbind Res_bind negb].
    change (T0 =? T2) with false. cbn [negb must mbind Res_bind].
    destruct (c =? -2) eqn:E4; [lia|]. cbn [negb unicode].
    rewrite print_utf8_bytes by exact Hc. cbn [mbind Res_bind].
    split; [reflexivity|]. repeat split; reflexivity.
Qed.

Lemma in_then_out_echoes_witness :
  0 <= 0x20AC < 0x110000
  /\ stdin (idle_machine [0xE2; 0x82; 0xAC; 0x41])
     = utf8_bytes 0x20AC ++ [0x41]
  /\ exists s1 s2,
       exec_in (idle_machine [0xE2; 0x82; 0xAC; 0x41]) = Ok s1
       /\ exec_out s1 = Ok s2
       /\ stdin s2 = [0x41]
       /\ stdout s2 = [0xE2; 0x82; 0xAC].
Proof.
  split; [lia|]. split; [reflexivity|].
  destruct (in_then_out_echoes (idle_machine [0xE2; 0x82; 0xAC; 0x41])
              0x20AC [0x41] ltac:(lia) eq_refl)
    as (s1 & s2 & E1 & E2 & Hi & Ho & _).
  exists s1, s2. split; [exact E1|]. split; [exact E2|].
  split; [exact Hi|]. exact Ho.
Defined.

(** X3. At the end of the input [in] succeeds and leaves in [a] the
    number ...22 with the Unicode cache -1; [out] on that state ends the
    program with the diagnostic for an invalid code point and writes
    nothing. *)
Theorem in_at_eof_then_out_fatal (s0 : Machine) :
  stdin s0 = [] ->
  exists s1,
    exec_in s0 = Ok s1
    /\ head (reg_a s1) = T2 /\ tail (reg_a s1) = [T2]
    /\ unicode (reg_a s1) = -1
    /\ stdin s1 = []
    /\ exec_out s1 = Fatal InvalidCodepoint.
Proof.
  intros Hin. unfold exec_in. rewrite Hin.
  eexists. split; [reflexivity|]. repeat split; reflexivity.
Qed.

Lemma in_at_eof_then_out_fatal_witness :
  stdin (idle_machine []) = []
  /\ exists s1,
       exec_in (idle_machine []) = Ok s1
       /\ exec_out s1 = Fatal InvalidCodepoint.
Proof.
  split; [reflexivity|].
  destruct (in_at_eof_then_out_fatal (idle_machine []) eq_refl)
    as (s1 & E1 & _ & _ & _ & _ & E2).
  exists s1. split; [exact E1 | exact E2].
Defined.

(** ** The growth policies of the rotation width *)

Lemma gt_half (x y : Z) : 0 <= y -> (x >? Z.quot y 2) = (2 * x >? y).
Proof.
  intros Hy. rewrite Z.quot_div_nonneg by lia.
  pose proof (Z.div_mod y 2 ltac:(lia)).
  pose proof (Z.mod_pos_bound y 2 ltac:(lia)).
  destruct (x >? y / 2) eqn:E1, (2 * x >? y) eqn:E2; lia.
Qed.

Lemma det_growth_policy_eq (new_wordwidth old_rotwidth step slack : Z) :
  0 <= slack <= old_rotwidth -> old_rotwidth <= UINTMAX_MAX ->
  det_growth_policy new_wordwidth old_rotwidth step slack
  = if 2 * new_wordwidth >? old_rotwidth - slack then
      if (old_rotwidth + step >? UINTMAX_MAX)
         || (2 * new_wordwidth >? UINTMAX_MAX)
      then Fatal WidthExceeded
      else Ok (Z.max (old_rotwidth + step) (2 * new_wordwidth))
    else Ok old_rotwidth.
Proof.
  intros Hs Ho. unfold det_growth_policy, UINTMAX_MAX in *.
  rewrite Z.mod_small by lia.
  rewrite !gt_half by lia.
  destruct (2 * new_wordwidth >? old_rotwidth - slack); [|reflexivity].
  destruct (old_rotwidth >? 2 ^ 64 - 1 - step) eqn:E1;
    destruct (old_rotwidth + step >? 2 ^ 64 - 1) eqn:E2; try lia;
    [reflexivity|].
  cbn [orb].
  destruct (2 * new_wordwidth >? 2 ^ 64 - 1); [reflexivity|].
  f_equal.
  destruct (2 * new_wordwidth >? old_rotwidth + step) eqn:E3; lia.
Qed.

(** X4. [det_growth_policy], for a rotation width that is at least the
    slack and fits [uintmax_t]: when twice the new word width is at most
    the old rotation width less the slack, the rotation width is kept;
    otherwise the result is the larger of the old width plus the step and
    twice the word width, and the program ends with the diagnostic of an
    exceeded width when either does not fit [uintmax_t].  A returned
    width is never smaller than the old one, is at least twice the word
    width and fits [uintmax_t]. *)
Theorem det_growth_policy_bounds (new_wordwidth old_rotwidth step slack : Z) :
  0 <= new_wordwidth -> 0 <= step ->
  0 <= slack <= old_rotwidth -> old_rotwidth <= UINTMAX_MAX ->
  (2 * new_wordwidth <= old_rotwidth - slack ->
     det_growth_policy new_wordwidth old_rotwidth step slack
     = Ok old_rotwidth)
  /\ (old_rotwidth - slack < 2 * new_wordwidth ->
      old_rotwidth + step <= UINTMAX_MAX ->
      2 * new_wordwidth <= UINTMAX_MAX ->
      det_growth_policy new_wordwidth old_rotwidth step slack
      = Ok (Z.max (old_rotwidth + step) (2 * new_wordwidth)))
  /\ (old_rotwidth - slack < 2 * new_wordwidth ->
      UINTMAX_MAX < old_rotwidth + step \/ UINTMAX_MAX < 2 * new_wordwidth ->
      det_growth_policy new_wordwidth old_rotwidth step slack
      = Fatal WidthExceeded)
  /\ (forall r,
        det_growth_policy new_wordwidth old_rotwidth step slack = Ok r ->
        old_rotwidth <= r <= UINTMAX_MAX /\ 2 * new_wordwidth <= r).
Proof.
  intros Hn Hst Hs Ho. rewrite det_growth_policy_eq by assumption.
  destruct (2 * new_wordwidth >? old_rotwidth - slack) eqn:E.
  - destruct ((old_rotwidth + step >? UINTMAX_MAX)
              || (2 * new_wordwidth >? UINTMAX_MAX)) eqn:E1.
    + repeat split; try lia; try discriminate.
    + split; [lia|]. split; [reflexivity|]. split; [lia|].
      intros r [= <-]. lia.
  - split; [reflexivity|]. split; [lia|]. split; [lia|].
    intros r [= <-]. lia.
Qed.

Lemma det_growth_policy_bounds_witness :
  det_growth_policy 8 10 4 2 = Ok 16
  /\ det_growth_policy 3 10 4 2 = Ok 10
  /\ det_growth_policy 5 (UINTMAX_MAX - 3) 4 2 = Ok (UINTMAX_MAX - 3)
  /\ det_growth_policy (2 ^ 63) (UINTMAX_MAX - 3) 4 2 = Fatal WidthExceeded.
Proof.
  split; [|split; [|split]].
  - apply (det_growth_policy_bounds 8 10 4 2); unfold UINTMAX_MAX; lia.
  - apply (det_growth_policy_bounds 3 10 4 2); unfold UINTMAX_MAX; lia.
  - apply (det_growth_policy_bounds 5 (UINTMAX_MAX - 3) 4 2);
      unfold UINTMAX_MAX; lia.
  - apply (det_growth_policy_bounds (2 ^ 63) (UINTMAX_MAX - 3) 4 2);
      unfold UINTMAX_MAX; lia.
Defined.

Lemma nondet_growth_policy_eq (rand : nat -> Z) (k : nat)
    (new_wordwidth old_rotwidth prob slack : Z) :
  0 <= old_rotwidth ->
  nondet_growth_policy rand k new_wordwidth old_rotwidth prob slack
  = if (2 * new_wordwidth >? old_rotwidth) || (rand k <=? prob) then
      if (2 * new_wordwidth >? UINTMAX_MAX)
         || (Z.max old_rotwidth (2 * new_wordwidth)
               + Z.rem (rand (S k)) (slack + 1) >? UINTMAX_MAX)
      then Fatal WidthExceeded
      else Ok (Z.max old_rotwidth (2 * new_wordwidth)
                 + Z.rem (rand (S k)) (slack + 1), S (S k))
    else Ok (old_rotwidth, S k).
Proof.
  intros Ho. unfold nondet_growth_policy, UINTMAX_MAX.
  rewrite !gt_half by lia.
  destruct ((2 * new_wordwidth >? old_rotwidth) || (rand k <=? prob));
    [|reflexivity].
  destruct (2 * new_wordwidth >? 2 ^ 64 - 1); [reflexivity|]. cbn [orb].
  replace (if 2 * new_wordwidth >? old_rotwidth
           then 2 * new_wordwidth else old_rotwidth)
    with (Z.max old_rotwidth (2 * new_wordwidth))
    by (destruct (2 * new_wordwidth >? old_rotwidth) eqn:E; lia).
  set (mx := Z.max old_rotwidth (2 * new_wordwidth)).
  set (rnd := Z.rem (rand (S k)) (slack + 1)).
  destruct (mx >? 2 ^ 64 - 1 - rnd) eqn:E1;
    destruct (mx + rnd >? 2 ^ 64 - 1) eqn:E2; try lia; reflexivity.
Qed.

(** X5. [nondet_growth_policy], when [rand()] returns no negative value:
    the width is kept, after one call of [rand()], only if twice the new
    word width is at most the old rotation width and the value drawn is
    above [prob]; otherwise two values are drawn and the result is the
    larger of the old width and twice the word width plus a random
    amount of at most the slack.  A returned width is never smaller than
    the old one, is at least twice the word width and fits [uintmax_t];
    the only diagnostic is the one of an exceeded width. *)
Theorem nondet_growth_policy_bounds (rand : nat -> Z) (k : nat)
    (new_wordwidth old_rotwidth prob slack : Z) :
  (forall i, 0 <= rand i) ->
  0 <= new_wordwidth -> 0 <= slack -> 0 <= old_rotwidth <= UINTMAX_MAX ->
  (forall r k',
     nondet_growth_policy rand k new_wordwidth old_rotwidth prob slack
     = Ok (r, k') ->
     old_rotwidth <= r <= UINTMAX_MAX
     /\ 2 * new_wordwidth <= r
     /\ r <= Z.max old_rotwidth (2 * new_wordwidth) + slack
     /\ (k' = S k /\ r = old_rotwidth /\ prob < rand k
         \/ k' = S (S k)
            /\ r = Z.max old_rotwidth (2 * new_wordwidth)
                   + Z.rem (rand (S k)) (slack + 1)))
  /\ (forall dg,
        nondet_growth_policy rand k new_wordwidth old_rotwidth prob slack
        = Fatal dg ->
        dg = WidthExceeded
        /\ UINTMAX_MAX < Z.max old_rotwidth (2 * new_wordwidth) + slack)
  /\ nondet_growth_policy rand k new_wordwidth old_rotwidth prob slack
     <> Undef
  /\ nondet_growth_policy rand k new_wordwidth old_rotwidth prob slack
     <> Halt.
Proof.
  intros Hr Hn Hs Ho. rewrite nondet_growth_policy_eq by lia.
  assert (Hrnd : 0 <= Z.rem (rand (S k)) (slack + 1) <= slack).
  { pose proof (Z.rem_bound_pos (rand (S k)) (slack + 1) (Hr _)
                  ltac:(lia)). lia. }
  destruct ((2 * new_wordwidth >? old_rotwidth) || (rand k <=? prob)) eqn:E.
  - destruct ((2 * new_wordwidth >? UINTMAX_MAX)
              || (Z.max old_rotwidth (2 * new_wordwidth)
                  + Z.rem (rand (S k)) (slack + 1) >? UINTMAX_MAX)) eqn:E1.
    + split; [discriminate|]. split; [|split; discriminate].
      intros dg [= <-]. split; [reflexivity|]. lia.
    + split; [|split; [discriminate|split; discriminate]].
      intros r k' [= <- <-].
      split; [lia|]. split; [lia|]. split; [lia|].
      right. split; reflexivity.
  - split; [|split; [discriminate|split; discriminate]].
    intros r k' [= <- <-].
    split; [lia|]. split; [lia|]. split; [lia|].
    left. split; [reflexivity|]. split; [reflexivity|]. lia.
Qed.

Lemma nondet_growth_policy_bounds_witness :
  (forall i : nat, 0 <= (fun _ => 7) i)
  /\ nondet_growth_policy (fun _ => 7) 0 8 10 5 3 = Ok (19, 2%nat)
  /\ 10 <= 19 <= UINTMAX_MAX.
Proof.
  split; [intros; lia|]. split; [reflexivity|].
  destruct (nondet_growth_policy_bounds (fun _ => 7) 0 8 10 5 3) as [H _];
    [intros; lia | lia | lia | unfold UINTMAX_MAX; lia |].
  apply (H 19 2%nat). reflexivity.
Defined.

(** ** [get_real_width], [is_nl] and [to_number] *)

Lemma get_real_width_loop_spec (h : Z) (its : list Z) :
  forall i rw,
    (get_real_width_loop its h i rw = rw /\ forall k, nth k its h = h)
    \/ exists j : nat,
         (j < length its)%nat
         /\ get_real_width_loop its h i rw = i + Z.of_nat j + 1
         /\ nth j its h <> h
         /\ forall k, (j < k)%nat -> nth k its h = h.
Proof.
  induction its as [|t rest IH]; intros i rw; cbn [get_real_width_loop].
  - left. split; [reflexivity|]. intros [|k]; reflexivity.
  - destruct (IH (i + 1) (if negb (t =? h) then i + 1 else rw))
      as [[E All] | (j & Hj & E & Hne & Hafter)].
    + destruct (t =? h) eqn:Eth; cbn [negb] in *.
      * left. split; [exact E|]. apply Z.eqb_eq in Eth.
        intros [|k]; [exact Eth | apply All].
      * right. exists 0%nat. cbn [length nth]. apply Z.eqb_neq in Eth.
        split; [lia|]. split; [lia|]. split; [lia|].
        intros [|k] Hk; [lia | apply All].
    + right. exists (S j). cbn [length nth].
      split; [lia|]. split; [lia|]. split; [exact Hne|].
      intros [|k] Hk; [lia | apply Hafter; lia].
Qed.

(** X6. [get_real_width] returns the least position from which on every
    trit of the number, its tail extended with the head, equals the head:
    it is at most the stored width, every trit at or above it equals the
    head, and when it is positive the trit just below it differs from
    the head.  Two representations of the same value, whatever their
    stored widths, have the same real width. *)
Theorem get_real_width_least (n : Number) :
  0 <= get_real_width n <= Z.of_nat (width n)
  /\ (forall i, get_real_width n <= Z.of_nat i -> trit_at n i = head n)
  /\ (0 < get_real_width n ->
      trit_at n (Z.to_nat (get_real_width n - 1)) <> head n)
  /\ (forall n2, value_equal n n2 -> get_real_width n2 = get_real_width n).
Proof.
  assert (Spec : forall m : Number,
             0 <= get_real_width m <= Z.of_nat (width m)
             /\ (forall i, get_real_width m <= Z.of_nat i ->
                           trit_at m i = head m)
             /\ (0 < get_real_width m ->
                 trit_at m (Z.to_nat (get_real_width m - 1)) <> head m)).
  { intros m. unfold get_real_width, trit_at, width.
    destruct (get_real_width_loop_spec (head m) (tail m) 0 0)
      as [[E All] | (j & Hj & E & Hne & Hafter)]; rewrite E.
    - split; [lia|]. split; [intros i _; apply All | lia].
    - split; [lia|]. split.
      + intros i Hi. apply Hafter. lia.
      + intros _. replace (Z.to_nat (0 + Z.of_nat j + 1 - 1)) with j by lia.
        exact Hne. }
  destruct (Spec n) as (Hb & Habove & Hbelow).
  split; [exact Hb|]. split; [exact Habove|]. split; [exact Hbelow|].
  intros n2 [Hh Ht].
  destruct (Spec n2) as (Hb2 & Habove2 & Hbelow2).
  destruct (Z.lt_trichotomy (get_real_width n2) (get_real_width n))
    as [L | [E | L]]; [|exact E|].
  - exfalso. apply Hbelow; [lia|].
    rewrite Ht, Hh. apply Habove2. lia.
  - exfalso. apply Hbelow2; [lia|].
    rewrite <- Ht, <- Hh. apply Habove. lia.
Qed.

Lemma forallb_rev_all (h : Z) (l : list Z) :
  forallb (fun t => t =? h) (rev l) = true <-> forall k, nth k l h = h.
Proof.
  rewrite forallb_forall. split.
  - intros H k. destruct (Nat.lt_ge_cases k (length l)) as [L|G].
    + apply Z.eqb_eq, H. apply in_rev. rewrite rev_involutive.
      apply nth_In, L.
    + apply nth_overflow, G.
  - intros H x Hx. apply in_rev in Hx.
    apply (In_nth _ _ h) in Hx. destruct Hx as (k & _ & <-).
    apply Z.eqb_eq, H.
Qed.

(** X7. [is_nl] recognises the value ...2221 in every representation: for
    a number with a tail of width at least 1 it returns 1 exactly when
    the number equals, as a value, the number [nl()] builds, and 0
    otherwise. *)
Theorem is_nl_iff_value_nl (n : Number) :
  tail n <> [] ->
  (is_nl n = Some true <-> value_equal n nl)
  /\ (is_nl n = Some false <-> ~ value_equal n nl).
Proof.
  intros Hne.
  assert (Hiff : is_nl n = Some true <-> value_equal n nl).
  { unfold is_nl, value_equal, trit_at. cbn [nl head tail].
    destruct (tail n) as [|t0 rest] eqn:Et; [contradiction|].
    destruct (head n =? T2) eqn:Eh; cbn [negb].
    - apply Z.eqb_eq in Eh. rewrite Eh.
      destruct (forallb (fun t => t =? T2) (rev rest)) eqn:Ef.
      + pose proof (proj1 (forallb_rev_all T2 rest) Ef) as Ef'.
        clear Ef. rename Ef' into Ef. split.
        * intros [= E0]. apply Z.eqb_eq in E0. split; [reflexivity|].
          intros [|[|k]]; cbn [nth]; [exact E0 | apply Ef | apply Ef].
        * intros [_ H]. specialize (H 0%nat). cbn [nth] in H.
          rewrite H. reflexivity.
      + split; [discriminate|]. intros [_ H]. exfalso.
        assert (All : forall k, nth k rest T2 = T2).
        { intros k. specialize (H (S k)). cbn [nth] in H.
          rewrite H. destruct k; reflexivity. }
        pose proof (proj2 (forallb_rev_all T2 rest) All). congruence.
    - split; [discriminate|]. intros [Hh _]. apply Z.eqb_neq in Eh.
      contradiction. }
  split; [exact Hiff|].
  assert (Hsome : is_nl n = Some true \/ is_nl n = Some false).
  { unfold is_nl. destruct (negb (head n =? T2)); [right; reflexivity|].
    destruct (tail n) as [|t0 rest]; [contradiction|].
    destruct (forallb _ _); [|right; reflexivity].
    destruct (t0 =? T1); [left | right]; reflexivity. }
  split.
  - intros E Hv. apply Hiff in Hv. congruence.
  - intros Hv. destruct Hsome as [E|E]; [|exact E].
    exfalso. apply Hv, Hiff, E.
Qed.

Lemma is_nl_iff_value_nl_witness :
  tail (mkNumber 2 [1; 2; 2] None (-2)) <> []
  /\ value_equal (mkNumber 2 [1; 2; 2] None (-2)) nl.
Proof.
  split; [discriminate|].
  apply (is_nl_iff_value_nl (mkNumber 2 [1; 2; 2] None (-2)));
    [discriminate | reflexivity].
Defined.

Lemma to_number_loop_nil (fuel : nat) (s : Z) :
  0 <= s -> Z.quot s 3 < 2 ^ Z.of_nat fuel ->
  to_number_loop fuel s = [] -> Z.quot s 3 = 0.
Proof.
  intros Hs Hq. destruct fuel as [|fuel]; cbn [to_number_loop].
  - intros _. change (2 ^ Z.of_nat 0) with 1 in Hq.
    rewrite Z.quot_div_nonneg in * by lia.
    pose proof (Z.div_pos s 3 Hs ltac:(lia)). lia.
  - destruct (Z.quot s 3 =? 0) eqn:E; [|discriminate].
    intros _. apply Z.eqb_eq, E.
Qed.

Lemma to_number_loop_last (fuel : nat) (s : Z) :
  0 <= s -> Z.quot s 3 < 2 ^ Z.of_nat fuel ->
  to_number_loop fuel s <> [] -> List.last (to_number_loop fuel s) 0 <> 0.
Proof.
  revert s. induction fuel as [|fuel IH]; intros s Hs Hq;
    cbn [to_number_loop]; [congruence|].
  rewrite Z.quot_div_nonneg in * by lia.
  pose proof (Z.div_pos s 3 Hs ltac:(lia)) as Hq0.
  destruct (s / 3 =? 0) eqn:E; [congruence|]. intros _.
  apply Z.eqb_neq in E.
  assert (Hq' : Z.quot (s / 3) 3 < 2 ^ Z.of_nat fuel).
  { rewrite Z.quot_div_nonneg by lia.
    rewrite Nat2Z.inj_succ, Z.pow_succ_r in Hq by lia.
    apply Z.div_lt_upper_bound; lia. }
  destruct (to_number_loop fuel (s / 3)) as [|x l] eqn:El.
  - apply to_number_loop_nil in El; [|lia|exact Hq'].
    rewrite Z.quot_div_nonneg in El by lia.
    cbn [List.last]. rewrite Z.rem_mod_nonneg by lia.
    pose proof (Z.div_mod (s / 3) 3 ltac:(lia)). lia.
  - change (List.last (Z.rem (s / 3) 3 :: x :: l) 0) with (List.last (x :: l) 0).
    rewrite <- El. apply IH; [lia | exact Hq' | congruence].
Qed.

Lemma trits_of_fuel (s : Z) :
  0 <= s -> Z.quot s 3 < 2 ^ Z.of_nat (Z.to_nat (Z.log2 s)).
Proof.
  intros Hs. rewrite Z.quot_div_nonneg by lia.
  destruct (Z.eq_dec s 0) as [->|Hn]; [vm_compute; reflexivity|].
  rewrite Z2Nat.id by apply Z.log2_nonneg.
  pose proof (Z.log2_spec s ltac:(lia)) as [Hlo Hhi].
  rewrite Z.pow_succ_r in Hhi by apply Z.log2_nonneg.
  apply Z.div_lt_upper_bound; lia.
Qed.

Lemma trits_of_last (s : Z) : 0 < s -> List.last (trits_of s) 0 <> 0.
Proof.
  intros Hs. unfold trits_of.
  pose proof (trits_of_fuel s ltac:(lia)) as Hf.
  destruct (to_number_loop (Z.to_nat (Z.log2 s)) s) as [|x l] eqn:El.
  - apply to_number_loop_nil in El; [|lia|exact Hf].
    rewrite Z.quot_div_nonneg in El by lia.
    cbn [List.last]. rewrite Z.rem_mod_nonneg by lia.
    pose proof (Z.div_mod s 3 ltac:(lia)). lia.
  - change (List.last (Z.rem s 3 :: x :: l) 0) with (List.last (x :: l) 0).
    rewrite <- El. apply to_number_loop_last; [lia | exact Hf | congruence].
Qed.

Lemma last_cons_nth (x d : Z) (l : list Z) :
  List.last (x :: l) d = nth (length l) (x :: l) d.
Proof.
  revert x. induction l as [|y l IH]; intros x; [reflexivity|].
  change (List.last (x :: y :: l) d) with (List.last (y :: l) d).
  rewrite IH. reflexivity.
Qed.

Lemma get_real_width_last (h x : Z) (l : list Z) (m : option positive)
    (u : Z) :
  List.last (x :: l) h <> h ->
  get_real_width (mkNumber h (x :: l) m u) = Z.of_nat (length (x :: l)).
Proof.
  intros Hl. unfold get_real_width. cbn [head tail].
  destruct (get_real_width_loop_spec h (x :: l) 0 0)
    as [[E All] | (j & Hj & E & Hne & Hafter)].
  - exfalso. apply Hl. rewrite last_cons_nth. apply All.
  - rewrite E.
    destruct (Nat.eq_dec (S j) (length (x :: l))) as [Ej|Ej]; [lia|].
    exfalso. apply Hl. rewrite last_cons_nth.
    apply Hafter. cbn [length] in *. lia.
Qed.

(** X8. [to_number] ends the program on a negative argument; on
    [s >= 0] it builds a number with head 0 whose tail is the ternary
    expansion of [s], least significant trit first, without a leading
    zero trit (the width is the real width; zero is the single trit 0),
    with no cell pointer, and with the Unicode cache that
    [update_unicode] would compute from the trits. *)
Theorem to_number_canonical (s : Z) :
  (s < 0 -> to_number s = None)
  /\ (0 <= s ->
      exists n,
        to_number s = Some n
        /\ valid_number n
        /\ head n = 0 /\ value_of (tail n) = s
        /\ memptr n = None
        /\ (0 < s -> get_real_width n = Z.of_nat (width n))
        /\ (s = 0 -> tail n = [0])
        /\ update_unicode (set_unicode n (-2)) = n).
Proof.
  split.
  - intros Hs. unfold to_number.
    destruct (s <? 0) eqn:E; [reflexivity | lia].
  - intros Hs. rewrite to_number_nonneg by exact Hs.
    eexists. split; [reflexivity|].
    destruct (to_number_valid s _ (to_number_nonneg s Hs)) as (V & Hh & Hv).
    split; [exact V|]. split; [exact Hh|]. split; [exact Hv|].
    split; [reflexivity|]. split; [|split].
    + intros Hpos. unfold width. cbn [tail].
      pose proof (trits_of_last s Hpos) as Hl.
      destruct (trits_of s) as [|x l] eqn:Et;
        [exfalso; exact (trits_of_nonempty s Et)|].
      apply get_real_width_last. exact Hl.
    + intros ->. reflexivity.
    + unfold update_unicode, set_unicode.
      cbn [head tail memptr unicode]. change (-2 =? -2) with true.
      change (T0 =? T0) with true. cbn [negb].
      rewrite (update_unicode_loop_spec (trits_of s)
                 (trits_of_trits s Hs) 0 1 1) by lia.
      cbn [tail] in Hv. rewrite Z.add_0_l, Z.mul_1_l, Hv.
      destruct (s <? 0x110000) eqn:E1; destruct (s >=? 0x110000) eqn:E2;
        try lia; reflexivity.
Qed.

(** ** Repeated rotation *)

Lemma rotate_r_turn (n : Number) (W : Z) :
  tail n <> [] ->
  rotate_r n W = Some (mkNumber (head n) (turn (padded_tail n W)) None (-2)).
Proof.
  intros Hne. unfold rotate_r, padded_tail.
  destruct (tail n) as [|t0 r0] eqn:E; [congruence|].
  rewrite rotate_r_pad_spec. cbn [tail head]. rewrite E. reflexivity.
Qed.

Lemma turn_length (l : list Z) : length (turn l) = length l.
Proof.
  destruct l as [|t rest]; [reflexivity|].
  cbn [turn length]. rewrite length_app. cbn [length]. lia.
Qed.

Lemma turn_nonempty (l : list Z) : l <> [] -> turn l <> [].
Proof.
  intros Hne E. apply (f_equal (@length Z)) in E. rewrite turn_length in E.
  destruct l; [congruence | discriminate].
Qed.

Lemma padded_tail_wide (n : Number) (W : Z) :
  W <= Z.of_nat (width n) -> padded_tail n W = tail n.
Proof.
  intros Hw. unfold padded_tail.
  replace (Z.to_nat (W - Z.of_nat (width n))) with 0%nat by lia.
  apply app_nil_r.
Qed.

Lemma rotate_r_iter_turn (k : nat) (n : Number) (W : Z) :
  tail n <> [] ->
  rotate_r_iter (S k) n W
  = Some (mkNumber (head n) (Nat.iter (S k) turn (padded_tail n W))
            None (-2)).
Proof.
  intros Hne.
  assert (Hp : padded_tail n W <> []).
  { unfold padded_tail. intros E. apply app_eq_nil in E. tauto. }
  assert (Hl : W <= Z.of_nat (length (padded_tail n W))).
  { rewrite padded_tail_length. lia. }
  cbn [rotate_r_iter]. rewrite rotate_r_turn by exact Hne.
  revert Hp Hl. generalize (padded_tail n W) as l. clear Hne.
  generalize (head n) as h. clear n.
  induction k as [|k IH]; intros h l Hp Hl; [reflexivity|].
  cbn [rotate_r_iter].
  rewrite rotate_r_turn by (cbn [tail]; apply turn_nonempty, Hp).
  cbn [head]. rewrite padded_tail_wide
    by (unfold width; cbn [tail]; rewrite turn_length; exact Hl).
  cbn [tail].
  rewrite IH by (try apply turn_nonempty; try rewrite turn_length;
                 assumption).
  rewrite <- !Nat.iter_succ_r. reflexivity.
Qed.

Lemma turn_drop_take (l : list Z) (j : nat) :
  (j < length l)%nat ->
  turn (drop j l ++ take j l)
  = drop (S j mod length l) l ++ take (S j mod length l) l.
Proof.
  intros Hj.
  destruct (l !! j) as [t|] eqn:Et;
    [|apply lookup_ge_None in Et; lia].
  rewrite (drop_S l t j Et). cbn [turn app].
  rewrite <- app_assoc, <- (take_S_r l j t Et).
  destruct (Nat.eq_dec (S j) (length l)) as [E|E].
  - rewrite E, Nat.Div0.mod_same. cbn [drop take].
    rewrite drop_all, take_ge by lia. rewrite app_nil_r. reflexivity.
  - rewrite Nat.mod_small by lia. reflexivity.
Qed.

Lemma iter_turn_drop_take (k : nat) (l : list Z) :
  l <> [] ->
  Nat.iter k turn l
  = drop (k mod length l) l ++ take (k mod length l) l.
Proof.
  intros Hne.
  assert (Hlen : (0 < length l)%nat) by (destruct l; [congruence|cbn; lia]).
  induction k as [|k IH].
  - rewrite Nat.Div0.mod_0_l. cbn. rewrite app_nil_r. reflexivity.
  - rewrite Nat.iter_succ, IH.
    rewrite turn_drop_take by (apply Nat.mod_upper_bound; lia).
    replace (S (k mod length l) mod length l)%nat
      with (S k mod length l)%nat;
      [reflexivity|].
    rewrite <- (Nat.add_1_r (k mod length l)), <- (Nat.add_1_r k).
    rewrite Nat.Div0.add_mod_idemp_l. reflexivity.
Qed.

Lemma padded_tail_nth (n : Number) (W : Z) (i : nat) :
  nth i (padded_tail n W) (head n) = trit_at n i.
Proof.
  unfold padded_tail, trit_at.
  destruct (Nat.lt_ge_cases i (length (tail n))) as [L|G].
  - apply app_nth1, L.
  - rewrite app_nth2 by exact G. rewrite nth_repeat.
    symmetry. apply nth_overflow, G.
Qed.

(** X9. Repeated [rot].  For a number with a tail of width at least 1,
    [k >= 1] applications of [rotate_r] at the rotation width [W] leave
    the head, and as tail the padded tail (the tail extended with the
    head to the width [max(width, W)]) rotated by [k] positions modulo
    that width: the trits from position [k mod L] on, followed by the
    first [k mod L] trits.  After exactly [L] applications the tail is the
    padded tail again and the number equals the original as a value. *)
Theorem rotate_r_iter_rotates (n : Number) (W : Z) (k : nat) :
  tail n <> [] -> (1 <= k)%nat ->
  let P := padded_tail n W in
  let L := length P in
  Z.of_nat L = Z.max (Z.of_nat (width n)) W
  /\ rotate_r_iter k n W
     = Some (mkNumber (head n) (drop (k mod L) P ++ take (k mod L) P)
               None (-2))
  /\ (k = L ->
      rotate_r_iter k n W = Some (mkNumber (head n) P None (-2))
      /\ value_equal (mkNumber (head n) P None (-2)) n).
Proof.
  intros Hne Hk P L.
  assert (Hp : P <> []).
  { unfold P, padded_tail. intros E. apply app_eq_nil in E. tauto. }
  assert (E : rotate_r_iter k n W
              = Some (mkNumber (head n)
                        (drop (k mod L) P ++ take (k mod L) P) None (-2))).
  { destruct k as [|k]; [lia|].
    rewrite rotate_r_iter_turn by exact Hne.
    fold P. rewrite iter_turn_drop_take by exact Hp. reflexivity. }
  split; [apply padded_tail_length|]. split; [exact E|].
  intros ->. split.
  - rewrite E. unfold L. rewrite Nat.Div0.mod_same. cbn [drop take].
    rewrite app_nil_r. reflexivity.
  - split; [reflexivity|]. intros i. unfold trit_at at 1. cbn [tail head].
    apply padded_tail_nth.
Qed.

Lemma rotate_r_iter_rotates_witness :
  tail (mkNumber 0 [1; 2] None 7) <> [] /\ (1 <= 4)%nat
  /\ rotate_r_iter 4 (mkNumber 0 [1; 2] None 7) 4
     = Some (mkNumber 0 [1; 2; 0; 0] None (-2)).
Proof.
  split; [discriminate|]. split; [lia|].
  apply (rotate_r_iter_rotates (mkNumber 0 [1; 2] None 7) 4 4);
    [discriminate | lia | reflexivity].
Defined.

(** ** [increment] and [mod] *)

Lemma increment_loop_offset (h : Z) (l : list Z) :
  Forall is_trit l ->
  forall l' ret,
    increment_loop l = (l', ret) ->
    length l' = length l
    /\ offset_sum h l'
       = offset_sum h l + 1 - (if ret then 0 else 3 ^ Z.of_nat (length l))
    /\ (ret = false -> l = repeat 2 (length l)).
Proof.
  induction 1 as [|t rest Ht Hrest IH]; intros l' ret;
    cbn [increment_loop].
  - intros [= <- <-]. cbn. repeat split; lia.
  - unfold is_trit in Ht. rewrite Z.rem_mod_nonneg by lia.
    destruct (Z.eq_dec t 2) as [->|Hn].
    + change ((2 + 1) mod 3) with 0. cbn [Z.eqb negb].
      destruct (increment_loop rest) as [rest' r] eqn:E.
      intros [= <- <-]. destruct (IH _ _ eq_refl) as (Hl & Ho & Hall).
      cbn [length offset_sum repeat]. rewrite Hl, Ho, Nat2Z.inj_succ,
        Z.pow_succ_r by lia.
      split; [reflexivity|]. split; [destruct r; lia|].
      intros Hr. rewrite <- (Hall Hr). reflexivity.
    + assert (Et : (t + 1) mod 3 = t + 1) by (apply Z.mod_small; lia).
      rewrite Et. destruct (t + 1 =? 0) eqn:E0; [lia|]. cbn [negb].
      intros [= <- <-]. cbn [length offset_sum].
      split; [reflexivity|]. split; [lia | discriminate].
Qed.

Lemma offset_sum_app (h x : Z) (l : list Z) :
  offset_sum h (l ++ [x])
  = offset_sum h l + 3 ^ Z.of_nat (length l) * (x - h).
Proof.
  induction l as [|t rest IH]; cbn [app offset_sum length].
  - change (3 ^ Z.of_nat 0) with 1. lia.
  - rewrite IH, Nat2Z.inj_succ, Z.pow_succ_r by lia. lia.
Qed.

Lemma offset_sum_repeat_head (h : Z) (w : nat) :
  offset_sum h (repeat h w) = 0.
Proof.
  induction w as [|w IH]; cbn [repeat offset_sum]; lia.
Qed.

Lemma increment_result_offset (h : Z) (l : list Z) :
  is_trit h -> Forall is_trit l ->
  ~ (h = 2 /\ l = repeat 2 (length l)) ->
  offset_sum (fst (increment_result h l)) (snd (increment_result h l))
  + 29524 * fst (increment_result h l)
  = offset_sum h l + 29524 * h + 1.
Proof.
  intros Hh Hl Hnot. unfold increment_result.
  destruct (increment_loop l) as [l' ret] eqn:E.
  destruct (increment_loop_offset h l Hl l' ret E) as (Hlen & Ho & Hall).
  destruct ret.
  - cbn [fst snd]. lia.
  - destruct (h =? T2) eqn:E2.
    + exfalso. apply Hnot. split; [apply Z.eqb_eq, E2 | apply Hall].
      reflexivity.
    + cbn [fst snd]. rewrite offset_sum_app, Hlen, Ho. lia.
Qed.

(** X10. [mod] follows [increment].  For a number with trits in
    {0, 1, 2} and a tail of width at least 1 that is not ...2222 and for
    [2 <= m <= 29524], [increment] succeeds and [mod] of the incremented
    number is [mod] of the number plus 1, reduced modulo [m]: this is
    what keeps [pos], advanced by [pos++; pos %= 564], equal to
    [mod(c, 564)].  The number ...2222 is the exception: incrementing it
    gives ...0000, whose [mod] is 0, while its own [mod] is
    [59048 % m]. *)
Theorem mod_increment (cells : gmap positive MemCell) (n : Number)
    (m : Z) :
  valid_number n -> memptr_ok cells n -> 2 <= m <= 29524 ->
  exists n' r r',
    increment cells n = Some n'
    /\ valid_number n'
    /\ mod_ n m = Some r /\ mod_ n' m = Some r'
    /\ (~ (head n = 2 /\ tail n = repeat 2 (width n)) ->
        r' = (r + 1) mod m)
    /\ (head n = 2 -> tail n = repeat 2 (width n) ->
        r = 59048 mod m /\ r' = 0).
Proof.
  intros Hv Hp Hm. pose proof Hv as (Hh & Hl & Hne).
  rewrite increment_eq by assumption.
  destruct (increment_result_valid (head n) (tail n) Hh Hl Hne)
    as (Hh' & Hl' & Hne').
  set (n' := mkNumber (fst (increment_result (head n) (tail n)))
               (snd (increment_result (head n) (tail n)))
               (increment_memptr cells n) (increment_unicode n)).
  assert (Hv' : valid_number n') by (split; [|split]; assumption).
  exists n', (mod_formula n m), (mod_formula n' m).
  split; [reflexivity|]. split; [exact Hv'|].
  split; [apply mod_eq; assumption|].
  split; [apply mod_eq; assumption|]. split.
  - intros Hnot. unfold mod_formula. subst n'. cbn [head tail].
    rewrite increment_result_offset by assumption.
    rewrite Z.add_mod_idemp_l by lia. reflexivity.
  - intros E2 Eall. unfold mod_formula. subst n'. cbn [head tail].
    unfold width in Eall. remember (length (tail n)) as w eqn:Ew.
    rewrite Eall, E2, increment_result_all_two.
    change (2 =? T2) with true. cbn [fst snd].
    rewrite offset_sum_repeat_head.
    change (repeat 0 w) with (repeat T0 w).
    rewrite offset_sum_repeat_head.
    split; [reflexivity|]. apply Z.mod_0_l. lia.
Qed.

Lemma mod_increment_witness :
  valid_number (mkNumber 0 [2; 2] None 8)
  /\ memptr_ok ∅ (mkNumber 0 [2; 2] None 8)
  /\ 2 <= 6 <= 29524
  /\ exists n' r r',
       increment ∅ (mkNumber 0 [2; 2] None 8) = Some n'
       /\ mod_ (mkNumber 0 [2; 2] None 8) 6 = Some r
       /\ mod_ n' 6 = Some r'
       /\ r = 2 /\ r' = 3.
Proof.
  assert (V : valid_number (mkNumber 0 [2; 2] None 8)).
  { split; [unfold is_trit; cbn; lia|].
    split; [repeat constructor; unfold is_trit; lia | discriminate]. }
  assert (P : memptr_ok ∅ (mkNumber 0 [2; 2] None 8)) by exact I.
  split; [exact V|]. split; [exact P|]. split; [lia|].
  destruct (mod_increment ∅ (mkNumber 0 [2; 2] None 8) 6 V P ltac:(lia))
    as (n' & r & r' & Ei & _ & Er & Er' & _).
  exists n', r, r'. split; [exact Ei|]. split; [exact Er|].
  split; [exact Er'|].
  vm_compute in Ei. injection Ei as <-.
  vm_compute in Er. injection Er as <-.
  vm_compute in Er'. injection Er' as <-.
  split; reflexivity.
Defined.

(** ** The programs the loader accepts *)

Lemma load_char_accept (v : Z) (l : Loader) :
  loader_ok l -> is_blank v = false ->
  (v >=? 33) && (v <? 127) && is_instr (Z.rem (v + l_pos l) 94) = true ->
  exists l' p,
    load_char v l = Ok l' /\ loader_ok l'
    /\ l_prev l' = Some p /\ l_prevprev l' = l_prev l
    /\ l_pos l' = Z.rem (l_pos l + 1) 564.
Proof.
  intros (Hm & Hhp & Htc & Hv & (p & Ep & Hp) & Hprev & Hpp & Himp) Hb Ec.
  unfold load_char. rewrite Hb, Ec, Ep. cbn [must mbind Res_bind].
  assert (Hv0 : 0 <= v) by lia.
  destruct (to_number v) as [n|] eqn:En;
    [|unfold to_number in En; replace (v <? 0) with false in En by lia;
      discriminate].
  cbn [or_fatal mbind Res_bind].
  destruct (to_number_valid v n En) as [Hn _].
  destruct (store_val_ok (l_heap l) p n Hhp Hp)
    as (hp1 & E1 & Hhp1 & Hd1 & Ho1 & Hs1).
  rewrite E1. cbn [mbind Res_bind].
  destruct (advance_ok (l_init l) (l_memory l) hp1 p Hm Hhp1
              (tree_cells_ok_dom_le _ _ _ Hd1 Htc) Hv Ep (Hd1 p Hp))
    as (init' & m' & hp' & r & E2 & Hv' & Er & Hr & Hm' & Hhp' & Htc' & Hext).
  rewrite E2. cbn [mbind Res_bind].
  eexists. exists p. split; [reflexivity|].
  split; [|repeat split; reflexivity].
  apply (loader_ok_intro _ _ _ _ _ _ _ r); try assumption.
  - apply (stored_ok_extends _ _ _ Hext).
    apply (stored_ok_here hp1 p n Hs1 Hn).
  - apply (stored_ok_extends _ _ _ Hext).
    apply (stored_ok_store _ _ _ _ _ Ho1 Hs1 Hn Hprev).
  - intros _. eauto.
Qed.

Lemma instr_position (v count : Z) :
  0 <= v -> 0 <= count ->
  Z.rem (v + count mod 564) 94 = (v + count) mod 94.
Proof.
  intros Hv Hc. pose proof (Z.mod_pos_bound count 564 ltac:(lia)).
  rewrite Z.rem_mod_nonneg by lia.
  rewrite (Z.mod_eq count 564) by lia.
  replace (v + (count - 564 * (count / 564)))
    with (v + count + (- 6 * (count / 564)) * 94) by lia.
  apply Z.mod_add. lia.
Qed.

(** The state after reading, against the number of instruction
    characters. *)
Lemma load_chars_accepted (program : list Z) :
  forall l count,
    loader_ok l -> 0 <= count -> l_pos l = count mod 564 ->
    (count = 0 <-> l_prev l = None) ->
    (count < 2 <-> l_prevprev l = None) ->
    match accepted program count with
    | None => load_chars program l = Fatal InvalidCharacter
    | Some k =>
        count <= k
        /\ exists l', load_chars program l = Ok l' /\ loader_ok l'
                      /\ l_pos l' = k mod 564
                      /\ (k < 2 <-> l_prevprev l' = None)
    end.
Proof.
  induction program as [|b rest IH]; intros l count Hl Hc Hpos H0 H2;
    cbn [accepted load_chars].
  - split; [lia|]. exists l. auto.
  - set (v := char_of_byte b).
    destruct (is_blank v) eqn:Eb.
    { assert (E : load_char v l = Ok l)
        by (unfold load_char; rewrite Eb; reflexivity).
      rewrite E. cbn [mbind Res_bind]. apply IH; assumption. }
    assert (Ei : (v >=? 33) && (v <? 127)
                 && is_instr (Z.rem (v + l_pos l) 94)
                 = (33 <=? v) && (v <? 127)
                   && is_instr ((v + count) mod 94)).
    { destruct (33 <=? v) eqn:E1.
      - replace (v >=? 33) with true by lia.
        rewrite Hpos, instr_position by lia. reflexivity.
      - replace (v >=? 33) with false by lia. reflexivity. }
    destruct ((33 <=? v) && (v <? 127) && is_instr ((v + count) mod 94))
      eqn:Ea.
    + destruct (load_char_accept v l Hl Eb ltac:(congruence))
        as (l1 & p & E1 & Hl1 & Hp1 & Hpp1 & Hpos1).
      rewrite E1. cbn [mbind Res_bind].
      specialize (IH l1 (count + 1) Hl1 ltac:(lia)).
      destruct (accepted rest (count + 1)) as [k|].
      * destruct IH as (Hk & l' & E' & Hl' & Hpos' & H2').
        { rewrite Hpos1, Hpos. rewrite Z.rem_mod_nonneg
            by (pose proof (Z.mod_pos_bound count 564 ltac:(lia)); lia).
          rewrite Z.add_mod_idemp_l by lia. reflexivity. }
        { rewrite Hp1. split; [lia | discriminate]. }
        { rewrite Hpp1. split.
          - intros Hlt. apply H0. lia.
          - intros Hn. apply H0 in Hn. lia. }
        split; [lia|]. exists l'. auto.
      * apply IH.
        { rewrite Hpos1, Hpos. rewrite Z.rem_mod_nonneg
            by (pose proof (Z.mod_pos_bound count 564 ltac:(lia)); lia).
          rewrite Z.add_mod_idemp_l by lia. reflexivity. }
        { rewrite Hp1. split; [lia | discriminate]. }
        { rewrite Hpp1. split.
          - intros Hlt. apply H0. lia.
          - intros Hn. apply H0 in Hn. lia. }
    + assert (E : load_char v l = Fatal InvalidCharacter)
        by (unfold load_char; rewrite Eb, Ei; reflexivity).
      rewrite E. reflexivity.
Qed.

(** X11. Which files the loader accepts.  Reading the file, blanks
    (space, tab, carriage return, line feed) are skipped and do not
    count; a character at the count [i] of instruction characters read
    before it is accepted when it is in 33 .. 126 and
    [(character + i) mod 94] is one of the eight instruction codes, the
    wrap of the position at 564 making no difference.  With a character
    that is not accepted the loader ends with the diagnostic of an
    invalid character; with fewer than two instruction characters, with
    the one of an invalid program; otherwise it completes, synthetic
    cells included, without any null pointer or index out of bounds,
    in a well-formed state. *)
Theorem load_accepts (program : list Z) :
  (accepted program 0 = None -> load program = Fatal InvalidCharacter)
  /\ (forall k, accepted program 0 = Some k -> k < 2 ->
        load program = Fatal NotAProgram)
  /\ (forall k, accepted program 0 = Some k -> 2 <= k ->
        exists l, load program = Ok l /\ loader_ok l).
Proof.
  unfold load.
  destruct loader_init_ok as (l0 & E0 & Hl0 & Hp0 & Hpp0).
  rewrite E0. cbn [mbind Res_bind].
  assert (Hpos0 : l_pos l0 = 0 mod 564).
  { unfold loader_init in E0. cbn [memory_init to_number Z.ltb Z.compare
      or_fatal mbind Res_bind] in E0.
    destruct (update_memptr _ _ _) as [[[i m] hp]|];
      cbn [must mbind Res_bind] in E0; [|discriminate].
    injection E0 as <-. reflexivity. }
  pose proof (load_chars_accepted program l0 0 Hl0 ltac:(lia) Hpos0
                ltac:(rewrite Hp0; tauto)
                ltac:(rewrite Hpp0; split; [reflexivity | lia])) as H.
  destruct (accepted program 0) as [k|].
  - destruct H as (Hk & l' & -> & Hl' & Hpos' & H2).
    cbn [mbind Res_bind].
    split; [discriminate|]. split.
    + intros k' [= <-] Hlt. apply H2 in Hlt. rewrite Hlt. reflexivity.
    + intros k' [= <-] Hge.
      destruct (l_prevprev l') as [pp|] eqn:Epp;
        [|exfalso; assert (k < 2) by (apply H2; reflexivity); lia].
      pose proof (Z.mod_pos_bound k 564 ltac:(lia)) as Hb.
      assert (Hp : 0 <= Z.rem (l_pos l') 6 < 6).
      { rewrite Z.rem_mod_nonneg by lia. apply Z.mod_pos_bound. lia. }
      rewrite synth_loop_steps by (cbn; lia).
      destruct (synth_steps_ok (Z.to_nat (18 - Z.rem (l_pos l') 6))
                  (Z.rem (l_pos l') 6) l' Hl'
                  ltac:(rewrite Epp; eauto) ltac:(lia))
        as (l2 & E2 & Hl2 & _).
      exists l2. auto.
  - rewrite H. cbn [mbind Res_bind].
    split; [reflexivity|]. split; discriminate.
Qed.

(** ** What the instructions leave unchanged *)

Ltac res_inv H :=
  repeat (cbn [mbind Res_bind must or_fatal] in H;
          match type of H with
          | Ok _ = Ok _ => injection H as H
          | context [@mbind _ _ _ _ _ ?m] =>
              let E := fresh "E" in destruct m eqn:E; try discriminate H
          | context [match ?x with _ => _ end] =>
              first [ is_var x; destruct x
                    | let E := fresh "E" in destruct x eqn:E ];
              try discriminate H
          end).

Lemma same_env_refl (s : Machine) : same_env s s.
Proof. repeat split. Qed.

Lemma same_env_trans (s1 s2 s3 : Machine) :
  same_env s1 s2 -> same_env s2 s3 -> same_env s1 s3.
Proof.
  unfold same_env, same_io, same_growth.
  intros ((A1 & A2) & (A3 & A4 & A5) & A6 & A7)
         ((B1 & B2) & (B3 & B4 & B5) & B6 & B7).
  repeat split; congruence.
Qed.

Lemma same_env_with_mem (s : Machine) (m : list MemoryTree) (hp : Heap) :
  same_env s (with_mem s m hp).
Proof. repeat split. Qed.

Lemma materialize_env (s s' : Machine) (n v : Number) (i : Z) (p : positive) :
  materialize s n i = Ok (p, v, s') ->
  same_env s s' /\ reg_a s' = reg_a s /\ reg_c s' = reg_c s
  /\ reg_d s' = reg_d s /\ pos s' = pos s /\ memory s' = memory s.
Proof.
  unfold materialize, cell_val. intros H. res_inv H; subst;
    repeat split; reflexivity.
Qed.

Lemma target_env (s s' : Machine) (v : Number) :
  target s = Ok (v, s') ->
  same_env s s' /\ reg_a s' = reg_a s /\ reg_c s' = reg_c s
  /\ reg_d s' = reg_d s /\ pos s' = pos s.
Proof.
  unfold target, cell_val. intros H. res_inv H; subst;
    repeat split; reflexivity.
Qed.

Lemma exec_jmp_env (s s' : Machine) :
  exec_jmp s = Ok s' ->
  same_env s s' /\ reg_a s' = reg_a s /\ reg_d s' = reg_d s.
Proof.
  unfold exec_jmp. intros H.
  destruct (target s) as [[v s1]| | |] eqn:Et; try discriminate H.
  apply target_env in Et. destruct Et as (T1 & T2 & T3 & T4 & T5).
  cbn [mbind Res_bind] in H.
  destruct (update_memptr _ _ _) as [[[c m] hp]|];
    cbn [must mbind Res_bind] in H; [|discriminate].
  destruct (mod_ c 564) as [p|]; cbn [must mbind Res_bind] in H;
    [|discriminate].
  destruct (materialize _ _ _) as [[[q w] s2]| | |] eqn:Em;
    try discriminate H.
  cbn [mbind Res_bind] in H. injection H as <-.
  apply materialize_env in Em. destruct Em as (M1 & M2 & M3 & M4 & M5 & M6).
  split.
  - eapply same_env_trans; [exact T1|].
    eapply same_env_trans; [|exact M1]. repeat split.
  - rewrite M2, M4. cbn. auto.
Qed.

Lemma exec_rot_env (s s' : Machine) :
  exec_rot s = Ok s' ->
  same_env s s' /\ reg_c s' = reg_c s /\ reg_d s' = reg_d s
  /\ pos s' = pos s /\ memory s' = memory s.
Proof.
  unfold exec_rot, store_val. intros H.
  destruct (operand s) as [[p v]| | |]; try discriminate H.
  res_inv H; subst; repeat split; reflexivity.
Qed.

Lemma exec_opr_env (s s' : Machine) :
  exec_opr s = Ok s' ->
  same_env s s' /\ reg_c s' = reg_c s /\ reg_d s' = reg_d s
  /\ pos s' = pos s /\ memory s' = memory s.
Proof.
  unfold exec_opr, store_val. intros H.
  destruct (operand s) as [[p v]| | |]; try discriminate H.
  res_inv H; subst; repeat split; reflexivity.
Qed.

Lemma exec_out_env (s s' : Machine) :
  exec_out s = Ok s' ->
  stdin s' = stdin s /\ same_growth s s'
  /\ initial_values s' = initial_values s /\ step s' = step s
  /\ reg_c s' = reg_c s /\ reg_d s' = reg_d s /\ pos s' = pos s
  /\ memory s' = memory s /\ heap s' = heap s
  /\ exists bytes, stdout s' = stdout s ++ bytes.
Proof.
  unfold exec_out. intros H.
  destruct (is_nl (reg_a s)) as [[|]|]; cbn [must mbind Res_bind] in H;
    [| |discriminate].
  - injection H as <-. repeat split. eexists. reflexivity.
  - destruct (print_utf8 _) as [bytes| | |]; try discriminate H.
    cbn [mbind Res_bind] in H. injection H as <-.
    repeat split. eexists. reflexivity.
Qed.

Lemma exec_in_env (s s' : Machine) :
  exec_in s = Ok s' ->
  stdout s' = stdout s /\ same_growth s s'
  /\ initial_values s' = initial_values s /\ step s' = step s
  /\ reg_c s' = reg_c s /\ reg_d s' = reg_d s /\ pos s' = pos s
  /\ memory s' = memory s /\ heap s' = heap s
  /\ exists bytes, stdin s = bytes ++ stdin s'.
Proof.
  unfold exec_in. intros H.
  destruct (read_utf8_character (stdin s)) as [[i rest]| | |] eqn:Er;
    try discriminate H.
  cbn [mbind Res_bind] in H.
  assert (Hs : exists bytes, stdin s = bytes ++ rest).
  { clear H. unfold read_utf8_character in Er.
    destruct (stdin s) as [|b1 r1]; cbn [getchar] in Er.
    { change (EOF =? EOF) with true in Er. injection Er as _ <-.
      exists []. reflexivity. }
    repeat match type of Er with
    | Ok _ = Ok _ => injection Er as _ <-
    | context [getchar ?l] => destruct l; cbn [getchar] in Er
    | context [if ?c then _ else _] => destruct c; try discriminate Er
    end;
    first [ exists [b1]; reflexivity
          | eexists [b1; _]; reflexivity
          | eexists [b1; _; _]; reflexivity
          | eexists [b1; _; _; _]; reflexivity
          | idtac ]. }
  destruct Hs as [bytes Hs].
  res_inv H; subst; repeat split; try reflexivity;
    exists bytes; exact Hs.
Qed.

Lemma get_real_width_bound (n : Number) :
  0 <= get_real_width n <= Z.of_nat (width n).
Proof.
  unfold get_real_width, width.
  destruct (get_real_width_loop_spec (head n) (tail n) 0 0)
    as [[E _] | (j & Hj & E & _)]; rewrite E; lia.
Qed.

(** The state [movd] reaches before it looks at the widths. *)
Lemma exec_movd_cases (cfg : Config) (s s' : Machine) :
  exec_movd cfg s = Ok s' ->
  exists s2,
    same_io s s2 /\ same_growth s s2
    /\ initial_values s2 = initial_values s /\ step s2 = step s
    /\ reg_a s2 = reg_a s /\ reg_c s2 = reg_c s /\ pos s2 = pos s
    /\ let w := get_real_width (reg_d s2) in
       (w <= max_wordwidth s /\ s' = s2
        \/ max_wordwidth s < w
           /\ ((det_growth cfg = true
                /\ exists rw,
                     det_growth_policy w (rotwidth s) (growth_step cfg)
                       (growth_slack cfg) = Ok rw
                     /\ s' = with_growth s2 w rw (rand_calls s))
               \/ (det_growth cfg = false
                   /\ exists rw k,
                        nondet_growth_policy (rand cfg) (rand_calls s) w
                          (rotwidth s) (growth_prob cfg) (growth_slack cfg)
                        = Ok (rw, k)
                        /\ s' = with_growth s2 w rw k))).
Proof.
  unfold exec_movd. intros H.
  destruct (target s) as [[v s1]| | |] eqn:Et; try discriminate H.
  apply target_env in Et.
  destruct Et as (((T1 & T2) & (T3 & T4 & T5) & T6 & T7) & T8 & T9 & T10
                  & T11).
  cbn [mbind Res_bind] in H.
  destruct (update_memptr _ _ _) as [[[d m] hp]|];
    cbn [must mbind Res_bind] in H; [|discriminate].
  set (s2 := with_d (with_mem s1 m hp) d) in *.
  assert (Hmw : max_wordwidth s2 = max_wordwidth s) by exact T3.
  assert (Hrw : rotwidth s2 = rotwidth s) by exact T4.
  assert (Hrc : rand_calls s2 = rand_calls s) by exact T5.
  exists s2.
  split; [split; assumption|]. split; [repeat split; assumption|].
  split; [exact T6|]. split; [exact T7|]. split; [exact T8|].
  split; [exact T9|]. split; [exact T11|].
  change (reg_d s2) with d. cbv zeta.
  pose proof (get_real_width_bound d) as Hb.
  rewrite Hmw, Hrw, Hrc in H.
  destruct (Z.of_nat (width d) >? max_wordwidth s) eqn:E1;
    [|injection H as <-; left; split; [lia | reflexivity]].
  destruct (get_real_width d >? max_wordwidth s) eqn:E2;
    [|injection H as <-; left; split; [lia | reflexivity]].
  right. split; [lia|].
  destruct (det_growth cfg).
  - left. split; [reflexivity|].
    destruct (det_growth_policy _ _ _ _) as [rw| | |]; try discriminate H.
    cbn [mbind Res_bind] in H. injection H as <-. eauto.
  - right. split; [reflexivity|].
    destruct (nondet_growth_policy _ _ _ _ _ _) as [[rw k]| | |];
      try discriminate H.
    cbn [mbind Res_bind] in H. injection H as <-. eauto.
Qed.

(** X12. [movd] and the rotation width.  When the rotation width is at
    least the slack, at least twice [max_wordwidth] and fits
    [uintmax_t], and [rand()] returns no negative value, a [movd] that
    completes leaves [max_wordwidth] at least its former value and at
    least the real width of the new [d], and a rotation width that has
    not decreased, is still at least twice [max_wordwidth] and fits
    [uintmax_t]; neither changes unless the real width of [d] exceeds the
    former [max_wordwidth].  Input, output, [a], [c] and [pos] are
    untouched. *)
Theorem movd_keeps_rotwidth_twice_wordwidth (cfg : Config)
    (s s' : Machine) :
  (forall i, 0 <= rand cfg i) ->
  0 <= growth_step cfg ->
  0 <= growth_slack cfg <= rotwidth s -> rotwidth s <= UINTMAX_MAX ->
  0 <= max_wordwidth s -> 2 * max_wordwidth s <= rotwidth s ->
  exec_movd cfg s = Ok s' ->
  get_real_width (reg_d s') <= max_wordwidth s'
  /\ max_wordwidth s <= max_wordwidth s'
  /\ 2 * max_wordwidth s' <= rotwidth s'
  /\ rotwidth s <= rotwidth s' <= UINTMAX_MAX
  /\ (get_real_width (reg_d s') <= max_wordwidth s ->
      max_wordwidth s' = max_wordwidth s /\ rotwidth s' = rotwidth s
      /\ rand_calls s' = rand_calls s)
  /\ same_io s s' /\ reg_a s' = reg_a s /\ reg_c s' = reg_c s
  /\ pos s' = pos s.
Proof.
  intros Hrand Hstep Hslack Hmax Hmw Htwice H.
  destruct (exec_movd_cases cfg s s' H)
    as (s2 & Hio & (G1 & G2 & G3) & Hiv & Hst & Ha & Hc & Hp & Hcases).
  cbv zeta in Hcases.
  pose proof (get_real_width_bound (reg_d s2)) as Hb.
  destruct Hcases as [[Hle ->] | [Hlt Hpol]].
  { rewrite G1, G2, G3. repeat split; try lia; try assumption;
      apply Hio. }
  assert (Hfin : forall rw k,
             rotwidth s <= rw <= UINTMAX_MAX ->
             2 * get_real_width (reg_d s2) <= rw ->
             s' = with_growth s2 (get_real_width (reg_d s2)) rw k ->
             get_real_width (reg_d s') <= max_wordwidth s'
             /\ max_wordwidth s <= max_wordwidth s'
             /\ 2 * max_wordwidth s' <= rotwidth s'
             /\ rotwidth s <= rotwidth s' <= UINTMAX_MAX
             /\ (get_real_width (reg_d s') <= max_wordwidth s ->
                 max_wordwidth s' = max_wordwidth s
                 /\ rotwidth s' = rotwidth s
                 /\ rand_calls s' = rand_calls s)
             /\ same_io s s' /\ reg_a s' = reg_a s /\ reg_c s' = reg_c s
             /\ pos s' = pos s).
  { intros rw k Hr1 Hr2 ->.
    cbn [with_growth reg_d max_wordwidth rotwidth rand_calls reg_a reg_c
         pos].
    split; [lia|]. split; [lia|]. split; [lia|]. split; [lia|].
    split; [lia|]. split; [exact Hio|]. auto. }
  destruct Hpol as [(_ & rw & Ep & ->) | (_ & rw & k & Ep & ->)].
  - apply (Hfin rw (rand_calls s)); [| |reflexivity];
      rewrite det_growth_policy_eq in Ep by assumption;
      destruct (2 * get_real_width (reg_d s2)
                >? rotwidth s - growth_slack cfg) eqn:E1;
      try (destruct ((rotwidth s + growth_step cfg >? UINTMAX_MAX)
                     || (2 * get_real_width (reg_d s2) >? UINTMAX_MAX))
             eqn:E2; [discriminate Ep|]);
      injection Ep as <-; lia.
  - assert (Hrnd : 0 <= Z.rem (rand cfg (S (rand_calls s)))
                           (growth_slack cfg + 1) <= growth_slack cfg).
    { pose proof (Z.rem_bound_pos (rand cfg (S (rand_calls s)))
                    (growth_slack cfg + 1) (Hrand _) ltac:(lia)). lia. }
    apply (Hfin rw k); [| |reflexivity];
      rewrite nondet_growth_policy_eq in Ep by lia;
      destruct ((2 * get_real_width (reg_d s2) >? rotwidth s)
                || (rand cfg (rand_calls s) <=? growth_prob cfg)) eqn:E1;
      try (destruct ((2 * get_real_width (reg_d s2) >? UINTMAX_MAX)
                     || (Z.max (rotwidth s)
                           (2 * get_real_width (reg_d s2))
                         + Z.rem (rand cfg (S (rand_calls s)))
                             (growth_slack cfg + 1) >? UINTMAX_MAX))
             eqn:E2; [discriminate Ep|]);
      injection Ep as <- <-; lia.
Qed.

Lemma movd_keeps_rotwidth_twice_wordwidth_witness :
  exists s s',
    boot example_config [117; 38] [] = Ok s
    /\ exec_movd example_config s = Ok s'
    /\ max_wordwidth s' = 5 /\ rotwidth s' = 10
    /\ get_real_width (reg_d s') <= max_wordwidth s'
    /\ 2 * max_wordwidth s' <= rotwidth s'.
Proof.
  assert (R : exists s s',
             boot example_config [117; 38] [] = Ok s
             /\ exec_movd example_config s = Ok s'
             /\ rotwidth s = 10 /\ max_wordwidth s = 0
             /\ max_wordwidth s' = 5 /\ rotwidth s' = 10).
  { eexists. eexists. split; [vm_compute; reflexivity|].
    split; [vm_compute; reflexivity|]. repeat split; reflexivity. }
  destruct R as (s & s' & Hb & Hm & Hr & Hw & Hw' & Hr').
  exists s, s'. split; [exact Hb|]. split; [exact Hm|].
  split; [exact Hw'|]. split; [exact Hr'|].
  destruct (movd_keeps_rotwidth_twice_wordwidth example_config s s')
    as (H1 & _ & H3 & _);
    [intros; cbn; lia | cbn; lia | rewrite Hr; cbn; lia
    | rewrite Hr; unfold UINTMAX_MAX; lia | lia | lia | exact Hm |].
  split; assumption.
Defined.

Lemma fetch_env (s s' : Machine) (u : Z) :
  fetch s = Ok (u, s') ->
  same_env s s' /\ pos s' = pos s.
Proof.
  unfold fetch, store_val. intros H.
  destruct (materialize _ _ _) as [[[p v] s1]| | |] eqn:Em;
    try discriminate H.
  apply materialize_env in Em. destruct Em as (M1 & _ & _ & _ & M5 & _).
  res_inv H; subst. split; [|exact M5].
  eapply same_env_trans; [exact M1|]. repeat split.
Qed.

Lemma finish_step_env (s s' : Machine) :
  finish_step s = Ok s' ->
  same_io s s' /\ same_growth s s'
  /\ initial_values s' = initial_values s
  /\ pos s' = Z.rem (pos s + 1) 564.
Proof.
  unfold finish_step, cell_val, store_val. intros H.
  res_inv H; subst; repeat split; reflexivity.
Qed.

Lemma exec_instr_env (cfg : Config) (i : Z) (s s' : Machine) :
  (forall j, 0 <= rand cfg j) -> 0 <= growth_step cfg ->
  0 <= growth_slack cfg ->
  widths_ok cfg s ->
  exec_instr cfg i s = Ok s' ->
  widths_ok cfg s'
  /\ rotwidth s <= rotwidth s'
  /\ max_wordwidth s <= max_wordwidth s'
  /\ initial_values s' = initial_values s
  /\ (exists bytes, stdout s' = stdout s ++ bytes)
  /\ (exists bytes, stdin s = bytes ++ stdin s')
  /\ (i <> 5 -> stdout s' = stdout s)
  /\ (i <> 23 -> stdin s' = stdin s)
  /\ (i <> 40 -> same_growth s s').
Proof.
  intros Hrand Hstep Hslack (Hw1 & Hw2 & Hw3) H.
  assert (Hsame : same_io s s' -> same_growth s s' ->
                  initial_values s' = initial_values s ->
                  widths_ok cfg s'
                  /\ rotwidth s <= rotwidth s'
                  /\ max_wordwidth s <= max_wordwidth s'
                  /\ initial_values s' = initial_values s
                  /\ (exists bytes, stdout s' = stdout s ++ bytes)
                  /\ (exists bytes, stdin s = bytes ++ stdin s')
                  /\ (i <> 5 -> stdout s' = stdout s)
                  /\ (i <> 23 -> stdin s' = stdin s)
                  /\ (i <> 40 -> same_growth s s')).
  { intros (I1 & I2) (G1 & G2 & G3) Hiv. unfold widths_ok.
    rewrite G1, G2, I1, I2.
    split; [repeat split; lia|]. split; [lia|]. split; [lia|].
    split; [exact Hiv|].
    split; [exists []; rewrite app_nil_r; reflexivity|].
    split; [exists []; reflexivity|].
    repeat split; assumption. }
  destruct (Z.eq_dec i 4) as [->|N4].
  { change (exec_jmp s = Ok s') in H. apply exec_jmp_env in H.
    destruct H as ((Hio & Hg & Hiv & _) & _). apply Hsame; assumption. }
  destruct (Z.eq_dec i 5) as [->|N5].
  { change (exec_out s = Ok s') in H. apply exec_out_env in H.
    destruct H as (Hi & Hg & Hiv & _ & _ & _ & _ & _ & _ & bytes & Ho).
    destruct Hg as (G1 & G2 & G3). unfold widths_ok.
    rewrite G1, G2, Hi.
    split; [repeat split; lia|]. split; [lia|]. split; [lia|].
    split; [exact Hiv|]. split; [exists bytes; exact Ho|].
    split; [exists []; reflexivity|].
    split; [congruence|]. split; [reflexivity|].
    intros _. repeat split; assumption. }
  destruct (Z.eq_dec i 23) as [->|N23].
  { change (exec_in s = Ok s') in H. apply exec_in_env in H.
    destruct H as (Ho & Hg & Hiv & _ & _ & _ & _ & _ & _ & bytes & Hi).
    destruct Hg as (G1 & G2 & G3). unfold widths_ok.
    rewrite G1, G2, Ho.
    split; [repeat split; lia|]. split; [lia|]. split; [lia|].
    split; [exact Hiv|].
    split; [exists []; rewrite app_nil_r; reflexivity|].
    split; [exists bytes; exact Hi|].
    split; [reflexivity|]. split; [congruence|].
    intros _. repeat split; assumption. }
  destruct (Z.eq_dec i 39) as [->|N39].
  { change (exec_rot s = Ok s') in H. apply exec_rot_env in H.
    destruct H as ((Hio & Hg & Hiv & _) & _). apply Hsame; assumption. }
  destruct (Z.eq_dec i 40) as [->|N40].
  { change (exec_movd cfg s = Ok s') in H.
    destruct (exec_movd_cases cfg s s' H)
      as (s2 & (I1 & I2) & (G1 & G2 & G3) & Hiv & _ & _ & _ & _ & Hcases).
    cbv zeta in Hcases.
    assert (Hfin : forall rw k,
               rotwidth s <= rw <= UINTMAX_MAX ->
               2 * get_real_width (reg_d s2) <= rw ->
               max_wordwidth s < get_real_width (reg_d s2) ->
               s' = with_growth s2 (get_real_width (reg_d s2)) rw k ->
               widths_ok cfg s'
               /\ rotwidth s <= rotwidth s'
               /\ max_wordwidth s <= max_wordwidth s'
               /\ initial_values s' = initial_values s
               /\ (exists bytes, stdout s' = stdout s ++ bytes)
               /\ (exists bytes, stdin s = bytes ++ stdin s')
               /\ (40 <> 5 -> stdout s' = stdout s)
               /\ (40 <> 23 -> stdin s' = stdin s)
               /\ (40 <> 40 -> same_growth s s')).
    { intros rw k Hr1 Hr2 Hlt ->. unfold widths_ok.
      cbn [with_growth max_wordwidth rotwidth initial_values stdout stdin].
      rewrite I1, I2.
      split; [repeat split; lia|]. split; [lia|]. split; [lia|].
      split; [exact Hiv|].
      split; [exists []; rewrite app_nil_r; reflexivity|].
      split; [exists []; reflexivity|].
      split; [reflexivity|]. split; [reflexivity|]. congruence. }
    destruct Hcases as [[Hle ->] | [Hlt Hpol]].
    { destruct (Hsame (conj I1 I2) (conj G1 (conj G2 G3)) Hiv)
        as (A1 & A2 & A3 & A4 & A5 & A6 & A7 & A8 & A9).
      repeat split; try assumption; try apply A1; congruence. }
    destruct Hpol as [(_ & rw & Ep & ->) | (_ & rw & k & Ep & ->)].
    - apply (Hfin rw (rand_calls s)); [| |exact Hlt|reflexivity];
        rewrite det_growth_policy_eq in Ep by lia;
        destruct (2 * get_real_width (reg_d s2)
                  >? rotwidth s - growth_slack cfg) eqn:E1;
        try (destruct ((rotwidth s + growth_step cfg >? UINTMAX_MAX)
                       || (2 * get_real_width (reg_d s2) >? UINTMAX_MAX))
               eqn:E2; [discriminate Ep|]);
        injection Ep as <-; lia.
    - assert (Hrnd : 0 <= Z.rem (rand cfg (S (rand_calls s)))
                             (growth_slack cfg + 1) <= growth_slack cfg).
      { pose proof (Z.rem_bound_pos (rand cfg (S (rand_calls s)))
                      (growth_slack cfg + 1) (Hrand _) ltac:(lia)). lia. }
      apply (Hfin rw k); [| |exact Hlt|reflexivity];
        rewrite nondet_growth_policy_eq in Ep by lia;
        destruct ((2 * get_real_width (reg_d s2) >? rotwidth s)
                  || (rand cfg (rand_calls s) <=? growth_prob cfg)) eqn:E1;
        try (destruct ((2 * get_real_width (reg_d s2) >? UINTMAX_MAX)
                       || (Z.max (rotwidth s)
                             (2 * get_real_width (reg_d s2))
                           + Z.rem (rand cfg (S (rand_calls s)))
                               (growth_slack cfg + 1) >? UINTMAX_MAX))
               eqn:E2; [discriminate Ep|]);
        injection Ep as <- <-; lia. }
  destruct (Z.eq_dec i 62) as [->|N62].
  { change (exec_opr s = Ok s') in H. apply exec_opr_env in H.
    destruct H as ((Hio & Hg & Hiv & _) & _). apply Hsame; assumption. }
  destruct (Z.eq_dec i 81) as [->|N81]; [discriminate H|].
  rewrite exec_instr_default in H by assumption.
  injection H as <-. apply Hsame; repeat split.
Qed.

Lemma exec_step_env (cfg : Config) (s s' : Machine) :
  (forall j, 0 <= rand cfg j) -> 0 <= growth_step cfg ->
  0 <= growth_slack cfg ->
  widths_ok cfg s ->
  exec_step cfg s = Ok s' ->
  widths_ok cfg s'
  /\ rotwidth s <= rotwidth s'
  /\ max_wordwidth s <= max_wordwidth s'
  /\ initial_values s' = initial_values s
  /\ (exists bytes, stdout s' = stdout s ++ bytes)
  /\ (exists bytes, stdin s = bytes ++ stdin s').
Proof.
  intros Hrand Hstep Hslack Hw H. unfold exec_step in H.
  destruct (fetch s) as [[u s1]| | |] eqn:Ef; try discriminate H.
  cbn [mbind Res_bind] in H.
  apply fetch_env in Ef.
  destruct Ef as (((F1 & F2) & (F3 & F4 & F5) & F6 & F7) & F8).
  destruct ((u <? 33) || (u >? 126)); [discriminate H|].
  destruct (exec_instr cfg _ s1) as [s2| | |] eqn:Ei; try discriminate H.
  cbn [mbind Res_bind] in H.
  assert (Hw1 : widths_ok cfg s1).
  { unfold widths_ok in *. rewrite F3, F4. exact Hw. }
  destruct (exec_instr_env cfg _ s1 s2 Hrand Hstep Hslack Hw1 Ei)
    as (Hw2 & I1 & I2 & I3 & (o & I4) & (i & I5) & _).
  apply finish_step_env in H.
  destruct H as ((S1 & S2) & (S3 & S4 & S5) & S6 & S7).
  unfold widths_ok in *. rewrite S3, S4, S1, S2, S6.
  split; [exact Hw2|]. split; [lia|]. split; [lia|].
  split; [congruence|].
  split; [exists o; congruence | exists i; congruence].
Qed.

Lemma exec_steps_env (cfg : Config) (k : nat) :
  (forall j, 0 <= rand cfg j) -> 0 <= growth_step cfg ->
  0 <= growth_slack cfg ->
  forall s s',
    widths_ok cfg s ->
    exec_steps cfg k s = Ok s' ->
    widths_ok cfg s'
    /\ rotwidth s <= rotwidth s'
    /\ max_wordwidth s <= max_wordwidth s'
    /\ initial_values s' = initial_values s
    /\ (exists bytes, stdout s' = stdout s ++ bytes)
    /\ (exists bytes, stdin s = bytes ++ stdin s').
Proof.
  intros Hrand Hstep Hslack.
  induction k as [|k IH]; intros s s' Hw H; cbn [exec_steps] in H.
  - injection H as <-. split; [exact Hw|]. split; [lia|]. split; [lia|].
    split; [reflexivity|].
    split; [exists []; rewrite app_nil_r; reflexivity
           | exists []; reflexivity].
  - destruct (exec_step cfg s) as [s1| | |] eqn:E1; try discriminate H.
    cbn [mbind Res_bind] in H.
    destruct (exec_step_env cfg s s1 Hrand Hstep Hslack Hw E1)
      as (Hw1 & A1 & A2 & A3 & (o1 & A4) & (i1 & A5)).
    destruct (IH s1 s' Hw1 H)
      as (Hw' & B1 & B2 & B3 & (o2 & B4) & (i2 & B5)).
    split; [exact Hw'|]. split; [lia|]. split; [lia|].
    split; [congruence|]. split.
    + exists (o1 ++ o2). rewrite B4, A4, app_assoc. reflexivity.
    + exists (i1 ++ i2). rewrite A5, B5, app_assoc. reflexivity.
Qed.

Lemma exec_steps_add (cfg : Config) (k1 k2 : nat) (s : Machine) :
  exec_steps cfg (k1 + k2) s
  = (s1 ← exec_steps cfg k1 s; exec_steps cfg k2 s1).
Proof.
  revert s. induction k1 as [|k1 IH]; intros s; cbn [Nat.add exec_steps].
  - reflexivity.
  - destruct (exec_step cfg s) as [s1| | |]; cbn [mbind Res_bind];
      [apply IH | reflexivity..].
Qed.

Lemma boot_env (cfg : Config) (program input : list Z) (s : Machine) :
  boot cfg program input = Ok s ->
  stdin s = input /\ stdout s = [] /\ max_wordwidth s = 0
  /\ rotwidth s = rotwidth0 cfg /\ rand_calls s = 0%nat
  /\ pos s = 0 /\ step s = 1
  /\ exists l, load program = Ok l
               /\ initial_values s = l_initial_values l.
Proof.
  unfold boot. intros H.
  cbn [to_number Z.ltb Z.compare or_fatal mbind Res_bind] in H.
  destruct (load program) as [l| | |]; try discriminate H.
  res_inv H; subst. repeat split. exists l. split; reflexivity.
Qed.

(** X13. Along a run of [main].  With startup parameters such that the
    initial rotation width is at least the slack and fits [uintmax_t],
    and a [rand()] that returns no negative value: in every state
    reached at the head of the loop the rotation width is at least the
    initial one, at least twice [max_wordwidth] and fits [uintmax_t];
    the remaining input is a suffix of the input given; the array
    [initial_values] is as the loader left it.  Every shorter run of the
    same program on the same input also completes, with an output that
    is a prefix of the output so far and a rotation width and
    [max_wordwidth] that are not larger. *)
Theorem run_output_grows_rotwidth_grows (cfg : Config) (k : nat)
    (program input : list Z) (s : Machine) :
  (forall j, 0 <= rand cfg j) -> 0 <= growth_step cfg ->
  0 <= growth_slack cfg <= rotwidth0 cfg -> rotwidth0 cfg <= UINTMAX_MAX ->
  run cfg k program input = Ok s ->
  rotwidth0 cfg <= rotwidth s <= UINTMAX_MAX
  /\ 0 <= max_wordwidth s /\ 2 * max_wordwidth s <= rotwidth s
  /\ (exists consumed, input = consumed ++ stdin s)
  /\ (exists l, load program = Ok l
                /\ initial_values s = l_initial_values l)
  /\ forall k1, (k1 <= k)%nat ->
       exists s1 out,
         run cfg k1 program input = Ok s1
         /\ stdout s = stdout s1 ++ out
         /\ rotwidth s1 <= rotwidth s
         /\ max_wordwidth s1 <= max_wordwidth s.
Proof.
  intros Hrand Hstep Hslack Hmax H. unfold run in *.
  destruct (boot cfg program input) as [s0| | |] eqn:Eb; try discriminate H.
  cbn [mbind Res_bind] in H.
  destruct (boot_env cfg program input s0 Eb)
    as (B1 & B2 & B3 & B4 & _ & _ & _ & l & El & Eiv).
  assert (Hw0 : widths_ok cfg s0).
  { unfold widths_ok. rewrite B3, B4. lia. }
  destruct (exec_steps_env cfg k Hrand Hstep ltac:(lia) s0 s Hw0 H)
    as ((W1 & W2 & W3) & A1 & A2 & A3 & _ & (i & A5)).
  split; [lia|]. split; [exact W2|]. split; [exact W3|].
  split; [exists i; congruence|].
  split; [exists l; split; [exact El | congruence]|].
  intros k1 Hk1. cbn [mbind Res_bind].
  replace k with (k1 + (k - k1))%nat in H by lia.
  rewrite exec_steps_add in H.
  destruct (exec_steps cfg k1 s0) as [s1| | |] eqn:E1; try discriminate H.
  cbn [mbind Res_bind] in H.
  destruct (exec_steps_env cfg k1 Hrand Hstep ltac:(lia) s0 s1 Hw0 E1)
    as (Hw1 & _).
  destruct (exec_steps_env cfg (k - k1) Hrand Hstep ltac:(lia) s1 s Hw1 H)
    as (_ & C1 & C2 & _ & (o & C4) & _).
  exists s1, o. auto.
Qed.

Lemma run_output_grows_rotwidth_grows_witness :
  exists s,
    run example_config 1 [117; 38] [10] = Ok s
    /\ rotwidth0 example_config <= rotwidth s <= UINTMAX_MAX
    /\ 2 * max_wordwidth s <= rotwidth s.
Proof.
  assert (R : exists s, run example_config 1 [117; 38] [10] = Ok s)
    by (eexists; vm_compute; reflexivity).
  destruct R as (s & Hr). exists s. split; [exact Hr|].
  destruct (run_output_grows_rotwidth_grows example_config 1 [117; 38] [10] s)
    as (H1 & _ & H3 & _);
    [intros; cbn; lia | cbn; lia | cbn; lia
    | unfold UINTMAX_MAX; cbn; lia | exact Hr |].
  split; assumption.
Defined.
(** ** Memory safety of the interpreter *)

(** *** Results without undefined behaviour *)

Lemma safe_bind {A B} (P : A -> Prop) (Q : B -> Prop) (m : Res A)
    (f : A -> Res B) :
  safe P m -> (forall x, P x -> safe Q (f x)) -> safe Q (m ≫= f).
Proof. destruct m as [x|dg| |]; cbn; auto. Qed.

Lemma safe_imp {A} (P Q : A -> Prop) (r : Res A) :
  safe P r -> (forall x, P x -> Q x) -> safe Q r.
Proof. destruct r; cbn; auto. Qed.

Lemma safe_not_undef {A} (P : A -> Prop) (r : Res A) :
  safe P r -> r <> Undef.
Proof. destruct r; cbn; [discriminate..|contradiction]. Qed.

Lemma safe_ok_inv {A} (P : A -> Prop) (r : Res A) (x : A) :
  safe P r -> r = Ok x -> P x.
Proof. intros H ->. exact H. Qed.

(** *** Heaps that grow *)

Lemma heap_le_refl (hp : Heap) : heap_le hp hp.
Proof. intros q cl E. exists cl. auto. Qed.

Lemma heap_le_trans (hp1 hp2 hp3 : Heap) :
  heap_le hp1 hp2 -> heap_le hp2 hp3 -> heap_le hp1 hp3.
Proof.
  intros H12 H23 q cl E. destruct (H12 q cl E) as (cl2 & E2 & V2).
  destruct (H23 q cl2 E2) as (cl3 & E3 & V3). exists cl3. auto.
Qed.

Lemma heap_le_dom (hp hp' : Heap) : heap_le hp hp' -> heap_dom_le hp hp'.
Proof. intros H q [cl E]. destruct (H q cl E) as (cl' & E' & _). eauto. Qed.

Lemma heap_extends_le (hp hp' : Heap) : heap_extends hp hp' -> heap_le hp hp'.
Proof.
  intros H q cl E. destruct (H q cl E) as (cl' & E' & V).
  exists cl'. split; [exact E'|]. rewrite V. auto.
Qed.

Lemma vals_from_refl (hp : Heap) : vals_from hp hp.
Proof. intros q cl v E V. eauto. Qed.

Lemma vals_from_trans (hp1 hp2 hp3 : Heap) :
  vals_from hp1 hp2 -> vals_from hp2 hp3 -> vals_from hp1 hp3.
Proof.
  intros H12 H23 q cl3 v E V. destruct (H23 q cl3 v E V) as (cl2 & E2 & V2).
  apply (H12 q cl2 v E2 V2).
Qed.

Lemma store_le_refl (m : list MemoryTree) (hp : Heap) : store_le m hp m hp.
Proof. split; [apply heap_le_refl | apply memory_extends_refl]. Qed.

Lemma store_le_trans (m1 m2 m3 : list MemoryTree) (hp1 hp2 hp3 : Heap) :
  store_le m1 hp1 m2 hp2 -> store_le m2 hp2 m3 hp3 ->
  store_le m1 hp1 m3 hp3.
Proof.
  intros [H1 H2] [H3 H4].
  split; [eapply heap_le_trans | eapply memory_extends_trans]; eassumption.
Qed.

Lemma memptr_ok_le (hp hp' : Heap) (n : Number) :
  heap_dom_le hp hp' -> memptr_ok (cells hp) n -> memptr_ok (cells hp') n.
Proof.
  unfold memptr_ok. intros H. destruct (memptr n); [apply H | auto].
Qed.

(** *** Cells and the values they stand for *)

Lemma node_at_leaf (cl : positive) (path : list Z) (nd : MemoryTree) :
  node_at (MNode cl None None None) path = Some nd ->
  path = [] /\ nd = MNode cl None None None.
Proof.
  destruct path as [|k path]; cbn.
  - intros [= <-]. auto.
  - destruct k as [|[[p|p|]|[p|p|]|]|]; discriminate.
Qed.

Lemma owns_leaf (owner : positive -> option (nat * list Z)) (i : nat)
    (pre rep : list Z) (k : nat) (cl : positive) :
  owner cl = Some (i, rep) -> pre = rep ++ repeat (Z.of_nat i) k ->
  owns owner i pre (MNode cl None None None).
Proof.
  intros Ho Ep path nd Hp. apply node_at_leaf in Hp. destruct Hp as [-> ->].
  exists rep, k. rewrite app_nil_r. auto.
Qed.

Lemma owns_child (owner : positive -> option (nat * list Z)) (i : nat)
    (pre : list Z) (t ch : MemoryTree) (k : Z) :
  owns owner i pre t -> child t k = Some (Some ch) ->
  owns owner i (pre ++ [k]) ch.
Proof.
  intros Ho Ec path nd Hp.
  destruct (Ho (k :: path) nd) as (rep & j & E1 & E2).
  { cbn [node_at]. rewrite Ec. exact Hp. }
  exists rep, j. rewrite <- app_assoc. auto.
Qed.

Lemma owns_agree (owner owner' : positive -> option (nat * list Z))
    (i : nat) (pre : list Z) (t : MemoryTree) (hp : Heap) :
  owns owner i pre t -> subtree_cells_ok t hp ->
  (forall q, is_Some (cells hp !! q) -> owner' q = owner q) ->
  owns owner' i pre t.
Proof.
  intros Ho Hc Ha path nd Hp.
  destruct (Ho path nd Hp) as (rep & j & E1 & E2).
  exists rep, j. rewrite (Ha _ (Hc path nd Hp)). auto.
Qed.

Lemma owns_set_child (owner : positive -> option (nat * list Z)) (i : nat)
    (pre : list Z) (t ch' : MemoryTree) (k : Z) :
  is_trit k -> owns owner i pre t -> owns owner i (pre ++ [k]) ch' ->
  owns owner i pre (set_child t k ch').
Proof.
  intros Hk Ht Hch [|k' path] nd Hp.
  - cbn in Hp. injection Hp as <-. rewrite cell_set_child.
    apply (Ht [] t eq_refl).
  - cbn [node_at] in Hp. destruct (Z.eq_dec k k') as [<- | Hne].
    + rewrite child_set_child_eq in Hp by exact Hk.
      destruct (Hch path nd Hp) as (rep & j & E1 & E2).
      exists rep, j. rewrite <- app_assoc in E2. auto.
    + rewrite child_set_child_ne in Hp by assumption.
      apply (Ht (k' :: path) nd Hp).
Qed.

Lemma repeat_snoc (h : Z) (k : nat) : repeat h k ++ [h] = repeat h (S k).
Proof.
  induction k as [|k IH]; [reflexivity|].
  cbn [repeat app]. rewrite IH. reflexivity.
Qed.

(** The walk of [update_memptr] gives the cells it allocates to the
    nodes it creates, and to no other node. *)
Lemma update_memptr_loop_owned (i : nat) (its : list Z) :
  forall pre cur hp r cur' hp' owner,
    update_memptr_loop its (Z.of_nat i) cur (cell cur) hp
    = Some (r, cur', hp') ->
    heap_ok hp -> subtree_cells_ok cur hp -> owns owner i pre cur ->
    exists owner',
      owns owner' i pre cur'
      /\ forall q, is_Some (cells hp !! q) -> owner' q = owner q.
Proof.
  induction its as [|t rest IH]; intros pre cur hp r cur' hp' owner E Hhp
    Hcur Hown.
  - cbn in E. injection E as <- <- <-. exists owner. auto.
  - pose proof (update_memptr_loop_trits _ _ _ _ _ _ E) as Hits.
    inversion Hits as [|? ? Ht Hrest]; subst.
    cbn [update_memptr_loop] in E.
    destruct (child cur t) as [[ch|]|] eqn:Ec; [| |discriminate].
    + destruct (update_memptr_loop rest (Z.of_nat i) ch (cell ch) hp)
        as [[[r1 ch1] hp1]|] eqn:E1; [|discriminate].
      injection E as <- <- <-.
      destruct (IH (pre ++ [t]) _ _ _ _ _ owner E1 Hhp
                  (subtree_cells_ok_child _ _ _ _ Hcur Ec)
                  (owns_child _ _ _ _ _ _ Hown Ec))
        as (owner' & Ho' & Ha').
      exists owner'. split; [|exact Ha'].
      apply owns_set_child; [exact Ht| |exact Ho'].
      apply (owns_agree owner owner' i pre cur hp Hown Hcur Ha').
    + destruct (t =? Z.of_nat i) eqn:Eth.
      * apply Z.eqb_eq in Eth. subst t.
        destruct (update_memptr_loop rest (Z.of_nat i)
                    (MNode (cell cur) None None None) (cell cur) hp)
          as [[[r1 ch1] hp1]|] eqn:E1; [|discriminate].
        injection E as <- <- <-.
        destruct (Hown [] cur eq_refl) as (rep & k & Eo & Ep).
        rewrite app_nil_r in Ep.
        destruct (IH (pre ++ [Z.of_nat i])
                    (MNode (cell cur) None None None) _ _ _ _ owner E1 Hhp
                    (subtree_cells_ok_leaf _ _ (Hcur [] cur eq_refl)))
          as (owner' & Ho' & Ha').
        { apply (owns_leaf owner i _ rep (S k) _ Eo).
          rewrite Ep, <- app_assoc, repeat_snoc. reflexivity. }
        exists owner'. split; [|exact Ha'].
        apply owns_set_child; [exact Ht| |exact Ho'].
        apply (owns_agree owner owner' i pre cur hp Hown Hcur Ha').
      * destruct (alloc_cell_ok hp Hhp) as (Ha1 & Ha2 & Ha3).
        unfold alloc_cell in E, Ha1, Ha2, Ha3. cbn [fst snd] in Ha1, Ha2, Ha3.
        set (hpa := mkHeap (<[brk hp := mkMemCell None None]> (cells hp))
                      (Pos.succ (brk hp))) in *.
        destruct (update_memptr_loop rest (Z.of_nat i)
                    (MNode (brk hp) None None None) (brk hp) hpa)
          as [[[r1 ch1] hp1]|] eqn:E1; [|discriminate].
        injection E as <- <- <-.
        set (owner_a := fun q => if decide (q = brk hp)
                                 then Some (i, pre ++ [t]) else owner q).
        assert (Hfresh : forall q, is_Some (cells hp !! q) ->
                                   owner_a q = owner q).
        { intros q Hq. unfold owner_a.
          destruct (decide (q = brk hp)) as [-> | Hne]; [|reflexivity].
          destruct Hhp as [Hlt _]. specialize (Hlt _ Hq). lia. }
        destruct (IH (pre ++ [t]) (MNode (brk hp) None None None) _ _ _ _
                    owner_a E1 Ha1 (subtree_cells_ok_leaf _ _ Ha3))
          as (owner' & Ho' & Ha').
        { apply (owns_leaf owner_a i _ (pre ++ [t]) 0%nat).
          - unfold owner_a. destruct (decide (brk hp = brk hp));
              [reflexivity | contradiction].
          - cbn [repeat]. rewrite app_nil_r. reflexivity. }
        assert (Hagree : forall q, is_Some (cells hp !! q) ->
                                   owner' q = owner q).
        { intros q Hq. rewrite Ha' by (apply (heap_extends_dom _ _ _ Ha2 Hq)).
          apply Hfresh, Hq. }
        exists owner'. split; [|exact Hagree].
        apply owns_set_child; [exact Ht| |exact Ho'].
        apply (owns_agree owner owner' i pre cur hp Hown Hcur Hagree).
Qed.

Lemma update_memptr_owned (n n' : Number) (m m' : list MemoryTree)
    (hp hp' : Heap) :
  update_memptr n m hp = Some (n', m', hp') ->
  heap_ok hp -> tree_cells_ok m hp -> owned m -> owned m'.
Proof.
  unfold update_memptr. intros E Hhp Htc [owner Hown].
  destruct (memptr n).
  { injection E as <- <- <-. exists owner. exact Hown. }
  destruct (head n <? 0) eqn:Eh; [discriminate|].
  destruct (m !! Z.to_nat (head n)) as [root|] eqn:Er; [|discriminate].
  destruct (update_memptr_loop _ _ _ _ _) as [[[r root'] hp1]|] eqn:El;
    [|discriminate].
  injection E as <- <- <-.
  rewrite <- (Z2Nat.id (head n)) in El at 1 by lia.
  destruct (update_memptr_loop_owned _ _ [] _ _ _ _ _ owner El Hhp
              (Htc _ _ Er) (Hown _ _ Er))
    as (owner' & Ho' & Ha').
  exists owner'. intros j rootj Hj.
  destruct (Nat.eq_dec (Z.to_nat (head n)) j) as [<- | Hne].
  - rewrite list_lookup_insert_eq in Hj
      by (apply lookup_lt_Some in Er; exact Er).
    injection Hj as <-. exact Ho'.
  - rewrite list_lookup_insert_ne in Hj by exact Hne.
    apply (owns_agree owner owner' j [] rootj hp (Hown _ _ Hj) (Htc _ _ Hj)
             Ha').
Qed.

Lemma memory_init_owned : owned (fst memory_init).
Proof.
  exists (fun q => if decide (q = 1%positive) then Some (0%nat, [])
                   else if decide (q = 2%positive) then Some (1%nat, [])
                   else if decide (q = 3%positive) then Some (2%nat, [])
                   else None).
  intros i root Hr. cbn [fst memory_init] in Hr.
  destruct i as [|[|[|i]]]; cbn in Hr; try discriminate;
    injection Hr as <-;
    apply (owns_leaf _ _ [] [] 0%nat); reflexivity.
Qed.

(** Two nodes with the same cell are in the same tree, on paths that
    differ in trailing head trits only. *)
Lemma owned_injective (m : list MemoryTree) (i1 i2 : nat)
    (root1 root2 nd1 nd2 : MemoryTree) (p1 p2 : list Z) :
  owned m ->
  m !! i1 = Some root1 -> m !! i2 = Some root2 ->
  node_at root1 p1 = Some nd1 -> node_at root2 p2 = Some nd2 ->
  cell nd1 = cell nd2 ->
  i1 = i2
  /\ exists rep k1 k2,
       p1 = rep ++ repeat (Z.of_nat i1) k1
       /\ p2 = rep ++ repeat (Z.of_nat i1) k2.
Proof.
  intros [owner Hown] Hr1 Hr2 Hp1 Hp2 Ec.
  destruct (Hown _ _ Hr1 p1 nd1 Hp1) as (rep1 & k1 & Eo1 & E1).
  destruct (Hown _ _ Hr2 p2 nd2 Hp2) as (rep2 & k2 & Eo2 & E2).
  rewrite Ec, Eo2 in Eo1. injection Eo1 as <- <-.
  split; [reflexivity|]. exists rep2, k1, k2. auto.
Qed.

(** *** The cell of a value *)

Lemma value_equal_refl (n : Number) : value_equal n n.
Proof. split; reflexivity. Qed.

Lemma value_equal_sym (n1 n2 : Number) :
  value_equal n1 n2 -> value_equal n2 n1.
Proof. intros [H1 H2]. split; [congruence | intros i; symmetry; apply H2]. Qed.

Lemma value_equal_trans (n1 n2 n3 : Number) :
  value_equal n1 n2 -> value_equal n2 n3 -> value_equal n1 n3.
Proof.
  intros [H1 H2] [H3 H4].
  split; [congruence | intros i; rewrite H2; apply H4].
Qed.

(** Equality of values looks at the head and the tail only. *)
Lemma value_equal_fields (n n' : Number) :
  head n' = head n -> tail n' = tail n -> value_equal n' n.
Proof.
  intros Eh Et. split; [exact Eh|]. intros i. unfold trit_at.
  rewrite Eh, Et. reflexivity.
Qed.

Lemma cell_of_extends (m m' : list MemoryTree) (n : Number) (p : positive) :
  memory_extends m m' -> cell_of m n p -> cell_of m' n p.
Proof.
  intros Hext (n0 & root & nd & Hv & Hh & Hl & Hr & Hp & Ec).
  destruct (Hext _ _ _ _ Hr Hp) as (root' & nd' & Hr' & Hp' & Ec').
  exists n0, root', nd'. split; [exact Hv|]. split; [exact Hh|].
  split; [exact Hl|]. split; [exact Hr'|]. split; [exact Hp'|].
  congruence.
Qed.

Lemma cell_of_value (m : list MemoryTree) (n n' : Number) (p : positive) :
  value_equal n n' -> cell_of m n p -> cell_of m n' p.
Proof.
  intros Hv (n0 & root & nd & Hv0 & H).
  exists n0, root, nd. split; [|exact H].
  eapply value_equal_trans; eassumption.
Qed.

Lemma cached_extends (m m' : list MemoryTree) (n : Number) :
  memory_extends m m' -> cached m n -> cached m' n.
Proof. intros Hext Hc p Ep. apply (cell_of_extends _ _ _ _ Hext), Hc, Ep. Qed.

Lemma cached_fields (m : list MemoryTree) (n n' : Number) :
  head n' = head n -> tail n' = tail n -> memptr n' = memptr n ->
  cached m n -> cached m n'.
Proof.
  intros Eh Et Em Hc p Ep. rewrite Em in Ep.
  apply (cell_of_value m n n'); [|apply Hc, Ep].
  apply value_equal_sym, value_equal_fields; assumption.
Qed.

Lemma cached_none (m : list MemoryTree) (n : Number) :
  memptr n = None -> cached m n.
Proof. intros E p Ep. congruence. Qed.

(** The node on the path of a number gives the cell of its value. *)
Lemma cell_of_node (m : list MemoryTree) (n : Number)
    (root nd : MemoryTree) :
  is_trit (head n) -> Forall is_trit (tail n) ->
  m !! Z.to_nat (head n) = Some root -> node_at root (tail n) = Some nd ->
  cell_of m n (cell nd).
Proof.
  intros Hh Hl Hr Hp. exists n, root, nd.
  split; [apply value_equal_refl|]. auto.
Qed.

Lemma value_equal_padding (n1 n2 : Number) (rep : list Z) (k1 k2 : nat) :
  head n1 = head n2 ->
  tail n1 = rep ++ repeat (head n1) k1 ->
  tail n2 = rep ++ repeat (head n1) k2 ->
  value_equal n1 n2.
Proof.
  intros Eh E1 E2. split; [exact Eh|]. intros i. unfold trit_at.
  rewrite <- Eh, E1, E2.
  destruct (Nat.lt_ge_cases i (length rep)) as [L|G].
  - rewrite !app_nth1 by exact L. reflexivity.
  - rewrite !app_nth2 by exact G. rewrite !nth_repeat. reflexivity.
Qed.

(** A cell is the cell of one value only. *)
Lemma cell_of_injective (m : list MemoryTree) (n n' : Number)
    (p : positive) :
  owned m -> cell_of m n p -> cell_of m n' p -> value_equal n n'.
Proof.
  intros Hown (n0 & root & nd & Hv & Hh & Hl & Hr & Hp & Ec)
    (n0' & root' & nd' & Hv' & Hh' & Hl' & Hr' & Hp' & Ec').
  destruct (owned_injective m _ _ _ _ _ _ _ _ Hown Hr Hr' Hp Hp'
              ltac:(congruence))
    as (Ei & rep & k1 & k2 & Et1 & Et2).
  assert (Eh : head n0 = head n0')
    by (unfold is_trit in Hh, Hh'; lia).
  rewrite Z2Nat.id in Et1, Et2 by (unfold is_trit in Hh; lia).
  pose proof (value_equal_padding n0 n0' rep k1 k2 Eh Et1 Et2) as H0.
  eapply value_equal_trans; [apply value_equal_sym, Hv|].
  eapply value_equal_trans; eassumption.
Qed.

(** A value has one cell only. *)
Lemma cell_of_unique (m : list MemoryTree) (n : Number) (p p' : positive) :
  memory_ok m -> cell_of m n p -> cell_of m n p' -> p = p'.
Proof.
  intros Hok (n1 & root1 & nd1 & Hv1 & Hh1 & Hl1 & Hr1 & Hp1 & Ec1)
    (n2 & root2 & nd2 & Hv2 & Hh2 & Hl2 & Hr2 & Hp2 & Ec2).
  assert (Hv : value_equal n1 n2)
    by (eapply value_equal_trans; [exact Hv1 | apply value_equal_sym, Hv2]).
  destruct Hv as [Eh Et].
  assert (Hinv : shares_head_cells (head n1) root1).
  { destruct Hok as [_ H]. specialize (H _ _ Hr1).
    rewrite Z2Nat.id in H by (unfold is_trit in Hh1; lia). exact H. }
  rewrite <- Eh in Hr2. rewrite Hr1 in Hr2. injection Hr2 as <-.
  assert (Et' : forall i, nth i (tail n1) (head n1)
                          = nth i (tail n2) (head n1)).
  { intros i. specialize (Et i). unfold trit_at in Et.
    rewrite <- Eh in Et. exact Et. }
  destruct (equal_tails_padding _ _ _ Et') as [j [E | E]].
  - rewrite E in Hp1.
    destruct (node_at_head_suffix _ _ _ _ Hinv nd1 Hp1)
      as (nd0 & Hp0 & Ec0).
    rewrite Hp2 in Hp0. injection Hp0 as <-. congruence.
  - rewrite E in Hp2.
    destruct (node_at_head_suffix _ _ _ _ Hinv nd2 Hp2)
      as (nd0 & Hp0 & Ec0).
    rewrite Hp1 in Hp0. injection Hp0 as <-. congruence.
Qed.

(** *** The successor of a value *)

Lemma value_of_snoc (l : list Z) (x : Z) :
  value_of (l ++ [x]) = value_of l + 3 ^ Z.of_nat (length l) * x.
Proof.
  induction l as [|t r IH]; cbn [app value_of length].
  - change (3 ^ Z.of_nat 0) with 1. lia.
  - rewrite IH, Nat2Z.inj_succ, Z.pow_succ_r by lia. lia.
Qed.

Lemma low_value_S (n : Number) (k : nat) :
  low_value n (S k) = low_value n k + 3 ^ Z.of_nat k * trit_at n k.
Proof.
  unfold low_value. rewrite seq_S, map_app. cbn [map Nat.add].
  rewrite value_of_snoc, length_map, length_seq. reflexivity.
Qed.

Lemma low_value_ext (n n' : Number) (k : nat) :
  (forall i, trit_at n i = trit_at n' i) -> low_value n k = low_value n' k.
Proof.
  intros H. unfold low_value. f_equal. apply map_ext. intros i. apply H.
Qed.

Lemma trit_at_low_value (n n' : Number) :
  (forall k, low_value n k = low_value n' k) ->
  forall i, trit_at n i = trit_at n' i.
Proof.
  intros H i. pose proof (H (S i)) as HS. rewrite !low_value_S, (H i) in HS.
  assert (0 < 3 ^ Z.of_nat i) by (apply Z.pow_pos_nonneg; lia).
  nia.
Qed.

Lemma increment_loop_all_two (w : nat) :
  increment_loop (repeat 2 w) = (repeat 0 w, false).
Proof.
  induction w as [|w IH]; [reflexivity|].
  cbn [repeat increment_loop]. change (Z.rem (2 + 1) 3) with 0.
  cbn [Z.eqb negb]. rewrite IH. reflexivity.
Qed.

Lemma successor_head (h : Z) (l : list Z) :
  Forall is_trit l ->
  fst (increment_result h l)
  = if (h =? T2) && forallb (fun t => t =? 2) l then T0 else h.
Proof.
  intros Hl. unfold increment_result.
  destruct (increment_loop l) as [l' ret] eqn:E.
  destruct (increment_loop_offset h l Hl l' ret E) as (_ & _ & Hall).
  destruct ret.
  - cbn [fst].
    destruct (forallb (fun t => t =? 2) l) eqn:Ef;
      [|rewrite andb_false_r; reflexivity].
    exfalso.
    assert (Er : l = repeat 2 (length l)).
    { apply all_head_repeat. intros i.
      destruct (Nat.lt_ge_cases i (length l)) as [L|G];
        [|apply nth_overflow, G].
      rewrite forallb_forall in Ef. apply Z.eqb_eq, Ef, nth_In, L. }
    rewrite Er, increment_loop_all_two in E. discriminate E.
  - specialize (Hall eq_refl).
    assert (Ef : forallb (fun t => t =? 2) l = true).
    { apply forallb_forall. intros x Hx. rewrite Hall in Hx.
      apply repeat_spec in Hx. subst x. reflexivity. }
    rewrite Ef, andb_true_r. destruct (h =? T2); reflexivity.
Qed.

Lemma all_two_value (n n' : Number) :
  value_equal n n' -> head n = T2 ->
  forallb (fun t => t =? 2) (tail n)
  = forallb (fun t => t =? 2) (tail n').
Proof.
  intros [Eh Et] E2.
  assert (Hiff : forall l, forallb (fun t => t =? 2) l = true
                           <-> forall i, nth i l 2 = 2).
  { intros l. rewrite forallb_forall. split.
    - intros H i. destruct (Nat.lt_ge_cases i (length l)) as [L|G];
        [apply Z.eqb_eq, H, nth_In, L | apply nth_overflow, G].
    - intros H x Hx. apply (In_nth _ _ 2) in Hx.
      destruct Hx as (i & _ & <-). apply Z.eqb_eq, H. }
  unfold trit_at in Et. rewrite <- Eh, E2 in Et. unfold T2 in Et.
  apply eq_true_iff_eq. rewrite !Hiff.
  split; intros H i; [rewrite <- Et | rewrite Et]; apply H.
Qed.

(** Incrementing respects the equality of values. *)
Lemma successor_value_equal (n n' : Number) :
  is_trit (head n) -> Forall is_trit (tail n) -> Forall is_trit (tail n') ->
  value_equal n n' -> value_equal (successor n) (successor n').
Proof.
  intros Hh Hl Hl' Hv. pose proof Hv as [Eh Et].
  assert (Hh' : is_trit (head n')) by (rewrite <- Eh; exact Hh).
  split.
  - unfold successor. cbn [head].
    rewrite !successor_head by assumption. rewrite <- Eh.
    destruct (head n =? T2) eqn:E2; [|reflexivity].
    apply Z.eqb_eq in E2. rewrite (all_two_value n n' Hv E2). reflexivity.
  - apply trit_at_low_value. intros k. unfold successor.
    rewrite (increment_result_value (head n) (tail n) None None (-2) (-2) k
               Hh Hl).
    rewrite (increment_result_value (head n') (tail n') None None (-2) (-2)
               k Hh' Hl').
    f_equal. f_equal.
    apply (low_value_ext (mkNumber (head n) (tail n) None (-2))
             (mkNumber (head n') (tail n') None (-2))).
    intros i. unfold trit_at. cbn [head tail]. apply Et.
Qed.

(** *** Objects in a store that grows *)

Lemma value_ok_le (m m' : list MemoryTree) (hp hp' : Heap) (v : Number) :
  store_le m hp m' hp' -> value_ok m hp v -> value_ok m' hp' v.
Proof.
  intros [H Hext] (H1 & H2 & H3 & H4 & H5).
  split; [exact H1|]. split; [exact H2|].
  split; [eapply memptr_ok_le; [apply heap_le_dom|]; eassumption|].
  split; [exact H4|]. intros Hne. apply (cached_extends _ _ _ Hext), H5, Hne.
Qed.

Lemma reg_ok_le (m m' : list MemoryTree) (hp hp' : Heap) (n : Number) :
  store_le m hp m' hp' -> reg_ok m hp n -> reg_ok m' hp' n.
Proof.
  intros [H Hext] (Hv & p & Ep & Hp & Hc). split; [exact Hv|].
  exists p. split; [exact Ep|].
  split; [apply (heap_le_dom _ _ H), Hp|].
  apply (cell_of_extends _ _ _ _ Hext Hc).
Qed.

Lemma ivs_ok_le (m m' : list MemoryTree) (hp hp' : Heap)
    (ivs : list (option Number)) :
  store_le m hp m' hp' -> ivs_ok m hp ivs -> ivs_ok m' hp' ivs.
Proof.
  intros H (Hl & Hi). split; [exact Hl|]. intros i o E.
  destruct (Hi i o E) as (iv & -> & Hr). exists iv.
  split; [reflexivity|]. eapply reg_ok_le; eassumption.
Qed.

Lemma loaded_le (hp hp' : Heap) (n : Number) :
  heap_le hp hp' -> loaded hp n -> loaded hp' n.
Proof.
  intros H (p & cl & v & Ep & E & V).
  destruct (H p cl E) as (cl' & E' & V').
  destruct (V' ltac:(rewrite V; eauto)) as [v' Ev'].
  exists p, cl', v'. auto.
Qed.

Lemma vals_ok_from (m m' : list MemoryTree) (hp hp' : Heap) :
  store_le m hp m' hp' -> vals_from hp hp' -> vals_ok m hp ->
  vals_ok m' hp'.
Proof.
  intros Hle Hfrom Hok q cl' v E V.
  destruct (Hfrom q cl' v E V) as (cl & E0 & V0).
  eapply value_ok_le; [exact Hle|]. apply (Hok q cl v E0 V0).
Qed.

Lemma valid_value_ok (m : list MemoryTree) (hp : Heap) (v : Number) :
  valid_number v -> memptr_ok (cells hp) v -> cached m v ->
  value_ok m hp v.
Proof.
  intros (H1 & H2 & H3) Hm Hc.
  split; [exact H1|]. split; [exact H2|]. split; [exact Hm|].
  split; [intros E; contradiction | intros _; exact Hc].
Qed.

Lemma reg_cached (m : list MemoryTree) (hp : Heap) (v : Number) :
  reg_ok m hp v -> cached m v.
Proof.
  intros (_ & p & Ep & _ & Hc) q Eq. rewrite Ep in Eq.
  injection Eq as <-. exact Hc.
Qed.

Lemma reg_value_ok (m : list MemoryTree) (hp : Heap) (v : Number) :
  reg_ok m hp v -> value_ok m hp v.
Proof.
  intros Hr. pose proof Hr as (Hv & p & Ep & Hp & Hc).
  apply valid_value_ok; [exact Hv| |apply (reg_cached _ _ _ Hr)].
  unfold memptr_ok. rewrite Ep. exact Hp.
Qed.

Lemma store_vals (m : list MemoryTree) (hp : Heap) :
  store_ok m hp -> vals_ok m hp.
Proof. intros H. apply H. Qed.

(** *** The primitives on the store *)

Lemma update_memptr_loop_new (h : Z) (its : list Z) :
  forall cur lm hp r cur' hp',
    update_memptr_loop its h cur lm hp = Some (r, cur', hp') ->
    forall q cl', cells hp' !! q = Some cl' ->
                  cells hp !! q = Some cl' \/ cl' = mkMemCell None None.
Proof.
  induction its as [|t rest IH]; intros cur lm hp r cur' hp' E q cl' Eq.
  - cbn in E. injection E as <- <- <-. left. exact Eq.
  - cbn [update_memptr_loop] in E.
    destruct (child cur t) as [[ch|]|]; [| |discriminate].
    + destruct (update_memptr_loop rest h ch (cell ch) hp)
        as [[[r1 ch1] hp1]|] eqn:E1; [|discriminate].
      injection E as <- <- <-. apply (IH _ _ _ _ _ _ E1 q cl' Eq).
    + destruct (t =? h).
      * destruct (update_memptr_loop rest h (MNode lm None None None) lm hp)
          as [[[r1 ch1] hp1]|] eqn:E1; [|discriminate].
        injection E as <- <- <-. apply (IH _ _ _ _ _ _ E1 q cl' Eq).
      * unfold alloc_cell in E.
        destruct (update_memptr_loop rest h _ _ _)
          as [[[r1 ch1] hp1]|] eqn:E1; [|discriminate].
        injection E as <- <- <-.
        destruct (IH _ _ _ _ _ _ E1 q cl' Eq) as [Ea | Hn]; [|right; exact Hn].
        cbn [cells] in Ea.
        destruct (decide (brk hp = q)) as [<- | Hne].
        -- rewrite lookup_insert_eq in Ea. injection Ea as <-.
           right. reflexivity.
        -- rewrite lookup_insert_ne in Ea by exact Hne. left. exact Ea.
Qed.

Lemma update_memptr_new (n n' : Number) (m m' : list MemoryTree)
    (hp hp' : Heap) :
  update_memptr n m hp = Some (n', m', hp') ->
  forall q cl', cells hp' !! q = Some cl' ->
                cells hp !! q = Some cl' \/ cl' = mkMemCell None None.
Proof.
  unfold update_memptr. intros E.
  destruct (memptr n).
  { injection E as <- <- <-. auto. }
  destruct (head n <? 0); [discriminate|].
  destruct (m !! Z.to_nat (head n)) as [root|]; [|discriminate].
  destruct (update_memptr_loop _ _ _ _ _) as [[[r root'] hp1]|] eqn:El;
    [|discriminate].
  injection E as <- <- <-.
  apply (update_memptr_loop_new _ _ _ _ _ _ _ _ El).
Qed.

Lemma update_memptr_vals_from (n n' : Number) (m m' : list MemoryTree)
    (hp hp' : Heap) :
  update_memptr n m hp = Some (n', m', hp') -> vals_from hp hp'.
Proof.
  intros E q cl' v Eq V.
  destruct (update_memptr_new _ _ _ _ _ _ E q cl' Eq) as [E0 | ->];
    [eauto | discriminate].
Qed.

Lemma update_memptr_safe (n : Number) (m : list MemoryTree) (hp : Heap) :
  store_ok m hp ->
  is_trit (head n) -> Forall is_trit (tail n) -> memptr_ok (cells hp) n ->
  cached m n ->
  exists r m' hp',
    update_memptr n m hp = Some (set_memptr n (Some r), m', hp')
    /\ is_Some (cells hp' !! r)
    /\ store_ok m' hp' /\ store_le m hp m' hp'
    /\ cell_of m' n r
    /\ (forall p, memptr n = Some p -> r = p /\ m' = m /\ hp' = hp)
    /\ heap_extends hp hp'.
Proof.
  intros (Hm & Hhp & Htc & Hvals & Hown & Hlinks) Hh Hl Hp Hc.
  destruct (update_memptr_ok n m hp Hm Hhp Htc Hh Hl Hp)
    as (r & m' & hp' & E & Hr & Hm' & Hhp' & Htc' & Hext).
  exists r, m', hp'. split; [exact E|]. split; [exact Hr|].
  destruct (update_memptr_extends _ _ _ _ _ _ Hm E) as [_ Hmext].
  assert (Hle : store_le m hp m' hp')
    by (split; [apply heap_extends_le, Hext | exact Hmext]).
  assert (Hsame : forall p, memptr n = Some p ->
                            r = p /\ m' = m /\ hp' = hp).
  { intros p Ep. unfold update_memptr in E. rewrite Ep in E.
    injection E as E1 E2 E3.
    apply (f_equal memptr) in E1. cbn in E1. rewrite Ep in E1.
    split; [congruence | auto]. }
  split; [|split; [exact Hle|split; [|split; [exact Hsame | exact Hext]]]].
  - split; [exact Hm'|]. split; [exact Hhp'|]. split; [exact Htc'|].
    split; [apply (vals_ok_from m m' hp hp' Hle
                     (update_memptr_vals_from _ _ _ _ _ _ E) Hvals)|].
    split; [apply (update_memptr_owned _ _ _ _ _ _ E Hhp Htc Hown)|].
    intros p cl q Ecl En.
    destruct (update_memptr_new _ _ _ _ _ _ E p cl Ecl) as [E0 | ->];
      [|discriminate].
    destruct (Hlinks p cl q E0 En) as (n0 & Hv0 & H1 & H2).
    exists n0. split; [exact Hv0|].
    split; apply (cell_of_extends _ _ _ _ Hmext); assumption.
  - destruct (memptr n) as [p|] eqn:Ep.
    + destruct (Hsame p eq_refl) as (-> & -> & ->). apply Hc, Ep.
    + destruct (update_memptr_walk n m hp Hm Hh Hl Ep)
        as (r0 & m0 & hp0 & E0 & _ & _ & root & nd & Hroot & Hnd & Ec).
      rewrite E in E0. injection E0 as <- <- <-.
      rewrite <- Ec. apply (cell_of_node _ _ _ _ Hh Hl Hroot Hnd).
Qed.

Lemma store_val_safe (m : list MemoryTree) (hp : Heap) (p : positive)
    (v : Number) :
  store_ok m hp -> is_Some (cells hp !! p) -> value_ok m hp v ->
  exists hp',
    store_val hp p v = Ok hp'
    /\ store_ok m hp' /\ store_le m hp m hp'
    /\ exists cl, cells hp' !! p = Some cl /\ val cl = Some v.
Proof.
  intros (Hm & Hhp & Htc & Hvals & Hown & Hlinks) Hp Hv.
  destruct (store_val_ok hp p v Hhp Hp) as (hp' & E & Hhp' & Hd & Ho & Hs).
  exists hp'. split; [exact E|].
  assert (Hle : heap_le hp hp').
  { intros q cl Eq. destruct (decide (q = p)) as [-> | Hne].
    - destruct Hs as (cl' & E' & V'). exists cl'. split; [exact E'|].
      rewrite V'. eauto.
    - exists cl. split; [apply (Ho q cl Hne Eq) | auto]. }
  assert (Hsle : store_le m hp m hp')
    by (split; [exact Hle | apply memory_extends_refl]).
  split; [|split; [exact Hsle | exact Hs]].
  unfold store_val in E. destruct (cells hp !! p) as [cl0|] eqn:E0;
    [|discriminate]. cbn in E. injection E as <-.
  split; [exact Hm|]. split; [exact Hhp'|].
  split; [apply (tree_cells_ok_dom_le _ _ _ Hd Htc)|].
  split; [|split; [exact Hown|]].
  - intros q cl' w Eq V. cbn [cells] in Eq.
    destruct (decide (p = q)) as [<- | Hne].
    + rewrite lookup_insert_eq in Eq. injection Eq as <-. cbn in V.
      injection V as <-. apply (value_ok_le _ _ _ _ _ Hsle Hv).
    + rewrite lookup_insert_ne in Eq by exact Hne.
      apply (value_ok_le _ _ _ _ _ Hsle (Hvals q cl' w Eq V)).
  - intros q cl r Eq En. cbn [cells] in Eq.
    destruct (decide (p = q)) as [<- | Hne].
    + rewrite lookup_insert_eq in Eq. injection Eq as <-. cbn in En.
      apply (Hlinks p cl0 r E0 En).
    + rewrite lookup_insert_ne in Eq by exact Hne.
      apply (Hlinks q cl r Eq En).
Qed.

Lemma link_next_vals_from (hp hp' : Heap) (prev : positive)
    (q : option positive) :
  link_next hp prev q = Ok hp' -> vals_from hp hp'.
Proof.
  unfold link_next. destruct (cells hp !! prev) as [cl0|] eqn:E0;
    [|discriminate]. cbn.
  destruct (next cl0).
  { intros [= <-]. apply vals_from_refl. }
  intros [= <-] r cl' v Er V. cbn [cells] in Er.
  destruct (decide (prev = r)) as [<- | Hne].
  - rewrite lookup_insert_eq in Er. injection Er as <-. cbn in V.
    exists cl0. auto.
  - rewrite lookup_insert_ne in Er by exact Hne. eauto.
Qed.

(** The links after [if (!prev->next) prev->next = r]. *)
Lemma link_next_links (hp hp' : Heap) (prev r : positive) :
  link_next hp prev (Some r) = Ok hp' ->
  forall p cl q, cells hp' !! p = Some cl -> next cl = Some q ->
    (exists cl0, cells hp !! p = Some cl0 /\ next cl0 = Some q)
    \/ (p = prev /\ q = r).
Proof.
  unfold link_next. destruct (cells hp !! prev) as [cl0|] eqn:E0;
    [|discriminate]. cbn.
  destruct (next cl0) as [r0|] eqn:En0.
  { intros [= <-] p cl q Ep En. left. eauto. }
  intros [= <-] p cl q Ep En. cbn [cells] in Ep.
  destruct (decide (prev = p)) as [<- | Hne].
  - rewrite lookup_insert_eq in Ep. injection Ep as <-. cbn in En.
    injection En as <-. right. auto.
  - rewrite lookup_insert_ne in Ep by exact Hne. left. eauto.
Qed.

(** [increment] on a register and the cell of the result: the heap keeps
    its values, the register has the trits [increment] gives. *)
Lemma advance_full (n : Number) (m : list MemoryTree) (hp : Heap) :
  store_ok m hp -> reg_ok m hp n ->
  exists n' m' hp',
    advance n m hp = Ok (n', m', hp')
    /\ reg_ok m' hp' n' /\ store_ok m' hp' /\ store_le m hp m' hp'
    /\ heap_extends hp hp'
    /\ head n' = fst (increment_result (head n) (tail n))
    /\ tail n' = snd (increment_result (head n) (tail n)).
Proof.
  intros Hst (Hv & p & Ep & Hp & Hc).
  pose proof Hst as (Hm & Hhp & Htc & Hvals & Hown & Hlinks).
  pose proof Hv as (Hh & Hl & Hne).
  unfold advance. rewrite Ep. cbn [must mbind Res_bind].
  assert (Hmo : memptr_ok (cells hp) n)
    by (unfold memptr_ok; rewrite Ep; exact Hp).
  rewrite (increment_eq (cells hp) n Hne Hmo). cbn [must mbind Res_bind].
  destruct (increment_result_valid (head n) (tail n) Hh Hl Hne)
    as (Hh1 & Hl1 & Hne1).
  set (n1 := mkNumber (fst (increment_result (head n) (tail n)))
               (snd (increment_result (head n) (tail n)))
               (increment_memptr (cells hp) n) (increment_unicode n)).
  assert (Hvs : value_equal (successor n) n1)
    by (apply value_equal_sym, value_equal_fields; reflexivity).
  assert (Hn1 : valid_number n1) by (split; [|split]; assumption).
  assert (Hmo1 : memptr_ok (cells hp) n1).
  { unfold memptr_ok, n1. cbn [memptr]. unfold increment_memptr.
    rewrite Ep. destruct Hp as [cl Ecl]. rewrite Ecl.
    destruct (next cl) as [q|] eqn:En; [|exact I].
    destruct Hhp as [_ Hlk]. apply (Hlk p cl q Ecl En). }
  assert (Hc1 : cached m n1).
  { intros q Eq. unfold n1 in Eq. cbn [memptr] in Eq.
    unfold increment_memptr in Eq. rewrite Ep in Eq.
    destruct Hp as [cl Ecl]. rewrite Ecl in Eq.
    destruct (Hlinks p cl q Ecl Eq) as (n0 & Hv0 & H1 & H2).
    pose proof (cell_of_injective m n n0 p Hown Hc H1) as Heq.
    pose proof (successor_value_equal n n0 Hh Hl (proj1 (proj2 Hv0)) Heq)
      as Hs.
    apply (cell_of_value m (successor n0)); [|exact H2].
    eapply value_equal_trans; [apply value_equal_sym, Hs | exact Hvs]. }
  destruct (update_memptr_safe n1 m hp Hst Hh1 Hl1 Hmo1 Hc1)
    as (r & m' & hp' & E2 & Hr & Hst' & Hle' & Hcell & _ & Hext1).
  rewrite E2. cbn [must mbind Res_bind].
  pose proof Hst' as (Hm' & Hhp' & Htc' & Hvals' & Hown' & Hlinks').
  destruct Hle' as [Hhle Hmext].
  destruct (link_next_ok hp' p (Some r) Hhp'
              (heap_le_dom _ _ Hhle p Hp)) as (hp2 & E3 & Hhp2 & Hext2).
  { intros r0 [= <-]. exact Hr. }
  cbn [memptr set_memptr]. rewrite E3. cbn [mbind Res_bind].
  exists (set_memptr n1 (Some r)), m', hp2.
  split; [reflexivity|].
  pose proof (heap_extends_le _ _ Hext2) as Hle2.
  assert (Hsle2 : store_le m' hp' m' hp2)
    by (split; [exact Hle2 | apply memory_extends_refl]).
  split; [|split].
  - split; [exact Hn1|]. exists r. split; [reflexivity|].
    split; [apply (heap_le_dom _ _ Hle2 r Hr)|].
    apply (cell_of_value m' n1); [|exact Hcell].
    apply value_equal_sym, value_equal_fields; reflexivity.
  - split; [exact Hm'|]. split; [exact Hhp2|].
    split; [apply (tree_cells_ok_dom_le _ _ _
                     (heap_extends_dom_le _ _ Hext2) Htc')|].
    split; [apply (vals_ok_from m' m' hp' hp2 Hsle2
                     (link_next_vals_from _ _ _ _ E3) Hvals')|].
    split; [exact Hown'|].
    intros p0 cl q Ecl En.
    destruct (link_next_links _ _ _ _ E3 p0 cl q Ecl En)
      as [(cl0 & Ecl0 & En0) | [-> ->]].
    + apply (Hlinks' p0 cl0 q Ecl0 En0).
    + exists n. split; [exact Hv|].
      split; [apply (cell_of_extends _ _ _ _ Hmext Hc)|].
      apply (cell_of_value m' n1); [apply value_equal_sym, Hvs | exact Hcell].
  - split; [split; [eapply heap_le_trans; eassumption | exact Hmext]|].
    split; [eapply heap_extends_trans; eassumption|].
    split; reflexivity.
Qed.

Lemma advance_safe (n : Number) (m : list MemoryTree) (hp : Heap) :
  store_ok m hp -> reg_ok m hp n ->
  exists n' m' hp',
    advance n m hp = Ok (n', m', hp')
    /\ reg_ok m' hp' n' /\ store_ok m' hp' /\ store_le m hp m' hp'.
Proof.
  intros Hst Hr.
  destruct (advance_full n m hp Hst Hr)
    as (n' & m' & hp' & E & H1 & H2 & H3 & _).
  exists n', m', hp'. auto.
Qed.

(** A value is stored in the cell of a register and the register moves
    on: the other cells keep their values. *)
Lemma store_advance_frame (m : list MemoryTree) (hp : Heap) (p : positive)
    (v init : Number) :
  store_ok m hp -> reg_ok m hp init -> memptr init = Some p ->
  value_ok m hp v ->
  exists hp1 init' m' hp',
    store_val hp p v = Ok hp1
    /\ advance init m hp1 = Ok (init', m', hp')
    /\ reg_ok m' hp' init' /\ store_ok m' hp' /\ store_le m hp m' hp'
    /\ kept_but hp hp' p
    /\ (exists cl, cells hp' !! p = Some cl /\ val cl = Some v)
    /\ head init' = fst (increment_result (head init) (tail init))
    /\ tail init' = snd (increment_result (head init) (tail init)).
Proof.
  intros Hst Hreg Ep Hv.
  pose proof Hreg as (_ & p0 & Ep0 & Hp & _).
  rewrite Ep in Ep0. injection Ep0 as <-.
  destruct (store_val_safe m hp p v Hst Hp Hv)
    as (hp1 & E1 & Hst1 & Hle1 & (cl1 & Ecl1 & V1)).
  destruct (store_val_ok hp p v (proj1 (proj2 Hst)) Hp)
    as (hp1' & E1' & _ & _ & Ho & _).
  rewrite E1 in E1'. injection E1' as <-.
  destruct (advance_full init m hp1 Hst1 (reg_ok_le _ _ _ _ _ Hle1 Hreg))
    as (init' & m' & hp' & E2 & Hreg' & Hst' & Hle2 & Hext & Eh & Et).
  exists hp1, init', m', hp'.
  split; [exact E1|]. split; [exact E2|]. split; [exact Hreg'|].
  split; [exact Hst'|].
  split; [eapply store_le_trans; eassumption|].
  split; [|split; [|split; assumption]].
  - intros q cl Hq Ecl.
    destruct (Hext q cl (Ho q cl Hq Ecl)) as (cl' & Ecl' & V').
    exists cl'. auto.
  - destruct (Hext p cl1 Ecl1) as (cl' & Ecl' & V').
    exists cl'. split; [exact Ecl'|]. congruence.
Qed.

(** *** Numbers *)

Lemma clone_number_eq (n : Number) : clone_number n = n.
Proof. destruct n; reflexivity. Qed.

Lemma copy_number_eq (n i : Number) : copy_number n i = i.
Proof. destruct i; reflexivity. Qed.

Lemma repair_ok (m : list MemoryTree) (hp : Heap) (v : Number) :
  value_ok m hp v ->
  valid_number (repair_number_after_xlat2 v)
  /\ memptr_ok (cells hp) (repair_number_after_xlat2 v)
  /\ cached m (repair_number_after_xlat2 v).
Proof.
  intros (Hh & Hl & Hm & Hu & Hc). unfold repair_number_after_xlat2.
  destruct (tail v) as [|t rest] eqn:Et.
  - specialize (Hu eq_refl).
    destruct (unicode v <? 0) eqn:E; [lia|].
    split; [|split; [exact I | apply cached_none; reflexivity]].
    split; [exact Hh|]. cbn [tail].
    split; [apply trits_of_trits; lia | apply trits_of_nonempty].
  - split; [|split; [exact Hm | apply Hc; discriminate]].
    split; [exact Hh|]. rewrite Et. split; [exact Hl | discriminate].
Qed.

Lemma turn_trits (l : list Z) : Forall is_trit l -> Forall is_trit (turn l).
Proof.
  intros H. destruct l as [|t rest]; [constructor|].
  inversion H; subst. cbn [turn]. apply Forall_app. split; [assumption|].
  constructor; [assumption | constructor].
Qed.

Lemma rotate_r_valid (v : Number) (W : Z) :
  valid_number v ->
  exists v', rotate_r v W = Some v' /\ valid_number v' /\ memptr v' = None.
Proof.
  intros (Hh & Hl & Hne). rewrite rotate_r_turn by exact Hne.
  eexists. split; [reflexivity|]. split; [|reflexivity].
  split; [exact Hh|]. cbn [tail]. split.
  - apply turn_trits. unfold padded_tail. apply Forall_app.
    split; [exact Hl|]. apply List.Forall_forall. intros x Hx.
    apply repeat_spec in Hx. subst x. exact Hh.
  - apply turn_nonempty. unfold padded_tail. intros E.
    apply app_eq_nil in E. tauto.
Qed.

Lemma opr_valid (a v : Number) :
  valid_number a -> valid_number v ->
  exists a' v',
    opr a v = Some (a', v') /\ valid_number a' /\ valid_number v'
    /\ memptr a' = None /\ memptr v' = None.
Proof.
  intros Ha Hv. rewrite (opr_closed_form a v Ha Hv).
  destruct (opr_trits_valid a v Ha Hv) as [Ht Hne].
  assert (Hc : is_trit (crazy (head v) (head a)))
    by (apply crazy_trit; [apply Hv | apply Ha]).
  do 2 eexists. split; [reflexivity|].
  split; [split; [exact Hc | split; assumption]|].
  split; [split; [exact Hc | split; assumption]|].
  split; reflexivity.
Qed.

Lemma xlat2_value_ok (m : list MemoryTree) (hp : Heap) (v : Number) :
  value_ok m hp v ->
  xlat2 v = None \/ exists v', xlat2 v = Some v' /\ value_ok m hp v'.
Proof.
  intros (Hh & Hl & Hm & Hu & Hc). unfold xlat2.
  destruct (update_unicode_fields v) as (Eh & Et & Em).
  destruct ((unicode (update_unicode v) <? 33)
            || (unicode (update_unicode v) >? 126)) eqn:E;
    [left; reflexivity|].
  right. eexists. split; [reflexivity|].
  split; [cbn [head]; rewrite Eh; exact Hh|].
  split; [constructor|].
  split; [unfold memptr_ok; cbn [memptr]; rewrite Em; exact Hm|].
  split; [|intros Hne; cbn [tail] in Hne; contradiction].
  intros _. cbn [unicode].
  pose proof (xlat2_code_range (unicode (update_unicode v)) ltac:(lia)) as R.
  unfold xlat2_code in R. lia.
Qed.

Lemma update_unicode_value_ok (m : list MemoryTree) (hp : Heap)
    (v : Number) :
  value_ok m hp v -> value_ok m hp (update_unicode v).
Proof.
  intros (Hh & Hl & Hm & Hu & Hc).
  destruct (update_unicode_fields v) as (Eh & Et & Em).
  split; [rewrite Eh; exact Hh|]. split; [rewrite Et; exact Hl|].
  split; [unfold memptr_ok; rewrite Em; exact Hm|].
  rewrite Et. split.
  - intros E. specialize (Hu E).
    rewrite update_unicode_cached by lia. exact Hu.
  - intros Hne. apply (cached_fields m v); auto.
Qed.

Lemma mod_range (n : Number) (m : Z) :
  valid_number n -> 2 <= m <= 29524 ->
  exists r, mod_ n m = Some r /\ 0 <= r < m.
Proof.
  intros Hv Hm. exists (mod_formula n m).
  split; [apply mod_eq; assumption|].
  unfold mod_formula. apply Z.mod_pos_bound. lia.
Qed.

(** *** States *)

Lemma machine_ok_frame (s s' : Machine) :
  machine_ok s ->
  store_ok (memory s') (heap s') ->
  store_le (memory s) (heap s) (memory s') (heap s') ->
  reg_a s' = reg_a s -> reg_c s' = reg_c s -> reg_d s' = reg_d s ->
  initial_values s' = initial_values s -> pos s' = pos s ->
  machine_ok s'.
Proof.
  intros (_ & Ha & Hc & Hd & Hiv & Hp) Hst Hle Ea Ec Ed Eiv Ep.
  unfold machine_ok. rewrite Ea, Ec, Ed, Eiv, Ep.
  split; [exact Hst|]. split; [exact Ha|].
  split; [eapply reg_ok_le; eassumption|].
  split; [eapply reg_ok_le; eassumption|].
  split; [eapply ivs_ok_le; eassumption | exact Hp].
Qed.

Lemma machine_ok_with_mem (s : Machine) (m : list MemoryTree) (hp : Heap) :
  machine_ok s -> store_ok m hp -> store_le (memory s) (heap s) m hp ->
  machine_ok (with_mem s m hp).
Proof.
  intros H Hst Hle. apply (machine_ok_frame s); auto.
Qed.

Lemma machine_ok_with_a (s : Machine) (a : Number) :
  machine_ok s -> valid_number a -> machine_ok (with_a s a).
Proof.
  intros (Hst & _ & Hc & Hd & Hiv & Hp) Ha. unfold machine_ok.
  cbn [with_a memory heap reg_a reg_c reg_d initial_values pos]. tauto.
Qed.

Lemma machine_ok_with_c (s : Machine) (c : Number) :
  machine_ok s -> reg_ok (memory s) (heap s) c -> machine_ok (with_c s c).
Proof.
  intros (Hst & Ha & _ & Hd & Hiv & Hp) Hc. unfold machine_ok.
  cbn [with_c memory heap reg_a reg_c reg_d initial_values pos]. tauto.
Qed.

Lemma machine_ok_with_d (s : Machine) (d : Number) :
  machine_ok s -> reg_ok (memory s) (heap s) d -> machine_ok (with_d s d).
Proof.
  intros (Hst & Ha & Hc & _ & Hiv & Hp) Hd. unfold machine_ok.
  cbn [with_d memory heap reg_a reg_c reg_d initial_values pos]. tauto.
Qed.

Lemma machine_ok_with_pos (s : Machine) (p : Z) :
  machine_ok s -> 0 <= p < 564 -> machine_ok (with_pos s p).
Proof.
  intros (Hst & Ha & Hc & Hd & Hiv & _) Hp. unfold machine_ok.
  cbn [with_pos memory heap reg_a reg_c reg_d initial_values pos]. tauto.
Qed.

Lemma cell_val_safe (s : Machine) (n : Number) :
  reg_ok (memory s) (heap s) n ->
  exists p cl,
    cell_val s n = Ok (p, val cl) /\ memptr n = Some p
    /\ cells (heap s) !! p = Some cl.
Proof.
  intros (_ & p & Ep & [cl Ecl] & _). exists p, cl. unfold cell_val.
  rewrite Ep. cbn [must mbind Res_bind]. rewrite Ecl. auto.
Qed.

Lemma initial_value_safe (s : Machine) (i : Z) :
  ivs_ok (memory s) (heap s) (initial_values s) -> 0 <= i < 6 ->
  exists iv, initial_value s i = Ok iv /\ reg_ok (memory s) (heap s) iv.
Proof.
  intros (Hl & Hi) Hr. unfold initial_value.
  destruct (i <? 0) eqn:E; [lia|].
  destruct (initial_values s !! Z.to_nat i) as [o|] eqn:Eo;
    [|apply lookup_ge_None in Eo; lia].
  destruct (Hi _ _ Eo) as (iv & -> & Hiv). exists iv. auto.
Qed.

Lemma rem6 (p : Z) : 0 <= p -> 0 <= Z.rem p 6 < 6.
Proof.
  intros Hp. rewrite Z.rem_mod_nonneg by lia. apply Z.mod_pos_bound. lia.
Qed.

(** The cell of a register is given a value when it has none. *)
Lemma materialize_safe (s : Machine) (n : Number) (i : Z) :
  machine_ok s -> reg_ok (memory s) (heap s) n -> 0 <= i < 6 ->
  exists p v s',
    materialize s n i = Ok (p, v, s')
    /\ machine_ok s'
    /\ store_le (memory s) (heap s) (memory s') (heap s')
    /\ memptr n = Some p
    /\ (exists cl, cells (heap s') !! p = Some cl /\ val cl = Some v)
    /\ value_ok (memory s') (heap s') v
    /\ reg_a s' = reg_a s /\ reg_c s' = reg_c s /\ reg_d s' = reg_d s
    /\ pos s' = pos s.
Proof.
  intros Hok Hn Hi. pose proof Hok as (Hst & Ha & Hc & Hd & Hiv & Hp).
  destruct (cell_val_safe s n Hn) as (p & cl & Ecv & Ep & Ecl).
  unfold materialize. rewrite Ecv. cbn [mbind Res_bind].
  destruct (val cl) as [v|] eqn:Ev.
  - exists p, v, s. split; [reflexivity|]. split; [exact Hok|].
    split; [apply store_le_refl|]. split; [exact Ep|].
    split; [eauto|].
    split; [apply (store_vals _ _ Hst p cl v Ecl Ev)|]. auto.
  - destruct (initial_value_safe s i Hiv Hi) as (iv & Eiv & Hivok).
    rewrite Eiv. cbn [mbind Res_bind]. rewrite clone_number_eq.
    destruct (store_val_safe (memory s) (heap s) p iv Hst
                ltac:(eauto) (reg_value_ok _ _ _ Hivok))
      as (hp' & Es & Hst' & Hle & Hcl).
    rewrite Es. cbn [mbind Res_bind].
    exists p, iv, (with_heap s hp'). split; [reflexivity|].
    split; [apply machine_ok_with_mem; assumption|].
    split; [exact Hle|]. split; [exact Ep|]. split; [exact Hcl|].
    split; [apply (value_ok_le _ _ _ _ _ Hle), reg_value_ok, Hivok|]. auto.
Qed.

(** *** The instructions *)

Lemma set_memptr_reg_ok (m : list MemoryTree) (hp : Heap) (v : Number)
    (r : positive) :
  valid_number v -> is_Some (cells hp !! r) -> cell_of m v r ->
  reg_ok m hp (set_memptr v (Some r)).
Proof.
  intros Hv Hr Hc. split; [exact Hv|]. exists r.
  split; [reflexivity|]. split; [exact Hr|].
  apply (cell_of_value m v); [|exact Hc].
  apply value_equal_sym, value_equal_fields; reflexivity.
Qed.

Lemma target_safe (s : Machine) :
  machine_ok s ->
  exists v s',
    target s = Ok (v, s')
    /\ machine_ok s' /\ reg_ok (memory s') (heap s') v
    /\ store_le (memory s) (heap s) (memory s') (heap s')
    /\ reg_a s' = reg_a s /\ reg_c s' = reg_c s /\ reg_d s' = reg_d s
    /\ pos s' = pos s.
Proof.
  intros Hok. pose proof Hok as (Hst & Ha & Hc & Hd & Hiv & Hp).
  destruct (cell_val_safe s (reg_d s) Hd) as (p & cl & Ecv & Ep & Ecl).
  unfold target. rewrite Ecv. cbn [mbind Res_bind].
  destruct (val cl) as [v0|] eqn:Ev.
  - pose proof (store_vals _ _ Hst p cl v0 Ecl Ev) as Hv0.
    destruct (repair_ok _ _ _ Hv0) as ((Hh1 & Hl1 & Hne1) & Hm1 & Hc1).
    destruct (update_memptr_safe _ (memory s) (heap s) Hst Hh1 Hl1 Hm1 Hc1)
      as (r & m' & hp' & Eu & Hr & Hst' & Hle & Hcell & _).
    rewrite Eu. cbn [must mbind Res_bind].
    assert (Hreg : reg_ok m' hp'
                     (set_memptr (repair_number_after_xlat2 v0) (Some r))).
    { apply set_memptr_reg_ok; [|exact Hr|exact Hcell].
      split; [exact Hh1 | split; assumption]. }
    destruct (store_val_safe m' hp' p _ Hst'
                (heap_le_dom _ _ (proj1 Hle) p ltac:(eauto))
                (reg_value_ok _ _ _ Hreg))
      as (hp2 & Es & Hst2 & Hle2 & _).
    rewrite Es. cbn [mbind Res_bind].
    do 2 eexists. split; [reflexivity|].
    assert (Hle' : store_le (memory s) (heap s) m' hp2)
      by (eapply store_le_trans; eassumption).
    split; [apply machine_ok_with_mem; assumption|].
    split; [apply (reg_ok_le _ _ _ _ _ Hle2 Hreg)|].
    split; [exact Hle'|]. auto.
  - destruct (mod_range (reg_d s) 6 (proj1 Hd) ltac:(lia)) as (i & Ei & Hi).
    rewrite Ei. cbn [must mbind Res_bind].
    destruct (initial_value_safe s i Hiv Hi) as (iv & Eiv & Hivok).
    rewrite Eiv. cbn [mbind Res_bind].
    exists iv, s. split; [reflexivity|]. split; [exact Hok|].
    split; [exact Hivok|]. split; [apply store_le_refl|]. auto.
Qed.

Lemma operand_safe (s : Machine) :
  machine_ok s ->
  exists p v,
    operand s = Ok (p, v)
    /\ is_Some (cells (heap s) !! p)
    /\ valid_number v /\ memptr_ok (cells (heap s)) v.
Proof.
  intros Hok. pose proof Hok as (Hst & Ha & Hc & Hd & Hiv & Hp).
  destruct (cell_val_safe s (reg_d s) Hd) as (p & cl & Ecv & Ep & Ecl).
  unfold operand. rewrite Ecv. cbn [mbind Res_bind].
  destruct (val cl) as [v0|] eqn:Ev.
  - pose proof (store_vals _ _ Hst p cl v0 Ecl Ev) as Hv0.
    destruct (repair_ok _ _ _ Hv0) as (Hv1 & Hm1 & _).
    do 2 eexists. split; [reflexivity|]. split; [eauto|]. auto.
  - destruct (mod_range (reg_d s) 6 (proj1 Hd) ltac:(lia)) as (i & Ei & Hi).
    rewrite Ei. cbn [must mbind Res_bind].
    destruct (initial_value_safe s i Hiv Hi) as (iv & Eiv & Hivok).
    rewrite Eiv. cbn [mbind Res_bind]. rewrite clone_number_eq.
    do 2 eexists. split; [reflexivity|]. split; [eauto|].
    pose proof (reg_value_ok _ _ _ Hivok) as (_ & _ & Hm & _).
    split; [apply Hivok | exact Hm].
Qed.

(** The register update that [jmp] and [movd] share: the cell pointer of
    the copied number is set, so [update_memptr] returns at once. *)
Lemma update_memptr_reg (s : Machine) (n v : Number) :
  machine_ok s -> reg_ok (memory s) (heap s) v ->
  update_memptr (copy_number n v) (memory s) (heap s)
  = Some (v, memory s, heap s).
Proof.
  intros Hok (Hv & p & Ep & Hp & _). rewrite copy_number_eq.
  unfold update_memptr. rewrite Ep. reflexivity.
Qed.

Lemma with_mem_same (s : Machine) : with_mem s (memory s) (heap s) = s.
Proof. destruct s; reflexivity. Qed.

Lemma exec_jmp_safe (s : Machine) :
  machine_ok s ->
  exists s', exec_jmp s = Ok s' /\ machine_ok s'
             /\ loaded (heap s') (reg_c s').
Proof.
  intros Hok. unfold exec_jmp.
  destruct (target_safe s Hok)
    as (v & s1 & Et & Hok1 & Hv & Hle & _).
  rewrite Et. cbn [mbind Res_bind].
  rewrite (update_memptr_reg s1 _ v Hok1 Hv). cbn [must mbind Res_bind].
  rewrite with_mem_same.
  destruct (mod_range v 564 (proj1 Hv) ltac:(lia)) as (p & Ep & Hp).
  rewrite Ep. cbn [must mbind Res_bind].
  set (s2 := with_pos (with_c s1 v) p).
  assert (Hok2 : machine_ok s2).
  { apply machine_ok_with_pos; [|exact Hp].
    apply machine_ok_with_c; assumption. }
  destruct (materialize_safe s2 v (Z.rem p 6) Hok2 Hv (rem6 p ltac:(lia)))
    as (q & w & s3 & Em & Hok3 & Hle3 & Eq & (cl & Ecl & Vcl) & _ & _ & Ec
        & _).
  rewrite Em. cbn [mbind Res_bind].
  exists s3. split; [reflexivity|]. split; [exact Hok3|].
  rewrite Ec. exists q, cl, w. auto.
Qed.

Lemma exec_rot_safe (s : Machine) :
  machine_ok s -> loaded (heap s) (reg_c s) ->
  exists s', exec_rot s = Ok s' /\ machine_ok s'
             /\ loaded (heap s') (reg_c s').
Proof.
  intros Hok Hld. pose proof Hok as (Hst & _).
  unfold exec_rot.
  destruct (operand_safe s Hok) as (p & v & Eo & Hp & Hv & Hm).
  rewrite Eo. cbn [mbind Res_bind].
  destruct (rotate_r_valid v (rotwidth s) Hv) as (v' & Er & Hv' & Em').
  rewrite Er. cbn [must mbind Res_bind].
  destruct (store_val_safe (memory s) (heap s) p v' Hst Hp
              (valid_value_ok _ _ _ Hv'
                 ltac:(unfold memptr_ok; rewrite Em'; exact I)
                 (cached_none _ _ Em')))
    as (hp' & Es & Hst' & Hle & _).
  rewrite Es. cbn [mbind Res_bind]. rewrite copy_number_eq.
  eexists. split; [reflexivity|]. split.
  - apply machine_ok_with_a; [|exact Hv'].
    apply machine_ok_with_mem; assumption.
  - apply (loaded_le _ _ _ (proj1 Hle) Hld).
Qed.

Lemma exec_opr_safe (s : Machine) :
  machine_ok s -> loaded (heap s) (reg_c s) ->
  exists s', exec_opr s = Ok s' /\ machine_ok s'
             /\ loaded (heap s') (reg_c s').
Proof.
  intros Hok Hld. pose proof Hok as (Hst & Ha & _).
  unfold exec_opr.
  destruct (operand_safe s Hok) as (p & v & Eo & Hp & Hv & Hm).
  rewrite Eo. cbn [mbind Res_bind].
  destruct (opr_valid (reg_a s) v Ha Hv)
    as (a' & v' & Er & Ha' & Hv' & _ & Em').
  rewrite Er. cbn [must mbind Res_bind].
  destruct (store_val_safe (memory s) (heap s) p v' Hst Hp
              (valid_value_ok _ _ _ Hv'
                 ltac:(unfold memptr_ok; rewrite Em'; exact I)
                 (cached_none _ _ Em')))
    as (hp' & Es & Hst' & Hle & _).
  rewrite Es. cbn [mbind Res_bind].
  eexists. split; [reflexivity|]. split.
  - apply machine_ok_with_a; [|exact Ha'].
    apply machine_ok_with_mem; assumption.
  - apply (loaded_le _ _ _ (proj1 Hle) Hld).
Qed.

Lemma exec_out_safe (s : Machine) :
  machine_ok s -> loaded (heap s) (reg_c s) ->
  safe (fun s' => machine_ok s' /\ loaded (heap s') (reg_c s'))
    (exec_out s).
Proof.
  intros Hok Hld. pose proof Hok as (Hst & Ha & Hc & Hd & Hiv & Hp).
  unfold exec_out.
  assert (Hnl : exists b, is_nl (reg_a s) = Some b).
  { unfold is_nl. destruct (negb (head (reg_a s) =? T2)); [eauto|].
    destruct Ha as (_ & _ & Hne).
    destruct (tail (reg_a s)); [contradiction|].
    destruct (forallb _ _); eauto. }
  destruct Hnl as [b ->]. cbn [must mbind Res_bind].
  destruct b.
  - cbn [safe]. split; [|exact Hld].
    unfold machine_ok. cbn [with_stdout memory heap reg_a reg_c reg_d
                            initial_values pos]. tauto.
  - destruct (print_utf8 _) as [bytes|dg| |] eqn:Epr; cbn; try exact I.
    + split; [|exact Hld].
      pose proof (update_unicode_valid _ Ha) as Ha'.
      unfold machine_ok. cbn [with_stdout with_a memory heap reg_a reg_c
                              reg_d initial_values pos]. tauto.
    + unfold print_utf8 in Epr.
      repeat match type of Epr with
             | context [if ?c then _ else _] => destruct c
             end; discriminate.
Qed.

Lemma exec_in_safe (s : Machine) :
  machine_ok s -> loaded (heap s) (reg_c s) ->
  safe (fun s' => machine_ok s' /\ loaded (heap s') (reg_c s'))
    (exec_in s).
Proof.
  intros Hok Hld. pose proof Hok as (Hst & Ha & Hc & Hd & Hiv & Hp).
  unfold exec_in.
  assert (Hfin : forall rest a, valid_number a ->
             machine_ok (with_a (with_stdin s rest) a)
             /\ loaded (heap (with_a (with_stdin s rest) a))
                  (reg_c (with_a (with_stdin s rest) a))).
  { intros rest a Hva. split; [|exact Hld].
    unfold machine_ok. cbn [with_stdin with_a memory heap reg_a reg_c
                            reg_d initial_values pos]. tauto. }
  assert (H2 : is_trit T2) by (unfold is_trit, T2; lia).
  assert (Hto : forall x n, to_number x = Some n ->
             valid_number n /\ valid_number (set_head n T2)
             /\ valid_number (set_unicode (set_head n T2) (-1))).
  { intros x n En. destruct (to_number_valid x n En) as ((Hh & Hl & Hne) & _).
    split; [split; [exact Hh | split; assumption]|].
    split; (split; [exact H2 | split; assumption]). }
  destruct (read_utf8_character (stdin s)) as [[i rest]|dg| |] eqn:Er;
    cbn [mbind Res_bind safe]; try exact I.
  - destruct (i =? -1).
    + destruct (to_number 2) as [n|] eqn:En;
        cbn [or_fatal mbind Res_bind safe]; [|exact I].
      apply Hfin, (Hto 2 n En).
    + destruct (i =? 10).
      * destruct (to_number 1) as [n|] eqn:En;
          cbn [or_fatal mbind Res_bind safe]; [|exact I].
        apply Hfin, (Hto 1 n En).
      * destruct (to_number i) as [n|] eqn:En;
          cbn [or_fatal mbind Res_bind safe]; [|exact I].
        apply Hfin, (Hto i n En).
  - unfold read_utf8_character in Er.
    repeat match type of Er with
           | context [let '(_, _) := getchar ?l in _] =>
               destruct (getchar l)
           | context [if ?c then _ else _] => destruct c
           end; discriminate.
Qed.

Lemma machine_ok_with_growth (s : Machine) (mw rw : Z) (k : nat) :
  machine_ok s -> machine_ok (with_growth s mw rw k).
Proof.
  unfold machine_ok.
  cbn [with_growth memory heap reg_a reg_c reg_d initial_values pos]. tauto.
Qed.

Lemma exec_movd_safe (cfg : Config) (s : Machine) :
  machine_ok s -> loaded (heap s) (reg_c s) ->
  safe (fun s' => machine_ok s' /\ loaded (heap s') (reg_c s'))
    (exec_movd cfg s).
Proof.
  intros Hok Hld. unfold exec_movd.
  destruct (target_safe s Hok)
    as (v & s1 & Et & Hok1 & Hv & Hle & _ & Ec & _).
  rewrite Et. cbn [mbind Res_bind].
  rewrite (update_memptr_reg s1 _ v Hok1 Hv). cbn [must mbind Res_bind].
  rewrite with_mem_same.
  set (s2 := with_d s1 v).
  assert (Hok2 : machine_ok s2) by (apply machine_ok_with_d; assumption).
  assert (Hld2 : loaded (heap s2) (reg_c s2)).
  { change (loaded (heap s1) (reg_c s1)). rewrite Ec.
    apply (loaded_le _ _ _ (proj1 Hle) Hld). }
  destruct (Z.of_nat (width v) >? max_wordwidth s2); [|cbn; auto].
  destruct (get_real_width v >? max_wordwidth s2); [|cbn; auto].
  destruct (det_growth cfg).
  - unfold det_growth_policy.
    repeat match goal with
           | |- context [if ?c then _ else _] => destruct c
           end; cbn; auto using machine_ok_with_growth.
  - unfold nondet_growth_policy.
    repeat match goal with
           | |- context [if ?c then _ else _] => destruct c
           end; cbn; auto using machine_ok_with_growth.
Qed.

Lemma exec_instr_safe (cfg : Config) (i : Z) (s : Machine) :
  machine_ok s -> loaded (heap s) (reg_c s) ->
  safe (fun s' => machine_ok s' /\ loaded (heap s') (reg_c s'))
    (exec_instr cfg i s).
Proof.
  intros Hok Hld.
  destruct (Z.eq_dec i 4) as [->|N4].
  { destruct (exec_jmp_safe s Hok) as (s' & E & H).
    change (exec_instr cfg 4 s) with (exec_jmp s). rewrite E. exact H. }
  destruct (Z.eq_dec i 5) as [->|N5]; [apply exec_out_safe; assumption|].
  destruct (Z.eq_dec i 23) as [->|N23]; [apply exec_in_safe; assumption|].
  destruct (Z.eq_dec i 39) as [->|N39].
  { destruct (exec_rot_safe s Hok Hld) as (s' & E & H).
    change (exec_instr cfg 39 s) with (exec_rot s). rewrite E. exact H. }
  destruct (Z.eq_dec i 40) as [->|N40]; [apply exec_movd_safe; assumption|].
  destruct (Z.eq_dec i 62) as [->|N62].
  { destruct (exec_opr_safe s Hok Hld) as (s' & E & H).
    change (exec_instr cfg 62 s) with (exec_opr s). rewrite E. exact H. }
  destruct (Z.eq_dec i 81) as [->|N81]; [exact I|].
  rewrite exec_instr_default by assumption. cbn. auto.
Qed.


(** *** One pass of the loop *)

Lemma fetch_safe (s : Machine) :
  machine_ok s ->
  exists u s',
    fetch s = Ok (u, s') /\ machine_ok s' /\ loaded (heap s') (reg_c s').
Proof.
  intros Hok. pose proof Hok as (Hst & Ha & Hc & Hd & Hiv & Hp).
  unfold fetch.
  destruct (materialize_safe s (reg_c s) (Z.rem (pos s) 6) Hok Hc
              (rem6 (pos s) (proj1 Hp)))
    as (p & v & s1 & Em & Hok1 & Hle1 & Ep & (cl & Ecl & Vcl) & Hv & _ & Ec
        & _).
  rewrite Em. cbn [mbind Res_bind].
  pose proof Hok1 as (Hst1 & _).
  destruct (store_val_safe (memory s1) (heap s1) p (update_unicode v) Hst1
              ltac:(eauto) (update_unicode_value_ok _ _ _ Hv))
    as (hp' & Es & Hst' & Hle & (cl' & Ecl' & Vcl')).
  rewrite Es. cbn [mbind Res_bind].
  do 2 eexists. split; [reflexivity|]. split.
  - apply machine_ok_with_mem; assumption.
  - cbn [with_heap with_mem heap reg_c]. rewrite Ec.
    exists p, cl', (update_unicode v). auto.
Qed.

Lemma finish_step_safe (s : Machine) :
  machine_ok s -> loaded (heap s) (reg_c s) ->
  safe machine_ok (finish_step s).
Proof.
  intros Hok (p & cl & v & Ep & Ecl & Vcl).
  pose proof Hok as (Hst & Ha & Hc & Hd & Hiv & Hp).
  unfold finish_step, cell_val. rewrite Ep. cbn [must mbind Res_bind].
  rewrite Ecl. cbn [must mbind Res_bind]. rewrite Vcl.
  cbn [must mbind Res_bind].
  pose proof (store_vals _ _ Hst p cl v Ecl Vcl) as Hv.
  destruct (xlat2_value_ok _ _ _ Hv) as [-> | (v' & -> & Hv')];
    cbn [or_fatal mbind Res_bind safe]; [exact I|].
  destruct (store_val_safe (memory s) (heap s) p v' Hst ltac:(eauto) Hv')
    as (hp1 & Es & Hst1 & Hle1 & _).
  rewrite Es. cbn [mbind Res_bind].
  destruct (advance_safe (reg_c s) (memory s) hp1 Hst1
              (reg_ok_le _ _ _ _ _ Hle1 Hc))
    as (c' & m2 & hp2 & Ea & Hc' & Hst2 & Hle2).
  rewrite Ea. cbn [mbind Res_bind].
  cbn [with_pos with_c with_mem memory heap reg_d pos step].
  assert (Hle12 : store_le (memory s) (heap s) m2 hp2)
    by (eapply store_le_trans; eassumption).
  destruct (advance_safe (reg_d s) m2 hp2 Hst2
              (reg_ok_le _ _ _ _ _ Hle12 Hd))
    as (d' & m3 & hp3 & Ed & Hd' & Hst3 & Hle3).
  rewrite Ed. cbn [mbind Res_bind safe].
  assert (Hle13 : store_le (memory s) (heap s) m3 hp3)
    by (eapply store_le_trans; eassumption).
  unfold machine_ok.
  cbn [with_step with_d with_mem memory heap reg_a reg_c reg_d
       initial_values pos].
  split; [exact Hst3|]. split; [exact Ha|].
  split; [apply (reg_ok_le _ _ _ _ _ Hle3 Hc')|]. split; [exact Hd'|].
  split; [apply (ivs_ok_le _ _ _ _ _ Hle13 Hiv)|].
  rewrite Z.rem_mod_nonneg by lia. apply Z.mod_pos_bound. lia.
Qed.

Lemma exec_step_safe (cfg : Config) (s : Machine) :
  machine_ok s -> safe machine_ok (exec_step cfg s).
Proof.
  intros Hok. unfold exec_step.
  destruct (fetch_safe s Hok) as (u & s1 & -> & Hok1 & Hld1).
  cbn [mbind Res_bind].
  destruct ((u <? 33) || (u >? 126)); [exact I|].
  apply (safe_bind (fun s' => machine_ok s' /\ loaded (heap s') (reg_c s'))).
  - apply exec_instr_safe; assumption.
  - intros s2 [Hok2 Hld2]. apply finish_step_safe; assumption.
Qed.

Lemma exec_steps_safe (cfg : Config) (k : nat) :
  forall s, machine_ok s -> safe machine_ok (exec_steps cfg k s).
Proof.
  induction k as [|k IH]; intros s Hok; cbn [exec_steps].
  - exact Hok.
  - apply (safe_bind machine_ok); [apply exec_step_safe, Hok | exact IH].
Qed.


(** *** The loader *)

Lemma memory_init_cells (q : positive) (cl : MemCell) :
  cells (snd memory_init) !! q = Some cl ->
  (q = 1 \/ q = 2 \/ q = 3)%positive /\ cl = mkMemCell None None.
Proof.
  intros E0. cbn [snd memory_init cells] in E0.
  destruct (decide (3%positive = q)) as [<- | N3].
  { rewrite lookup_insert_eq in E0. injection E0 as <-. auto. }
  rewrite lookup_insert_ne in E0 by exact N3.
  destruct (decide (2%positive = q)) as [<- | N2].
  { rewrite lookup_insert_eq in E0. injection E0 as <-. auto. }
  rewrite lookup_insert_ne in E0 by exact N2.
  destruct (decide (1%positive = q)) as [<- | N1].
  { rewrite lookup_insert_eq in E0. injection E0 as <-. auto. }
  rewrite lookup_insert_ne in E0 by exact N1.
  rewrite lookup_empty in E0. discriminate.
Qed.

(** The memory before the first cell is looked up: three roots, three
    empty cells. *)
Lemma memory_init_store_ok : store_ok (fst memory_init) (snd memory_init).
Proof.
  split; [apply memory_init_ok|]. split; [|split; [|split; [|split]]].
  - split.
    + intros q [cl E0]. destruct (memory_init_cells q cl E0) as [Hq _].
      cbn [snd memory_init brk]. lia.
    + intros q cl r E0 En. destruct (memory_init_cells q cl E0) as [_ ->].
      discriminate.
  - intros j root Hr.
    do 3 (destruct j as [|j];
          [injection Hr as <-; apply subtree_cells_ok_leaf; eexists;
           reflexivity|]).
    discriminate.
  - intros q cl v E0 V. destruct (memory_init_cells q cl E0) as [_ ->].
    discriminate.
  - apply memory_init_owned.
  - intros q cl r E0 En. destruct (memory_init_cells q cl E0) as [_ ->].
    discriminate.
Qed.

Lemma ivs_upto_le (m m' : list MemoryTree) (hp hp' : Heap)
    (ivs : list (option Number)) (a : Z) :
  store_le m hp m' hp' -> ivs_upto m hp ivs a -> ivs_upto m' hp' ivs a.
Proof.
  intros Hle (Hl & Hi). split; [exact Hl|]. intros j Hj Ha.
  destruct (Hi j Hj Ha) as (iv & E & Hr). exists iv.
  split; [exact E|]. eapply reg_ok_le; eassumption.
Qed.

Lemma loader_init_safe :
  exists l, loader_init = Ok l /\ loader_safe l 0
            /\ l_prev l = None /\ l_prevprev l = None
            /\ head (l_init l) = 0 /\ tail (l_init l) = trits_of 0.
Proof.
  destruct loader_init_ok as (l & E & Hl & Hp & Hpp).
  set (init := mkNumber T0 (trits_of 0) None 0).
  assert (Hv : valid_number init).
  { destruct (to_number_valid 0 init eq_refl) as [H _]. exact H. }
  pose proof Hv as (Hh & Hlt & Hne).
  destruct (update_memptr_safe init (fst memory_init) (snd memory_init)
              memory_init_store_ok Hh Hlt I (cached_none _ init eq_refl))
    as (r & m' & hp' & Eu & Hr & Hst & Hle & Hcell & _).
  assert (E' : loader_init
               = Ok (mkLoader m' hp' (set_memptr init (Some r)) None None 0
                       (replicate 6 None))).
  { unfold loader_init.
    change memory_init with (fst memory_init, snd memory_init).
    change (to_number 0) with (Some init).
    cbn [or_fatal mbind Res_bind]. rewrite Eu. reflexivity. }
  rewrite E' in E. injection E as <-.
  eexists. split; [exact E'|].
  split; [|cbn [l_prev l_prevprev l_init set_memptr head tail]; auto].
  split; [exact Hl|].
  cbn [l_heap l_memory l_init l_initial_values l_pos].
  split; [exact Hst|].
  split; [apply set_memptr_reg_ok; assumption|].
  split; [|lia].
  split; [reflexivity|]. intros j Hj Ha. lia.
Qed.

Lemma load_char_safe (v : Z) (l : Loader) (a : Z) :
  loader_safe l a ->
  safe (fun l' => loader_safe l' a) (load_char v l).
Proof.
  intros (Hl & Hst & Hreg & Hivs & Hpos).
  destruct (load_char_ok v l Hl) as [E | (l' & E & Hl')];
    rewrite E; cbn [safe]; [exact I|].
  split; [exact Hl'|].
  pose proof (load_char_pos v l l' Hpos E) as Hpos'.
  pose proof Hreg as (Hiv & p & Ep & Hp & Hcp).
  unfold load_char in E.
  destruct (is_blank v); [injection E as <-; tauto|].
  destruct ((v >=? 33) && (v <? 127) && is_instr (Z.rem (v + l_pos l) 94));
    [|discriminate].
  rewrite Ep in E. cbn [must mbind Res_bind] in E.
  destruct (to_number v) as [n|] eqn:En;
    cbn [or_fatal mbind Res_bind] in E; [|discriminate].
  destruct (to_number_valid v n En) as [Hn _].
  assert (Hnp : memptr n = None).
  { unfold to_number in En. destruct (v <? 0); [discriminate|].
    injection En as <-. reflexivity. }
  destruct (store_val_safe (l_memory l) (l_heap l) p n Hst Hp
              (valid_value_ok _ _ _ Hn
                 ltac:(unfold memptr_ok; rewrite Hnp; exact I)
                 (cached_none _ _ Hnp)))
    as (hp1 & E1 & Hst1 & Hle1 & _).
  rewrite E1 in E. cbn [mbind Res_bind] in E.
  destruct (advance_safe (l_init l) (l_memory l) hp1 Hst1
              (reg_ok_le _ _ _ _ _ Hle1 Hreg))
    as (init' & m' & hp' & E2 & Hreg' & Hst2 & Hle2).
  rewrite E2 in E. cbn [mbind Res_bind] in E. injection E as <-.
  cbn [l_heap l_memory l_init l_initial_values l_pos] in *.
  split; [exact Hst2|]. split; [exact Hreg'|]. split; [|exact Hpos'].
  apply (ivs_upto_le (l_memory l) _ (l_heap l)); [|exact Hivs].
  eapply store_le_trans; eassumption.
Qed.

Lemma load_chars_safe (program : list Z) (a : Z) :
  forall l, loader_safe l a ->
            safe (fun l' => loader_safe l' a) (load_chars program l).
Proof.
  induction program as [|b rest IH]; intros l Hl; cbn [load_chars].
  - exact Hl.
  - apply (safe_bind (fun l' => loader_safe l' a));
      [apply load_char_safe, Hl | exact IH].
Qed.

Lemma stored_value (hp : Heap) (q : positive) (cl : MemCell) (v : Number) :
  stored_ok hp (Some q) -> cells hp !! q = Some cl -> val cl = Some v ->
  valid_number v.
Proof.
  intros H E V. destruct (H q eq_refl) as (cl' & v' & E' & V' & Hv).
  congruence.
Qed.

(** A synthetic step: the result goes to the cell of [init], the other
    cells keep their values, and [init] moves on. *)
Lemma synth_step_full (pos : Z) (l : Loader) :
  loader_safe l pos -> is_Some (l_prevprev l) -> 0 <= pos < 18 ->
  exists l',
    synth_step pos l = Ok l' /\ loader_safe l' (pos + 1)
    /\ is_Some (l_prevprev l')
    /\ exists p,
         memptr (l_init l) = Some p
         /\ memory_extends (l_memory l) (l_memory l')
         /\ kept_but (l_heap l) (l_heap l') p
         /\ head (l_init l')
            = fst (increment_result (head (l_init l)) (tail (l_init l)))
         /\ tail (l_init l')
            = snd (increment_result (head (l_init l)) (tail (l_init l)))
         /\ synth_stored pos l l' p.
Proof.
  intros (Hl & Hst & Hreg & Hivs & Hpos) Hpp Hrange.
  destruct (synth_step_ok pos l Hl Hpp ltac:(lia)) as (l' & E & Hl' & Hpp').
  exists l'. split; [exact E|].
  cut (loader_safe l' (pos + 1)
       /\ exists p,
            memptr (l_init l) = Some p
            /\ memory_extends (l_memory l) (l_memory l')
            /\ kept_but (l_heap l) (l_heap l') p
            /\ head (l_init l')
               = fst (increment_result (head (l_init l)) (tail (l_init l)))
            /\ tail (l_init l')
               = snd (increment_result (head (l_init l))
                        (tail (l_init l)))
            /\ synth_stored pos l l' p); [tauto|].
  cut (store_ok (l_memory l') (l_heap l')
       /\ reg_ok (l_memory l') (l_heap l') (l_init l')
       /\ ivs_upto (l_memory l') (l_heap l') (l_initial_values l') (pos + 1)
       /\ 0 <= l_pos l' < 564
       /\ exists p,
            memptr (l_init l) = Some p
            /\ memory_extends (l_memory l) (l_memory l')
            /\ kept_but (l_heap l) (l_heap l') p
            /\ head (l_init l')
               = fst (increment_result (head (l_init l)) (tail (l_init l)))
            /\ tail (l_init l')
               = snd (increment_result (head (l_init l))
                        (tail (l_init l)))
            /\ synth_stored pos l l' p).
  { intros (H1 & H2 & H3 & H4 & H5).
    split; [|exact H5]. split; [exact Hl'|]. tauto. }
  unfold synth_stored.
  pose proof Hreg as (Hiv & p & Ep & Hp & Hcp).
  pose proof Hl as (_ & _ & _ & _ & _ & Hsprev & Hsprevprev & _).
  unfold synth_step in E.
  destruct (l_prev l) as [prev|]; cbn [must mbind Res_bind] in E;
    [|discriminate].
  destruct (l_prevprev l) as [prevprev|]; cbn [must mbind Res_bind] in E;
    [|discriminate].
  destruct (cells (l_heap l) !! prev) as [pc|] eqn:Epc;
    cbn [must mbind Res_bind] in E; [|discriminate].
  destruct (cells (l_heap l) !! prevprev) as [ppc|] eqn:Eppc;
    cbn [must mbind Res_bind] in E; [|discriminate].
  destruct (val pc) as [pv|] eqn:Vpc; cbn [must mbind Res_bind] in E;
    [|discriminate].
  destruct (val ppc) as [ppv|] eqn:Vppc; cbn [must mbind Res_bind] in E;
    [|discriminate].
  pose proof (stored_value _ _ _ _ Hsprev Epc Vpc) as Hpv.
  pose proof (stored_value _ _ _ _ Hsprevprev Eppc Vppc) as Hppv.
  rewrite !clone_number_eq in E.
  destruct (opr_valid pv ppv Hpv Hppv)
    as (m1 & m2 & Eo & Hm1 & Hm2 & Em1 & Em2).
  rewrite Eo in E. cbn [must mbind Res_bind] in E.
  pose proof (update_unicode_valid _ Hm1) as Hm1u.
  pose proof (update_unicode_valid _ Hm2) as Hm2u.
  assert (Hm1p : memptr_ok (cells (l_heap l)) (update_unicode m1)).
  { unfold memptr_ok. destruct (update_unicode_fields m1) as (_ & _ & ->).
    rewrite Em1. exact I. }
  assert (Hm2p : memptr_ok (cells (l_heap l)) (update_unicode m2)).
  { unfold memptr_ok. destruct (update_unicode_fields m2) as (_ & _ & ->).
    rewrite Em2. exact I. }
  assert (Hstage : exists m' hp1 ivs,
    (if pos <? 12 then Ok (l_memory l, l_heap l, l_initial_values l)
     else
       '(m2, m, hp) ← must (update_memptr (update_unicode m2)
                                            (l_memory l) (l_heap l));
       if (pos - 12 <? 0) || (pos - 12 >=? 6) then Undef
       else Ok (m, hp, <[Z.to_nat (pos - 12) := Some m2]>
                         (l_initial_values l)))
    = Ok (m', hp1, ivs)
    /\ store_ok m' hp1 /\ store_le (l_memory l) (l_heap l) m' hp1
    /\ heap_extends (l_heap l) hp1
    /\ ivs_upto m' hp1 ivs (pos + 1)
    /\ (pos < 12 -> ivs = l_initial_values l)
    /\ (12 <= pos ->
        exists q,
          ivs = <[Z.to_nat (pos - 12)
                  := Some (set_memptr (update_unicode m2) (Some q))]>
                  (l_initial_values l))).
  { destruct (pos <? 12) eqn:E12.
    - exists (l_memory l), (l_heap l), (l_initial_values l).
      split; [reflexivity|]. split; [exact Hst|].
      split; [apply store_le_refl|].
      split; [apply heap_extends_refl|].
      split; [|split; [reflexivity | lia]].
      split; [apply Hivs|]. intros j Hj Ha. lia.
    - destruct Hm2u as (Hh2 & Hl2 & Hne2).
      assert (Em2u : memptr (update_unicode m2) = None).
      { destruct (update_unicode_fields m2) as (_ & _ & ->). exact Em2. }
      destruct (update_memptr_safe (update_unicode m2) (l_memory l)
                  (l_heap l) Hst Hh2 Hl2 Hm2p (cached_none _ _ Em2u))
        as (r & m' & hp1 & Eu & Hr & Hst1 & Hle1 & Hcell & _ & Hext1).
      rewrite Eu. cbn [must mbind Res_bind].
      replace ((pos - 12 <? 0) || (pos - 12 >=? 6)) with false by lia.
      do 3 eexists. split; [reflexivity|]. split; [exact Hst1|].
      split; [exact Hle1|]. split; [exact Hext1|].
      split; [|split; [lia | intros _; exists r; reflexivity]].
      destruct Hivs as (Hlen & Hi).
      split; [rewrite length_insert; exact Hlen|].
      intros j Hj Ha.
      destruct (Z.eq_dec (12 + Z.of_nat j) pos) as [Ej|Nj].
      + replace (Z.to_nat (pos - 12)) with j by lia.
        rewrite list_lookup_insert_eq by lia.
        eexists. split; [reflexivity|].
        apply set_memptr_reg_ok; [|exact Hr|exact Hcell].
        split; [exact Hh2 | split; assumption].
      + rewrite list_lookup_insert_ne by lia.
        destruct (Hi j Hj ltac:(lia)) as (iv & Ej & Hriv).
        exists iv. split; [exact Ej|].
        apply (reg_ok_le _ _ _ _ _ Hle1 Hriv). }
  destruct Hstage
    as (m' & hp1 & ivs & Es & Hst1 & Hle1 & Hext1 & Hivs1 & Hlow & Hhigh).
  rewrite Es in E. cbn [mbind Res_bind] in E.
  rewrite Ep in E. cbn [must mbind Res_bind] in E.
  assert (Em1u : memptr (update_unicode m1) = None).
  { destruct (update_unicode_fields m1) as (_ & _ & ->). exact Em1. }
  destruct (store_advance_frame m' hp1 p (update_unicode m1) (l_init l)
              Hst1 (reg_ok_le _ _ _ _ _ Hle1 Hreg) Ep
              (valid_value_ok _ _ _ Hm1u
                 (memptr_ok_le _ _ _ (heap_le_dom _ _ (proj1 Hle1)) Hm1p)
                 (cached_none _ _ Em1u)))
    as (hp2 & init' & m3 & hp3 & E2 & E3 & Hreg3 & Hst3 & Hle3 & Hkept
        & (cl3 & Ecl3 & V3) & Eh & Et).
  rewrite E2 in E. cbn [mbind Res_bind] in E.
  rewrite E3 in E. cbn [mbind Res_bind] in E. injection E as <-.
  cbn [l_heap l_memory l_init l_initial_values l_pos l_prev l_prevprev].
  split; [exact Hst3|]. split; [exact Hreg3|].
  split; [apply (ivs_upto_le m' _ hp1); assumption|].
  split; [exact Hpos|].
  exists p. split; [exact Ep|].
  split; [eapply memory_extends_trans; [apply Hle1 | apply Hle3]|].
  split.
  { intros q cl Hq Ecl. destruct (Hext1 q cl Ecl) as (cl1 & Ecl1 & V1).
    destruct (Hkept q cl1 Hq Ecl1) as (cl' & Ecl' & V').
    exists cl'. split; [exact Ecl' | congruence]. }
  split; [exact Eh|]. split; [exact Et|].
  split; [reflexivity|]. split; [reflexivity|].
  exists prev, prevprev, pc, ppc, pv, ppv, m1, m2, cl3.
  rewrite !clone_number_eq. auto 12.
Qed.

Lemma synth_step_safe (pos : Z) (l : Loader) :
  loader_safe l pos -> is_Some (l_prevprev l) -> 0 <= pos < 18 ->
  exists l',
    synth_step pos l = Ok l' /\ loader_safe l' (pos + 1)
    /\ is_Some (l_prevprev l').
Proof.
  intros Hl Hpp Hr.
  destruct (synth_step_full pos l Hl Hpp Hr) as (l' & E & H1 & H2 & _).
  exists l'. auto.
Qed.

Lemma synth_steps_safe (len : nat) :
  forall a l,
    loader_safe l a -> is_Some (l_prevprev l) -> 0 <= a ->
    a + Z.of_nat len <= 18 ->
    exists l', synth_steps (Zseq a len) l = Ok l'
               /\ loader_safe l' (a + Z.of_nat len).
Proof.
  induction len as [|len IH]; intros a l Hl Hs Ha0 Ha.
  - exists l. split; [reflexivity|]. rewrite Z.add_0_r. exact Hl.
  - rewrite Zseq_cons. cbn [synth_steps].
    destruct (synth_step_safe a l Hl Hs ltac:(lia)) as (l1 & -> & Hl1 & Hs1).
    cbn [mbind Res_bind].
    destruct (IH (a + 1) l1 Hl1 Hs1 ltac:(lia) ltac:(lia))
      as (l' & E & Hl').
    exists l'. split; [exact E|].
    replace (a + Z.of_nat (S len)) with (a + 1 + Z.of_nat len) by lia.
    exact Hl'.
Qed.

Lemma loader_safe_low (l : Loader) (a b : Z) :
  b <= 12 -> loader_safe l a -> loader_safe l b.
Proof.
  intros Hb (H1 & H2 & H3 & (Hlen & Hi) & H4).
  split; [exact H1|]. split; [exact H2|]. split; [exact H3|].
  split; [|exact H4].
  split; [exact Hlen|]. intros j Hj Hlt. lia.
Qed.

Lemma load_safe (program : list Z) :
  safe (fun l => store_ok (l_memory l) (l_heap l)
                 /\ ivs_ok (l_memory l) (l_heap l) (l_initial_values l))
    (load program).
Proof.
  unfold load.
  destruct loader_init_safe as (l0 & -> & Hl0 & _).
  cbn [mbind Res_bind].
  apply (safe_bind (fun l' => loader_safe l' 0));
    [apply load_chars_safe, Hl0|].
  intros l Hl. destruct (l_prevprev l) as [pp|] eqn:Epp; [|exact I].
  pose proof Hl as (_ & _ & _ & _ & Hpos).
  pose proof (rem6 (l_pos l) (proj1 Hpos)) as Hp.
  rewrite synth_loop_steps by (cbn; lia).
  destruct (synth_steps_safe (Z.to_nat (18 - Z.rem (l_pos l) 6))
              (Z.rem (l_pos l) 6) l)
    as (l' & -> & Hl'); [|rewrite Epp; eauto|lia|lia|].
  { apply (loader_safe_low l 0); [lia | exact Hl]. }
  cbn [safe].
  replace (Z.rem (l_pos l) 6 + Z.of_nat (Z.to_nat (18 - Z.rem (l_pos l) 6)))
    with 18 in Hl' by lia.
  destruct Hl' as (Hok' & Hst' & _ & (Hlen & Hi) & _).
  split; [exact Hst'|].
  split; [exact Hlen|]. intros i o Eo.
  assert (Hlt : (i < 6)%nat)
    by (apply lookup_lt_Some in Eo; rewrite Hlen in Eo; exact Eo).
  destruct (Hi i Hlt ltac:(lia)) as (iv & Eiv & Hriv).
  exists iv. split; [congruence | exact Hriv].
Qed.

(** *** [main] *)

Lemma boot_safe (cfg : Config) (program input : list Z) :
  safe machine_ok (boot cfg program input).
Proof.
  unfold boot.
  cbn [to_number Z.ltb Z.compare or_fatal mbind Res_bind].
  apply (safe_bind (fun l => store_ok (l_memory l) (l_heap l)
                             /\ ivs_ok (l_memory l) (l_heap l)
                                  (l_initial_values l)));
    [apply load_safe|].
  intros l [Hst Hivs].
  set (z := mkNumber T0 (trits_of 0) None 0).
  assert (Hz : valid_number z).
  { destruct (to_number_valid 0 z eq_refl) as [H _]. exact H. }
  pose proof Hz as (Hzh & Hzl & Hzne).
  destruct (update_memptr_safe z (l_memory l) (l_heap l) Hst Hzh Hzl I
              (cached_none _ z eq_refl))
    as (r1 & m1 & hp1 & E1 & Hr1 & Hst1 & Hle1 & Hc1 & _).
  rewrite E1. cbn [must mbind Res_bind].
  destruct (update_memptr_safe z m1 hp1 Hst1 Hzh Hzl I
              (cached_none _ z eq_refl))
    as (r2 & m2 & hp2 & E2 & Hr2 & Hst2 & Hle2 & Hc2 & _).
  rewrite E2. cbn [must mbind Res_bind safe].
  unfold machine_ok.
  cbn [memory heap reg_a reg_c reg_d initial_values pos].
  split; [exact Hst2|]. split; [exact Hz|].
  split; [apply (reg_ok_le _ _ _ _ _ Hle2), set_memptr_reg_ok; assumption|].
  split; [apply set_memptr_reg_ok; assumption|].
  split; [|lia].
  apply (ivs_ok_le (l_memory l) _ (l_heap l)); [|exact Hivs].
  eapply store_le_trans; eassumption.
Qed.

Lemma run_safe (cfg : Config) (k : nat) (program input : list Z) :
  safe machine_ok (run cfg k program input).
Proof.
  unfold run. apply (safe_bind machine_ok);
    [apply boot_safe | apply exec_steps_safe].
Qed.

(** ** [main] as a whole *)

(** X14. Memory safety of [main].  For every program file, input,
    startup parameters and number of passes of the loop, [main] uses no
    null pointer, no cell that was not allocated and no index outside
    [memory], [initial_values], [OPR] or the [xlat2] table, and the [int]
    arithmetic of [mod] does not overflow: the run is never undefined.
    Every state it reaches at the head of the loop is well formed:
    [pos] is in 0 .. 563; [a], [c] and [d] have trits in {0, 1, 2} and
    a tail of width at least 1; [c] and [d] point to allocated cells,
    those of their values; the six [initial_values] are set; every value
    held by a memory cell has trits in {0, 1, 2} and an empty tail only
    with a code point in 33 .. 126, as [xlat2] leaves it. *)
Theorem main_memory_safe (cfg : Config) (k : nat)
    (program input : list Z) :
  run cfg k program input <> Undef
  /\ forall s, run cfg k program input = Ok s ->
       machine_ok s
       /\ 0 <= pos s < 564
       /\ valid_number (reg_a s) /\ valid_number (reg_c s)
       /\ valid_number (reg_d s)
       /\ (forall i, (i < 6)%nat ->
             exists iv, initial_values s !! i = Some (Some iv)
                        /\ valid_number iv)
       /\ exec_step cfg s <> Undef.
Proof.
  pose proof (run_safe cfg k program input) as H.
  split; [apply (safe_not_undef _ _ H)|].
  intros s E. pose proof (safe_ok_inv _ _ _ H E) as Hok.
  split; [exact Hok|].
  destruct Hok as (Hst & Ha & Hc & Hd & (Hlen & Hiv) & Hp).
  split; [exact Hp|]. split; [exact Ha|]. split; [apply Hc|].
  split; [apply Hd|]. split.
  - intros i Hi.
    destruct (initial_values s !! i) as [o|] eqn:Eo;
      [|apply lookup_ge_None in Eo; lia].
    destruct (Hiv i o Eo) as (iv & -> & Hr). exists iv.
    split; [reflexivity | apply Hr].
  - apply (safe_not_undef machine_ok), exec_step_safe.
    split; [exact Hst|]. split; [exact Ha|]. split; [exact Hc|].
    split; [exact Hd|]. split; [split; assumption | exact Hp].
Qed.

(** *** How a pass of the loop can end *)

Ltac fatal_inv H :=
  repeat (cbn [mbind Res_bind must or_fatal] in H;
          match type of H with
          | Fatal _ = Fatal _ => injection H as H
          | Ok _ = Fatal _ => discriminate H
          | Undef = Fatal _ => discriminate H
          | Halt = Fatal _ => discriminate H
          | context [@mbind _ _ _ _ _ ?m] =>
              let E := fresh "E" in destruct m eqn:E; try discriminate H
          | context [match ?x with _ => _ end] =>
              first [ is_var x; destruct x
                    | let E := fresh "E" in destruct x eqn:E ];
              try discriminate H
          end).

Lemma print_utf8_fatal (u : Z) (dg : Diag) :
  print_utf8 u = Fatal dg -> dg = InvalidCodepoint.
Proof.
  unfold print_utf8. intros H.
  repeat match type of H with
         | context [if ?c then _ else _] => destruct c
         end; congruence.
Qed.

Lemma exec_out_fatal (s : Machine) (dg : Diag) :
  exec_out s = Fatal dg -> dg = InvalidCodepoint.
Proof.
  unfold exec_out. intros H.
  destruct (is_nl (reg_a s)) as [[|]|]; cbn [must mbind Res_bind] in H;
    try discriminate H.
  destruct (print_utf8 _) as [bytes|dg'| |] eqn:E; try discriminate H.
  cbn [mbind Res_bind] in H. injection H as <-.
  apply (print_utf8_fatal _ _ E).
Qed.

Lemma read_utf8_character_fatal (input : list Z) (dg : Diag) :
  read_utf8_character input = Fatal dg -> dg = InvalidUtf8.
Proof.
  unfold read_utf8_character. intros H.
  repeat match type of H with
         | context [let '(_, _) := getchar ?l in _] =>
             destruct (getchar l)
         | context [if ?c then _ else _] => destruct c
         end; congruence.
Qed.

Lemma exec_in_fatal (s : Machine) (dg : Diag) :
  Forall is_byte (stdin s) ->
  exec_in s = Fatal dg -> dg = InvalidUtf8.
Proof.
  intros Hb. unfold exec_in. intros H.
  destruct (read_utf8_character (stdin s)) as [[i rest]|dg'| |] eqn:Er;
    try discriminate H.
  - pose proof (read_utf8_character_bound _ _ _ Hb Er) as Hi.
    cbn [mbind Res_bind] in H.
    destruct (i =? -1) eqn:E1; [vm_compute in H; discriminate H|].
    destruct (i =? 10) eqn:E2; [vm_compute in H; discriminate H|].
    rewrite to_number_nonneg in H by lia.
    cbn [or_fatal mbind Res_bind] in H. discriminate H.
  - cbn [mbind Res_bind] in H. injection H as <-.
    apply (read_utf8_character_fatal _ _ Er).
Qed.

Lemma exec_movd_fatal (cfg : Config) (s : Machine) (dg : Diag) :
  machine_ok s -> exec_movd cfg s = Fatal dg -> dg = WidthExceeded.
Proof.
  intros Hok. unfold exec_movd.
  destruct (target_safe s Hok) as (v & s1 & -> & Hok1 & Hv & _).
  cbn [mbind Res_bind].
  rewrite (update_memptr_reg s1 _ v Hok1 Hv). cbn [must mbind Res_bind].
  intros H.
  unfold det_growth_policy, nondet_growth_policy in H.
  repeat match type of H with
         | context [if ?c then _ else _] => destruct c
         end; cbn [mbind Res_bind] in H; congruence.
Qed.

Lemma finish_step_fatal (s : Machine) (dg : Diag) :
  machine_ok s -> loaded (heap s) (reg_c s) ->
  finish_step s = Fatal dg -> dg = CannotXlat2.
Proof.
  intros Hok (p & cl & v & Ep & Ecl & Vcl).
  pose proof Hok as (Hst & Ha & Hc & Hd & Hiv & Hp).
  unfold finish_step, cell_val. rewrite Ep. cbn [must mbind Res_bind].
  rewrite Ecl. cbn [must mbind Res_bind]. rewrite Vcl.
  cbn [must mbind Res_bind].
  pose proof (store_vals _ _ Hst p cl v Ecl Vcl) as Hv.
  destruct (xlat2_value_ok _ _ _ Hv) as [-> | (v' & -> & Hv')];
    cbn [or_fatal mbind Res_bind]; [congruence|].
  destruct (store_val_safe (memory s) (heap s) p v' Hst ltac:(eauto) Hv')
    as (hp1 & Es & Hst1 & Hle1 & _).
  rewrite Es. cbn [mbind Res_bind].
  destruct (advance_safe (reg_c s) (memory s) hp1 Hst1
              (reg_ok_le _ _ _ _ _ Hle1 Hc))
    as (c' & m2 & hp2 & Ea & Hc' & Hst2 & Hle2).
  rewrite Ea. cbn [mbind Res_bind].
  cbn [with_pos with_c with_mem memory heap reg_d pos step].
  assert (Hle12 : store_le (memory s) (heap s) m2 hp2)
    by (eapply store_le_trans; eassumption).
  destruct (advance_safe (reg_d s) m2 hp2 Hst2
              (reg_ok_le _ _ _ _ _ Hle12 Hd))
    as (d' & m3 & hp3 & Ed & Hd' & Hst3 & Hle3).
  rewrite Ed. cbn [mbind Res_bind]. discriminate.
Qed.

Lemma exec_instr_outcome (cfg : Config) (i : Z) (s : Machine) (dg : Diag) :
  machine_ok s -> loaded (heap s) (reg_c s) -> Forall is_byte (stdin s) ->
  exec_instr cfg i s = Fatal dg ->
  (i = 5 /\ dg = InvalidCodepoint) \/ (i = 23 /\ dg = InvalidUtf8)
  \/ (i = 40 /\ dg = WidthExceeded).
Proof.
  intros Hok Hld Hb.
  destruct (Z.eq_dec i 4) as [->|N4].
  { destruct (exec_jmp_safe s Hok) as (s' & E & _).
    change (exec_instr cfg 4 s) with (exec_jmp s). rewrite E. discriminate. }
  destruct (Z.eq_dec i 5) as [->|N5].
  { intros H. left. split; [reflexivity | apply (exec_out_fatal s dg H)]. }
  destruct (Z.eq_dec i 23) as [->|N23].
  { intros H. right. left.
    split; [reflexivity | apply (exec_in_fatal s dg Hb H)]. }
  destruct (Z.eq_dec i 39) as [->|N39].
  { destruct (exec_rot_safe s Hok Hld) as (s' & E & _).
    change (exec_instr cfg 39 s) with (exec_rot s). rewrite E.
    discriminate. }
  destruct (Z.eq_dec i 40) as [->|N40].
  { intros H. right. right.
    split; [reflexivity | apply (exec_movd_fatal cfg s dg Hok H)]. }
  destruct (Z.eq_dec i 62) as [->|N62].
  { destruct (exec_opr_safe s Hok Hld) as (s' & E & _).
    change (exec_instr cfg 62 s) with (exec_opr s). rewrite E.
    discriminate. }
  destruct (Z.eq_dec i 81) as [->|N81]; [discriminate|].
  rewrite exec_instr_default by assumption. discriminate.
Qed.

Lemma exec_instr_halt (cfg : Config) (i : Z) (s : Machine) :
  machine_ok s -> loaded (heap s) (reg_c s) ->
  exec_instr cfg i s = Halt -> i = 81.
Proof.
  intros Hok Hld.
  destruct (Z.eq_dec i 4) as [->|N4].
  { destruct (exec_jmp_safe s Hok) as (s' & E & _).
    change (exec_instr cfg 4 s) with (exec_jmp s). rewrite E. discriminate. }
  destruct (Z.eq_dec i 5) as [->|N5].
  { change (exec_instr cfg 5 s) with (exec_out s). unfold exec_out.
    intros H. destruct (is_nl (reg_a s)) as [[|]|];
      cbn [must mbind Res_bind] in H; try discriminate H.
    unfold print_utf8 in H.
    repeat match type of H with
           | context [if ?c then _ else _] => destruct c
           end; discriminate H. }
  destruct (Z.eq_dec i 23) as [->|N23].
  { change (exec_instr cfg 23 s) with (exec_in s). unfold exec_in.
    intros H.
    destruct (read_utf8_character (stdin s)) as [[u rest]|dg'| |] eqn:Er;
      try discriminate H.
    - cbn [mbind Res_bind] in H.
      repeat match type of H with
             | context [if ?c then _ else _] => destruct c
             | context [to_number ?x] => destruct (to_number x)
             end; cbn in H; discriminate H.
    - exfalso. unfold read_utf8_character in Er.
      repeat match type of Er with
             | context [let '(_, _) := getchar ?l in _] =>
                 destruct (getchar l)
             | context [if ?c then _ else _] => destruct c
             end; discriminate Er. }
  destruct (Z.eq_dec i 39) as [->|N39].
  { destruct (exec_rot_safe s Hok Hld) as (s' & E & _).
    change (exec_instr cfg 39 s) with (exec_rot s). rewrite E.
    discriminate. }
  destruct (Z.eq_dec i 40) as [->|N40].
  { change (exec_instr cfg 40 s) with (exec_movd cfg s). unfold exec_movd.
    destruct (target_safe s Hok) as (v & s1 & -> & Hok1 & Hv & _).
    cbn [mbind Res_bind].
    rewrite (update_memptr_reg s1 _ v Hok1 Hv). cbn [must mbind Res_bind].
    intros H. unfold det_growth_policy, nondet_growth_policy in H.
    repeat match type of H with
           | context [if ?c then _ else _] => destruct c
           end; cbn [mbind Res_bind] in H; discriminate H. }
  destruct (Z.eq_dec i 62) as [->|N62].
  { destruct (exec_opr_safe s Hok Hld) as (s' & E & _).
    change (exec_instr cfg 62 s) with (exec_opr s). rewrite E.
    discriminate. }
  destruct (Z.eq_dec i 81) as [->|N81]; [reflexivity|].
  rewrite exec_instr_default by assumption. discriminate.
Qed.

Lemma finish_step_not_halt (s : Machine) :
  machine_ok s -> loaded (heap s) (reg_c s) -> finish_step s <> Halt.
Proof.
  intros Hok (p & cl & v & Ep & Ecl & Vcl).
  pose proof Hok as (Hst & Ha & Hc & Hd & Hiv & Hp).
  unfold finish_step, cell_val. rewrite Ep. cbn [must mbind Res_bind].
  rewrite Ecl. cbn [must mbind Res_bind]. rewrite Vcl.
  cbn [must mbind Res_bind].
  pose proof (store_vals _ _ Hst p cl v Ecl Vcl) as Hv.
  destruct (xlat2_value_ok _ _ _ Hv) as [-> | (v' & -> & Hv')];
    cbn [or_fatal mbind Res_bind]; [discriminate|].
  destruct (store_val_safe (memory s) (heap s) p v' Hst ltac:(eauto) Hv')
    as (hp1 & Es & Hst1 & Hle1 & _).
  rewrite Es. cbn [mbind Res_bind].
  destruct (advance_safe (reg_c s) (memory s) hp1 Hst1
              (reg_ok_le _ _ _ _ _ Hle1 Hc))
    as (c' & m2 & hp2 & Ea & Hc' & Hst2 & Hle2).
  rewrite Ea. cbn [mbind Res_bind].
  cbn [with_pos with_c with_mem memory heap reg_d pos step].
  assert (Hle12 : store_le (memory s) (heap s) m2 hp2)
    by (eapply store_le_trans; eassumption).
  destruct (advance_safe (reg_d s) m2 hp2 Hst2
              (reg_ok_le _ _ _ _ _ Hle12 Hd))
    as (d' & m3 & hp3 & Ed & Hd' & Hst3 & Hle3).
  rewrite Ed. cbn [mbind Res_bind]. discriminate.
Qed.

Lemma exec_instr_stdin (cfg : Config) (i : Z) (s s' : Machine) :
  exec_instr cfg i s = Ok s' ->
  exists bytes, stdin s = bytes ++ stdin s'.
Proof.
  intros H.
  assert (Hsame : stdin s' = stdin s ->
                  exists bytes, stdin s = bytes ++ stdin s')
    by (intros ->; exists []; reflexivity).
  destruct (Z.eq_dec i 4) as [->|N4].
  { change (exec_jmp s = Ok s') in H. apply exec_jmp_env in H.
    apply Hsame, H. }
  destruct (Z.eq_dec i 5) as [->|N5].
  { change (exec_out s = Ok s') in H. apply exec_out_env in H.
    apply Hsame, H. }
  destruct (Z.eq_dec i 23) as [->|N23].
  { change (exec_in s = Ok s') in H. apply exec_in_env in H.
    destruct H as (_ & _ & _ & _ & _ & _ & _ & _ & _ & H). exact H. }
  destruct (Z.eq_dec i 39) as [->|N39].
  { change (exec_rot s = Ok s') in H. apply exec_rot_env in H.
    apply Hsame, H. }
  destruct (Z.eq_dec i 40) as [->|N40].
  { change (exec_movd cfg s = Ok s') in H.
    destruct (exec_movd_cases cfg s s' H)
      as (s2 & (I1 & _) & _ & _ & _ & _ & _ & _ & Hcases).
    cbv zeta in Hcases. apply Hsame.
    destruct Hcases as [[_ ->] | [_ [(_ & rw & _ & ->)
                                    | (_ & rw & k & _ & ->)]]];
      exact I1. }
  destruct (Z.eq_dec i 62) as [->|N62].
  { change (exec_opr s = Ok s') in H. apply exec_opr_env in H.
    apply Hsame, H. }
  destruct (Z.eq_dec i 81) as [->|N81]; [discriminate H|].
  rewrite exec_instr_default in H by assumption.
  injection H as <-. exists []. reflexivity.
Qed.

Lemma exec_step_stdin (cfg : Config) (s s' : Machine) :
  exec_step cfg s = Ok s' -> exists bytes, stdin s = bytes ++ stdin s'.
Proof.
  unfold exec_step. intros H.
  destruct (fetch s) as [[u s1]| | |] eqn:Ef; try discriminate H.
  cbn [mbind Res_bind] in H.
  apply fetch_env in Ef. destruct Ef as (((F1 & _) & _) & _).
  destruct ((u <? 33) || (u >? 126)); [discriminate H|].
  destruct (exec_instr cfg _ s1) as [s2| | |] eqn:Ei; try discriminate H.
  cbn [mbind Res_bind] in H.
  destruct (exec_instr_stdin _ _ _ _ Ei) as (bytes & Eb).
  apply finish_step_env in H. destruct H as ((S1 & _) & _).
  exists bytes. congruence.
Qed.

Lemma exec_steps_stdin (cfg : Config) (k : nat) :
  forall s s', exec_steps cfg k s = Ok s' ->
               exists bytes, stdin s = bytes ++ stdin s'.
Proof.
  induction k as [|k IH]; intros s s' H; cbn [exec_steps] in H.
  - injection H as <-. exists []. reflexivity.
  - destruct (exec_step cfg s) as [s1| | |] eqn:E1; try discriminate H.
    cbn [mbind Res_bind] in H.
    destruct (exec_step_stdin _ _ _ E1) as (b1 & H1).
    destruct (IH _ _ H) as (b2 & H2).
    exists (b1 ++ b2). rewrite H1, H2, app_assoc. reflexivity.
Qed.

(** X15. How a pass of the loop can end.  In a state that [main]
    reaches at the head of its loop, with an input made of bytes, the
    next pass either completes, or is [hlt] (the code 81 of a character
    in 33 .. 126), or ends the program with one of five diagnostics:
    an invalid instruction in this step (the character at [c] is not in
    33 .. 126), invalid UTF-8 on [in], an invalid code point on [out],
    an exceeded rotation width on [movd], or a character that [xlat2]
    cannot encrypt after the instruction; [jmp], [rot], [opr] and [nop]
    themselves never end the program. *)
Theorem step_outcomes (cfg : Config) (k : nat) (program input : list Z)
    (s : Machine) :
  Forall is_byte input ->
  run cfg k program input = Ok s ->
  exists u s1,
    fetch s = Ok (u, s1)
    /\ ((exists s', exec_step cfg s = Ok s')
        \/ (exec_step cfg s = Halt
            /\ 33 <= u <= 126 /\ Z.rem (u + pos s) 94 = 81)
        \/ (exec_step cfg s = Fatal (InvalidInstruction (step s))
            /\ (u < 33 \/ 126 < u))
        \/ (exec_step cfg s = Fatal InvalidUtf8
            /\ Z.rem (u + pos s) 94 = 23)
        \/ (exec_step cfg s = Fatal InvalidCodepoint
            /\ Z.rem (u + pos s) 94 = 5)
        \/ (exec_step cfg s = Fatal WidthExceeded
            /\ Z.rem (u + pos s) 94 = 40)
        \/ exec_step cfg s = Fatal CannotXlat2).
Proof.
  intros Hb Hrun.
  pose proof (safe_ok_inv _ _ _ (run_safe cfg k program input) Hrun) as Hok.
  assert (Hbs : Forall is_byte (stdin s)).
  { unfold run in Hrun.
    destruct (boot cfg program input) as [s0| | |] eqn:Eb;
      try discriminate Hrun.
    cbn [mbind Res_bind] in Hrun.
    destruct (boot_env _ _ _ _ Eb) as (B1 & _).
    destruct (exec_steps_stdin _ _ _ _ Hrun) as (bytes & E).
    rewrite B1 in E. rewrite E in Hb. apply Forall_app in Hb. apply Hb. }
  destruct (fetch_safe s Hok) as (u & s1 & Ef & Hok1 & Hld1).
  exists u, s1. split; [exact Ef|].
  pose proof (fetch_step _ _ _ Ef) as [Est Epos].
  pose proof (fetch_env _ _ _ Ef) as (((F1 & _) & _) & _).
  unfold exec_step. rewrite Ef. cbn [mbind Res_bind].
  destruct ((u <? 33) || (u >? 126)) eqn:Eu.
  { right. right. left. rewrite Est. split; [reflexivity | lia]. }
  rewrite Epos.
  destruct (exec_instr cfg (Z.rem (u + pos s) 94) s1) as [s2|dg| |] eqn:Ei;
    cbn [mbind Res_bind].
  - pose proof (exec_instr_safe cfg (Z.rem (u + pos s) 94) s1 Hok1 Hld1) as Hs.
    rewrite Ei in Hs. destruct Hs as [Hok2 Hld2].
    destruct (finish_step s2) as [s3|dg| |] eqn:Efin.
    + left. eauto.
    + rewrite (finish_step_fatal s2 dg Hok2 Hld2 Efin). tauto.
    + exfalso. apply (finish_step_not_halt s2 Hok2 Hld2 Efin).
    + exfalso.
      apply (safe_not_undef _ _ (finish_step_safe s2 Hok2 Hld2) Efin).
  - assert (Hbs1 : Forall is_byte (stdin s1)) by (rewrite F1; exact Hbs).
    destruct (exec_instr_outcome cfg (Z.rem (u + pos s) 94) s1 dg Hok1 Hld1 Hbs1 Ei)
      as [[E ->] | [[E ->] | [E ->]]]; tauto.
  - right. left. split; [reflexivity|]. split; [lia|].
    apply (exec_instr_halt cfg (Z.rem (u + pos s) 94) s1 Hok1 Hld1 Ei).
  - exfalso.
    apply (safe_not_undef _ _ (exec_instr_safe cfg (Z.rem (u + pos s) 94) s1 Hok1 Hld1) Ei).
Qed.

Lemma step_outcomes_witness :
  Forall is_byte [10]
  /\ exists s u s1,
       run example_config 1 [117; 38] [10] = Ok s
       /\ fetch s = Ok (u, s1).
Proof.
  split; [repeat constructor; unfold is_byte; lia|].
  assert (R : exists s, run example_config 1 [117; 38] [10] = Ok s)
    by (eexists; vm_compute; reflexivity).
  destruct R as (s & Hr).
  destruct (step_outcomes example_config 1 [117; 38] [10] s
              ltac:(repeat constructor; unfold is_byte; lia) Hr)
    as (u & s1 & Ef & _).
  exists s, u, s1. split; [exact Hr | exact Ef].
Defined.

(** ** Cells and values *)

Lemma nth_app_repeat (rep : list Z) (h : Z) (k i : nat) :
  nth i (rep ++ repeat h k) h = nth i rep h.
Proof.
  destruct (Nat.lt_ge_cases i (length rep)) as [L|G].
  - apply app_nth1, L.
  - rewrite app_nth2 by exact G. rewrite nth_repeat.
    symmetry. apply nth_overflow, G.
Qed.

(** The cell [update_memptr] finds for a number, in a well-formed
    store. *)
Lemma update_memptr_cell (n : Number) (m : list MemoryTree) (hp : Heap) :
  store_ok m hp ->
  is_trit (head n) -> Forall is_trit (tail n) -> memptr n = None ->
  exists r m' hp' root nd,
    update_memptr n m hp = Some (set_memptr n (Some r), m', hp')
    /\ store_ok m' hp' /\ memory_extends m m'
    /\ m' !! Z.to_nat (head n) = Some root
    /\ node_at root (tail n) = Some nd /\ cell nd = r.
Proof.
  intros Hst Hh Hl Hn.
  destruct (update_memptr_safe n m hp Hst Hh Hl
              ltac:(unfold memptr_ok; rewrite Hn; exact I)
              (cached_none _ _ Hn))
    as (r & m' & hp' & E & _ & Hst' & _).
  destruct (update_memptr_walk n m hp (proj1 Hst) Hh Hl Hn)
    as (r0 & m0 & hp0 & E0 & _ & Hext & root & nd & Hr & Hp & Ec).
  rewrite E in E0. injection E0 as <- <- <-.
  exists r, m', hp', root, nd. auto 10.
Qed.

(** X16. Cells stand for values.  In a state that [main] reaches, let
    [update_memptr] look up a number [n1] and then a number [n2], both
    with trits in {0, 1, 2} and no cached pointer.  Both lookups
    succeed, and they return the same cell exactly when the two numbers
    are equal as values: representations of one value of different
    widths share a cell, and different values never do. *)
Theorem same_cell_iff_same_value (cfg : Config) (k : nat)
    (program input : list Z) (s : Machine) (n1 n2 : Number) :
  run cfg k program input = Ok s ->
  is_trit (head n1) -> Forall is_trit (tail n1) -> memptr n1 = None ->
  is_trit (head n2) -> Forall is_trit (tail n2) -> memptr n2 = None ->
  exists r1 m1 hp1 r2 m2 hp2,
    update_memptr n1 (memory s) (heap s)
    = Some (set_memptr n1 (Some r1), m1, hp1)
    /\ update_memptr n2 m1 hp1 = Some (set_memptr n2 (Some r2), m2, hp2)
    /\ (r1 = r2 <-> value_equal n1 n2).
Proof.
  intros Hrun Hh1 Hl1 Hn1 Hh2 Hl2 Hn2.
  pose proof (safe_ok_inv _ _ _ (run_safe cfg k program input) Hrun)
    as (Hst & _).
  destruct (update_memptr_cell n1 _ _ Hst Hh1 Hl1 Hn1)
    as (r1 & m1 & hp1 & root1 & nd1 & E1 & Hst1 & Hext1 & Hr1 & Hp1 & Ec1).
  destruct (update_memptr_cell n2 _ _ Hst1 Hh2 Hl2 Hn2)
    as (r2 & m2 & hp2 & root2 & nd2 & E2 & Hst2 & Hext2 & Hr2 & Hp2 & Ec2).
  exists r1, m1, hp1, r2, m2, hp2.
  split; [exact E1|]. split; [exact E2|].
  destruct (Hext2 _ _ _ _ Hr1 Hp1) as (root1' & nd1' & Hr1' & Hp1' & Ec1').
  pose proof Hst2 as (Hok2 & _ & _ & _ & Hown2 & _).
  split.
  - intros Er.
    destruct (owned_injective m2 _ _ _ _ _ _ _ _ Hown2 Hr1' Hr2 Hp1' Hp2
                ltac:(congruence))
      as (Ei & rep & k1 & k2 & Et1 & Et2).
    assert (Eh : head n1 = head n2)
      by (unfold is_trit in Hh1, Hh2; lia).
    split; [exact Eh|]. intros i. unfold trit_at.
    rewrite Z2Nat.id in Et1, Et2 by (unfold is_trit in Hh1; lia).
    rewrite Et1, Et2, <- Eh, !nth_app_repeat. reflexivity.
  - intros [Eh Et].
    assert (Hinv : shares_head_cells (head n1) root2).
    { destruct Hok2 as [_ H]. specialize (H _ _ Hr2). rewrite <- Eh in H.
      rewrite Z2Nat.id in H by (unfold is_trit in Hh1; lia). exact H. }
    assert (Hinv1 : shares_head_cells (head n1) root1').
    { destruct Hok2 as [_ H]. specialize (H _ _ Hr1').
      rewrite Z2Nat.id in H by (unfold is_trit in Hh1; lia). exact H. }
    rewrite <- Eh in Hr2. rewrite Hr2 in Hr1'. injection Hr1' as <-.
    assert (Et' : forall i, nth i (tail n1) (head n1)
                            = nth i (tail n2) (head n1)).
    { intros i. specialize (Et i). unfold trit_at in Et.
      rewrite <- Eh in Et. exact Et. }
    destruct (equal_tails_padding _ _ _ Et') as [j [E | E]].
    + rewrite E in Hp1'.
      destruct (node_at_head_suffix _ _ _ _ Hinv nd1' Hp1')
        as (nd0 & Hp0 & Ec0).
      rewrite Hp2 in Hp0. injection Hp0 as <-. congruence.
    + rewrite E in Hp2.
      destruct (node_at_head_suffix _ _ _ _ Hinv nd2 Hp2)
        as (nd0 & Hp0 & Ec0).
      rewrite Hp1' in Hp0. injection Hp0 as <-. congruence.
Qed.

Lemma same_cell_iff_same_value_witness :
  exists s r1 m1 hp1 r2 m2 hp2,
    run example_config 1 [117; 38] [10] = Ok s
    /\ update_memptr (mkNumber 0 [1; 2] None 7) (memory s) (heap s)
       = Some (mkNumber 0 [1; 2] (Some r1) 7, m1, hp1)
    /\ update_memptr (mkNumber 0 [1; 2; 0] None 7) m1 hp1
       = Some (mkNumber 0 [1; 2; 0] (Some r2) 7, m2, hp2)
    /\ r1 = r2.
Proof.
  assert (R : exists s, run example_config 1 [117; 38] [10] = Ok s)
    by (eexists; vm_compute; reflexivity).
  destruct R as (s & Hr).
  assert (T : forall l, l = [1; 2] \/ l = [1; 2; 0] -> Forall is_trit l).
  { intros l [-> | ->]; repeat constructor; unfold is_trit; lia. }
  destruct (same_cell_iff_same_value example_config 1 [117; 38] [10] s
              (mkNumber 0 [1; 2] None 7) (mkNumber 0 [1; 2; 0] None 7) Hr)
    as (r1 & m1 & hp1 & r2 & m2 & hp2 & E1 & E2 & Hiff);
    try (unfold is_trit; cbn; lia); try reflexivity;
    try (apply T; auto).
  exists s, r1, m1, hp1, r2, m2, hp2.
  split; [exact Hr|]. split; [exact E1|]. split; [exact E2|].
  apply Hiff. split; [reflexivity|].
  intros [|[|[|[|i]]]]; reflexivity.
Defined.
(** ** The cached cell pointers *)

Lemma kept_cached (s : Machine) (n : Number) :
  machine_ok s -> kept s n ->
  is_trit (head n) /\ Forall is_trit (tail n)
  /\ memptr_ok (cells (heap s)) n /\ cached (memory s) n.
Proof.
  intros (Hst & Ha & Hc & Hd & Hiv & Hp) Hk.
  assert (Hreg : forall x, reg_ok (memory s) (heap s) x ->
             is_trit (head x) /\ Forall is_trit (tail x)
             /\ memptr_ok (cells (heap s)) x /\ cached (memory s) x).
  { intros x Hx. pose proof (reg_value_ok _ _ _ Hx) as (H1 & H2 & H3 & _).
    pose proof (reg_cached _ _ _ Hx). auto. }
  destruct Hk as [-> | [-> | [[i Ei] | (q & cl & Ecl & V & Hne)]]].
  - apply Hreg, Hc.
  - apply Hreg, Hd.
  - destruct Hiv as [_ Hi]. destruct (Hi i _ Ei) as (iv & [= <-] & Hr).
    apply Hreg, Hr.
  - destruct (store_vals _ _ Hst q cl n Ecl V) as (H1 & H2 & H3 & _ & H5).
    auto.
Qed.

(** X17. The cached cell pointers are right.  In a state that [main]
    reaches, take a number the state keeps with a cell pointer: the
    register [c] or [d], an initial value, or the value of width at
    least 1 of a cell.  Its pointer leads to an allocated cell, and
    [update_memptr] on the number without the pointer succeeds and
    finds that same cell: the early return of [update_memptr] and the
    step along [next] in [increment] never change which cell is used. *)
Theorem cached_pointer_right (cfg : Config) (k : nat)
    (program input : list Z) (s : Machine) (n : Number) (p : positive) :
  run cfg k program input = Ok s ->
  kept s n -> memptr n = Some p ->
  is_Some (cells (heap s) !! p)
  /\ exists m' hp',
       update_memptr (set_memptr n None) (memory s) (heap s)
       = Some (n, m', hp').
Proof.
  intros Hrun Hk Ep.
  pose proof (safe_ok_inv _ _ _ (run_safe cfg k program input) Hrun) as Hok.
  destruct (kept_cached s n Hok Hk) as (Hh & Hl & Hm & Hc).
  pose proof Hok as (Hst & _).
  split; [unfold memptr_ok in Hm; rewrite Ep in Hm; exact Hm|].
  destruct (update_memptr_safe (set_memptr n None) (memory s) (heap s)
              Hst Hh Hl I (cached_none _ (set_memptr n None) eq_refl))
    as (r & m' & hp' & E & _ & Hst' & Hle & Hcell & _).
  exists m', hp'. rewrite E.
  assert (Hp : cell_of m' n p)
    by (apply (cell_of_extends _ _ _ _ (proj2 Hle)), Hc, Ep).
  assert (Hr : cell_of m' n r).
  { apply (cell_of_value m' (set_memptr n None)); [|exact Hcell].
    apply value_equal_fields; reflexivity. }
  rewrite (cell_of_unique m' n r p (proj1 Hst') Hr Hp).
  destruct n as [h t mp u]. cbn [memptr] in Ep. subst mp. reflexivity.
Qed.

Lemma cached_pointer_right_witness :
  exists s p m' hp',
    run example_config 1 [117; 38] [10] = Ok s
    /\ memptr (reg_c s) = Some p
    /\ update_memptr (set_memptr (reg_c s) None) (memory s) (heap s)
       = Some (reg_c s, m', hp').
Proof.
  assert (R : exists s p, run example_config 1 [117; 38] [10] = Ok s
                          /\ memptr (reg_c s) = Some p)
    by (do 2 eexists; split; vm_compute; reflexivity).
  destruct R as (s & p & Hr & Hp).
  destruct (cached_pointer_right example_config 1 [117; 38] [10] s
              (reg_c s) p Hr (or_introl eq_refl) Hp)
    as (_ & m' & hp' & E).
  exists s, p, m', hp'. auto.
Defined.
(** ** The program in memory *)

Lemma value_of_app_zeros (l : list Z) (k : nat) :
  value_of (l ++ repeat 0 k) = value_of l.
Proof.
  induction l as [|t r IH]; cbn [app value_of].
  - induction k as [|k IHk]; cbn [repeat value_of]; lia.
  - rewrite IH. reflexivity.
Qed.

Lemma value_equal_value_of (n n' : Number) :
  value_equal n n' -> head n = 0 ->
  value_of (tail n) = value_of (tail n').
Proof.
  intros [Eh Et] Hh.
  assert (H : forall i, nth i (tail n) 0 = nth i (tail n') 0).
  { intros i. specialize (Et i). unfold trit_at in Et.
    rewrite <- Eh, Hh in Et. exact Et. }
  destruct (equal_tails_padding 0 _ _ H) as [k [E | E]];
    rewrite E, value_of_app_zeros; reflexivity.
Qed.

(** The trits of a list are the ternary digits of its value. *)
Lemma nth_value_of (l : list Z) :
  Forall is_trit l ->
  forall i, nth i l 0 = (value_of l / 3 ^ Z.of_nat i) mod 3.
Proof.
  induction 1 as [|t r Ht Hr IH]; intros i.
  - cbn [value_of]. rewrite Zdiv_0_l. destruct i; reflexivity.
  - unfold is_trit in Ht. destruct i as [|i]; cbn [nth value_of].
    + change (3 ^ Z.of_nat 0) with 1. rewrite Z.div_1_r.
      replace (t + 3 * value_of r) with (t + value_of r * 3) by lia.
      rewrite Z.mod_add by lia. symmetry. apply Z.mod_small. lia.
    + rewrite IH, Nat2Z.inj_succ, Z.pow_succ_r by lia.
      assert (Hp : 0 < 3 ^ Z.of_nat i) by (apply Z.pow_pos_nonneg; lia).
      rewrite <- Z.div_div by lia.
      replace (t + 3 * value_of r) with (value_of r * 3 + t) by lia.
      rewrite Z.div_add_l by lia.
      rewrite (Z.div_small t 3) by lia. rewrite Z.add_0_r. reflexivity.
Qed.

Lemma value_of_value_equal (n n' : Number) :
  head n = 0 -> head n' = 0 ->
  Forall is_trit (tail n) -> Forall is_trit (tail n') ->
  value_of (tail n) = value_of (tail n') -> value_equal n n'.
Proof.
  intros Hh Hh' Hl Hl' E. split; [congruence|]. intros i. unfold trit_at.
  rewrite Hh, Hh', !nth_value_of, E by assumption. reflexivity.
Qed.

Lemma holds_chars_le (m m' : list MemoryTree) (hp hp' : Heap)
    (chars : list Z) :
  memory_extends m m' -> heap_extends hp hp' ->
  holds_chars m hp chars -> holds_chars m' hp' chars.
Proof.
  intros Hm Hh H i c Ei.
  destruct (H i c Ei) as (Hr & n & v & p & cl & En & Ev & Hc & Ecl & V).
  destruct (Hh p cl Ecl) as (cl' & Ecl' & V').
  split; [exact Hr|].
  exists n, v, p, cl'. split; [exact En|]. split; [exact Ev|].
  split; [apply (cell_of_extends _ _ _ _ Hm Hc)|].
  split; [exact Ecl' | congruence].
Qed.

(** A store to the cell of [init] leaves the characters below its
    address where they are. *)
Lemma holds_chars_frame (m m' : list MemoryTree) (hp hp' : Heap)
    (chars : list Z) (init : Number) (p : positive) :
  owned m -> cell_of m init p -> head init = 0 ->
  Z.of_nat (length chars) <= value_of (tail init) ->
  memory_extends m m' -> kept_but hp hp' p ->
  holds_chars m hp chars -> holds_chars m' hp' chars.
Proof.
  intros Hown Hc Hh Hlen Hm Hk H i c Ei.
  destruct (H i c Ei) as (Hr & n & v & q & cl & En & Ev & Hq & Ecl & V).
  assert (Hne : q <> p).
  { intros ->.
    pose proof (cell_of_injective m n init p Hown Hq Hc) as Heq.
    destruct (to_number_valid _ _ En) as (_ & Hn0 & Hnv).
    pose proof (value_equal_value_of n init Heq Hn0) as E.
    apply lookup_lt_Some in Ei. lia. }
  destruct (Hk q cl Hne Ecl) as (cl' & Ecl' & V').
  split; [exact Hr|].
  exists n, v, q, cl'. split; [exact En|]. split; [exact Ev|].
  split; [apply (cell_of_extends _ _ _ _ Hm Hq)|].
  split; [exact Ecl' | congruence].
Qed.

Lemma holds_chars_snoc (m : list MemoryTree) (hp : Heap) (chars : list Z)
    (init : Number) (p : positive) (c : Z) (v : Number) (cl : MemCell) :
  holds_chars m hp chars -> cell_of m init p -> head init = 0 ->
  Forall is_trit (tail init) ->
  value_of (tail init) = Z.of_nat (length chars) ->
  33 <= c <= 126 ->
  to_number c = Some v -> cells hp !! p = Some cl -> val cl = Some v ->
  holds_chars m hp (chars ++ [c]).
Proof.
  intros H Hc Hh Hl Hv Hr Ev Ecl V i c' Ei.
  destruct (decide (i < length chars)%nat) as [L|G].
  - rewrite lookup_app_l in Ei by exact L. apply (H i c' Ei).
  - pose proof (lookup_lt_Some _ _ _ Ei) as Hi.
    rewrite length_app in Hi. cbn [length] in Hi.
    assert (i = length chars) by lia. subst i.
    rewrite lookup_app_r, Nat.sub_diag in Ei by lia.
    cbn in Ei. injection Ei as <-.
    destruct (to_number (Z.of_nat (length chars))) as [n|] eqn:En.
    2:{ unfold to_number in En.
        destruct (Z.of_nat (length chars) <? 0) eqn:X;
          [lia | discriminate]. }
    destruct (to_number_valid _ _ En) as ((Hnh & Hnl & _) & Hn0 & Hnv).
    split; [exact Hr|].
    exists n, v, p, cl. split; [reflexivity|]. split; [exact Ev|].
    split; [|auto].
    apply (cell_of_value m init n); [|exact Hc].
    apply value_of_value_equal; try assumption. lia.
Qed.

(** A character that is read goes to the cell of [init]; the other cells
    keep their values and [init] moves on. *)
Lemma load_char_frame (v : Z) (l l' : Loader) (a : Z) :
  loader_safe l a -> load_char v l = Ok l' -> is_blank v = false ->
  exists p nv,
    33 <= v <= 126
    /\ memptr (l_init l) = Some p /\ to_number v = Some nv
    /\ memory_extends (l_memory l) (l_memory l')
    /\ kept_but (l_heap l) (l_heap l') p
    /\ (exists cl, cells (l_heap l') !! p = Some cl /\ val cl = Some nv)
    /\ head (l_init l')
       = fst (increment_result (head (l_init l)) (tail (l_init l)))
    /\ tail (l_init l')
       = snd (increment_result (head (l_init l)) (tail (l_init l))).
Proof.
  intros (Hl & Hst & Hreg & Hivs & Hpos) E Hb.
  pose proof Hreg as (Hiv & p & Ep & Hp & Hcp).
  unfold load_char in E. rewrite Hb in E.
  destruct ((v >=? 33) && (v <? 127)) eqn:Hr; [|discriminate].
  destruct (is_instr (Z.rem (v + l_pos l) 94)); [|discriminate].
  cbn [andb] in E.
  rewrite Ep in E. cbn [must mbind Res_bind] in E.
  destruct (to_number v) as [n|] eqn:En;
    cbn [or_fatal mbind Res_bind] in E; [|discriminate].
  destruct (to_number_valid v n En) as [Hn _].
  assert (Hnp : memptr n = None).
  { unfold to_number in En. destruct (v <? 0); [discriminate|].
    injection En as <-. reflexivity. }
  destruct (store_advance_frame (l_memory l) (l_heap l) p n (l_init l)
              Hst Hreg Ep
              (valid_value_ok _ _ _ Hn
                 ltac:(unfold memptr_ok; rewrite Hnp; exact I)
                 (cached_none _ _ Hnp)))
    as (hp1 & init' & m' & hp' & E1 & E2 & _ & _ & Hle & Hkept & Hcl
        & Eh & Et).
  rewrite E1 in E. cbn [mbind Res_bind] in E.
  rewrite E2 in E. cbn [mbind Res_bind] in E. injection E as <-.
  exists p, n. cbn [l_memory l_heap l_init].
  split; [lia|].
  split; [exact Ep|]. split; [reflexivity|]. split; [apply Hle|]. auto.
Qed.

Lemma load_char_holds (v : Z) (l l' : Loader) (chars : list Z) :
  loader_safe l 0 -> head (l_init l) = 0 ->
  value_of (tail (l_init l)) = Z.of_nat (length chars) ->
  holds_chars (l_memory l) (l_heap l) chars ->
  load_char v l = Ok l' ->
  loader_safe l' 0 /\ head (l_init l') = 0
  /\ value_of (tail (l_init l'))
     = Z.of_nat (length (chars ++ if is_blank v then [] else [v]))
  /\ holds_chars (l_memory l') (l_heap l')
       (chars ++ if is_blank v then [] else [v]).
Proof.
  intros Hs Hh Hv Hc E.
  pose proof (safe_ok_inv _ _ _ (load_char_safe v l 0 Hs) E) as Hs'.
  split; [exact Hs'|].
  destruct (is_blank v) eqn:Hb.
  - unfold load_char in E. rewrite Hb in E. injection E as <-.
    rewrite app_nil_r. auto.
  - destruct (load_char_frame v l l' 0 Hs E Hb)
      as (p & nv & Hr & Ep & En & Hm & Hk & (cl & Ecl & V) & Eh & Et).
    pose proof Hs as (_ & Hst & ((_ & Hl & _) & p0 & Ep0 & _ & Hcp) & _).
    rewrite Ep in Ep0. injection Ep0 as <-.
    rewrite Hh in Eh, Et.
    destruct (increment_result_zero_head (tail (l_init l)) Hl) as [F1 F2].
    rewrite F1 in Eh.
    split; [exact Eh|]. split.
    + rewrite Et, F2, length_app. cbn [length]. lia.
    + apply (holds_chars_snoc _ _ _ (l_init l) p v nv cl); try assumption.
      * apply (holds_chars_frame (l_memory l) _ (l_heap l) _ chars
                 (l_init l) p); try assumption; [apply Hst | lia].
      * apply (cell_of_extends _ _ _ _ Hm Hcp).
Qed.

Lemma program_chars_cons (b : Z) (rest : list Z) :
  program_chars (b :: rest)
  = (if is_blank (char_of_byte b) then [] else [char_of_byte b])
    ++ program_chars rest.
Proof.
  unfold program_chars. cbn [map List.filter].
  destruct (is_blank (char_of_byte b)); reflexivity.
Qed.

Lemma load_chars_holds (program : list Z) :
  forall l l' chars,
    loader_safe l 0 -> head (l_init l) = 0 ->
    value_of (tail (l_init l)) = Z.of_nat (length chars) ->
    holds_chars (l_memory l) (l_heap l) chars ->
    load_chars program l = Ok l' ->
    loader_safe l' 0 /\ head (l_init l') = 0
    /\ value_of (tail (l_init l'))
       = Z.of_nat (length (chars ++ program_chars program))
    /\ holds_chars (l_memory l') (l_heap l')
         (chars ++ program_chars program).
Proof.
  induction program as [|b rest IH]; intros l l' chars Hs Hh Hv Hc E.
  - cbn [load_chars] in E. injection E as <-.
    unfold program_chars. cbn [map List.filter]. rewrite app_nil_r. auto.
  - cbn [load_chars] in E.
    destruct (load_char (char_of_byte b) l) as [l1|dg| |] eqn:E1;
      cbn [mbind Res_bind] in E; try discriminate.
    destruct (load_char_holds _ _ _ chars Hs Hh Hv Hc E1)
      as (Hs1 & Hh1 & Hv1 & Hc1).
    rewrite program_chars_cons, app_assoc.
    apply (IH l1 l' _ Hs1 Hh1 Hv1 Hc1 E).
Qed.

Lemma synth_steps_holds (len : nat) :
  forall a l l' chars,
    loader_safe l a -> is_Some (l_prevprev l) -> 0 <= a ->
    a + Z.of_nat len <= 18 ->
    head (l_init l) = 0 ->
    Z.of_nat (length chars) <= value_of (tail (l_init l)) ->
    holds_chars (l_memory l) (l_heap l) chars ->
    synth_steps (Zseq a len) l = Ok l' ->
    holds_chars (l_memory l') (l_heap l') chars.
Proof.
  induction len as [|len IH]; intros a l l' chars Hs Hpp Ha0 Ha Hh Hv Hc E.
  - cbn in E. injection E as <-. exact Hc.
  - rewrite Zseq_cons in E. cbn [synth_steps] in E.
    destruct (synth_step_full a l Hs Hpp ltac:(lia))
      as (l1 & E1 & Hs1 & Hpp1 & p & Ep & Hm & Hk & Eh & Et & _).
    rewrite E1 in E. cbn [mbind Res_bind] in E.
    pose proof Hs as (_ & Hst & ((_ & Hl & _) & p0 & Ep0 & _ & Hcp) & _).
    rewrite Ep in Ep0. injection Ep0 as <-.
    rewrite Hh in Eh, Et.
    destruct (increment_result_zero_head _ Hl) as [F1 F2].
    apply (IH (a + 1) l1 l' chars Hs1 Hpp1);
      [lia | lia | congruence | rewrite Et, F2; lia | | exact E].
    apply (holds_chars_frame (l_memory l) _ (l_heap l) _ chars
               (l_init l) p); try assumption. apply Hst.
Qed.

Lemma load_holds (program : list Z) (l : Loader) :
  load program = Ok l ->
  holds_chars (l_memory l) (l_heap l) (program_chars program).
Proof.
  intros E. unfold load in E.
  destruct loader_init_safe as (l0 & E0 & Hl0 & _ & _ & Hh0 & Ht0).
  rewrite E0 in E. cbn [mbind Res_bind] in E.
  destruct (load_chars program l0) as [l1|dg| |] eqn:E1;
    cbn [mbind Res_bind] in E; try discriminate.
  destruct (load_chars_holds program l0 l1 [] Hl0 Hh0)
    as (Hs1 & Hh1 & Hv1 & Hc1); [| |exact E1|].
  { rewrite Ht0. reflexivity. }
  { intros i c Ei. rewrite lookup_nil in Ei. discriminate. }
  cbn [app] in Hv1, Hc1.
  destruct (l_prevprev l1) as [pp|] eqn:Epp; [|discriminate].
  pose proof Hs1 as (_ & _ & _ & _ & Hpos).
  pose proof (rem6 (l_pos l1) (proj1 Hpos)) as Hp.
  rewrite synth_loop_steps in E by (cbn; lia).
  apply (synth_steps_holds (Z.to_nat (18 - Z.rem (l_pos l1) 6))
           (Z.rem (l_pos l1) 6) l1 l); try assumption; try lia.
  - apply (loader_safe_low l1 0); [lia | exact Hs1].
  - rewrite Epp. eauto.
Qed.

(** The characters of the program are in memory when the loop is
    entered. *)
Lemma program_loaded_cells (cfg : Config) (program input : list Z)
    (s : Machine) :
  boot cfg program input = Ok s ->
  holds_chars (memory s) (heap s) (program_chars program).
Proof.
  intros E. unfold boot in E.
  cbn [to_number Z.ltb Z.compare or_fatal mbind Res_bind] in E.
  destruct (load program) as [l|dg| |] eqn:El;
    cbn [mbind Res_bind] in E; try discriminate.
  pose proof (safe_ok_inv _ _ _ (load_safe program) El) as [Hstl _].
  pose proof (load_holds program l El) as Hcl.
  set (z := mkNumber T0 (trits_of 0) None 0) in E.
  assert (Hz : valid_number z).
  { destruct (to_number_valid 0 z eq_refl) as [H _]. exact H. }
  pose proof Hz as (Hzh & Hzl & Hzne).
  destruct (update_memptr_safe z (l_memory l) (l_heap l) Hstl Hzh Hzl I
              (cached_none _ z eq_refl))
    as (r1 & m1 & hp1 & E1 & _ & Hst1 & Hle1 & _ & _ & Hext1).
  rewrite E1 in E. cbn [must mbind Res_bind] in E.
  destruct (update_memptr_safe z m1 hp1 Hst1 Hzh Hzl I
              (cached_none _ z eq_refl))
    as (r2 & m2 & hp2 & E2 & _ & _ & Hle2 & _ & _ & Hext2).
  rewrite E2 in E. cbn [must mbind Res_bind] in E. injection E as <-.
  cbn [memory heap].
  apply (holds_chars_le m1 _ hp1); [apply Hle2 | exact Hext2|].
  apply (holds_chars_le (l_memory l) _ (l_heap l));
    [apply Hle1 | exact Hext1 | exact Hcl].
Qed.

(** X18. The program in memory.  When [main] enters its loop, the
    characters of the program file that are not blanks are in memory in
    the order of the file, from the address 0 on: the character [c] at
    the index [i] among them is in 33 .. 126, [update_memptr] on the
    number [to_number(i)] finds a cell of the heap, and this cell holds
    the number [to_number(c)].  The synthetic steps that follow the
    program write behind it and leave it as it is. *)
Theorem program_loaded (cfg : Config) (program input : list Z)
    (s : Machine) (i : nat) (c : Z) :
  boot cfg program input = Ok s ->
  program_chars program !! i = Some c ->
  33 <= c <= 126
  /\ exists n v p cl m' hp',
       to_number (Z.of_nat i) = Some n /\ to_number c = Some v
       /\ update_memptr n (memory s) (heap s)
          = Some (set_memptr n (Some p), m', hp')
       /\ cells (heap s) !! p = Some cl /\ val cl = Some v.
Proof.
  intros E Ei.
  pose proof (safe_ok_inv _ _ _ (boot_safe cfg program input) E)
    as (Hst & _).
  pose proof (program_loaded_cells cfg program input s E) as Hc.
  destruct (Hc i c Ei)
    as (Hrange & n & v & p & cl & En & Ev & Hcell & Ecl & V).
  split; [exact Hrange|].
  destruct (to_number_valid _ _ En) as ((Hnh & Hnl & _) & _).
  assert (Hnp : memptr n = None).
  { unfold to_number in En. destruct (Z.of_nat i <? 0); [discriminate|].
    injection En as <-. reflexivity. }
  destruct (update_memptr_safe n (memory s) (heap s) Hst Hnh Hnl
              ltac:(unfold memptr_ok; rewrite Hnp; exact I)
              (cached_none _ _ Hnp))
    as (r & m' & hp' & Eu & _ & Hst' & Hle & Hr & _).
  assert (Erp : r = p).
  { apply (cell_of_unique m' n r p (proj1 Hst') Hr).
    apply (cell_of_extends _ _ _ _ (proj2 Hle) Hcell). }
  subst r. exists n, v, p, cl, m', hp'. auto 10.
Qed.

Lemma program_loaded_witness :
  exists s n v p cl m' hp',
    boot example_config [117; 38] [10] = Ok s
    /\ to_number 0 = Some n /\ to_number 117 = Some v
    /\ update_memptr n (memory s) (heap s)
       = Some (set_memptr n (Some p), m', hp')
    /\ cells (heap s) !! p = Some cl /\ val cl = Some v.
Proof.
  assert (R : exists s, boot example_config [117; 38] [10] = Ok s)
    by (eexists; vm_compute; reflexivity).
  destruct R as (s & Hs).
  destruct (program_loaded example_config [117; 38] [10] s 0%nat 117 Hs
              eq_refl)
    as (_ & n & v & p & cl & m' & hp' & H).
  exists s, n, v, p, cl, m', hp'. split; [exact Hs | exact H].
Defined.
(** ** The first pass of the loop *)

(** Storing the value a cell holds leaves the heap as it is. *)
Lemma store_val_same (hp : Heap) (p : positive) (cl : MemCell) (v : Number) :
  cells hp !! p = Some cl -> val cl = Some v -> store_val hp p v = Ok hp.
Proof.
  intros E V. unfold store_val. rewrite E. cbn [must mbind Res_bind].
  assert (Ecl : mkMemCell (Some v) (next cl) = cl)
    by (destruct cl; cbn in V |- *; congruence).
  rewrite Ecl, insert_id by exact E. destruct hp; reflexivity.
Qed.

(** The state in which the loop is entered. *)
Lemma boot_state (cfg : Config) (program input : list Z) (s : Machine) :
  boot cfg program input = Ok s ->
  pos s = 0 /\ step s = 1 /\ stdin s = input /\ stdout s = []
  /\ exists r,
       reg_c s = set_memptr (mkNumber T0 (trits_of 0) None 0) (Some r)
       /\ reg_d s = set_memptr (mkNumber T0 (trits_of 0) None 0) (Some r)
       /\ cell_of (memory s) (mkNumber T0 (trits_of 0) None 0) r.
Proof.
  intros E. unfold boot in E.
  cbn [to_number Z.ltb Z.compare or_fatal mbind Res_bind] in E.
  destruct (load program) as [l|dg| |] eqn:El;
    cbn [mbind Res_bind] in E; try discriminate.
  pose proof (safe_ok_inv _ _ _ (load_safe program) El) as [Hstl _].
  set (z := mkNumber T0 (trits_of 0) None 0) in *.
  assert (Hz : valid_number z).
  { destruct (to_number_valid 0 z eq_refl) as [H _]. exact H. }
  pose proof Hz as (Hzh & Hzl & Hzne).
  destruct (update_memptr_safe z (l_memory l) (l_heap l) Hstl Hzh Hzl I
              (cached_none _ z eq_refl))
    as (r1 & m1 & hp1 & E1 & _ & Hst1 & Hle1 & Hc1 & _).
  rewrite E1 in E. cbn [must mbind Res_bind] in E.
  destruct (update_memptr_safe z m1 hp1 Hst1 Hzh Hzl I
              (cached_none _ z eq_refl))
    as (r2 & m2 & hp2 & E2 & _ & Hst2 & Hle2 & Hc2 & _).
  rewrite E2 in E. cbn [must mbind Res_bind] in E. injection E as <-.
  cbn [pos step stdin stdout reg_c reg_d memory].
  split; [reflexivity|]. split; [reflexivity|]. split; [reflexivity|].
  split; [reflexivity|].
  exists r2.
  assert (E12 : r1 = r2).
  { apply (cell_of_unique m2 z r1 r2 (proj1 Hst2)); [|exact Hc2].
    apply (cell_of_extends _ _ _ _ (proj2 Hle2) Hc1). }
  rewrite E12. auto.
Qed.

(** A file that the loader takes has an instruction at its first
    place. *)
Lemma accepted_first (program : list Z) (k c : Z) :
  accepted program 0 = Some k ->
  program_chars program !! 0%nat = Some c ->
  33 <= c <= 126 /\ is_instr (c mod 94) = true.
Proof.
  unfold program_chars.
  induction program as [|b rest IH]; cbn [accepted map List.filter];
    [discriminate 2|].
  destruct (is_blank (char_of_byte b)); cbn [negb]; [exact IH|].
  destruct ((33 <=? char_of_byte b) && (char_of_byte b <? 127)
            && is_instr ((char_of_byte b + 0) mod 94)) eqn:X;
    [|discriminate].
  intros _ [= <-]. rewrite Z.add_0_r in X.
  apply andb_prop in X. destruct X as [X1 X2].
  apply andb_prop in X1. split; [lia | exact X2].
Qed.

Lemma load_ok_accepted (program : list Z) (l : Loader) :
  load program = Ok l -> exists k, accepted program 0 = Some k.
Proof.
  unfold load.
  destruct loader_init_ok as (l0 & E0 & Hl0 & Hp0 & Hpp0).
  rewrite E0. cbn [mbind Res_bind].
  assert (Hpos0 : l_pos l0 = 0 mod 564).
  { unfold loader_init in E0. cbn [memory_init to_number Z.ltb Z.compare
      or_fatal mbind Res_bind] in E0.
    destruct (update_memptr _ _ _) as [[[i m] hp]|];
      cbn [must mbind Res_bind] in E0; [|discriminate].
    injection E0 as <-. reflexivity. }
  pose proof (load_chars_accepted program l0 0 Hl0 ltac:(lia) Hpos0
                ltac:(rewrite Hp0; tauto)
                ltac:(rewrite Hpp0; split; [reflexivity | lia])) as H.
  destruct (accepted program 0) as [k|]; [eauto|].
  rewrite H. discriminate.
Qed.

Lemma value_of_zeros (f : nat -> Z) (a k : nat) :
  (forall i, f i = 0) -> value_of (map f (seq a k)) = 0.
Proof.
  intros Hf. revert a.
  induction k as [|k IH]; intros a; cbn [seq map value_of];
    [reflexivity|].
  rewrite Hf, IH. reflexivity.
Qed.
(** ** The code point of a number *)

(** X20. [update_unicode] is exact.  A number whose code point is cached
    ([unicode] other than -2) is left as it is.  Otherwise, with trits
    in {0, 1, 2}, only the cache changes: it becomes the value of the
    tail, the sum of [trit_i * 3^i], when the head is 0 and this value
    is below 0x110000, and -1 in every other case, whatever the width.
    So the [int32_t] sums of the loop never wrap around, and keeping
    [factor] fixed once it has reached 0x110000 costs nothing. *)
Theorem update_unicode_exact (n : Number) :
  Forall is_trit (tail n) ->
  update_unicode n
  = if unicode n =? -2 then
      set_unicode n
        (if (head n =? 0) && (value_of (tail n) <? 0x110000)
         then value_of (tail n) else -1)
    else n.
Proof.
  intros Hl. unfold update_unicode.
  destruct (unicode n =? -2); cbn [negb]; [|reflexivity].
  change T0 with 0.
  destruct (head n =? 0); cbn [negb andb]; [|reflexivity].
  pose proof (value_of_nonneg _ Hl) as Hv.
  rewrite (update_unicode_loop_spec (tail n) Hl 0 1 1) by lia.
  rewrite Z.add_0_l, Z.mul_1_l.
  destruct (value_of (tail n) >=? 1114112) eqn:E.
  - replace (value_of (tail n) <? 1114112) with false by lia. reflexivity.
  - replace (value_of (tail n) <? 1114112) with true by lia. reflexivity.
Qed.

Lemma update_unicode_exact_witness :
  update_unicode (mkNumber 0 [2; 1; 0; 0] None (-2))
  = mkNumber 0 [2; 1; 0; 0] None 5
  /\ update_unicode (mkNumber 0 (repeat 2 13) None (-2))
     = mkNumber 0 (repeat 2 13) None (-1).
Proof.
  split.
  - rewrite (update_unicode_exact (mkNumber 0 [2; 1; 0; 0] None (-2)));
      [reflexivity|].
    repeat constructor; unfold is_trit; lia.
  - rewrite (update_unicode_exact (mkNumber 0 (repeat 2 13) None (-2)));
      [reflexivity|].
    repeat constructor; unfold is_trit; lia.
Defined.
(** ** How [c] and [d] move *)

Lemma update_memptr_trits (n n' : Number) (m m' : list MemoryTree)
    (hp hp' : Heap) :
  update_memptr n m hp = Some (n', m', hp') ->
  head n' = head n /\ tail n' = tail n.
Proof.
  unfold update_memptr. intros E.
  destruct (memptr n); [injection E as <- <- <-; auto|].
  destruct (head n <? 0); [discriminate|].
  destruct (m !! Z.to_nat (head n)); [|discriminate].
  destruct (update_memptr_loop _ _ _ _ _) as [[[r root'] hp1]|];
    [|discriminate].
  injection E as <- <- <-. auto.
Qed.

(** The trits a register has after [increment] and [update_memptr]. *)
Lemma advance_trits (n n' : Number) (m m' : list MemoryTree)
    (hp hp' : Heap) :
  advance n m hp = Ok (n', m', hp') -> tail n <> [] ->
  head n' = fst (increment_result (head n) (tail n))
  /\ tail n' = snd (increment_result (head n) (tail n)).
Proof.
  unfold advance. intros E Hne.
  destruct (memptr n) as [p|] eqn:Ep; cbn [must mbind Res_bind] in E;
    [|discriminate].
  assert (Hmo : memptr_ok (cells hp) n).
  { unfold memptr_ok. rewrite Ep.
    destruct (cells hp !! p) as [cl|] eqn:Ecl; [eauto|].
    unfold increment in E. rewrite Ep, Ecl in E. discriminate E. }
  rewrite (increment_eq (cells hp) n Hne Hmo) in E.
  cbn [must mbind Res_bind] in E.
  destruct (update_memptr _ m hp) as [[[n2 m2] hp2]|] eqn:Eu;
    cbn [must mbind Res_bind] in E; [|discriminate].
  destruct (link_next hp2 p (memptr n2)) as [hp3| | |];
    cbn [mbind Res_bind] in E; try discriminate.
  injection E as <- <- <-.
  apply update_memptr_trits in Eu. exact Eu.
Qed.

Lemma finish_step_regs (s s' : Machine) :
  finish_step s = Ok s' ->
  tail (reg_c s) <> [] -> tail (reg_d s) <> [] ->
  step s' = int32 (step s + 1)
  /\ head (reg_c s')
     = fst (increment_result (head (reg_c s)) (tail (reg_c s)))
  /\ tail (reg_c s')
     = snd (increment_result (head (reg_c s)) (tail (reg_c s)))
  /\ head (reg_d s')
     = fst (increment_result (head (reg_d s)) (tail (reg_d s)))
  /\ tail (reg_d s')
     = snd (increment_result (head (reg_d s)) (tail (reg_d s))).
Proof.
  unfold finish_step. intros H Hc Hd.
  destruct (cell_val s (reg_c s)) as [[p v]| | |];
    cbn [mbind Res_bind] in H; try discriminate.
  destruct v as [v|]; cbn [must mbind Res_bind] in H; [|discriminate].
  destruct (xlat2 v) as [v2|]; cbn [or_fatal mbind Res_bind] in H;
    [|discriminate].
  destruct (store_val (heap s) p v2) as [hp1| | |];
    cbn [mbind Res_bind] in H; try discriminate.
  destruct (advance (reg_c s) (memory s) hp1) as [[[c' m2] hp2]| | |] eqn:Ea;
    cbn [mbind Res_bind] in H; try discriminate.
  cbn [with_pos with_c with_mem memory heap reg_d pos step] in H.
  destruct (advance (reg_d s) m2 hp2) as [[[d' m3] hp3]| | |] eqn:Ed;
    cbn [mbind Res_bind] in H; try discriminate.
  injection H as <-.
  cbn [with_step with_d with_mem with_pos with_c step reg_c reg_d].
  destruct (advance_trits _ _ _ _ _ _ Ea Hc) as [C1 C2].
  destruct (advance_trits _ _ _ _ _ _ Ed Hd) as [D1 D2].
  auto.
Qed.

Lemma fetch_regs (s s' : Machine) (u : Z) :
  fetch s = Ok (u, s') ->
  reg_c s' = reg_c s /\ reg_d s' = reg_d s.
Proof.
  unfold fetch, store_val. intros H.
  destruct (materialize _ _ _) as [[[p v] s1]| | |] eqn:Em;
    try discriminate H.
  apply materialize_env in Em. destruct Em as (_ & _ & M3 & M4 & _).
  res_inv H; subst. cbn [with_heap with_mem reg_c reg_d]. auto.
Qed.

(** Only [jmp] sets [c] and the position counter, only [movd] sets
    [d]. *)
Lemma exec_instr_regs (cfg : Config) (i : Z) (s s' : Machine) :
  exec_instr cfg i s = Ok s' ->
  step s' = step s
  /\ (i <> 4 -> reg_c s' = reg_c s /\ pos s' = pos s)
  /\ (i <> 40 -> reg_d s' = reg_d s).
Proof.
  intros H.
  destruct (Z.eq_dec i 4) as [->|N4].
  { change (exec_jmp s = Ok s') in H. apply exec_jmp_env in H.
    destruct H as ((_ & _ & _ & Hs) & _ & Hd).
    split; [exact Hs|]. split; [congruence | auto]. }
  destruct (Z.eq_dec i 5) as [->|N5].
  { change (exec_out s = Ok s') in H. apply exec_out_env in H.
    destruct H as (_ & _ & _ & Hs & Hc & Hd & Hp & _). auto. }
  destruct (Z.eq_dec i 23) as [->|N23].
  { change (exec_in s = Ok s') in H. apply exec_in_env in H.
    destruct H as (_ & _ & _ & Hs & Hc & Hd & Hp & _). auto. }
  destruct (Z.eq_dec i 39) as [->|N39].
  { change (exec_rot s = Ok s') in H. apply exec_rot_env in H.
    destruct H as ((_ & _ & _ & Hs) & Hc & Hd & Hp & _). auto. }
  destruct (Z.eq_dec i 40) as [->|N40].
  { change (exec_movd cfg s = Ok s') in H. apply exec_movd_cases in H.
    destruct H as (s2 & _ & _ & _ & Hs & _ & Hc & Hp & Hw).
    cbv zeta in Hw.
    assert (E : step s' = step s2 /\ reg_c s' = reg_c s2
                /\ pos s' = pos s2).
    { destruct Hw as [[_ ->] | [_ [[_ (rw & _ & ->)]
                                  | [_ (rw & k & _ & ->)]]]];
        repeat split. }
    destruct E as (E1 & E2 & E3).
    split; [congruence|]. split; [split; congruence | congruence]. }
  destruct (Z.eq_dec i 62) as [->|N62].
  { change (exec_opr s = Ok s') in H. apply exec_opr_env in H.
    destruct H as ((_ & _ & _ & Hs) & Hc & Hd & Hp & _). auto. }
  destruct (Z.eq_dec i 81) as [->|N81]; [discriminate H|].
  rewrite exec_instr_default in H by assumption. injection H as <-. auto.
Qed.

Lemma low_value_trits (n n' : Number) (k : nat) :
  is_trit (head n) -> Forall is_trit (tail n) ->
  head n' = fst (increment_result (head n) (tail n)) ->
  tail n' = snd (increment_result (head n) (tail n)) ->
  low_value n' k = (low_value n k + 1) mod 3 ^ Z.of_nat k.
Proof.
  destruct n as [h l m u], n' as [h' l' m' u']. cbn [head tail].
  intros Hh Hl -> ->. apply increment_result_value; assumption.
Qed.

(** X21. How [c] and [d] move.  In a state that [main] reaches, a pass
    of the loop that completes has fetched a character [u] and carried
    out the code [(u + pos) % 94]; it adds one to the step counter, an
    [int] of 32 bits, with its wrap-around.
    Unless the code is 4 ([jmp]), the position counter goes to
    [(pos + 1) % 564] and [c] to the next address: for every [k] its
    [k] low trits are those of the old [c] plus one, modulo [3^k].
    Unless the code is 40 ([movd]), [d] goes to the next address in the
    same sense. *)
Theorem step_moves_c_d (cfg : Config) (n : nat) (program input : list Z)
    (s s' : Machine) :
  run cfg n program input = Ok s ->
  exec_step cfg s = Ok s' ->
  exists u s1,
    fetch s = Ok (u, s1)
    /\ step s' = int32 (step s + 1)
    /\ (Z.rem (u + pos s) 94 <> 4 ->
        pos s' = Z.rem (pos s + 1) 564
        /\ forall k, low_value (reg_c s') k
                     = (low_value (reg_c s) k + 1) mod 3 ^ Z.of_nat k)
    /\ (Z.rem (u + pos s) 94 <> 40 ->
        forall k, low_value (reg_d s') k
                  = (low_value (reg_d s) k + 1) mod 3 ^ Z.of_nat k).
Proof.
  intros Hrun H.
  pose proof (safe_ok_inv _ _ _ (run_safe cfg n program input) Hrun) as Hok.
  destruct (fetch_safe s Hok) as (u & s1 & Ef & Hok1 & Hld1).
  exists u, s1. split; [exact Ef|].
  destruct (fetch_env _ _ _ Ef) as ((_ & _ & _ & Hs1) & Hp1).
  destruct (fetch_regs _ _ _ Ef) as [Hc1 Hd1].
  unfold exec_step in H. rewrite Ef in H. cbn [mbind Res_bind] in H.
  destruct ((u <? 33) || (u >? 126)); [discriminate H|].
  rewrite Hp1 in H.
  destruct (exec_instr cfg (Z.rem (u + pos s) 94) s1) as [s2| | |] eqn:Ei;
    cbn [mbind Res_bind] in H; try discriminate H.
  pose proof (exec_instr_safe cfg (Z.rem (u + pos s) 94) s1 Hok1 Hld1)
    as Hs2.
  rewrite Ei in Hs2. destruct Hs2 as [Hok2 _].
  destruct (exec_instr_regs _ _ _ _ Ei) as (Hs2 & Hc2 & Hd2).
  pose proof Hok2 as (_ & _ & ((Hch & Hcl & Hcne) & _)
                      & ((Hdh & Hdl & Hdne) & _) & _).
  destruct (finish_step_regs _ _ H Hcne Hdne) as (Hs & C1 & C2 & D1 & D2).
  destruct (finish_step_env _ _ H) as (_ & _ & _ & Hp).
  split; [rewrite Hs, Hs2, Hs1; reflexivity|]. split.
  - intros Hne. destruct (Hc2 Hne) as [Ec Ep].
    split; [rewrite Hp, Ep, Hp1; reflexivity|].
    intros k. rewrite <- Hc1, <- Ec.
    apply low_value_trits; assumption.
  - intros Hne. specialize (Hd2 Hne).
    intros k. rewrite <- Hd1, <- Hd2.
    apply low_value_trits; assumption.
Qed.

Lemma step_moves_c_d_witness :
  exists s s',
    run example_config 0 [117; 38] [10] = Ok s
    /\ exec_step example_config s = Ok s'
    /\ step s' = int32 (step s + 1)
    /\ pos s' = Z.rem (pos s + 1) 564
    /\ low_value (reg_c s') 3 = (low_value (reg_c s) 3 + 1) mod 3 ^ 3
    /\ low_value (reg_d s') 3 = (low_value (reg_d s) 3 + 1) mod 3 ^ 3.
Proof.
  assert (R : exists s s',
             run example_config 0 [117; 38] [10] = Ok s
             /\ exec_step example_config s = Ok s'
             /\ fetch s = Ok (117, s) /\ pos s = 0)
    by (do 2 eexists; split; [vm_compute; reflexivity|];
        split; [vm_compute; reflexivity|];
        split; vm_compute; reflexivity).
  destruct R as (s & s' & Hr & He & Hf & Hp).
  destruct (step_moves_c_d example_config 0 [117; 38] [10] s s' Hr He)
    as (u & s1 & Hf' & Hs & Hc & Hd).
  rewrite Hf in Hf'. injection Hf' as <- <-.
  rewrite Hp in Hc, Hd.
  destruct Hc as [Hpos Hc]; [vm_compute; discriminate|].
  exists s, s'. split; [exact Hr|]. split; [exact He|].
  split; [exact Hs|]. split; [rewrite Hp; exact Hpos|].
  split; [exact (Hc 3%nat)|].
  exact (Hd ltac:(vm_compute; discriminate) 3%nat).
Defined.
(** ** What [jmp] and [movd] read *)

Lemma target_reads (s s' : Machine) (v w : Number) (p : positive)
    (cl : MemCell) :
  target s = Ok (v, s') ->
  memptr (reg_d s) = Some p -> cells (heap s) !! p = Some cl ->
  val cl = Some w ->
  head v = head (repair_number_after_xlat2 w)
  /\ tail v = tail (repair_number_after_xlat2 w).
Proof.
  unfold target, cell_val. intros H Ep Ecl V.
  rewrite Ep in H. cbn [must mbind Res_bind] in H.
  rewrite Ecl in H. cbn [must mbind Res_bind] in H.
  rewrite V in H.
  destruct (update_memptr _ _ _) as [[[v1 m] hp]|] eqn:Eu;
    cbn [must mbind Res_bind] in H; [|discriminate].
  destruct (store_val hp p v1) as [hp1| | |];
    cbn [mbind Res_bind] in H; try discriminate.
  injection H as <- <-. apply (update_memptr_trits _ _ _ _ _ _ Eu).
Qed.

Lemma exec_jmp_reads (s s' : Machine) (w : Number) (p : positive)
    (cl : MemCell) :
  exec_jmp s = Ok s' ->
  memptr (reg_d s) = Some p -> cells (heap s) !! p = Some cl ->
  val cl = Some w ->
  head (reg_c s') = head (repair_number_after_xlat2 w)
  /\ tail (reg_c s') = tail (repair_number_after_xlat2 w)
  /\ mod_ (reg_c s') 564 = Some (pos s').
Proof.
  unfold exec_jmp. intros H Ep Ecl V.
  destruct (target s) as [[v s1]| | |] eqn:Et;
    cbn [mbind Res_bind] in H; try discriminate.
  destruct (target_reads _ _ _ _ _ _ Et Ep Ecl V) as [Eh Etl].
  destruct (update_memptr _ _ _) as [[[c m] hp]|] eqn:Eu;
    cbn [must mbind Res_bind] in H; [|discriminate].
  destruct (mod_ c 564) as [q|] eqn:Em; cbn [must mbind Res_bind] in H;
    [|discriminate].
  destruct (materialize _ _ _) as [[[q' v'] s3]| | |] eqn:Emat;
    cbn [mbind Res_bind] in H; try discriminate.
  injection H as <-.
  apply materialize_env in Emat.
  destruct Emat as (_ & _ & M3 & _ & M5 & _).
  cbn [with_pos with_c reg_c pos] in M3, M5. rewrite M3, M5.
  apply update_memptr_trits in Eu. cbn [copy_number head tail] in Eu.
  destruct Eu as [-> ->]. auto.
Qed.

Lemma exec_movd_reads (cfg : Config) (s s' : Machine) (w : Number)
    (p : positive) (cl : MemCell) :
  exec_movd cfg s = Ok s' ->
  memptr (reg_d s) = Some p -> cells (heap s) !! p = Some cl ->
  val cl = Some w ->
  head (reg_d s') = head (repair_number_after_xlat2 w)
  /\ tail (reg_d s') = tail (repair_number_after_xlat2 w).
Proof.
  unfold exec_movd. intros H Ep Ecl V.
  destruct (target s) as [[v s1]| | |] eqn:Et;
    cbn [mbind Res_bind] in H; try discriminate.
  destruct (target_reads _ _ _ _ _ _ Et Ep Ecl V) as [Eh Etl].
  destruct (update_memptr _ _ _) as [[[d m] hp]|] eqn:Eu;
    cbn [must mbind Res_bind] in H; [|discriminate].
  apply update_memptr_trits in Eu. cbn [copy_number head tail] in Eu.
  destruct Eu as [Hd Htd].
  assert (E : reg_d s' = d).
  { destruct (Z.of_nat (width d) >? _); [|injection H as <-; reflexivity].
    destruct (get_real_width d >? _); [|injection H as <-; reflexivity].
    destruct (det_growth cfg).
    - destruct (det_growth_policy _ _ _ _) as [rw| | |];
        cbn [mbind Res_bind] in H; try discriminate.
      injection H as <-. reflexivity.
    - destruct (nondet_growth_policy _ _ _ _ _ _) as [[rw k]| | |];
        cbn [mbind Res_bind] in H; try discriminate.
      injection H as <-. reflexivity. }
  rewrite E, Hd, Htd. auto.
Qed.

(** The fetch leaves a value where it is, up to its cached code
    point. *)
Lemma fetch_keeps_value (s s' : Machine) (u : Z) (w : Number)
    (p : positive) (cl : MemCell) :
  fetch s = Ok (u, s') ->
  cells (heap s) !! p = Some cl -> val cl = Some w ->
  exists cl' w',
    cells (heap s') !! p = Some cl' /\ val cl' = Some w'
    /\ (w' = w \/ w' = update_unicode w).
Proof.
  unfold fetch, materialize, cell_val, store_val. intros H Ecl V.
  destruct (memptr (reg_c s)) as [pc|]; cbn [must mbind Res_bind] in H;
    [|discriminate].
  destruct (cells (heap s) !! pc) as [clc|] eqn:Eclc;
    cbn [must mbind Res_bind] in H; [|discriminate].
  destruct (val clc) as [v|] eqn:Vc.
  - cbn [mbind Res_bind] in H. rewrite Eclc in H.
    cbn [must mbind Res_bind] in H. injection H as _ <-.
    cbn [with_heap with_mem heap cells].
    destruct (decide (pc = p)) as [-> | Hne].
    + rewrite lookup_insert_eq. do 2 eexists.
      split; [reflexivity|]. split; [reflexivity|].
      right. congruence.
    + rewrite lookup_insert_ne by exact Hne. exists cl, w. auto.
  - assert (Hne : pc <> p) by congruence.
    destruct (initial_value s _) as [iv| | |];
      cbn [mbind Res_bind] in H; try discriminate.
    rewrite Eclc in H. cbn [must mbind Res_bind] in H.
    cbn [with_heap with_mem heap cells] in H.
    rewrite lookup_insert_eq in H. cbn [must mbind Res_bind] in H.
    injection H as _ <-. cbn [with_heap with_mem heap cells].
    rewrite !lookup_insert_ne by exact Hne. exists cl, w. auto.
Qed.

Lemma repair_update_unicode (w : Number) :
  (tail w = [] -> unicode w <> -2) ->
  head (repair_number_after_xlat2 (update_unicode w))
  = head (repair_number_after_xlat2 w)
  /\ tail (repair_number_after_xlat2 (update_unicode w))
     = tail (repair_number_after_xlat2 w).
Proof.
  intros Hu. destruct (update_unicode_fields w) as (Eh & Et & _).
  destruct (tail w) as [|t r] eqn:E.
  - rewrite update_unicode_cached by (apply Hu; reflexivity).
    split; reflexivity.
  - unfold repair_number_after_xlat2. rewrite Et, E.
    split; [exact Eh | congruence].
Qed.

Lemma low_value_same (n n' : Number) (k : nat) :
  head n' = head n -> tail n' = tail n -> low_value n' k = low_value n k.
Proof.
  destruct n, n'. cbn [head tail]. intros -> ->. reflexivity.
Qed.

Lemma mod_formula_same (n n' : Number) (m : Z) :
  head n' = head n -> tail n' = tail n ->
  mod_formula n' m = mod_formula n m.
Proof.
  destruct n, n'. cbn [head tail]. intros -> ->. reflexivity.
Qed.

(** X22. What [jmp] and [movd] read.  In a state that [main] reaches,
    let the cell at [d] hold a number, and let [w] be this number after
    [repair_number_after_xlat2].  When the pass of the loop completes
    and its code is 4 ([jmp]), [c] ends as [w + 1] (for every [k] the
    [k] low trits of [c] are those of [w] plus one, modulo [3^k]) and
    the position counter as [(w % 564 + 1) % 564], with [w % 564] the
    value [mod] computes; when its code is 40 ([movd]), [d] ends as
    [w + 1]. *)
Theorem step_jmp_movd (cfg : Config) (n : nat) (program input : list Z)
    (s s' : Machine) (p : positive) (cl : MemCell) (w0 : Number) :
  run cfg n program input = Ok s ->
  exec_step cfg s = Ok s' ->
  memptr (reg_d s) = Some p -> cells (heap s) !! p = Some cl ->
  val cl = Some w0 ->
  let w := repair_number_after_xlat2 w0 in
  exists u s1,
    fetch s = Ok (u, s1)
    /\ (Z.rem (u + pos s) 94 = 4 ->
        pos s' = Z.rem (mod_formula w 564 + 1) 564
        /\ forall k, low_value (reg_c s') k
                     = (low_value w k + 1) mod 3 ^ Z.of_nat k)
    /\ (Z.rem (u + pos s) 94 = 40 ->
        forall k, low_value (reg_d s') k
                  = (low_value w k + 1) mod 3 ^ Z.of_nat k).
Proof.
  intros Hrun H Ep Ecl V w.
  pose proof (safe_ok_inv _ _ _ (run_safe cfg n program input) Hrun) as Hok.
  destruct (fetch_safe s Hok) as (u & s1 & Ef & Hok1 & Hld1).
  exists u, s1. split; [exact Ef|].
  destruct (fetch_env _ _ _ Ef) as (_ & Hp1).
  destruct (fetch_regs _ _ _ Ef) as [Hc1 Hd1].
  destruct (fetch_keeps_value _ _ _ _ _ _ Ef Ecl V)
    as (cl1 & w1 & Ecl1 & V1 & Hw1).
  assert (Hw : head (repair_number_after_xlat2 w1) = head w
               /\ tail (repair_number_after_xlat2 w1) = tail w).
  { destruct Hw1 as [-> | ->]; [auto|].
    apply repair_update_unicode.
    pose proof (store_vals _ _ (proj1 Hok) p cl w0 Ecl V)
      as (_ & _ & _ & Hu & _).
    intros E. specialize (Hu E). lia. }
  destruct Hw as [Hwh Hwt].
  unfold exec_step in H. rewrite Ef in H. cbn [mbind Res_bind] in H.
  destruct ((u <? 33) || (u >? 126)); [discriminate H|].
  rewrite Hp1 in H.
  destruct (exec_instr cfg (Z.rem (u + pos s) 94) s1) as [s2| | |] eqn:Ei;
    cbn [mbind Res_bind] in H; try discriminate H.
  pose proof (exec_instr_safe cfg (Z.rem (u + pos s) 94) s1 Hok1 Hld1)
    as Hs2.
  rewrite Ei in Hs2. destruct Hs2 as [Hok2 _].
  pose proof Hok2 as (_ & _ & ((Hch & Hcl & Hcne) & _)
                      & ((Hdh & Hdl & Hdne) & _) & _).
  destruct (finish_step_regs _ _ H Hcne Hdne) as (_ & C1 & C2 & D1 & D2).
  destruct (finish_step_env _ _ H) as (_ & _ & _ & Hp).
  rewrite <- Hd1 in Ep.
  split.
  - intros E4. rewrite E4 in Ei. change (exec_jmp s1 = Ok s2) in Ei.
    destruct (exec_jmp_reads _ _ _ _ _ Ei Ep Ecl1 V1) as (Jh & Jt & Jm).
    rewrite Hwh in Jh. rewrite Hwt in Jt.
    rewrite (mod_eq 564 ltac:(lia) (reg_c s2)) in Jm
      by (split; [|split]; assumption).
    injection Jm as Jm.
    split.
    + rewrite Hp, <- Jm. f_equal. f_equal.
      apply mod_formula_same; assumption.
    + intros k. rewrite <- (low_value_same w (reg_c s2) k Jh Jt).
      apply low_value_trits; assumption.
  - intros E40. rewrite E40 in Ei. change (exec_movd cfg s1 = Ok s2) in Ei.
    destruct (exec_movd_reads _ _ _ _ _ _ Ei Ep Ecl1 V1) as (Jh & Jt).
    rewrite Hwh in Jh. rewrite Hwt in Jt.
    intros k. rewrite <- (low_value_same w (reg_d s2) k Jh Jt).
    apply low_value_trits; assumption.
Qed.

Lemma step_jmp_movd_witness :
  exists s s' p cl w0,
    run example_config 0 [40; 38] [] = Ok s
    /\ exec_step example_config s = Ok s'
    /\ memptr (reg_d s) = Some p /\ cells (heap s) !! p = Some cl
    /\ val cl = Some w0
    /\ low_value (reg_d s') 4
       = (low_value (repair_number_after_xlat2 w0) 4 + 1) mod 3 ^ 4.
Proof.
  assert (R : exists s s' p cl w0,
             run example_config 0 [40; 38] [] = Ok s
             /\ exec_step example_config s = Ok s'
             /\ memptr (reg_d s) = Some p /\ cells (heap s) !! p = Some cl
             /\ val cl = Some w0
             /\ fetch s = Ok (40, s) /\ pos s = 0)
    by (do 5 eexists; split; [vm_compute; reflexivity|];
        split; [vm_compute; reflexivity|];
        split; [vm_compute; reflexivity|];
        split; [vm_compute; reflexivity|];
        split; [vm_compute; reflexivity|];
        split; vm_compute; reflexivity).
  destruct R as (s & s' & p & cl & w0 & Hr & He & Ep & Ecl & V & Hf & Hp).
  destruct (step_jmp_movd example_config 0 [40; 38] [] s s' p cl w0
              Hr He Ep Ecl V)
    as (u & s1 & Hf' & _ & Hd).
  rewrite Hf in Hf'. injection Hf' as <- <-.
  rewrite Hp in Hd.
  exists s, s', p, cl, w0.
  split; [exact Hr|]. split; [exact He|]. split; [exact Ep|].
  split; [exact Ecl|]. split; [exact V|].
  exact (Hd eq_refl 4%nat).
Defined.
(** ** What [rot] and [opr] write *)

Lemma rotate_r_same (n n' : Number) (W : Z) :
  head n' = head n -> tail n' = tail n -> tail n <> [] ->
  rotate_r n' W = rotate_r n W.
Proof.
  intros Eh Et Hne. rewrite !rotate_r_turn by congruence.
  unfold padded_tail, width. rewrite Eh, Et. reflexivity.
Qed.

Lemma opr_same (a d d' : Number) :
  valid_number a -> valid_number d ->
  head d' = head d -> tail d' = tail d ->
  opr a d' = opr a d.
Proof.
  intros Ha Hd Eh Et.
  assert (Hd' : valid_number d')
    by (unfold valid_number; rewrite Eh, Et; exact Hd).
  rewrite !opr_closed_form by assumption. rewrite Eh, Et. reflexivity.
Qed.

Lemma operand_reads (s : Machine) (p : positive) (cl : MemCell)
    (w : Number) :
  memptr (reg_d s) = Some p -> cells (heap s) !! p = Some cl ->
  val cl = Some w ->
  operand s = Ok (p, repair_number_after_xlat2 w).
Proof.
  intros Ep Ecl V. unfold operand, cell_val.
  rewrite Ep. cbn [must mbind Res_bind]. rewrite Ecl.
  cbn [must mbind Res_bind]. rewrite V. reflexivity.
Qed.

Lemma exec_rot_writes (s s' : Machine) (p : positive) (cl : MemCell)
    (w : Number) :
  exec_rot s = Ok s' ->
  memptr (reg_d s) = Some p -> cells (heap s) !! p = Some cl ->
  val cl = Some w ->
  exists r,
    rotate_r (repair_number_after_xlat2 w) (rotwidth s) = Some r
    /\ reg_a s' = r
    /\ exists cl', cells (heap s') !! p = Some cl' /\ val cl' = Some r.
Proof.
  unfold exec_rot. intros H Ep Ecl V.
  rewrite (operand_reads s p cl w Ep Ecl V) in H.
  cbn [mbind Res_bind] in H.
  destruct (rotate_r _ _) as [r|]; cbn [must mbind Res_bind] in H;
    [|discriminate].
  unfold store_val in H. rewrite Ecl in H. cbn [must mbind Res_bind] in H.
  injection H as <-. exists r. split; [reflexivity|].
  split; [apply copy_number_eq|].
  cbn [with_a with_heap with_mem heap cells]. rewrite lookup_insert_eq.
  eauto.
Qed.

Lemma exec_opr_writes (s s' : Machine) (p : positive) (cl : MemCell)
    (w : Number) :
  exec_opr s = Ok s' ->
  memptr (reg_d s) = Some p -> cells (heap s) !! p = Some cl ->
  val cl = Some w ->
  exists a' v',
    opr (reg_a s) (repair_number_after_xlat2 w) = Some (a', v')
    /\ reg_a s' = a'
    /\ exists cl', cells (heap s') !! p = Some cl' /\ val cl' = Some v'.
Proof.
  unfold exec_opr. intros H Ep Ecl V.
  rewrite (operand_reads s p cl w Ep Ecl V) in H.
  cbn [mbind Res_bind] in H.
  destruct (opr _ _) as [[a' v']|]; cbn [must mbind Res_bind] in H;
    [|discriminate].
  unfold store_val in H. rewrite Ecl in H. cbn [must mbind Res_bind] in H.
  injection H as <-. exists a', v'. split; [reflexivity|].
  split; [reflexivity|].
  cbn [with_a with_heap with_mem heap cells]. rewrite lookup_insert_eq.
  eauto.
Qed.

(** After the instruction, only the cell at [c] gets a new value. *)
Lemma finish_step_keeps (s s' : Machine) (pc : positive) :
  machine_ok s -> loaded (heap s) (reg_c s) ->
  finish_step s = Ok s' -> memptr (reg_c s) = Some pc ->
  kept_but (heap s) (heap s') pc /\ reg_a s' = reg_a s.
Proof.
  intros Hok (p & cl & v & Ep & Ecl & Vcl) H Epc.
  rewrite Ep in Epc. injection Epc as <-.
  pose proof Hok as (Hst & Ha & Hc & Hd & Hiv & Hp).
  unfold finish_step, cell_val in H. rewrite Ep in H.
  cbn [must mbind Res_bind] in H. rewrite Ecl in H.
  cbn [must mbind Res_bind] in H. rewrite Vcl in H.
  cbn [must mbind Res_bind] in H.
  pose proof (store_vals _ _ Hst p cl v Ecl Vcl) as Hv.
  destruct (xlat2_value_ok _ _ _ Hv) as [E | (v' & E & Hv')];
    rewrite E in H; cbn [or_fatal mbind Res_bind] in H; [discriminate|].
  destruct (store_advance_frame (memory s) (heap s) p v' (reg_c s)
              Hst Hc Ep Hv')
    as (hp1 & c' & m2 & hp2 & E1 & E2 & _ & Hst2 & Hle2 & Hkept & _).
  rewrite E1 in H. cbn [mbind Res_bind] in H.
  rewrite E2 in H. cbn [mbind Res_bind] in H.
  cbn [with_pos with_c with_mem memory heap reg_d pos step] in H.
  destruct (advance_full (reg_d s) m2 hp2 Hst2
              (reg_ok_le _ _ _ _ _ Hle2 Hd))
    as (d' & m3 & hp3 & E3 & _ & _ & _ & Hext & _).
  rewrite E3 in H. cbn [mbind Res_bind] in H. injection H as <-.
  cbn [with_step with_d with_mem with_pos with_c heap reg_a].
  split; [|reflexivity].
  intros q cl0 Hq Ecl0. destruct (Hkept q cl0 Hq Ecl0) as (cl2 & Ecl2 & V2).
  destruct (Hext q cl2 Ecl2) as (cl3 & Ecl3 & V3).
  exists cl3. split; [exact Ecl3 | congruence].
Qed.

Lemma fetch_reg_a (s s' : Machine) (u : Z) :
  fetch s = Ok (u, s') -> reg_a s' = reg_a s.
Proof.
  unfold fetch, store_val. intros H.
  destruct (materialize _ _ _) as [[[p v] s1]| | |] eqn:Em;
    try discriminate H.
  apply materialize_env in Em. destruct Em as (_ & M2 & _).
  res_inv H; subst. cbn [with_heap with_mem reg_a]. exact M2.
Qed.

(** X23. What [rot] and [opr] write.  In a state that [main] reaches,
    let the cell at [d] hold a number, and let [w] be this number after
    [repair_number_after_xlat2].  When the pass of the loop completes
    and its code is 39 ([rot]), [a] ends as [rotate_r] of [w] at the
    rotation width; when its code is 62 ([opr]), [a] ends as the result
    of [opr] on [a] and [w].  In both cases the cell at [d] ends with
    the same number as [a], unless it is also the cell at [c], which
    [xlat2] then changes. *)
Theorem step_rot_opr (cfg : Config) (n : nat) (program input : list Z)
    (s s' : Machine) (p : positive) (cl : MemCell) (w0 : Number) :
  run cfg n program input = Ok s ->
  exec_step cfg s = Ok s' ->
  memptr (reg_d s) = Some p -> cells (heap s) !! p = Some cl ->
  val cl = Some w0 ->
  let w := repair_number_after_xlat2 w0 in
  exists u s1 r,
    fetch s = Ok (u, s1)
    /\ (Z.rem (u + pos s) 94 = 39 ->
        rotate_r w (rotwidth s) = Some r /\ reg_a s' = r)
    /\ (Z.rem (u + pos s) 94 = 62 ->
        opr (reg_a s) w = Some (r, r) /\ reg_a s' = r)
    /\ (Z.rem (u + pos s) 94 = 39 \/ Z.rem (u + pos s) 94 = 62 ->
        memptr (reg_c s) <> Some p ->
        exists cl', cells (heap s') !! p = Some cl' /\ val cl' = Some r).
Proof.
  intros Hrun H Ep Ecl V w.
  pose proof (safe_ok_inv _ _ _ (run_safe cfg n program input) Hrun) as Hok.
  destruct (fetch_safe s Hok) as (u & s1 & Ef & Hok1 & Hld1).
  destruct (fetch_env _ _ _ Ef) as ((_ & (_ & Hrw & _) & _) & Hp1).
  destruct (fetch_regs _ _ _ Ef) as [Hc1 Hd1].
  pose proof (fetch_reg_a _ _ _ Ef) as Ha1.
  destruct (fetch_keeps_value _ _ _ _ _ _ Ef Ecl V)
    as (cl1 & w1 & Ecl1 & V1 & Hw1).
  pose proof (store_vals _ _ (proj1 Hok) p cl w0 Ecl V) as Hv0.
  destruct (repair_ok _ _ _ Hv0) as (Hwv & _).
  assert (Hw : head (repair_number_after_xlat2 w1) = head w
               /\ tail (repair_number_after_xlat2 w1) = tail w).
  { destruct Hw1 as [-> | ->]; [auto|].
    apply repair_update_unicode.
    destruct Hv0 as (_ & _ & _ & Hu & _).
    intros E. specialize (Hu E). lia. }
  destruct Hw as [Hwh Hwt].
  unfold exec_step in H. rewrite Ef in H. cbn [mbind Res_bind] in H.
  destruct ((u <? 33) || (u >? 126)); [discriminate H|].
  rewrite Hp1 in H.
  destruct (exec_instr cfg (Z.rem (u + pos s) 94) s1) as [s2| | |] eqn:Ei;
    cbn [mbind Res_bind] in H; try discriminate H.
  pose proof (exec_instr_safe cfg (Z.rem (u + pos s) 94) s1 Hok1 Hld1)
    as Hs2.
  rewrite Ei in Hs2. destruct Hs2 as [Hok2 Hld2].
  rewrite <- Hd1 in Ep.
  destruct (Z.eq_dec (Z.rem (u + pos s) 94) 39) as [E39 | N39];
    [|destruct (Z.eq_dec (Z.rem (u + pos s) 94) 62) as [E62 | N62]].
  - rewrite E39 in Ei. change (exec_rot s1 = Ok s2) in Ei.
    destruct (exec_rot_env _ _ Ei) as (_ & Hc2 & _).
    destruct (exec_rot_writes _ _ _ _ _ Ei Ep Ecl1 V1)
      as (r & Er & Ea & cl2 & Ecl2 & V2).
    rewrite (rotate_r_same w _ _ Hwh Hwt (proj2 (proj2 Hwv))), Hrw in Er.
    exists u, s1, r. split; [exact Ef|].
    assert (Hpc : exists pc, memptr (reg_c s2) = Some pc)
      by (destruct Hok2 as (_ & _ & (_ & pc & Epc & _) & _); eauto).
    destruct Hpc as [pc Epc].
    destruct (finish_step_keeps _ _ pc Hok2 Hld2 H Epc) as [Hk Ha'].
    split; [intros _; split; [exact Er | congruence]|].
    split; [intros E; rewrite E in E39; discriminate E39|].
    intros _ Hne.
    destruct (Hk p cl2) as (cl' & Ecl' & V'); [|exact Ecl2|].
    { intros ->. apply Hne. congruence. }
    exists cl'. split; [exact Ecl' | congruence].
  - rewrite E62 in Ei. change (exec_opr s1 = Ok s2) in Ei.
    destruct (exec_opr_env _ _ Ei) as (_ & Hc2 & _).
    destruct (exec_opr_writes _ _ _ _ _ Ei Ep Ecl1 V1)
      as (a' & v' & Er & Ea & cl2 & Ecl2 & V2).
    pose proof Hok as (_ & Hav & _).
    rewrite Ha1, (opr_same (reg_a s) w _ Hav Hwv Hwh Hwt) in Er.
    rewrite (opr_closed_form (reg_a s) w Hav Hwv) in Er.
    injection Er as <- <-.
    eexists u, s1, _. split; [exact Ef|].
    assert (Hpc : exists pc, memptr (reg_c s2) = Some pc)
      by (destruct Hok2 as (_ & _ & (_ & pc & Epc & _) & _); eauto).
    destruct Hpc as [pc Epc].
    destruct (finish_step_keeps _ _ pc Hok2 Hld2 H Epc) as [Hk Ha'].
    split; [intros E; rewrite E in E62; discriminate E62|].
    split.
    { intros _. rewrite (opr_closed_form (reg_a s) w Hav Hwv).
      split; [reflexivity | congruence]. }
    intros _ Hne.
    destruct (Hk p cl2) as (cl' & Ecl' & V'); [|exact Ecl2|].
    { intros ->. apply Hne. congruence. }
    exists cl'. split; [exact Ecl' | congruence].
  - exists u, s1, w. split; [exact Ef|].
    split; [intros E; contradiction|].
    split; [intros E; contradiction|].
    intros [E | E]; contradiction.
Qed.

Lemma step_rot_opr_witness :
  exists s s' p cl w0 r,
    run example_config 1 movd_then_rot [] = Ok s
    /\ exec_step example_config s = Ok s'
    /\ memptr (reg_d s) = Some p /\ cells (heap s) !! p = Some cl
    /\ val cl = Some w0
    /\ rotate_r (repair_number_after_xlat2 w0) (rotwidth s) = Some r
    /\ reg_a s' = r
    /\ exists cl', cells (heap s') !! p = Some cl' /\ val cl' = Some r.
Proof.
  assert (R : exists s s' p cl w0 s1,
             run example_config 1 movd_then_rot [] = Ok s
             /\ exec_step example_config s = Ok s'
             /\ memptr (reg_d s) = Some p /\ cells (heap s) !! p = Some cl
             /\ val cl = Some w0
             /\ fetch s = Ok (38, s1) /\ pos s = 1
             /\ memptr (reg_c s) <> Some p)
    by (do 6 eexists; split; [vm_compute; reflexivity|];
        split; [vm_compute; reflexivity|];
        split; [vm_compute; reflexivity|];
        split; [vm_compute; reflexivity|];
        split; [vm_compute; reflexivity|];
        split; [vm_compute; reflexivity|];
        split; [vm_compute; reflexivity|];
        vm_compute; intros E; discriminate E).
  destruct R
    as (s & s' & p & cl & w0 & s1 & Hr & He & Ep & Ecl & V & Hf & Hp & Hne).
  destruct (step_rot_opr example_config 1 movd_then_rot [] s s' p cl w0
              Hr He Ep Ecl V)
    as (u & s1' & r & Hf' & H39 & _ & Hcell).
  rewrite Hf in Hf'. injection Hf' as <- <-.
  rewrite Hp in H39, Hcell.
  destruct (H39 eq_refl) as [Er Ea].
  exists s, s', p, cl, w0, r.
  split; [exact Hr|]. split; [exact He|]. split; [exact Ep|].
  split; [exact Ecl|]. split; [exact V|]. split; [exact Er|].
  split; [exact Ea|]. exact (Hcell (or_introl eq_refl) Hne).
Defined.
(** ** Codes that are no instruction *)

(** What follows the [switch], with a printable code point in the cell
    at [c]: [xlat2] replaces the value of the cell and the pass ends. *)
Lemma finish_step_stores (s : Machine) (p : positive) (v : Number) :
  machine_ok s -> cell_val s (reg_c s) = Ok (p, Some v) ->
  33 <= unicode v <= 126 ->
  exists s' cl,
    finish_step s = Ok s'
    /\ cells (heap s') !! p = Some cl
    /\ val cl = Some (mkNumber (head v) [] (memptr v)
                        (xlat2_code (unicode v))).
Proof.
  intros Hok Ecv Hu. pose proof Hok as (Hst & Ha & Hc & Hd & Hiv & Hp).
  assert (Hcell : memptr (reg_c s) = Some p
                  /\ exists cl0, cells (heap s) !! p = Some cl0
                                 /\ val cl0 = Some v).
  { unfold cell_val in Ecv.
    destruct (memptr (reg_c s)) as [p0|]; cbn [must mbind Res_bind] in Ecv;
      [|discriminate].
    destruct (cells (heap s) !! p0) as [cl0|] eqn:Ecl0;
      cbn [must mbind Res_bind] in Ecv; [|discriminate].
    injection Ecv as <- V. eauto. }
  destruct Hcell as (Ep & cl0 & Ecl0 & V0).
  pose proof (store_vals _ _ Hst p cl0 v Ecl0 V0) as Hv.
  assert (Ex : xlat2 v = Some (mkNumber (head v) [] (memptr v)
                                 (xlat2_code (unicode v)))).
  { unfold xlat2. rewrite update_unicode_cached by lia.
    replace ((unicode v <? 33) || (unicode v >? 126)) with false by lia.
    reflexivity. }
  destruct (xlat2_value_ok _ _ _ Hv) as [E | (v' & E & Hv')];
    rewrite Ex in E; [discriminate|]. injection E as <-.
  destruct (store_advance_frame (memory s) (heap s) p _ (reg_c s)
              Hst Hc Ep Hv')
    as (hp1 & c' & m2 & hp2 & E1 & E2 & _ & Hst2 & Hle2 & _
        & (cl2 & Ecl2 & V2) & _).
  destruct (advance_full (reg_d s) m2 hp2 Hst2
              (reg_ok_le _ _ _ _ _ Hle2 Hd))
    as (d' & m3 & hp3 & E3 & _ & _ & _ & Hext & _).
  destruct (Hext p cl2 Ecl2) as (cl3 & Ecl3 & V3).
  unfold finish_step. rewrite Ecv. cbn [must mbind Res_bind].
  rewrite Ex. cbn [or_fatal mbind Res_bind].
  rewrite E1. cbn [mbind Res_bind]. rewrite E2. cbn [mbind Res_bind].
  cbn [with_pos with_c with_mem memory heap reg_d pos step].
  rewrite E3. cbn [mbind Res_bind].
  do 2 eexists. split; [reflexivity|].
  cbn [with_step with_d with_mem heap].
  split; [exact Ecl3 | congruence].
Qed.

(** C2, as amended.  In a state that [main] reaches, let the fetch
    yield the Unicode value [u] of the cell at [c].  When [u] is outside
    33 .. 126 the interpreter terminates with the diagnostic "invalid
    instruction" and status 1.  When [u] is inside and the code
    [(u + pos) mod 94] is none of 4, 5, 23, 39, 40, 62, 68, 81, the pass
    is carried out as [nop] and completes: [xlat2] is applied to the
    cell at [c], which ends with an empty tail and the code point that
    the table gives for [u]; [c] and [d] advance to the next address
    (for every [k] their [k] low trits are the old ones plus one, modulo
    [3^k]), the position counter to [(pos + 1) mod 564] and the step
    counter by one; [a], the input and the output are as before, and the
    run goes on with the next pass. *)
Theorem invalid_code_runs_as_nop (cfg : Config) (n : nat)
    (program input : list Z) (s s1 : Machine) (u : Z) :
  run cfg n program input = Ok s ->
  fetch s = Ok (u, s1) ->
  (u < 33 \/ u > 126 ->
     exec_step cfg s = Fatal (InvalidInstruction (step s)))
  /\ (33 <= u <= 126 ->
      is_instr (Z.rem (u + pos s) 94) = false ->
      exists s' p cl v,
        exec_step cfg s = Ok s'
        /\ exec_step cfg s = (s2 ← exec_instr cfg 68 s1; finish_step s2)
        /\ run cfg (n + 1) program input = Ok s'
        /\ memptr (reg_c s) = Some p
        /\ cells (heap s') !! p = Some cl /\ val cl = Some v
        /\ tail v = [] /\ unicode v = xlat2_code u
        /\ (forall k, low_value (reg_c s') k
                      = (low_value (reg_c s) k + 1) mod 3 ^ Z.of_nat k)
        /\ (forall k, low_value (reg_d s') k
                      = (low_value (reg_d s) k + 1) mod 3 ^ Z.of_nat k)
        /\ pos s' = Z.rem (pos s + 1) 564
        /\ step s' = int32 (step s + 1)
        /\ reg_a s' = reg_a s
        /\ stdin s' = stdin s /\ stdout s' = stdout s).
Proof.
  intros Hrun E.
  pose proof (safe_ok_inv _ _ _ (run_safe cfg n program input) Hrun) as Hok.
  destruct (fetch_safe s Hok) as (u' & s1' & Ef & Hok1 & Hld1).
  rewrite E in Ef. injection Ef as <- <-.
  destruct (fetch_step _ _ _ E) as [Es Ep].
  destruct (fetch_cell _ _ _ E) as (p & v & Ec & Ev).
  destruct (fetch_regs _ _ _ E) as [Hc1 Hd1].
  pose proof (fetch_reg_a _ _ _ E) as Ha1.
  destruct (fetch_env _ _ _ E) as (((Hin1 & Hout1) & _) & _).
  split.
  - intros Hu. unfold exec_step. rewrite E. cbn [mbind Res_bind].
    rewrite Es. replace ((u <? 33) || (u >? 126)) with true by lia.
    reflexivity.
  - intros Hu Hi.
    destruct (finish_step_stores s1 p v Hok1 Ec ltac:(lia))
      as (s' & cl & Ef & Ecl & V).
    assert (Hnop : exec_step cfg s = finish_step s1).
    { unfold exec_step. rewrite E. cbn [mbind Res_bind].
      replace ((u <? 33) || (u >? 126)) with false by lia.
      unfold is_instr in Hi. rewrite Ep.
      rewrite exec_instr_default by lia. reflexivity. }
    exists s', p, cl, (mkNumber (head v) [] (memptr v) (xlat2_code u)).
    split; [rewrite Hnop; exact Ef|]. split; [exact Hnop|].
    split.
    { unfold run in Hrun |- *.
      destruct (boot cfg program input) as [s0| | |];
        cbn [mbind Res_bind] in Hrun |- *; try discriminate.
      rewrite exec_steps_add, Hrun. cbn [mbind Res_bind exec_steps].
      rewrite Hnop, Ef. reflexivity. }
    split.
    { rewrite <- Hc1. unfold cell_val in Ec.
      destruct (memptr (reg_c s1)) as [p0|];
        cbn [must mbind Res_bind] in Ec; [|discriminate].
      destruct (cells (heap s1) !! p0); cbn [must mbind Res_bind] in Ec;
        [|discriminate].
      injection Ec as <- _. reflexivity. }
    split; [exact Ecl|]. split; [rewrite V, Ev; reflexivity|].
    split; [reflexivity|]. split; [reflexivity|].
    pose proof Hok1 as (_ & _ & ((Hch & Hcl & Hcne) & _)
                        & ((Hdh & Hdl & Hdne) & _) & _).
    destruct (finish_step_regs _ _ Ef Hcne Hdne)
      as (Hs & C1 & C2 & D1 & D2).
    destruct (finish_step_env _ _ Ef) as ((Hin & Hout) & _ & _ & Hp).
    destruct (Hld1) as (pc & clc & vc & Epc & _).
    destruct (finish_step_keeps _ _ pc Hok1 Hld1 Ef Epc) as [_ Ha].
    split; [intros k; rewrite <- Hc1; apply low_value_trits; assumption|].
    split; [intros k; rewrite <- Hd1; apply low_value_trits; assumption|].
    split; [rewrite Hp, Ep; reflexivity|].
    split; [rewrite Hs, Es; reflexivity|].
    split; [congruence|]. split; congruence.
Qed.

Lemma invalid_code_runs_as_nop_witness :
  exists s s1 s',
    run example_config 51 nops_then_jmp [] = Ok s
    /\ fetch s = Ok (108, s1)
    /\ is_instr (Z.rem (108 + pos s) 94) = false
    /\ exec_step example_config s = Ok s'
    /\ run example_config 52 nops_then_jmp [] = Ok s'
    /\ pos s' = Z.rem (pos s + 1) 564.
Proof.
  destruct nops_then_jmp_run as (s & s1 & s2 & Hr & Hf & Hp & Hi & _).
  assert (Hn : is_instr (Z.rem (108 + pos s) 94) = false)
    by (rewrite Hi; reflexivity).
  destruct (invalid_code_runs_as_nop example_config 51 nops_then_jmp []
              s s1 108 Hr Hf)
    as [_ H].
  destruct (H ltac:(lia) Hn)
    as (s' & p & cl & v & He & _ & Hrun & _ & _ & _ & _ & _ & _ & _ & Hpos
        & _).
  exists s, s1, s'. auto 10.
Defined.
(** ** The synthetic steps, address by address *)

Lemma cell_at_extends (m m' : list MemoryTree) (i : Z) (p : positive) :
  memory_extends m m' -> cell_at m i p -> cell_at m' i p.
Proof.
  intros H (n & En & Hc). exists n.
  split; [exact En | exact (cell_of_extends _ _ _ _ H Hc)].
Qed.

Lemma cell_at_unique (m : list MemoryTree) (i : Z) (p p' : positive) :
  memory_ok m -> cell_at m i p -> cell_at m i p' -> p = p'.
Proof.
  intros Hm (n & En & Hc) (n' & En' & Hc').
  rewrite En in En'. injection En' as <-.
  exact (cell_of_unique m n p p' Hm Hc Hc').
Qed.

Lemma cell_at_injective (m : list MemoryTree) (i j : Z) (p : positive) :
  owned m -> cell_at m i p -> cell_at m j p -> i = j.
Proof.
  intros Hown (n & En & Hc) (n' & En' & Hc').
  pose proof (cell_of_injective m n n' p Hown Hc Hc') as Heq.
  destruct (to_number_valid _ _ En) as (_ & Hn0 & Hnv).
  destruct (to_number_valid _ _ En') as (_ & Hn0' & Hnv').
  pose proof (value_equal_value_of n n' Heq Hn0). lia.
Qed.

(** The cell of [init] is the cell of the address that [init] has as its
    value. *)
Lemma cell_at_init (m : list MemoryTree) (init : Number) (p : positive)
    (i : Z) :
  cell_of m init p -> head init = 0 -> Forall is_trit (tail init) ->
  value_of (tail init) = i -> 0 <= i -> cell_at m i p.
Proof.
  intros Hc Hh Hl Hv Hi.
  destruct (to_number i) as [n|] eqn:En.
  2:{ unfold to_number in En. destruct (i <? 0) eqn:X; [lia | discriminate]. }
  destruct (to_number_valid _ _ En) as ((Hnh & Hnl & _) & Hn0 & Hnv).
  exists n. split; [exact En|].
  apply (cell_of_value m init n); [|exact Hc].
  apply value_of_value_equal; try assumption. lia.
Qed.

Lemma holds_vals_frame (m m' : list MemoryTree) (hp hp' : Heap)
    (vals : list Number) (p : positive) :
  owned m -> cell_at m (Z.of_nat (length vals)) p ->
  memory_extends m m' -> kept_but hp hp' p ->
  holds_vals m hp vals -> holds_vals m' hp' vals.
Proof.
  intros Hown Hp Hm Hk H i v Ei.
  destruct (H i v Ei) as (q & cl & Hq & Ecl & V).
  assert (Hne : q <> p).
  { intros ->. pose proof (cell_at_injective m _ _ p Hown Hq Hp) as E.
    apply lookup_lt_Some in Ei. lia. }
  destruct (Hk q cl Hne Ecl) as (cl' & Ecl' & V').
  exists q, cl'. split; [exact (cell_at_extends _ _ _ _ Hm Hq)|].
  split; [exact Ecl' | congruence].
Qed.

Lemma holds_vals_snoc (m : list MemoryTree) (hp : Heap)
    (vals : list Number) (p : positive) (v : Number) (cl : MemCell) :
  holds_vals m hp vals -> cell_at m (Z.of_nat (length vals)) p ->
  cells hp !! p = Some cl -> val cl = Some v ->
  holds_vals m hp (vals ++ [v]).
Proof.
  intros H Hp Ecl V i v' Ei.
  destruct (decide (i < length vals)%nat) as [L|G].
  - rewrite lookup_app_l in Ei by exact L. apply (H i v' Ei).
  - pose proof (lookup_lt_Some _ _ _ Ei) as Hi.
    rewrite length_app in Hi. cbn [length] in Hi.
    assert (i = length vals) by lia. subst i.
    rewrite lookup_app_r, Nat.sub_diag in Ei by lia.
    cbn in Ei. injection Ei as <-.
    exists p, cl. auto.
Qed.

(** A value of the address [i] is found by [update_memptr]. *)
Lemma holds_vals_stored (m : list MemoryTree) (hp : Heap)
    (vals : list Number) (i : nat) (v : Number) :
  store_ok m hp -> holds_vals m hp vals -> vals !! i = Some v ->
  stored_at m hp (Z.of_nat i) v.
Proof.
  intros Hst H Ei.
  destruct (H i v Ei) as (p & cl & (n & En & Hcell) & Ecl & V).
  destruct (to_number_valid _ _ En) as ((Hnh & Hnl & _) & _).
  assert (Hnp : memptr n = None).
  { unfold to_number in En. destruct (Z.of_nat i <? 0); [discriminate|].
    injection En as <-. reflexivity. }
  destruct (update_memptr_safe n m hp Hst Hnh Hnl
              ltac:(unfold memptr_ok; rewrite Hnp; exact I)
              (cached_none _ _ Hnp))
    as (r & m' & hp' & Eu & _ & Hst' & Hle & Hr & _).
  assert (Erp : r = p).
  { apply (cell_of_unique m' n r p (proj1 Hst') Hr).
    apply (cell_of_extends _ _ _ _ (proj2 Hle) Hcell). }
  subst r. exists n, p, cl, m', hp'. auto.
Qed.

(** Storing [v] in the cell of [init] and moving [init] on, as the
    reading loop and the synthetic steps both do. *)
Lemma loader_at_step (l l' : Loader) (a : Z) (vals : list Number)
    (p : positive) (v : Number) :
  loader_safe l a -> loader_at l vals ->
  memptr (l_init l) = Some p ->
  memory_extends (l_memory l) (l_memory l') ->
  kept_but (l_heap l) (l_heap l') p ->
  (exists cl, cells (l_heap l') !! p = Some cl /\ val cl = Some v) ->
  head (l_init l')
  = fst (increment_result (head (l_init l)) (tail (l_init l))) ->
  tail (l_init l')
  = snd (increment_result (head (l_init l)) (tail (l_init l))) ->
  l_prev l' = Some p -> l_prevprev l' = l_prev l ->
  loader_at l' (vals ++ [v]).
Proof.
  intros (_ & Hst & ((_ & Hl & _) & p0 & Ep0 & _ & Hcp) & _)
    (Hh & Hv & Hc & Hprev & Hpp) Ep Hm Hk (cl & Ecl & V) Eh Et Epr Eppr.
  rewrite Ep in Ep0. injection Ep0 as <-.
  rewrite Hh in Eh, Et.
  destruct (increment_result_zero_head (tail (l_init l)) Hl) as [F1 F2].
  assert (Hat : cell_at (l_memory l) (Z.of_nat (length vals)) p)
    by (apply (cell_at_init _ (l_init l)); auto; lia).
  assert (Hlen : Z.of_nat (length (vals ++ [v]))
                 = Z.of_nat (length vals) + 1)
    by (rewrite length_app; cbn [length]; lia).
  split; [congruence|].
  split; [rewrite Et, F2, Hlen; lia|].
  split.
  { apply (holds_vals_snoc _ _ _ p v cl);
      [|exact (cell_at_extends _ _ _ _ Hm Hat) | exact Ecl | exact V].
    apply (holds_vals_frame (l_memory l) _ (l_heap l) _ vals p);
      try assumption. apply Hst. }
  split.
  - intros q Eq. rewrite Epr in Eq. injection Eq as <-.
    split; [lia|].
    replace (Z.of_nat (length (vals ++ [v])) - 1)
      with (Z.of_nat (length vals)) by lia.
    exact (cell_at_extends _ _ _ _ Hm Hat).
  - intros q Eq. rewrite Eppr in Eq.
    destruct (Hprev q Eq) as [H1 H2].
    split; [lia|].
    replace (Z.of_nat (length (vals ++ [v])) - 2)
      with (Z.of_nat (length vals) - 1) by lia.
    exact (cell_at_extends _ _ _ _ Hm H2).
Qed.

Lemma load_char_prev (v : Z) (l l' : Loader) :
  load_char v l = Ok l' -> is_blank v = false ->
  l_prev l' = memptr (l_init l) /\ l_prevprev l' = l_prev l.
Proof.
  unfold load_char. intros E Hb. rewrite Hb in E.
  destruct ((v >=? 33) && (v <? 127) && is_instr (Z.rem (v + l_pos l) 94));
    [|discriminate].
  destruct (memptr (l_init l)) as [p|]; cbn [must mbind Res_bind] in E;
    [|discriminate].
  destruct (to_number v) as [n|]; cbn [or_fatal mbind Res_bind] in E;
    [|discriminate].
  destruct (store_val (l_heap l) p n) as [hp| | |];
    cbn [mbind Res_bind] in E; try discriminate.
  destruct (advance (l_init l) (l_memory l) hp) as [[[init m] hp']| | |];
    cbn [mbind Res_bind] in E; try discriminate.
  injection E as <-. split; reflexivity.
Qed.

(** The reading loop populates the addresses in order, with the numbers
    of the characters that are not blanks. *)
Lemma load_chars_at (program : list Z) :
  forall l l' chars vals,
    loader_safe l 0 -> loader_at l vals ->
    Forall2 (fun c v => to_number c = Some v) chars vals ->
    load_chars program l = Ok l' ->
    exists vals',
      loader_safe l' 0 /\ loader_at l' vals'
      /\ Forall2 (fun c v => to_number c = Some v)
           (chars ++ program_chars program) vals'.
Proof.
  induction program as [|b rest IH]; intros l l' chars vals Hs Hat HF E.
  - cbn [load_chars] in E. injection E as <-.
    unfold program_chars. cbn [map List.filter]. rewrite app_nil_r.
    exists vals. auto.
  - cbn [load_chars] in E.
    destruct (load_char (char_of_byte b) l) as [l1|dg| |] eqn:E1;
      cbn [mbind Res_bind] in E; try discriminate.
    pose proof (safe_ok_inv _ _ _ (load_char_safe _ l 0 Hs) E1) as Hs1.
    rewrite program_chars_cons, app_assoc.
    destruct (is_blank (char_of_byte b)) eqn:Hb.
    + unfold load_char in E1. rewrite Hb in E1. injection E1 as <-.
      rewrite app_nil_r. exact (IH l l' chars vals Hs Hat HF E).
    + destruct (load_char_frame _ l l1 0 Hs E1 Hb)
        as (p & nv & Hr & Ep & En & Hm & Hk & Hcl & Eh & Et).
      destruct (load_char_prev _ _ _ E1 Hb) as [Epr Eppr].
      rewrite Ep in Epr.
      apply (IH l1 l' _ (vals ++ [nv]) Hs1); [| |exact E].
      * exact (loader_at_step l l1 0 vals p nv Hs Hat Ep Hm Hk Hcl Eh Et
                 Epr Eppr).
      * apply Forall2_app; [exact HF|]. constructor; [exact En|constructor].
Qed.

Lemma read_program_at (program : list Z) (l : Loader) :
  read_program program = Ok l ->
  exists vals,
    loader_safe l 0 /\ loader_at l vals
    /\ Forall2 (fun c v => to_number c = Some v) (program_chars program)
         vals.
Proof.
  unfold read_program. intros E.
  destruct loader_init_safe as (l0 & E0 & Hl0 & Hp0 & Hpp0 & Hh0 & Ht0).
  rewrite E0 in E. cbn [mbind Res_bind] in E.
  apply (load_chars_at program l0 l [] [] Hl0); [|constructor|exact E].
  split; [exact Hh0|]. split; [rewrite Ht0; reflexivity|].
  split; [intros i v Ei; rewrite lookup_nil in Ei; discriminate|].
  rewrite Hp0, Hpp0. split; discriminate.
Qed.

(** A synthetic step reads the cells of the last two addresses and
    populates the next one. *)
Lemma synth_step_at (a : Z) (l : Loader) (vals : list Number) :
  loader_safe l a -> is_Some (l_prevprev l) -> 0 <= a < 18 ->
  loader_at l vals ->
  exists l' pv ppv v,
    synth_step a l = Ok l' /\ loader_safe l' (a + 1)
    /\ is_Some (l_prevprev l')
    /\ loader_at l' (vals ++ [v])
    /\ vals !! (length vals - 1)%nat = Some pv
    /\ vals !! (length vals - 2)%nat = Some ppv
    /\ synth_value pv ppv = Some v
    /\ (12 <= a ->
        exists iv q,
          synth_kept pv ppv = Some iv
          /\ l_initial_values l' !! Z.to_nat (a - 12)
             = Some (Some (set_memptr iv (Some q)))).
Proof.
  intros Hs Hpp Ha Hat.
  destruct (synth_step_full a l Hs Hpp Ha)
    as (l' & E & Hs' & Hpp' & p & Ep & Hm & Hk & Eh & Et & Epr & Eppr
        & prev & prevprev & pc & ppc & pv & ppv & m1 & m2 & cl
        & Eprev & Eprevprev & Epc & Vpc & Eppc & Vppc & Eo & Ecl & V
        & Hlow & Hhigh).
  pose proof Hs as (_ & Hst & _ & (Hlen & _) & _).
  pose proof Hat as (_ & _ & Hc & Hprev & Hprevprev).
  destruct (Hprev prev Eprev) as [L1 C1].
  destruct (Hprevprev prevprev Eprevprev) as [L2 C2].
  assert (Hval : forall (k : nat) q c w,
             (k < length vals)%nat ->
             cell_at (l_memory l) (Z.of_nat k) q ->
             cells (l_heap l) !! q = Some c -> val c = Some w ->
             vals !! k = Some w).
  { intros k q c w Hk' Hq Ec Vc.
    destruct (lookup_lt_is_Some_2 vals k Hk') as [w' Ew].
    destruct (Hc k w' Ew) as (q' & c' & Hq' & Ec' & Vc').
    assert (q' = q)
      by exact (cell_at_unique _ _ _ _ (proj1 Hst) Hq' Hq).
    subst q'. rewrite Ew. congruence. }
  exists l', pv, ppv, (update_unicode m1).
  split; [exact E|]. split; [exact Hs'|]. split; [exact Hpp'|].
  split.
  { apply (loader_at_step l l' a vals p _ Hs Hat Ep Hm Hk); eauto. }
  split.
  { apply (Hval _ prev pc); [lia| |exact Epc|exact Vpc].
    replace (Z.of_nat (length vals - 1)) with (Z.of_nat (length vals) - 1)
      by lia. exact C1. }
  split.
  { apply (Hval _ prevprev ppc); [lia| |exact Eppc|exact Vppc].
    replace (Z.of_nat (length vals - 2)) with (Z.of_nat (length vals) - 2)
      by lia. exact C2. }
  split; [unfold synth_value; rewrite Eo; reflexivity|].
  intros H12. destruct (Hhigh H12) as (q & Eq).
  exists (update_unicode m2), q.
  split; [unfold synth_kept; rewrite Eo; reflexivity|].
  rewrite Eq. apply list_lookup_insert_eq. lia.
Qed.

Lemma synth_steps_at (len : nat) :
  forall a l vals,
    loader_safe l a -> is_Some (l_prevprev l) -> 0 <= a ->
    a + Z.of_nat len <= 18 -> loader_at l vals ->
    exists l' svals,
      synth_steps (Zseq a len) l = Ok l'
      /\ loader_safe l' (a + Z.of_nat len)
      /\ loader_at l' (vals ++ svals)
      /\ length svals = len
      /\ forall j, (j < len)%nat ->
           exists pv ppv v,
             (vals ++ svals) !! (length vals + j - 1)%nat = Some pv
             /\ (vals ++ svals) !! (length vals + j - 2)%nat = Some ppv
             /\ (vals ++ svals) !! (length vals + j)%nat = Some v
             /\ synth_value pv ppv = Some v
             /\ (12 <= a + Z.of_nat j ->
                 exists iv q,
                   synth_kept pv ppv = Some iv
                   /\ l_initial_values l' !! Z.to_nat (a + Z.of_nat j - 12)
                      = Some (Some (set_memptr iv (Some q)))).
Proof.
  induction len as [|len IH]; intros a l vals Hs Hpp Ha0 Ha Hat.
  - exists l, []. split; [reflexivity|].
    split; [rewrite Z.add_0_r; exact Hs|].
    split; [rewrite app_nil_r; exact Hat|].
    split; [reflexivity|]. intros j Hj. lia.
  - rewrite Zseq_cons. cbn [synth_steps].
    destruct (synth_step_at a l vals Hs Hpp ltac:(lia) Hat)
      as (l1 & pv & ppv & v & E1 & Hs1 & Hpp1 & Hat1 & Epv & Eppv & Ev
          & Hiv).
    rewrite E1. cbn [mbind Res_bind].
    destruct (IH (a + 1) l1 (vals ++ [v]) Hs1 Hpp1 ltac:(lia) ltac:(lia)
                Hat1)
      as (l' & svals & E & Hs' & Hat' & Hlen & Hj).
    rewrite <- app_assoc in Hat', Hj. cbn [app] in Hat', Hj.
    exists l', (v :: svals).
    split; [exact E|].
    split.
    { replace (a + Z.of_nat (S len)) with (a + 1 + Z.of_nat len) by lia.
      exact Hs'. }
    split; [exact Hat'|].
    split; [cbn [length]; lia|].
    pose proof (lookup_lt_Some _ _ _ Epv) as L1.
    pose proof (lookup_lt_Some _ _ _ Eppv) as L2.
    intros [|j] Hlt.
    + exists pv, ppv, v.
      rewrite Nat.add_0_r.
      split; [rewrite lookup_app_l by lia; exact Epv|].
      split; [rewrite lookup_app_l by lia; exact Eppv|].
      split.
      { rewrite lookup_app_r, Nat.sub_diag by lia. reflexivity. }
      split; [exact Ev|].
      rewrite Z.add_0_r. intros H12.
      destruct (Hiv H12) as (iv & q & Ek & Eiv).
      exists iv, q. split; [exact Ek|].
      destruct (synth_steps_initial_values _ _ _ E) as [_ Hkeep].
      rewrite Hkeep; [exact Eiv|].
      intros i Hi _. apply In_Zseq in Hi. lia.
    + destruct (Hj j ltac:(lia)) as (pv' & ppv' & v' & A1 & A2 & A3 & A4 & A5).
      rewrite length_app in A1, A2, A3. cbn [length] in A1, A2, A3.
      exists pv', ppv', v'.
      replace (length vals + S j - 1)%nat
        with (length vals + 1 + j - 1)%nat by lia.
      replace (length vals + S j - 2)%nat
        with (length vals + 1 + j - 2)%nat by lia.
      replace (length vals + S j)%nat
        with (length vals + 1 + j)%nat by lia.
      split; [exact A1|]. split; [exact A2|]. split; [exact A3|].
      split; [exact A4|].
      replace (a + Z.of_nat (S j)) with (a + 1 + Z.of_nat j) by lia.
      exact A5.
Qed.

(** The position counter at the end of the file is the number of the
    characters that are not blanks, modulo 564. *)
Lemma accepted_count (program : list Z) :
  forall count k,
    accepted program count = Some k ->
    k = count + Z.of_nat (length (program_chars program)).
Proof.
  induction program as [|b rest IH]; intros count k; cbn [accepted].
  - intros [= <-]. cbn. lia.
  - rewrite program_chars_cons.
    destruct (is_blank (char_of_byte b)); [exact (IH count k)|].
    destruct ((33 <=? char_of_byte b) && (char_of_byte b <? 127)
              && is_instr ((char_of_byte b + count) mod 94));
      [|discriminate].
    intros E. apply IH in E. cbn [app length]. lia.
Qed.

Lemma read_program_count (program : list Z) (l : Loader) :
  read_program program = Ok l ->
  l_pos l = Z.of_nat (length (program_chars program)) mod 564.
Proof.
  unfold read_program.
  destruct loader_init_ok as (l0 & E0 & Hl0 & Hp0 & Hpp0).
  rewrite E0. cbn [mbind Res_bind].
  assert (Hpos0 : l_pos l0 = 0 mod 564).
  { unfold loader_init in E0. cbn [memory_init to_number Z.ltb Z.compare
      or_fatal mbind Res_bind] in E0.
    destruct (update_memptr _ _ _) as [[[i m] hp]|];
      cbn [must mbind Res_bind] in E0; [|discriminate].
    injection E0 as <-. reflexivity. }
  pose proof (load_chars_accepted program l0 0 Hl0 ltac:(lia) Hpos0
                ltac:(rewrite Hp0; tauto)
                ltac:(rewrite Hpp0; split; [reflexivity | lia])) as H.
  destruct (accepted program 0) as [k|] eqn:Ea;
    [|rewrite H; discriminate].
  destruct H as (_ & l' & -> & _ & Hpos & _).
  intros [= <-]. rewrite Hpos.
  rewrite (accepted_count program 0 k Ea). reflexivity.
Qed.

(** C4, as amended.  For a program the loader accepts, with [n]
    characters that are not blanks, the position counter [pos] at the
    end of the file is [n mod 564], and the loop of synthetic steps
    starts at the index [pos mod 6], which is [n mod 6], and runs the
    body once for each index up to 17: that is [18 - pos mod 6] steps,
    18 only when [pos] is a multiple of 6.  All steps succeed.  The
    loader leaves the addresses [0 .. n + 18 - pos mod 6 - 1] populated,
    in order: the first [n] by the numbers of the characters of the
    program, and for every [j] below [18 - pos mod 6] the address
    [n + j] by the first result of crazy-op on clones of the values at
    the addresses [n + j - 1] and [n + j - 2], the last two populated
    cells; [init] ends at the address behind them.  The second result of
    the step with an index [pos mod 6 + j] from 12 to 17 is retained,
    with its cell pointer, as the initial value of the index
    [pos mod 6 + j - 12]: these are the six initial values. *)
Theorem loader_synthetic_steps (program : list Z) (l : Loader) :
  read_program program = Ok l -> is_Some (l_prevprev l) ->
  let p := Z.rem (l_pos l) 6 in
  let n := length (program_chars program) in
  0 <= p < 6
  /\ l_pos l = Z.of_nat n mod 564 /\ p = Z.of_nat n mod 6 /\ (2 <= n)%nat
  /\ load program = synth_steps (Zseq p (Z.to_nat (18 - p))) l
  /\ length (Zseq p (Z.to_nat (18 - p))) = Z.to_nat (18 - p)
  /\ exists l' vals,
       load program = Ok l'
       /\ (forall k, (k < 6)%nat ->
             exists s m2,
               synth_steps (Zseq p (Z.to_nat (12 + Z.of_nat k - p))) l
               = Ok s
               /\ synth_retained s = Ok m2
               /\ l_initial_values l' !! k = Some (Some m2))
       /\ length vals = (n + Z.to_nat (18 - p))%nat
       /\ (forall i v, vals !! i = Some v ->
             stored_at (l_memory l') (l_heap l') (Z.of_nat i) v)
       /\ (forall i c, program_chars program !! i = Some c ->
             exists v, to_number c = Some v /\ vals !! i = Some v)
       /\ (forall j, (j < Z.to_nat (18 - p))%nat ->
             exists pv ppv v,
               vals !! (n + j - 1)%nat = Some pv
               /\ vals !! (n + j - 2)%nat = Some ppv
               /\ vals !! (n + j)%nat = Some v
               /\ synth_value pv ppv = Some v
               /\ (12 <= p + Z.of_nat j ->
                   exists iv q,
                     synth_kept pv ppv = Some iv
                     /\ l_initial_values l' !! Z.to_nat (p + Z.of_nat j - 12)
                        = Some (Some (set_memptr iv (Some q)))))
       /\ head (l_init l') = 0
       /\ value_of (tail (l_init l')) = Z.of_nat (length vals).
Proof.
  intros Hr Hq p n.
  destruct (synth_steps_retained program l Hr Hq)
    as (Hp & Hload & Hlen & l' & El' & Hivs).
  fold p in Hp, Hload, Hlen, Hivs.
  destruct (read_program_at program l Hr) as (vals0 & Hs & Hat & HF).
  pose proof (Forall2_length _ _ _ HF) as Hn. fold n in Hn.
  pose proof (read_program_count program l Hr) as Hcount. fold n in Hcount.
  split; [exact Hp|]. split; [exact Hcount|].
  split.
  { unfold p. rewrite Hcount.
    rewrite Z.rem_mod_nonneg
      by (try apply Z.mod_pos_bound; lia).
    apply Z.mod_mod_divide. exists 94. reflexivity. }
  split.
  { destruct Hq as [q Eq].
    destruct Hat as (_ & _ & _ & _ & Hpp). destruct (Hpp q Eq). lia. }
  split; [exact Hload|]. split; [exact Hlen|].
  destruct (synth_steps_at (Z.to_nat (18 - p)) p l vals0
              (loader_safe_low l 0 p ltac:(lia) Hs) Hq ltac:(lia)
              ltac:(lia) Hat)
    as (l2 & svals & E2 & Hs2 & Hat2 & Hlen2 & Hj).
  assert (l2 = l') by congruence. subst l2.
  exists l', (vals0 ++ svals).
  split; [exact El'|]. split; [exact Hivs|].
  split; [rewrite length_app; lia|].
  pose proof Hs2 as (_ & Hst2 & _).
  pose proof Hat2 as (Hh2 & Hv2 & Hc2 & _).
  split.
  { intros i v Ei.
    exact (holds_vals_stored _ _ _ i v Hst2 Hc2 Ei). }
  split.
  { intros i c Ei.
    destruct (Forall2_lookup_l _ _ _ i c HF Ei) as (v & Ev & Hv).
    exists v. split; [exact Hv|].
    rewrite lookup_app_l by (apply lookup_lt_Some in Ev; exact Ev).
    exact Ev. }
  split; [|split; assumption].
  intros j Hlt. rewrite Hn. exact (Hj j Hlt).
Qed.

(** The program "b&": two characters, so the loop starts at index 2 and
    runs 16 steps, which populate the addresses 2 to 17. *)
Lemma loader_synthetic_steps_witness :
  exists l l' vals,
    read_program [98; 38] = Ok l
    /\ is_Some (l_prevprev l)
    /\ load [98; 38] = synth_steps (Zseq 2 16) l
    /\ load [98; 38] = Ok l'
    /\ length vals = 18%nat
    /\ forall i v, vals !! i = Some v ->
         stored_at (l_memory l') (l_heap l') (Z.of_nat i) v.
Proof.
  assert (H : exists l, read_program [98; 38] = Ok l
                        /\ is_Some (l_prevprev l) /\ l_pos l = 2).
  { eexists. split; [vm_compute; reflexivity|].
    split; [eexists; reflexivity | reflexivity]. }
  destruct H as (l & Hr & Hp & Hpos).
  destruct (loader_synthetic_steps _ _ Hr Hp)
    as (_ & _ & _ & _ & Hl & _ & l' & vals & El' & _ & Hlen & Hst & _).
  rewrite Hpos in Hl, Hlen.
  exists l, l', vals. auto 10.
Defined.
(** ** Equal numbers, one cell *)

(** C6.  In a state that [main] reaches, let [n1] and [n2] be equal as
    values: same head, and tails that agree once extended with the head,
    whatever their widths.  Each of them has no cell pointer yet (as
    after [to_number], [rotate_r], [opr] or the repair of the tail) or
    is a number the state keeps with its pointer: the register [c] or
    [d], an initial value, the value of a cell.  Then [update_memptr]
    resolves both to the same cell: the lookup of [n1] succeeds, and
    after it and any further growth of the memory the lookup of [n2]
    yields the cell found for [n1].  A child reached by a trit equal to
    the head shares the cell of its parent in the memory. *)
Theorem equal_numbers_same_cell (cfg : Config) (k : nat)
    (program input : list Z) (s : Machine) (n1 n2 : Number) :
  run cfg k program input = Ok s ->
  is_trit (head n1) -> Forall is_trit (tail n1) ->
  Forall is_trit (tail n2) ->
  memptr n1 = None \/ kept s n1 -> memptr n2 = None \/ kept s n2 ->
  value_equal n1 n2 ->
  (forall i root, memory s !! i = Some root ->
                  shares_head_cells (Z.of_nat i) root)
  /\ exists r m1 hp1,
       update_memptr n1 (memory s) (heap s)
       = Some (set_memptr n1 (Some r), m1, hp1)
       /\ memory_ok m1
       /\ forall m' hp',
            memory_ok m' -> memory_extends m1 m' ->
            exists m2 hp2,
              update_memptr n2 m' hp' = Some (set_memptr n2 (Some r), m2, hp2).
Proof.
  intros Hrun Hh1 Hl1 Hl2 K1 K2 Hv.
  pose proof (safe_ok_inv _ _ _ (run_safe cfg k program input) Hrun) as Hok.
  pose proof Hok as (Hst & _).
  assert (Hh2 : is_trit (head n2)) by (destruct Hv as [<- _]; exact Hh1).
  assert (C1 : memptr_ok (cells (heap s)) n1 /\ cached (memory s) n1).
  { destruct K1 as [E | K].
    - split; [unfold memptr_ok; rewrite E; exact I | apply cached_none, E].
    - apply (kept_cached s n1 Hok K). }
  assert (C2 : cached (memory s) n2).
  { destruct K2 as [E | K]; [apply cached_none, E|].
    apply (kept_cached s n2 Hok K). }
  destruct C1 as [Hmo1 Hc1].
  split; [apply Hst|].
  destruct (update_memptr_safe n1 (memory s) (heap s) Hst Hh1 Hl1 Hmo1 Hc1)
    as (r & m1 & hp1 & E1 & _ & Hst1 & Hle1 & Hcell1 & _).
  exists r, m1, hp1. split; [exact E1|]. split; [apply Hst1|].
  intros m' hp' Hok' Hext'.
  destruct (memptr n2) as [p2|] eqn:Ep2.
  - assert (Er : p2 = r).
    { apply (cell_of_unique m1 n2 p2 r (proj1 Hst1)).
      - apply (cell_of_extends _ _ _ _ (proj2 Hle1)), C2, Ep2.
      - apply (cell_of_value m1 n1 n2 r Hv Hcell1). }
    subst p2. exists m', hp'. unfold update_memptr. rewrite Ep2.
    destruct n2 as [h t mp u]. cbn [memptr] in Ep2. subst mp. reflexivity.
  - destruct (update_memptr_walk n2 m' hp' Hok' Hh2 Hl2 Ep2)
      as (r2 & m2 & hp2 & E2 & Hok2 & Hext2 & root & nd & Hr & Hp & Ec).
    assert (Er : r2 = r).
    { apply (cell_of_unique m2 n2 r2 r Hok2).
      - rewrite <- Ec. apply (cell_of_node _ _ _ _ Hh2 Hl2 Hr Hp).
      - apply (cell_of_value m2 n1 n2 r Hv).
        apply (cell_of_extends _ _ _ _ Hext2).
        apply (cell_of_extends _ _ _ _ Hext' Hcell1). }
    rewrite Er in E2. exists m2, hp2. exact E2.
Qed.

(** After one pass of the program "u&", the register [c], at the
    address 1 with a tail of one trit and its pointer, and the number 1
    written with three trits and no pointer. *)
Lemma equal_numbers_same_cell_witness :
  exists s r m1 hp1 m2 hp2,
    run example_config 1 [117; 38] [10] = Ok s
    /\ memptr (reg_c s) = Some r
    /\ update_memptr (reg_c s) (memory s) (heap s)
       = Some (set_memptr (reg_c s) (Some r), m1, hp1)
    /\ update_memptr (mkNumber 0 [1; 0; 0] None 1) m1 hp1
       = Some (mkNumber 0 [1; 0; 0] (Some r) 1, m2, hp2).
Proof.
  assert (R : exists s p,
             run example_config 1 [117; 38] [10] = Ok s
             /\ head (reg_c s) = 0 /\ tail (reg_c s) = [1]
             /\ memptr (reg_c s) = Some p)
    by (do 2 eexists; split; [vm_compute; reflexivity|];
        split; [vm_compute; reflexivity|];
        split; vm_compute; reflexivity).
  destruct R as (s & p & Hr & Eh & Et & Ep).
  destruct (equal_numbers_same_cell example_config 1 [117; 38] [10] s
              (reg_c s) (mkNumber 0 [1; 0; 0] None 1) Hr)
    as (_ & r & m1 & hp1 & E1 & Hok1 & H2).
  - rewrite Eh. unfold is_trit. lia.
  - rewrite Et. repeat constructor; unfold is_trit; lia.
  - repeat constructor; unfold is_trit; lia.
  - right. left. reflexivity.
  - left. reflexivity.
  - split; [exact Eh|]. intros i. unfold trit_at. rewrite Eh, Et. cbn.
    do 3 (destruct i as [|i]; [reflexivity|]). destruct i; reflexivity.
  - destruct (H2 m1 hp1 Hok1 (memory_extends_refl m1)) as (m2 & hp2 & E2).
    exists s, r, m1, hp1, m2, hp2. split; [exact Hr|].
    split; [|split; [exact E1 | exact E2]].
    unfold update_memptr in E1. rewrite Ep in E1.
    injection E1 as E1 _ _. apply (f_equal memptr) in E1.
    cbn [set_memptr memptr] in E1. congruence.
Defined.
(** ** The first pass of the loop *)

(** X19. The first pass of the loop.  When [main] enters its loop for a
    program whose first character that is not a blank is [c], the
    position counter is 0, the step counter 1, nothing is written yet
    and nothing of the input is read; [c] is in 33 .. 126 and [c % 94]
    is one of the eight instruction codes.  The registers [c] and [d]
    are the number 0 with the pointer to the cell of the address 0, the
    cell that [update_memptr] finds for [to_number(0)], and this cell
    holds [to_number(c)].  The fetch yields [c] and changes nothing, and
    the pass carries out the instruction with the code [c % 94] and then
    what follows the [switch].  The pass ends the run with [hlt] exactly
    when [c % 94] is 81.  When it completes, the step counter is 2;
    unless the code is 4 ([jmp]) the position counter is 1 and [c] is at
    the address 1 (its [k] low trits are those of 1 for every [k]);
    unless the code is 40 ([movd]) [d] is at the address 1 likewise; and
    for the codes 5, 23 and 68 ([out], [in], [nop]), which leave the
    memory as it is, the cell of the address 0 then holds the result of
    [xlat2]: the code point that the table gives for [c], with an empty
    tail. *)
Theorem first_instruction (cfg : Config) (program input : list Z)
    (s : Machine) (c : Z) :
  boot cfg program input = Ok s ->
  program_chars program !! 0%nat = Some c ->
  pos s = 0 /\ step s = 1 /\ stdin s = input /\ stdout s = []
  /\ 33 <= c <= 126 /\ is_instr (Z.rem c 94) = true
  /\ (exists z v p cl m' hp',
        to_number 0 = Some z /\ to_number c = Some v
        /\ update_memptr z (memory s) (heap s)
           = Some (set_memptr z (Some p), m', hp')
        /\ reg_c s = set_memptr z (Some p)
        /\ reg_d s = set_memptr z (Some p)
        /\ cells (heap s) !! p = Some cl /\ val cl = Some v
        /\ forall s',
             exec_step cfg s = Ok s' ->
             Z.rem c 94 = 5 \/ Z.rem c 94 = 23 \/ Z.rem c 94 = 68 ->
             exists cl',
               cells (heap s') !! p = Some cl'
               /\ val cl' = Some (mkNumber T0 [] None (xlat2_code c)))
  /\ fetch s = Ok (c, s)
  /\ exec_step cfg s
     = (s1 ← exec_instr cfg (Z.rem c 94) s; finish_step s1)
  /\ (exec_step cfg s = Halt <-> Z.rem c 94 = 81)
  /\ forall s',
       exec_step cfg s = Ok s' ->
       step s' = 2
       /\ (Z.rem c 94 <> 4 ->
           pos s' = 1
           /\ forall k, low_value (reg_c s') k = 1 mod 3 ^ Z.of_nat k)
       /\ (Z.rem c 94 <> 40 ->
           forall k, low_value (reg_d s') k = 1 mod 3 ^ Z.of_nat k).
Proof.
  intros E Ei.
  destruct (boot_state cfg program input s E)
    as (Hpos & Hstep & Hin & Hout & r & Ec & Ed & Hr).
  pose proof (safe_ok_inv _ _ _ (boot_safe cfg program input) E) as Hok.
  pose proof Hok as (Hst & _).
  destruct (program_loaded_cells cfg program input s E 0%nat c Ei)
    as (Hrange & n & v & p & cl & En & Ev & Hcell & Ecl & V).
  injection En as <-.
  set (z := mkNumber T0 (trits_of 0) None 0) in *.
  assert (Erp : r = p)
    by (apply (cell_of_unique (memory s) _ r p (proj1 Hst) Hr Hcell)).
  subst r.
  assert (Hi : is_instr (Z.rem c 94) = true).
  { assert (A : exists k, accepted program 0 = Some k).
    { unfold boot in E.
      cbn [to_number Z.ltb Z.compare or_fatal mbind Res_bind] in E.
      destruct (load program) as [l| | |] eqn:El;
        cbn [mbind Res_bind] in E; try discriminate.
      exact (load_ok_accepted program l El). }
    destruct A as (k & A).
    rewrite Z.rem_mod_nonneg by lia.
    exact (proj2 (accepted_first program k c A Ei)). }
  assert (Hu : unicode v = c).
  { unfold to_number in Ev. destruct (c <? 0) eqn:X; [discriminate|].
    injection Ev as <-. cbn [unicode].
    replace (c <? 1114112) with true by lia. reflexivity. }
  assert (Hv : v = mkNumber T0 (trits_of c) None c).
  { unfold to_number in Ev. destruct (c <? 0) eqn:X; [discriminate|].
    injection Ev as <-.
    replace (c <? 1114112) with true by lia. reflexivity. }
  assert (Ep : memptr (reg_c s) = Some p) by (rewrite Ec; reflexivity).
  assert (Ef : fetch s = Ok (c, s)).
  { unfold fetch, materialize, cell_val. rewrite Ep.
    cbn [must mbind Res_bind]. rewrite Ecl. cbn [must mbind Res_bind].
    rewrite V. cbn [mbind Res_bind].
    rewrite update_unicode_cached by lia.
    rewrite (store_val_same _ _ _ _ Ecl V). cbn [mbind Res_bind].
    unfold with_heap. rewrite with_mem_same, Hu. reflexivity. }
  assert (Hld : loaded (heap s) (reg_c s)) by (exists p, cl, v; auto).
  assert (Ex : exec_step cfg s
               = (s1 ← exec_instr cfg (Z.rem c 94) s; finish_step s1)).
  { unfold exec_step. rewrite Ef. cbn [mbind Res_bind].
    replace ((c <? 33) || (c >? 126)) with false by lia.
    rewrite Hpos, Z.add_0_r. reflexivity. }
  assert (Hz0 : forall k, low_value (set_memptr z (Some p)) k = 0).
  { intros k. unfold low_value. apply value_of_zeros.
    intros [|[|i]]; reflexivity. }
  assert (Hcv : cell_val s (reg_c s) = Ok (p, Some v)).
  { unfold cell_val. rewrite Ep. cbn [must mbind Res_bind].
    rewrite Ecl. cbn [must mbind Res_bind]. rewrite V. reflexivity. }
  split; [exact Hpos|]. split; [exact Hstep|]. split; [exact Hin|].
  split; [exact Hout|]. split; [exact Hrange|]. split; [exact Hi|].
  split.
  { destruct (to_number_valid 0 z eq_refl) as [(Hzh & Hzl & _) _].
    destruct (update_memptr_safe z (memory s) (heap s) Hst Hzh Hzl I
                (cached_none _ z eq_refl))
      as (r & m' & hp' & Eu & _ & Hst' & Hle & Hr' & _).
    assert (Erp : r = p).
    { apply (cell_of_unique m' z r p (proj1 Hst') Hr').
      apply (cell_of_extends _ _ _ _ (proj2 Hle) Hcell). }
    subst r. exists z, v, p, cl, m', hp'.
    split; [reflexivity|]. split; [exact Ev|]. split; [exact Eu|].
    split; [exact Ec|]. split; [exact Ed|]. split; [exact Ecl|].
    split; [exact V|].
    intros s' Hs' Hcode. rewrite Ex in Hs'.
    assert (Hs2 : exists s2,
               exec_instr cfg (Z.rem c 94) s = Ok s2
               /\ reg_c s2 = reg_c s /\ heap s2 = heap s).
    { destruct Hcode as [Hcode | [Hcode | Hcode]];
        rewrite Hcode in Hs' |- *.
      - change (exec_instr cfg 5 s) with (exec_out s) in *.
        destruct (exec_out s) as [s2| | |] eqn:Eo;
          cbn [mbind Res_bind] in Hs'; try discriminate.
        destruct (exec_out_env _ _ Eo)
          as (_ & _ & _ & _ & H1 & _ & _ & _ & H2 & _).
        exists s2. auto.
      - change (exec_instr cfg 23 s) with (exec_in s) in *.
        destruct (exec_in s) as [s2| | |] eqn:Eo;
          cbn [mbind Res_bind] in Hs'; try discriminate.
        destruct (exec_in_env _ _ Eo)
          as (_ & _ & _ & _ & H1 & _ & _ & _ & H2 & _).
        exists s2. auto.
      - exists s. auto. }
    destruct Hs2 as (s2 & E2 & Hc2 & Hh2).
    rewrite E2 in Hs'. cbn [mbind Res_bind] in Hs'.
    pose proof (exec_instr_safe cfg (Z.rem c 94) s Hok Hld) as Hsafe.
    rewrite E2 in Hsafe. destruct Hsafe as [Hok2 _].
    assert (Hcv2 : cell_val s2 (reg_c s2) = Ok (p, Some v)).
    { unfold cell_val. rewrite Hc2, Hh2. exact Hcv. }
    destruct (finish_step_stores s2 p v Hok2 Hcv2 ltac:(lia))
      as (s3 & cl3 & E3 & Ecl3 & V3).
    rewrite E3 in Hs'. injection Hs' as <-.
    exists cl3. split; [exact Ecl3|].
    rewrite V3, Hv. reflexivity. }
  split; [exact Ef|]. split; [exact Ex|]. split.
  { rewrite Ex. split.
    - intros H.
      destruct (exec_instr cfg (Z.rem c 94) s) as [s2| | |] eqn:E2;
        cbn [mbind Res_bind] in H; try discriminate.
      + pose proof (exec_instr_safe cfg (Z.rem c 94) s Hok Hld) as Hsafe.
        rewrite E2 in Hsafe. destruct Hsafe as [Hok2 Hld2].
        exfalso. exact (finish_step_not_halt s2 Hok2 Hld2 H).
      + exact (exec_instr_halt cfg _ s Hok Hld E2).
    - intros ->. reflexivity. }
  intros s' Hs'. rewrite Ex in Hs'.
  destruct (exec_instr cfg (Z.rem c 94) s) as [s2| | |] eqn:E2;
    cbn [mbind Res_bind] in Hs'; try discriminate.
  pose proof (exec_instr_safe cfg (Z.rem c 94) s Hok Hld) as Hsafe.
  rewrite E2 in Hsafe. destruct Hsafe as [Hok2 _].
  destruct (exec_instr_regs _ _ _ _ E2) as (Hs2 & Hc2 & Hd2).
  pose proof Hok2 as (_ & _ & ((Hch & Hcl & Hcne) & _)
                      & ((Hdh & Hdl & Hdne) & _) & _).
  destruct (finish_step_regs _ _ Hs' Hcne Hdne)
    as (Hs & C1 & C2 & D1 & D2).
  destruct (finish_step_env _ _ Hs') as (_ & _ & _ & Hp).
  split; [rewrite Hs, Hs2, Hstep; reflexivity|]. split.
  - intros Hne. destruct (Hc2 Hne) as [Ec2 Ep2].
    split; [rewrite Hp, Ep2, Hpos; reflexivity|].
    intros k.
    rewrite (low_value_trits (reg_c s2) (reg_c s') k Hch Hcl C1 C2).
    rewrite Ec2, Ec, Hz0. reflexivity.
  - intros Hne. specialize (Hd2 Hne).
    intros k.
    rewrite (low_value_trits (reg_d s2) (reg_d s') k Hdh Hdl D1 D2).
    rewrite Hd2, Ed, Hz0. reflexivity.
Qed.

Lemma first_instruction_witness :
  exists s,
    boot example_config [117; 38] [10] = Ok s
    /\ fetch s = Ok (117, s)
    /\ is_instr (Z.rem 117 94) = true
    /\ forall s', exec_step example_config s = Ok s' -> step s' = 2.
Proof.
  assert (R : exists s, boot example_config [117; 38] [10] = Ok s)
    by (eexists; vm_compute; reflexivity).
  destruct R as (s & Hs).
  destruct (first_instruction example_config [117; 38] [10] s 117 Hs
              eq_refl)
    as (_ & _ & _ & _ & _ & Hi & _ & Hf & _ & _ & Hn).
  exists s. split; [exact Hs|]. split; [exact Hf|]. split; [exact Hi|].
  intros s' H. exact (proj1 (Hn s' H)).
Defined.
